(** * playchess: board, move generator, make/unmake and FEN codec

    A shallow embedding of [Board] (board.cpp) and a verification of
    the properties its specification states about it.

    Conventions of the embedding.
    - Unsigned machine integers are [Z]; a wrap-around is written out
      where the source can reach one.
    - [std::array] is a [list] read and written by index.  A subscript
      outside the array and a failed [ASSERT] have no defined
      behaviour in the release build (the macro expands to
      [__builtin_unreachable]) and stop the debug build: both are the
      result [None] of the error monad below.
    - An exception is [piece_at], the unchecked read of
      [m_pieces] by the generator and the attack test: a cell outside
      the array reads as empty.  The two differ only for a square more
      than a knight's jump off the playing squares, which takes a
      piece on a border cell or a missing king; a board built from a
      FEN string with both kings and changed by generated moves has
      neither.
    - [validate_board] is compiled only under [DEBUG]; the operations
      follow the release build, where its body is empty.
    - The headers piece.hpp, square.hpp, move.hpp, castle_state.hpp
      and hash.hpp are not part of the sources at hand.  Their
      constants and helpers are modelled from the specification and
      marked as such; the hash tables stay abstract. *)

From Stdlib Require Import ZArith List Bool Lia Ascii String.
From stdpp Require Import base list gmap.

Local Open Scope Z_scope.

(** ** The error monad *)

Notation "'do' x <- m ; k" :=
  (match m with Some x => k | None => None end)
  (at level 10, x name, m at level 100, k at level 200,
   format "'[v' 'do'  x  <-  m ; '/' k ']'").

Notation "'ASSERT' c ; k" :=
  (if c then k else None)
  (at level 10, c at level 100, k at level 200,
   format "'[v' 'ASSERT'  c ; '/' k ']'").

(** ** Pieces (piece.hpp) *)

(** Modelled from the spec: piece.hpp is missing.  Sixteen piece
    identifiers; the low three bits give the species, bit 3 gives the
    colour (white = 0, black = 1), so [piece ^ 8] flips the side;
    [INVALID_PIECE] marks an empty or sentinel cell. *)
Definition INVALID_PIECE : Z := 0.
Definition WHITE_PAWN : Z := 1.
Definition WHITE_KNIGHT : Z := 2.
Definition WHITE_BISHOP : Z := 3.
Definition WHITE_ROOK : Z := 4.
Definition WHITE_QUEEN : Z := 5.
Definition WHITE_KING : Z := 6.
Definition BLACK_PAWN : Z := 9.
Definition BLACK_KNIGHT : Z := 10.
Definition BLACK_BISHOP : Z := 11.
Definition BLACK_ROOK : Z := 12.
Definition BLACK_QUEEN : Z := 13.
Definition BLACK_KING : Z := 14.

Definition WHITE : bool := false.
Definition BLACK : bool := true.

Definition MAX_PIECE_FREQ : nat := 10.

(** Modelled from the spec: the species of a piece, its low bits. *)
Definition species (p : Z) : Z := Z.land p 7.

(** Modelled from the spec: the twelve real pieces. *)
Definition valid_piece (p : Z) : bool :=
  (0 <=? p) && (p <? 16) && (1 <=? species p) && (species p <=? 6).

(** Modelled from the spec: bit 3 identifies the colour. *)
Definition get_side (p : Z) : bool := Z.testbit p 3.

Definition is_pawn (p : Z) : bool := valid_piece p && (species p =? 1).
Definition is_king (p : Z) : bool := valid_piece p && (species p =? 6).
Definition is_diag (p : Z) : bool :=
  valid_piece p && ((species p =? 3) || (species p =? 5)).
Definition is_ortho (p : Z) : bool :=
  valid_piece p && ((species p =? 4) || (species p =? 5)).

(** Modelled from the spec: the pieces whose departure from a home
    square costs a castling right, kings and rooks. *)
Definition is_castle (p : Z) : bool :=
  valid_piece p && ((species p =? 4) || (species p =? 6)).

Definition opposite_colours (a b : Z) : bool :=
  negb (Bool.eqb (get_side a) (get_side b)).

(** The conversion [bool -> piece_t] of the C++ call
    [get_side(m_pieces[sq] == side)]. *)
Definition piece_of_bool (c : bool) : Z := if c then 1 else 0.

(** ** Squares (square.hpp) *)

(** Modelled from the spec: the 10x12 mailbox, [A1 = 21], one rank up
    is [+10], one file right is [+1]. *)
Definition INVALID_SQUARE : Z := 0.

Definition valid_square (sq : Z) : bool :=
  (21 <=? sq) && (sq <=? 98) && (1 <=? sq mod 10) && (sq mod 10 <=? 8).

Definition get_square_row (sq : Z) : Z := sq / 10 - 2.
Definition get_square_120_rc (row col : Z) : Z := 21 + 10 * row + col.

Definition RANK_1 : Z := 0.
Definition RANK_2 : Z := 1.
Definition RANK_3 : Z := 2.
Definition RANK_6 : Z := 5.
Definition RANK_7 : Z := 6.
Definition RANK_8 : Z := 7.

Definition A1 : Z := 21.
Definition B1 : Z := 22.
Definition C1 : Z := 23.
Definition D1 : Z := 24.
Definition E1 : Z := 25.
Definition F1 : Z := 26.
Definition G1 : Z := 27.
Definition H1 : Z := 28.
Definition A8 : Z := 91.
Definition B8 : Z := 92.
Definition C8 : Z := 93.
Definition D8 : Z := 94.
Definition E8 : Z := 95.
Definition F8 : Z := 96.
Definition G8 : Z := 97.
Definition H8 : Z := 98.

(** ** Castling rights (castle_state.hpp) *)

(** Modelled from the spec: a 4-bit mask over white-short, white-long,
    black-short, black-long. *)
Definition WHITE_SHORT : Z := 1.
Definition WHITE_LONG : Z := 2.
Definition BLACK_SHORT : Z := 4.
Definition BLACK_LONG : Z := 8.

Definition has_right (state right : Z) : bool :=
  negb (Z.land state right =? 0).

(** ** Moves (move.hpp) *)

Inductive MoveFlag : Set :=
| QUIET_MOVE
| DOUBLE_PAWN_MOVE
| CAPTURE_MOVE
| EN_PASSANT_MOVE
| SHORT_CASTLE_MOVE
| LONG_CASTLE_MOVE
| PROMOTE_MOVE
| PROMOTE_CAPTURE_MOVE.

(** Modelled from the spec: move.hpp is missing.  A move packs six
    fields into one integer and the packing round-trips, so it is a
    record of the six fields. *)
Record move_t : Set := Move {
  move_from : Z;
  move_to : Z;
  moved_piece : Z;
  captured_piece : Z;
  promoted_piece : Z;
  move_flag : MoveFlag
}.

Definition quiet_move (from to moved : Z) : move_t :=
  Move from to moved INVALID_PIECE INVALID_PIECE QUIET_MOVE.
Definition double_move (from to moved : Z) : move_t :=
  Move from to moved INVALID_PIECE INVALID_PIECE DOUBLE_PAWN_MOVE.
Definition capture_move (from to moved captured : Z) : move_t :=
  Move from to moved captured INVALID_PIECE CAPTURE_MOVE.
(** The pawn taken en passant is the pawn of the other colour. *)
Definition en_passant_move (from to moved : Z) : move_t :=
  Move from to moved (Z.lxor moved 8) INVALID_PIECE EN_PASSANT_MOVE.
Definition castle_move (from to moved : Z) (flag : MoveFlag) : move_t :=
  Move from to moved INVALID_PIECE INVALID_PIECE flag.
Definition promote_move (from to moved promoted : Z) : move_t :=
  Move from to moved INVALID_PIECE promoted PROMOTE_MOVE.
Definition promote_capture_move (from to moved promoted captured : Z)
  : move_t :=
  Move from to moved captured promoted PROMOTE_CAPTURE_MOVE.

Definition move_promoted (m : move_t) : bool :=
  match move_flag m with
  | PROMOTE_MOVE | PROMOTE_CAPTURE_MOVE => true
  | _ => false
  end.
Definition move_captured (m : move_t) : bool :=
  match move_flag m with
  | CAPTURE_MOVE | EN_PASSANT_MOVE | PROMOTE_CAPTURE_MOVE => true
  | _ => false
  end.
Definition move_castled (m : move_t) : bool :=
  match move_flag m with
  | SHORT_CASTLE_MOVE | LONG_CASTLE_MOVE => true
  | _ => false
  end.

Definition flag_eqb (a b : MoveFlag) : bool :=
  match a, b with
  | QUIET_MOVE, QUIET_MOVE
  | DOUBLE_PAWN_MOVE, DOUBLE_PAWN_MOVE
  | CAPTURE_MOVE, CAPTURE_MOVE
  | EN_PASSANT_MOVE, EN_PASSANT_MOVE
  | SHORT_CASTLE_MOVE, SHORT_CASTLE_MOVE
  | LONG_CASTLE_MOVE, LONG_CASTLE_MOVE
  | PROMOTE_MOVE, PROMOTE_MOVE
  | PROMOTE_CAPTURE_MOVE, PROMOTE_CAPTURE_MOVE => true
  | _, _ => false
  end.

(** ** Hash tables (hash.hpp) *)

(** The Zobrist constants are sampled at start-up; they stay abstract. *)
Record hash_tables : Type := HashTables {
  piece_hash : Z -> Z -> Z;
  castle_hash : Z -> Z;
  enpas_hash : Z -> Z;
  side_hash : Z
}.

(** ** The board *)

Record history_t : Type := History {
  h_move : move_t;
  h_castle_state : Z;
  h_en_passant : Z;
  h_fifty_move : Z;
  h_hash : Z
}.

(** [m_history] is a stack: its head is the C++ vector's [back()].
    [m_move_cache] is the [mutable] map from hash to move list. *)
Record Board : Type := MkBoard {
  m_pieces : list Z;
  m_positions : list (list Z);
  m_num_pieces : list nat;
  m_next_move_colour : bool;
  m_castle_state : Z;
  m_en_passant : Z;
  m_fifty_move : Z;
  m_half_move : Z;
  m_hash : Z;
  m_history : list history_t;
  m_move_cache : gmap Z (list move_t)
}.

Definition with_pieces (b : Board) (v : list Z) : Board :=
  MkBoard v (m_positions b) (m_num_pieces b) (m_next_move_colour b)
    (m_castle_state b) (m_en_passant b) (m_fifty_move b) (m_half_move b)
    (m_hash b) (m_history b) (m_move_cache b).
Definition with_positions (b : Board) (v : list (list Z)) : Board :=
  MkBoard (m_pieces b) v (m_num_pieces b) (m_next_move_colour b)
    (m_castle_state b) (m_en_passant b) (m_fifty_move b) (m_half_move b)
    (m_hash b) (m_history b) (m_move_cache b).
Definition with_num_pieces (b : Board) (v : list nat) : Board :=
  MkBoard (m_pieces b) (m_positions b) v (m_next_move_colour b)
    (m_castle_state b) (m_en_passant b) (m_fifty_move b) (m_half_move b)
    (m_hash b) (m_history b) (m_move_cache b).
Definition with_colour (b : Board) (v : bool) : Board :=
  MkBoard (m_pieces b) (m_positions b) (m_num_pieces b) v
    (m_castle_state b) (m_en_passant b) (m_fifty_move b) (m_half_move b)
    (m_hash b) (m_history b) (m_move_cache b).
Definition with_castle_state (b : Board) (v : Z) : Board :=
  MkBoard (m_pieces b) (m_positions b) (m_num_pieces b)
    (m_next_move_colour b) v (m_en_passant b) (m_fifty_move b)
    (m_half_move b) (m_hash b) (m_history b) (m_move_cache b).
Definition with_en_passant (b : Board) (v : Z) : Board :=
  MkBoard (m_pieces b) (m_positions b) (m_num_pieces b)
    (m_next_move_colour b) (m_castle_state b) v (m_fifty_move b)
    (m_half_move b) (m_hash b) (m_history b) (m_move_cache b).
Definition with_fifty_move (b : Board) (v : Z) : Board :=
  MkBoard (m_pieces b) (m_positions b) (m_num_pieces b)
    (m_next_move_colour b) (m_castle_state b) (m_en_passant b) v
    (m_half_move b) (m_hash b) (m_history b) (m_move_cache b).
Definition with_half_move (b : Board) (v : Z) : Board :=
  MkBoard (m_pieces b) (m_positions b) (m_num_pieces b)
    (m_next_move_colour b) (m_castle_state b) (m_en_passant b)
    (m_fifty_move b) v (m_hash b) (m_history b) (m_move_cache b).
Definition with_hash (b : Board) (v : Z) : Board :=
  MkBoard (m_pieces b) (m_positions b) (m_num_pieces b)
    (m_next_move_colour b) (m_castle_state b) (m_en_passant b)
    (m_fifty_move b) (m_half_move b) v (m_history b) (m_move_cache b).
Definition with_history (b : Board) (v : list history_t) : Board :=
  MkBoard (m_pieces b) (m_positions b) (m_num_pieces b)
    (m_next_move_colour b) (m_castle_state b) (m_en_passant b)
    (m_fifty_move b) (m_half_move b) (m_hash b) v (m_move_cache b).
Definition with_move_cache (b : Board) (v : gmap Z (list move_t)) : Board :=
  MkBoard (m_pieces b) (m_positions b) (m_num_pieces b)
    (m_next_move_colour b) (m_castle_state b) (m_en_passant b)
    (m_fifty_move b) (m_half_move b) (m_hash b) (m_history b) v.

(** [m_pieces[sq]] where the source reads without a check; the squares
    it reads lie inside the array whenever [sq] comes from a playing
    square, and a cell outside reads as empty. *)
Definition piece_at (b : Board) (sq : Z) : Z :=
  if sq <? 0 then INVALID_PIECE
  else nth (Z.to_nat sq) (m_pieces b) INVALID_PIECE.

(** A checked subscript: [None] outside the array. *)
Definition sub {A : Type} (l : list A) (i : Z) : option A :=
  if i <? 0 then None else l !! Z.to_nat i.

(** [m_positions[piece][0]], the square of a king. *)
Definition position0 (b : Board) (piece : Z) : Z :=
  nth 0 (nth (Z.to_nat piece) (m_positions b) []) INVALID_SQUARE.

(** [std::find] in a range: the index of the first occurrence. *)
Fixpoint find_index (l : list Z) (x : Z) : option nat :=
  match l with
  | [] => None
  | y :: l' =>
      if y =? x then Some 0%nat
      else match find_index l' x with
           | Some i => Some (S i)
           | None => None
           end
  end.

(** [std::swap] of two cells of an array. *)
Definition swap_cells (l : list Z) (i j : nat) : list Z :=
  match l !! i, l !! j with
  | Some x, Some y => <[j := x]> (<[i := y]> l)
  | _, _ => l
  end.

Section Operations.

Context (T : hash_tables).

(** ** Primitive updates (board.cpp, lines 580-649) *)

Definition remove_piece (b : Board) (sq : Z) : option Board :=
  do piece <- sub (m_pieces b) sq;
  ASSERT valid_piece piece;
  do piece_list <- sub (m_positions b) piece;
  do num <- sub (m_num_pieces b) piece;
  do this_idx <- find_index (take num piece_list) sq;
  Some (MkBoard
    (<[Z.to_nat sq := INVALID_PIECE]> (m_pieces b))
    (<[Z.to_nat piece := swap_cells piece_list this_idx (num - 1)]>
       (m_positions b))
    (<[Z.to_nat piece := (num - 1)%nat]> (m_num_pieces b))
    (m_next_move_colour b) (m_castle_state b) (m_en_passant b)
    (m_fifty_move b) (m_half_move b)
    (Z.lxor (m_hash b) (piece_hash T sq piece))
    (m_history b) (m_move_cache b)).

Definition add_piece (b : Board) (sq piece : Z) : option Board :=
  ASSERT valid_piece piece;
  do old <- sub (m_pieces b) sq;
  ASSERT old =? INVALID_PIECE;
  do piece_list <- sub (m_positions b) piece;
  do num <- sub (m_num_pieces b) piece;
  ASSERT (num <? length piece_list)%nat;
  Some (MkBoard
    (<[Z.to_nat sq := piece]> (m_pieces b))
    (<[Z.to_nat piece := <[num := sq]> piece_list]> (m_positions b))
    (<[Z.to_nat piece := S num]> (m_num_pieces b))
    (m_next_move_colour b) (m_castle_state b) (m_en_passant b)
    (m_fifty_move b) (m_half_move b)
    (Z.lxor (m_hash b) (piece_hash T sq piece))
    (m_history b) (m_move_cache b)).

Definition set_castle_state (b : Board) (state : Z) : Board :=
  with_castle_state
    (with_hash b
       (Z.lxor (m_hash b)
          (Z.lxor (castle_hash T (m_castle_state b)) (castle_hash T state))))
    state.

Definition set_en_passant (b : Board) (sq : Z) : Board :=
  with_en_passant
    (with_hash b
       (Z.lxor (m_hash b)
          (Z.lxor (enpas_hash T (m_en_passant b)) (enpas_hash T sq))))
    sq.

Definition move_piece (b : Board) (from to : Z) : option Board :=
  do old <- sub (m_pieces b) to;
  ASSERT old =? INVALID_PIECE;
  do piece <- sub (m_pieces b) from;
  do piece_list <- sub (m_positions b) piece;
  do num <- sub (m_num_pieces b) piece;
  do this_idx <- find_index (take num piece_list) from;
  Some (MkBoard
    (<[Z.to_nat to := piece]>
       (<[Z.to_nat from := INVALID_PIECE]> (m_pieces b)))
    (<[Z.to_nat piece := <[this_idx := to]> piece_list]> (m_positions b))
    (m_num_pieces b)
    (m_next_move_colour b) (m_castle_state b) (m_en_passant b)
    (m_fifty_move b) (m_half_move b)
    (Z.lxor (m_hash b)
       (Z.lxor (piece_hash T from piece) (piece_hash T to piece)))
    (m_history b) (m_move_cache b)).

Definition strip (cond : bool) (right state : Z) : Z :=
  if cond then Z.land state (Z.lnot right) else state.

Definition update_castling (b : Board) (sq moved : Z) : Board :=
  if negb (is_castle moved) then b
  else
    let h1 := Z.lxor (m_hash b) (castle_hash T (m_castle_state b)) in
    let s1 := strip ((sq =? E1) || (sq =? A1)) WHITE_LONG (m_castle_state b) in
    let s2 := strip ((sq =? E1) || (sq =? H1)) WHITE_SHORT s1 in
    let s3 := strip ((sq =? E8) || (sq =? A8)) BLACK_LONG s2 in
    let s4 := strip ((sq =? E8) || (sq =? H8)) BLACK_SHORT s3 in
    with_castle_state (with_hash b (Z.lxor h1 (castle_hash T s4))) s4.

Definition switch_colours (b : Board) : Board :=
  with_colour
    (with_hash b (Z.lxor (m_hash b) (side_hash T)))
    (xorb (m_next_move_colour b) true).

(** ** Full hash recomputation (lines 256-274) *)

Definition squares_120 : list Z := map Z.of_nat (seq 0 120).

(** The loop [res ^= piece_hash[sq][piece]] over a range of cells. *)
Definition cells_xor (b : Board) (l : list Z) (acc : Z) : Z :=
  fold_left (fun res sq => Z.lxor res (piece_hash T sq (piece_at b sq)))
    l acc.

Definition compute_hash (b : Board) : Z :=
  let res := cells_xor b squares_120 0 in
  let res := Z.lxor res (castle_hash T (m_castle_state b)) in
  let res := Z.lxor res (enpas_hash T (m_en_passant b)) in
  Z.lxor res (if m_next_move_colour b then side_hash T else 0).

(** ** Attack detection (lines 309-364) *)

Definition diagonal_offsets : list Z := [-11; -9; 9; 11].
Definition orthogonal_offsets : list Z := [-10; -1; 1; 10].
Definition knight_offsets : list Z := [-21; -19; -12; -8; 8; 12; 19; 21].
Definition queen_offsets : list Z := [-11; -10; -9; -1; 1; 9; 10; 11].

(** A ray leaves the 8x8 interior after at most seven steps. *)
Definition RAY_FUEL : nat := 8.

(** [while (valid_square(cur) && m_pieces[cur] == INVALID_PIECE)
       cur += offset;] *)
Fixpoint ray_walk (fuel : nat) (b : Board) (cur offset : Z) : Z :=
  match fuel with
  | O => cur
  | S fuel' =>
      if valid_square cur && (piece_at b cur =? INVALID_PIECE)
      then ray_walk fuel' b (cur + offset) offset
      else cur
  end.

(** One turn of the loops over the diagonal or orthogonal offsets:
    [true] is the [return true] of the source. *)
Definition ray_attack (b : Board) (sq king_square : Z) (side : bool)
    (capable : Z -> bool) (offset : Z) : bool :=
  let cur_square := sq + offset in
  if king_square =? cur_square then true
  else
    let cur_square := ray_walk RAY_FUEL b cur_square offset in
    let cur_piece := piece_at b cur_square in
    valid_square cur_square && Bool.eqb (get_side cur_piece) side
      && capable cur_piece.

Definition pawn_offsets (side : bool) : list Z :=
  [if Bool.eqb side WHITE then -9 else 9;
   if Bool.eqb side WHITE then -11 else 11].

(** The body of [square_attacked] after its guard. *)
Definition attack_scan (b : Board) (sq : Z) (side : bool) : bool :=
  let king_piece := if Bool.eqb side WHITE then WHITE_KING else BLACK_KING in
  let knight_piece :=
    if Bool.eqb side WHITE then WHITE_KNIGHT else BLACK_KNIGHT in
  let pawn_piece := if Bool.eqb side WHITE then WHITE_PAWN else BLACK_PAWN in
  let king_square := position0 b king_piece in
  if existsb (ray_attack b sq king_square side is_diag) diagonal_offsets
  then true
  else if existsb (ray_attack b sq king_square side is_ortho)
            orthogonal_offsets
  then true
  else if existsb (fun offset => piece_at b (sq + offset) =? knight_piece)
            knight_offsets
  then true
  else if existsb (fun offset => piece_at b (sq + offset) =? pawn_piece)
            (pawn_offsets side)
  then true
  else false.

(** The guard compares the piece with [side] first and hands the
    resulting [bool] to [get_side]; inside it the [ASSERT_MSG] comes
    before [return false]. *)
Definition square_attacked (b : Board) (sq : Z) (side : bool)
  : option bool :=
  if valid_piece (piece_at b sq)
     && get_side (piece_of_bool (piece_at b sq =? piece_of_bool side))
  then
    ASSERT negb (Bool.eqb (get_side (piece_at b sq)) side);
    Some false
  else Some (attack_scan b sq side).

(** [square_attacked] with its guard removed. *)
Definition square_attacked_unguarded (b : Board) (sq : Z) (side : bool)
  : option bool :=
  Some (attack_scan b sq side).

(** The attack test in the words of the specification: along every
    ray the first occupied cell holds a piece of [by_side] able to
    move along it, or the king of [by_side] stands next to [sq]; a
    knight of [by_side] stands a knight's jump away; a white pawn
    stands on [sq - 9] or [sq - 11], a black one on [sq + 9] or
    [sq + 11]. *)
Definition ray_hit (b : Board) (sq : Z) (by_side : bool)
    (capable : Z -> bool) (offset : Z) : bool :=
  let stop := ray_walk RAY_FUEL b (sq + offset) offset in
  valid_square stop && Bool.eqb (get_side (piece_at b stop)) by_side
    && capable (piece_at b stop).

Definition attacked_as_specified (b : Board) (sq : Z) (by_side : bool)
  : bool :=
  let king := if by_side then BLACK_KING else WHITE_KING in
  let knight := if by_side then BLACK_KNIGHT else WHITE_KNIGHT in
  existsb (fun offset => (position0 b king =? sq + offset)
                         || ray_hit b sq by_side is_diag offset)
    diagonal_offsets
  || existsb (fun offset => (position0 b king =? sq + offset)
                            || ray_hit b sq by_side is_ortho offset)
       orthogonal_offsets
  || existsb (fun offset => piece_at b (sq + offset) =? knight)
       knight_offsets
  || (if by_side
      then (piece_at b (sq + 9) =? BLACK_PAWN)
           || (piece_at b (sq + 11) =? BLACK_PAWN)
      else (piece_at b (sq - 9) =? WHITE_PAWN)
           || (piece_at b (sq - 11) =? WHITE_PAWN)).

Definition king_in_check (b : Board) : option bool :=
  let king_piece :=
    if Bool.eqb (m_next_move_colour b) WHITE then WHITE_KING
    else BLACK_KING in
  square_attacked b (position0 b king_piece) (negb (m_next_move_colour b)).

(** ** Validation (lines 136-185) *)

(** The first loop: every cell holds a piece or [INVALID_PIECE], and
    [piece_count] counts the cells by what they hold. *)
Fixpoint count_cells (b : Board) (sqs : list Z) (piece_count : list nat)
  : option (list nat) :=
  match sqs with
  | [] => Some piece_count
  | sq :: rest =>
      do piece <- sub (m_pieces b) sq;
      ASSERT valid_piece piece || (piece =? INVALID_PIECE);
      do count <- sub piece_count piece;
      count_cells b rest (<[Z.to_nat piece := S count]> piece_count)
  end.

(** The innermost loop: the entry at [num] is not repeated at a later
    index below [last]. *)
Definition entry_unrepeated (piece_list : list Z) (sq : Z) (num last : nat)
  : bool :=
  forallb
    (fun compare_idx =>
       match piece_list !! compare_idx with
       | Some other => negb (sq =? other)
       | None => false
       end)
    (seq (S num) (last - S num)).

(** The loop over the live entries of one list. *)
Fixpoint check_entries (b : Board) (piece : Z) (piece_list : list Z)
    (last : nat) (nums : list nat) : option unit :=
  match nums with
  | [] => Some tt
  | num :: rest =>
      do sq <- piece_list !! num;
      do found <- sub (m_pieces b) sq;
      ASSERT found =? piece;
      ASSERT entry_unrepeated piece_list sq num last;
      check_entries b piece piece_list last rest
  end.

(** The body of the loop over the sixteen piece identifiers. *)
Definition check_piece (b : Board) (piece_count : list nat) (piece : Z)
  : option unit :=
  do num <- sub (m_num_pieces b) piece;
  ASSERT implb (negb (valid_piece piece)) (num =? 0)%nat;
  do count <- sub piece_count piece;
  ASSERT implb (valid_piece piece) (num =? count)%nat;
  ASSERT (num <=? MAX_PIECE_FREQ)%nat;
  do piece_list <- sub (m_positions b) piece;
  check_entries b piece piece_list num (seq 0 num).

Fixpoint check_pieces (b : Board) (piece_count : list nat) (pieces : list Z)
  : option unit :=
  match pieces with
  | [] => Some tt
  | piece :: rest =>
      do checked <- check_piece b piece_count piece;
      check_pieces b piece_count rest
  end.

(** [validate_board()] as a DEBUG build compiles it: [Some tt] when
    every assertion holds. *)
Definition validate_board (b : Board) : option unit :=
  do piece_count <- count_cells b squares_120 (repeat 0%nat 16);
  do white_kings <- sub (m_num_pieces b) WHITE_KING;
  ASSERT (white_kings =? 1)%nat;
  do black_kings <- sub (m_num_pieces b) BLACK_KING;
  ASSERT (black_kings =? 1)%nat;
  do checked <- check_pieces b piece_count (map Z.of_nat (seq 0 16));
  ASSERT (0 <=? m_castle_state b) && (m_castle_state b <? 16);
  ASSERT valid_square (m_en_passant b)
         || (m_en_passant b =? INVALID_SQUARE);
  ASSERT implb (Bool.eqb (m_next_move_colour b) BLACK
                && negb (m_en_passant b =? INVALID_SQUARE))
               (get_square_row (m_en_passant b) =? RANK_3);
  ASSERT implb (Bool.eqb (m_next_move_colour b) WHITE
                && negb (m_en_passant b =? INVALID_SQUARE))
               (get_square_row (m_en_passant b) =? RANK_6);
  let king_piece :=
    if Bool.eqb (m_next_move_colour b) BLACK then WHITE_KING
    else BLACK_KING in
  let king_square := position0 b king_piece in
  do attacked <- square_attacked b king_square (m_next_move_colour b);
  ASSERT negb attacked;
  Some tt.

(** ** Pseudo-move generation (lines 366-567) *)

Definition MAX_POSITION_MOVES : nat := 256.

(** The squares [m_positions[piece][0 .. m_num_pieces[piece])]. *)
Definition piece_list (b : Board) (piece : Z) : list Z :=
  take (nth (Z.to_nat piece) (m_num_pieces b) 0%nat)
       (nth (Z.to_nat piece) (m_positions b) []).

(** The test after a walk: a capture of an enemy piece that is not the
    king. *)
Definition capture_at (b : Board) (start cur piece : Z) : list move_t :=
  if valid_square cur && opposite_colours piece (piece_at b cur)
     && negb (is_king (piece_at b cur))
  then [capture_move start cur piece (piece_at b cur)]
  else [].

(** One ray of a slider: the quiet moves of the [while] loop, then the
    capture test. *)
Fixpoint slide (fuel : nat) (b : Board) (start cur offset piece : Z)
  : list move_t :=
  match fuel with
  | O => capture_at b start cur piece
  | S fuel' =>
      if valid_square cur && (piece_at b cur =? INVALID_PIECE)
      then quiet_move start cur piece
             :: slide fuel' b start (cur + offset) offset piece
      else capture_at b start cur piece
  end.

Definition slider_moves (b : Board) (piece : Z) (offsets : list Z)
  : list move_t :=
  flat_map
    (fun start =>
       flat_map
         (fun offset => slide RAY_FUEL b start (start + offset) offset piece)
         offsets)
    (piece_list b piece).

Definition knight_step (b : Board) (start piece offset : Z) : list move_t :=
  let cur_square := start + offset in
  if valid_square cur_square && (piece_at b cur_square =? INVALID_PIECE)
  then [quiet_move start cur_square piece]
  else if valid_square cur_square
          && opposite_colours piece (piece_at b cur_square)
          && negb (is_king (piece_at b cur_square))
  then [capture_move start cur_square piece (piece_at b cur_square)]
  else [].

Definition knight_moves (b : Board) (knight_piece : Z) : list move_t :=
  flat_map
    (fun start =>
       flat_map (knight_step b start knight_piece) knight_offsets)
    (piece_list b knight_piece).

Definition last_rank (sq : Z) : bool :=
  (get_square_row sq =? RANK_1) || (get_square_row sq =? RANK_8).

Definition pawn_capture (b : Board) (start capture pawn_piece : Z)
    (promote_pieces : list Z) : list move_t :=
  if valid_square capture
     && negb (piece_at b capture =? INVALID_PIECE)
     && opposite_colours pawn_piece (piece_at b capture)
     && negb (is_king (piece_at b capture))
  then
    if last_rank capture
    then map (fun promote_piece =>
                promote_capture_move start capture pawn_piece promote_piece
                  (piece_at b capture))
             promote_pieces
    else [capture_move start capture pawn_piece (piece_at b capture)]
  else [].

Definition pawn_en_passant (b : Board) (start capture pawn_piece : Z)
  : list move_t :=
  if (capture =? m_en_passant b) && (piece_at b capture =? INVALID_PIECE)
  then [en_passant_move start (m_en_passant b) pawn_piece]
  else [].

(** One turn of the loop over the pawns. *)
Definition pawn_moves (b : Board) (side : bool) (pawn_piece : Z)
    (promote_pieces : list Z) (start : Z) : list move_t :=
  (if Bool.eqb side WHITE && (get_square_row start =? RANK_2)
      && (piece_at b (start + 10) =? INVALID_PIECE)
      && (piece_at b (start + 20) =? INVALID_PIECE)
   then [double_move start (start + 20) pawn_piece] else [])
  ++ (if Bool.eqb side BLACK && (get_square_row start =? RANK_7)
         && (piece_at b (start - 10) =? INVALID_PIECE)
         && (piece_at b (start - 20) =? INVALID_PIECE)
      then [double_move start (start - 20) pawn_piece] else [])
  ++ (let offset := if Bool.eqb side WHITE then 10 else -10 in
      let cur_square := start + offset in
      let capture1 := cur_square - 1 in
      let capture2 := cur_square + 1 in
      (if valid_square cur_square
          && (piece_at b cur_square =? INVALID_PIECE)
       then
         if last_rank cur_square
         then map (promote_move start cur_square pawn_piece) promote_pieces
         else [quiet_move start (start + offset) pawn_piece]
       else [])
      ++ pawn_capture b start capture1 pawn_piece promote_pieces
      ++ pawn_capture b start capture2 pawn_piece promote_pieces
      ++ (if negb (m_en_passant b =? INVALID_SQUARE)
          then pawn_en_passant b start capture1 pawn_piece
               ++ pawn_en_passant b start capture2 pawn_piece
          else [])).

Definition king_step (b : Board) (start king_piece offset : Z)
  : list move_t :=
  let cur_square := start + offset in
  let piece := piece_at b cur_square in
  if valid_square cur_square then
    if piece =? INVALID_PIECE
    then [quiet_move start cur_square king_piece]
    else if opposite_colours king_piece piece && negb (is_king piece)
    then [capture_move start cur_square king_piece piece]
    else []
  else [].

Definition king_moves (b : Board) (king_piece : Z) : list move_t :=
  let start := position0 b king_piece in
  flat_map (king_step b start king_piece) queen_offsets.

Definition castle_moves (b : Board) (side : bool)
  : option (list move_t) :=
  if Bool.eqb side WHITE then
    do d1_attacked <- square_attacked b D1 BLACK;
    do e1_attacked <- square_attacked b E1 BLACK;
    do f1_attacked <- square_attacked b F1 BLACK;
    Some
      ((if has_right (m_castle_state b) WHITE_SHORT
           && negb e1_attacked && negb f1_attacked
           && (piece_at b F1 =? INVALID_PIECE)
           && (piece_at b G1 =? INVALID_PIECE)
        then [castle_move E1 G1 WHITE_KING SHORT_CASTLE_MOVE] else [])
       ++ (if has_right (m_castle_state b) WHITE_LONG
              && negb e1_attacked && negb d1_attacked
              && (piece_at b D1 =? INVALID_PIECE)
              && (piece_at b C1 =? INVALID_PIECE)
              && (piece_at b B1 =? INVALID_PIECE)
           then [castle_move E1 C1 WHITE_KING LONG_CASTLE_MOVE] else []))
  else
    do d8_attacked <- square_attacked b D8 WHITE;
    do e8_attacked <- square_attacked b E8 WHITE;
    do f8_attacked <- square_attacked b F8 WHITE;
    Some
      ((if has_right (m_castle_state b) BLACK_SHORT
           && negb e8_attacked && negb f8_attacked
           && (piece_at b F8 =? INVALID_PIECE)
           && (piece_at b G8 =? INVALID_PIECE)
        then [castle_move E8 G8 BLACK_KING SHORT_CASTLE_MOVE] else [])
       ++ (if has_right (m_castle_state b) BLACK_LONG
              && negb e8_attacked && negb d8_attacked
              && (piece_at b D8 =? INVALID_PIECE)
              && (piece_at b C8 =? INVALID_PIECE)
              && (piece_at b B8 =? INVALID_PIECE)
           then [castle_move E8 C8 BLACK_KING LONG_CASTLE_MOVE] else [])).

(** The generator proper: the moves pushed onto [result] between the
    draw test and the final [ASSERT]. *)
Definition generate_moves (b : Board) (side : bool)
  : option (list move_t) :=
  let king_piece := if Bool.eqb side WHITE then WHITE_KING else BLACK_KING in
  let queen_piece :=
    if Bool.eqb side WHITE then WHITE_QUEEN else BLACK_QUEEN in
  let rook_piece := if Bool.eqb side WHITE then WHITE_ROOK else BLACK_ROOK in
  let bishop_piece :=
    if Bool.eqb side WHITE then WHITE_BISHOP else BLACK_BISHOP in
  let knight_piece :=
    if Bool.eqb side WHITE then WHITE_KNIGHT else BLACK_KNIGHT in
  let pawn_piece := if Bool.eqb side WHITE then WHITE_PAWN else BLACK_PAWN in
  let promote_pieces :=
    [Z.lxor queen_piece 8; Z.lxor rook_piece 8;
     Z.lxor bishop_piece 8; Z.lxor knight_piece 8] in
  do castles <- castle_moves b side;
  Some
    (slider_moves b queen_piece queen_offsets
     ++ slider_moves b rook_piece orthogonal_offsets
     ++ slider_moves b bishop_piece diagonal_offsets
     ++ knight_moves b knight_piece
     ++ flat_map (pawn_moves b side pawn_piece promote_pieces)
          (piece_list b pawn_piece)
     ++ king_moves b king_piece
     ++ castles).

(** [_side] is [None] for the default argument [INVALID_SIDE]. *)
Definition pseudo_moves (b : Board) (_side : option bool)
  : option (list move_t * Board) :=
  match m_move_cache b !! m_hash b with
  | Some cached => Some (cached, b)
  | None =>
      if (m_half_move b >? 1000) || (m_fifty_move b >? 75)
      then Some ([], b)
      else
        let side :=
          match _side with
          | Some side => side
          | None => m_next_move_colour b
          end in
        do result <- generate_moves b side;
        ASSERT (length result <=? MAX_POSITION_MOVES)%nat;
        Some (result,
              with_move_cache b (<[m_hash b := result]> (m_move_cache b)))
  end.

(** ** Make and unmake (lines 651-803) *)

Definition make_castle (b : Board) (cur_side : bool) (flag : MoveFlag)
  : option Board :=
  if Bool.eqb cur_side WHITE then
    do b <- (if flag_eqb flag SHORT_CASTLE_MOVE
             then do b <- move_piece b E1 G1; move_piece b H1 F1
             else do b <- move_piece b E1 C1; move_piece b A1 D1);
    let new_castle_state :=
      Z.land (m_castle_state b) (Z.lnot (Z.lor WHITE_LONG WHITE_SHORT)) in
    Some (set_castle_state b new_castle_state)
  else
    do b <- (if flag_eqb flag SHORT_CASTLE_MOVE
             then do b <- move_piece b E8 G8; move_piece b H8 F8
             else do b <- move_piece b E8 C8; move_piece b A8 D8);
    let new_castle_state :=
      Z.land (m_castle_state b) (Z.lnot (Z.lor BLACK_LONG BLACK_SHORT)) in
    Some (set_castle_state b new_castle_state).

(** The piece motion of [make_move], by flag. *)
Definition apply_move (b : Board) (move : move_t) (cur_side : bool)
  : option Board :=
  let flag := move_flag move in
  let from := move_from move in
  let to := move_to move in
  let moved := moved_piece move in
  if move_promoted move then
    do b <- (if move_captured move then remove_piece b to else Some b);
    do b <- add_piece b to (promoted_piece move);
    do b <- remove_piece b from;
    Some (set_en_passant b INVALID_SQUARE)
  else if move_castled move then
    do b <- make_castle b cur_side flag;
    Some (set_en_passant b INVALID_SQUARE)
  else
    let enpas_square := if Bool.eqb cur_side WHITE then to - 10 else to + 10 in
    let b :=
      if flag_eqb flag DOUBLE_PAWN_MOVE then set_en_passant b enpas_square
      else set_en_passant b INVALID_SQUARE in
    match flag with
    | QUIET_MOVE =>
        do b <- move_piece b from to;
        Some (update_castling b from moved)
    | DOUBLE_PAWN_MOVE => move_piece b from to
    | CAPTURE_MOVE =>
        do b <- remove_piece b to;
        do b <- move_piece b from to;
        Some (update_castling b from moved)
    | EN_PASSANT_MOVE =>
        do b <- remove_piece b enpas_square;
        move_piece b from to
    | _ => Some b
    end.

(** [m_fifty_move] and [m_half_move] are [unsigned int]. *)
Definition wrap32 (x : Z) : Z := x mod 2 ^ 32.

Definition make_move (b : Board) (move : move_t) : option (Board * bool) :=
  let cur_side := m_next_move_colour b in
  let other_side := negb cur_side in
  let entry :=
    History move (m_castle_state b) (m_en_passant b) (m_fifty_move b)
      (m_hash b) in
  let b := with_history b (entry :: m_history b) in
  let b := with_half_move b (wrap32 (m_half_move b + 1)) in
  do b <- apply_move b move cur_side;
  let b :=
    if move_captured move || is_pawn (moved_piece move)
    then with_fifty_move b 0
    else with_fifty_move b (wrap32 (m_fifty_move b + 1)) in
  let b := switch_colours b in
  let king_piece :=
    if Bool.eqb cur_side WHITE then WHITE_KING else BLACK_KING in
  do attacked <- square_attacked b (position0 b king_piece) other_side;
  let valid := negb attacked in
  Some (b, valid).

Definition unmake_castle (b : Board) (cur_side : bool) (flag : MoveFlag)
  : option Board :=
  if Bool.eqb cur_side WHITE then
    if flag_eqb flag SHORT_CASTLE_MOVE
    then do b <- move_piece b G1 E1; move_piece b F1 H1
    else do b <- move_piece b C1 E1; move_piece b D1 A1
  else
    if flag_eqb flag SHORT_CASTLE_MOVE
    then do b <- move_piece b G8 E8; move_piece b F8 H8
    else do b <- move_piece b C8 E8; move_piece b D8 A8.

(** The piece motion of [unmake_move], by flag; [b] has its state
    fields and the side to move restored already. *)
Definition unapply_move (b : Board) (move : move_t) : option Board :=
  let cur_side := m_next_move_colour b in
  let flag := move_flag move in
  let from := move_from move in
  let to := move_to move in
  if move_promoted move then
    do b <- remove_piece b to;
    do b <- add_piece b from (moved_piece move);
    if move_captured move
    then add_piece b to (captured_piece move)
    else Some b
  else if move_castled move then unmake_castle b cur_side flag
  else
    do b <- move_piece b to from;
    if move_captured move then
      let en_pas_sq :=
        if Bool.eqb cur_side WHITE then m_en_passant b - 10
        else m_en_passant b + 10 in
      let captured_sq :=
        if flag_eqb flag CAPTURE_MOVE then to else en_pas_sq in
      add_piece b captured_sq (captured_piece move)
    else Some b.

(** The state [unmake_move] restores from the history entry before it
    moves any piece. *)
Definition restore_entry (b : Board) (entry : history_t)
    (rest : list history_t) : Board :=
  with_fifty_move
    (set_en_passant
       (set_castle_state (with_history b rest) (h_castle_state entry))
       (h_en_passant entry))
    (h_fifty_move entry).

Definition unmake_move (b : Board) : option Board :=
  match m_history b with
  | [] => None
  | entry :: rest =>
      let b := restore_entry b entry rest in
      ASSERT 0 <? m_half_move b;
      let b := switch_colours (with_half_move b (m_half_move b - 1)) in
      do b <- unapply_move b (h_move entry);
      ASSERT m_hash b =? h_hash entry;
      Some b
  end.

(** ** Legal moves (lines 569-578) *)

(** The loop body: [make_move] on the scratch board, then always
    [unmake_move]. *)
Fixpoint filter_legal (tmp : Board) (moves : list move_t)
  : option (list move_t) :=
  match moves with
  | [] => Some []
  | move :: rest =>
      do made <- make_move tmp move;
      do tmp' <- unmake_move (fst made);
      do result <- filter_legal tmp' rest;
      Some (if snd made then move :: result else result)
  end.

Definition legal_moves (b : Board) : option (list move_t) :=
  do pm <- pseudo_moves b None;
  filter_legal (snd pm) (fst pm).

(** ** FEN parsing (lines 13-134) *)

Definition code (c : ascii) : Z := Z.of_nat (nat_of_ascii c).
Definition chr (n : Z) : ascii := ascii_of_nat (Z.to_nat n).

Definition is_char (c : ascii) (d : ascii) : bool := code c =? code d.

(** Modelled from the spec: the species letters of FEN, upper case for
    white; any other character is no piece. *)
Definition piece_from_char (c : ascii) : Z :=
  if is_char c "P" then WHITE_PAWN
  else if is_char c "N" then WHITE_KNIGHT
  else if is_char c "B" then WHITE_BISHOP
  else if is_char c "R" then WHITE_ROOK
  else if is_char c "Q" then WHITE_QUEEN
  else if is_char c "K" then WHITE_KING
  else if is_char c "p" then BLACK_PAWN
  else if is_char c "n" then BLACK_KNIGHT
  else if is_char c "b" then BLACK_BISHOP
  else if is_char c "r" then BLACK_ROOK
  else if is_char c "q" then BLACK_QUEEN
  else if is_char c "k" then BLACK_KING
  else INVALID_PIECE.

(** Modelled from the spec: the inverse of [piece_from_char]. *)
Definition char_from_piece (p : Z) : ascii :=
  if p =? WHITE_PAWN then "P"
  else if p =? WHITE_KNIGHT then "N"
  else if p =? WHITE_BISHOP then "B"
  else if p =? WHITE_ROOK then "R"
  else if p =? WHITE_QUEEN then "Q"
  else if p =? WHITE_KING then "K"
  else if p =? BLACK_PAWN then "p"
  else if p =? BLACK_KNIGHT then "n"
  else if p =? BLACK_BISHOP then "b"
  else if p =? BLACK_ROOK then "r"
  else if p =? BLACK_QUEEN then "q"
  else if p =? BLACK_KING then "k"
  else "."%char.

(** Modelled from the spec: a square in algebraic notation, [-] for
    [INVALID_SQUARE]. *)
Definition string_from_square (sq : Z) : list ascii :=
  if sq =? INVALID_SQUARE then ["-"%char]
  else [chr (code "a" + (sq mod 10 - 1)); chr (code "1" + get_square_row sq)].

(** The board a constructor starts from: every array filled. *)
Definition blank_board : Board :=
  MkBoard (repeat INVALID_PIECE 120)
    (repeat (repeat INVALID_SQUARE MAX_PIECE_FREQ) 16)
    (repeat 0%nat 16)
    WHITE 0 INVALID_SQUARE 0 0 0 [] ∅.

(** [for (i < num_spaces) m_pieces[square_idx + i] = INVALID_PIECE;] *)
Fixpoint clear_cells (pieces : list Z) (square_idx : Z) (num_spaces : nat)
  : option (list Z) :=
  match num_spaces with
  | O => Some pieces
  | S n =>
      do old <- sub pieces square_idx;
      clear_cells (<[Z.to_nat square_idx := INVALID_PIECE]> pieces)
        (square_idx + 1) n
  end.

Definition row_end_or_valid (square_idx : Z) : bool :=
  (square_idx mod 10 =? 9) || valid_square square_idx.

(** Part 1, the placement field.  The string's terminating NUL is no
    piece letter, so running off the text fails the piece branch. *)
Fixpoint parse_placement (s : list ascii) (square_idx : Z) (b : Board)
  : option (list ascii * Z * Board) :=
  match s with
  | [] => None
  | c :: rest =>
      if is_char c " " then Some (s, square_idx, b)
      else if is_char c "/" then
        ASSERT square_idx mod 10 =? 9;
        parse_placement rest (wrap32 (square_idx - 18)) b
      else if (code "1" <=? code c) && (code c <=? code "8") then
        let num_spaces := code c - code "0" in
        do pieces <- clear_cells (m_pieces b) square_idx (Z.to_nat num_spaces);
        let square_idx := wrap32 (square_idx + num_spaces) in
        ASSERT row_end_or_valid square_idx;
        parse_placement rest square_idx (with_pieces b pieces)
      else
        let piece_idx := piece_from_char c in
        ASSERT valid_square square_idx;
        ASSERT valid_piece piece_idx;
        do piece_list <- sub (m_positions b) piece_idx;
        do num <- sub (m_num_pieces b) piece_idx;
        ASSERT (num <? MAX_PIECE_FREQ)%nat;
        ASSERT (num <? length piece_list)%nat;
        let b :=
          MkBoard (<[Z.to_nat square_idx := piece_idx]> (m_pieces b))
            (<[Z.to_nat piece_idx := <[num := square_idx]> piece_list]>
               (m_positions b))
            (<[Z.to_nat piece_idx := S num]> (m_num_pieces b))
            (m_next_move_colour b) (m_castle_state b) (m_en_passant b)
            (m_fifty_move b) (m_half_move b) (m_hash b) (m_history b)
            (m_move_cache b) in
        let square_idx := wrap32 (square_idx + 1) in
        ASSERT row_end_or_valid square_idx;
        parse_placement rest square_idx b
  end.

(** Part 3, the castling letters up to the next blank. *)
Fixpoint parse_castle (s : list ascii) (state : Z)
  : option (list ascii * Z) :=
  match s with
  | [] => None
  | c :: rest =>
      if is_char c " " then Some (s, state)
      else if is_char c "K" then parse_castle rest (Z.lor state WHITE_SHORT)
      else if is_char c "Q" then parse_castle rest (Z.lor state WHITE_LONG)
      else if is_char c "k" then parse_castle rest (Z.lor state BLACK_SHORT)
      else if is_char c "q" then parse_castle rest (Z.lor state BLACK_LONG)
      else None
  end.

Definition is_digit (c : ascii) : bool :=
  (code "0" <=? code c) && (code c <=? code "9").

(** Part 5, the half-move clock: digits up to the next blank,
    accumulated in an [unsigned int]. *)
Fixpoint parse_fifty (s : list ascii) (acc : Z) : option (list ascii * Z) :=
  match s with
  | [] => None
  | c :: rest =>
      if is_char c " " then Some (s, acc)
      else
        ASSERT is_digit c;
        parse_fifty rest (wrap32 (10 * acc + (code c - code "0")))
  end.

Definition wrap64 (x : Z) : Z := x mod 2 ^ 64.

(** Part 6, the full-move number: digits up to the end of the string,
    accumulated in a [size_t]. *)
Fixpoint parse_full (s : list ascii) (acc : Z) : option Z :=
  match s with
  | [] => Some acc
  | c :: rest =>
      ASSERT is_digit c;
      parse_full rest (wrap64 (10 * acc + (code c - code "0")))
  end.

Definition expect_blank (s : list ascii) : option (list ascii) :=
  match s with
  | c :: rest => if is_char c " " then Some rest else None
  | [] => None
  end.

(** Part 4, the en-passant field, with the elision of a target no pawn
    of the side to move stands next to. *)
Definition parse_en_passant (b : Board) (s : list ascii)
  : option (list ascii * Z) :=
  match s with
  | [] => None
  | c0 :: rest0 =>
      if is_char c0 "-" then Some (rest0, INVALID_SQUARE)
      else
        match rest0 with
        | [] => None
        | c1 :: rest1 =>
            let row := wrap32 (code c1 - code "1") in
            let col := wrap32 (code c0 - code "a") in
            ASSERT implb (Bool.eqb (m_next_move_colour b) WHITE)
                         (row =? RANK_6);
            ASSERT implb (Bool.eqb (m_next_move_colour b) BLACK)
                         (row =? RANK_3);
            let en_passant := get_square_120_rc row col in
            let my_pawn :=
              if Bool.eqb (m_next_move_colour b) WHITE then WHITE_PAWN
              else BLACK_PAWN in
            do left <- sub (m_pieces b) (en_passant - 1);
            if negb (left =? my_pawn) then
              do right <- sub (m_pieces b) (en_passant + 1);
              if negb (right =? my_pawn)
              then Some (rest1, INVALID_SQUARE)
              else Some (rest1, en_passant)
            else Some (rest1, en_passant)
        end
  end.

(** [Board::Board(const std::string &fen)]. *)
Definition Board_of_fen (fen : list ascii) : option Board :=
  do r1 <- parse_placement fen A8 blank_board;
  let '(s, square_idx, b) := r1 in
  ASSERT square_idx =? 29;
  (* Part 2: side to move *)
  do s <- expect_blank s;
  match s with
  | [] => None
  | c :: s =>
      ASSERT is_char c "w" || is_char c "b";
      let b := with_colour b (if is_char c "w" then WHITE else BLACK) in
      (* Part 3: castle state; the character after the side is skipped *)
      match s with
      | [] => None
      | _ :: s =>
          do r3 <-
            match s with
            | [] => None
            | c :: rest =>
                if is_char c "-" then Some (rest, 0) else parse_castle s 0
            end;
          let '(s, state) := r3 in
          let b := with_castle_state b state in
          do s <- expect_blank s;
          do r4 <- parse_en_passant b s;
          let '(s, en_passant) := r4 in
          let b := with_en_passant b en_passant in
          do s <- expect_blank s;
          do r5 <- parse_fifty s 0;
          let '(s, fifty) := r5 in
          let b := with_fifty_move b fifty in
          do s <- expect_blank s;
          do full_move <- parse_full s 0;
          let b :=
            with_half_move b
              (wrap32 (wrap64 (2 * full_move
                               + (if m_next_move_colour b then 1 else 0)))) in
          Some (with_hash b (compute_hash b))
      end
  end.

(** ** FEN rendering (lines 190-254) *)

Definition digit_char (n : Z) : ascii := chr (code "0" + n).

Definition flush_blanks (blank_count : Z) : list ascii :=
  if negb (blank_count =? 0) then [digit_char blank_count] else [].

(** Part 1: the loop [while (square_idx != 29)], one square a turn. *)
Fixpoint fen_placement (fuel : nat) (b : Board) (square_idx blank_count : Z)
  : option (list ascii) :=
  match fuel with
  | O => None
  | S fuel' =>
      if square_idx =? 29 then Some (flush_blanks blank_count)
      else
        do turn <-
          (if square_idx mod 10 =? 9 then
             ASSERT implb (negb (blank_count =? 0)) (blank_count <=? 8);
             Some (flush_blanks blank_count ++ ["/"%char], square_idx - 18, 0)
           else Some ([], square_idx, blank_count));
        let '(out, square_idx, blank_count) := turn in
        let piece := piece_at b square_idx in
        if piece =? INVALID_PIECE then
          do rest <- fen_placement fuel' b (square_idx + 1) (blank_count + 1);
          Some (out ++ rest)
        else
          do rest <- fen_placement fuel' b (square_idx + 1) 0;
          Some (out ++ flush_blanks blank_count
                    ++ [char_from_piece piece] ++ rest)
  end.

(** [operator<<] for an unsigned number: its decimal digits. *)
Fixpoint decimal_rev (fuel : nat) (n : Z) : list ascii :=
  match fuel with
  | O => []
  | S fuel' =>
      if n <? 10 then [digit_char n]
      else digit_char (n mod 10) :: decimal_rev fuel' (n / 10)
  end.

Definition decimal (n : Z) : list ascii := rev (decimal_rev 20 n).

Definition fen_castle (state : Z) : list ascii :=
  if state =? 0 then ["-"%char]
  else
    (if has_right state WHITE_SHORT then ["K"%char] else [])
    ++ (if has_right state WHITE_LONG then ["Q"%char] else [])
    ++ (if has_right state BLACK_SHORT then ["k"%char] else [])
    ++ (if has_right state BLACK_LONG then ["q"%char] else []).

(** [Board::fen]. *)
Definition fen (b : Board) : option (list ascii) :=
  do placement <- fen_placement 65 b A8 0;
  Some (placement ++ [" "%char]
        ++ [if Bool.eqb (m_next_move_colour b) WHITE then "w"%char
            else "b"%char]
        ++ [" "%char]
        ++ fen_castle (m_castle_state b) ++ [" "%char]
        ++ string_from_square (m_en_passant b) ++ [" "%char]
        ++ decimal (m_fifty_move b) ++ [" "%char]
        ++ decimal (m_half_move b / 2)).

End Operations.

Arguments cells_xor : simpl never.
Arguments compute_hash : simpl never.

(** ** Specification-level notions *)

(** The castle state [update_castling(sq, moved)] leaves behind. *)
Definition rights_after_leaving (sq moved state : Z) : Z :=
  if negb (is_castle moved) then state
  else
    strip ((sq =? E8) || (sq =? H8)) BLACK_SHORT
      (strip ((sq =? E8) || (sq =? A8)) BLACK_LONG
         (strip ((sq =? E1) || (sq =? H1)) WHITE_SHORT
            (strip ((sq =? E1) || (sq =? A1)) WHITE_LONG state))).

(** The two rights of a side, as a mask. *)
Definition rights_of (side : bool) : Z :=
  if side then Z.lor BLACK_LONG BLACK_SHORT else Z.lor WHITE_LONG WHITE_SHORT.

(** The king's and the rooks' home squares of a side. *)
Definition home_square (side : bool) (sq : Z) : bool :=
  if side then (sq =? E8) || (sq =? A8) || (sq =? H8)
  else (sq =? E1) || (sq =? A1) || (sq =? H1).

(** The position hash in the words of the specification: the XOR over
    all occupied squares of [piece_hash[sq][piece]], XOR
    [castle_hash[castle_state]], XOR [enpas_hash[en_passant]], XOR
    [side_hash] when black is to move. *)
Definition occupied (b : Board) (sq : Z) : bool :=
  negb (piece_at b sq =? INVALID_PIECE).

Definition zobrist (T : hash_tables) (b : Board) : Z :=
  let over_pieces :=
    fold_left (fun res sq => Z.lxor res (piece_hash T sq (piece_at b sq)))
      (filter (fun sq => Is_true (occupied b sq)) squares_120) 0 in
  Z.lxor
    (Z.lxor (Z.lxor over_pieces (castle_hash T (m_castle_state b)))
       (enpas_hash T (m_en_passant b)))
    (if m_next_move_colour b then side_hash T else 0).

Arguments zobrist : simpl never.

(** Invariant 4 of the specification, together with the size of the
    mailbox. *)
Definition hash_ok (T : hash_tables) (b : Board) : Prop :=
  length (m_pieces b) = 120%nat /\ m_hash b = compute_hash T b.

(** The boards a program can hold: built from a FEN string, then
    changed by [make_move], [unmake_move] and the cache update of
    [pseudo_moves]. *)
Inductive reachable (T : hash_tables) : Board -> Prop :=
| reach_fen (fen : list ascii) (b : Board) :
    Board_of_fen T fen = Some b -> reachable T b
| reach_make (b b' : Board) (move : move_t) (valid : bool) :
    reachable T b -> make_move T b move = Some (b', valid) ->
    reachable T b'
| reach_unmake (b b' : Board) :
    reachable T b -> unmake_move T b = Some b' -> reachable T b'
| reach_pseudo (b b' : Board) (_side : option bool) (l : list move_t) :
    reachable T b -> pseudo_moves b _side = Some (l, b') ->
    reachable T b'.

(** What the generator reads of a board: the mailbox, the piece
    lists, the castle state and the en-passant target. *)
Definition same_position (b0 b : Board) : Prop :=
  m_pieces b = m_pieces b0
  /\ m_positions b = m_positions b0
  /\ m_num_pieces b = m_num_pieces b0
  /\ m_castle_state b = m_castle_state b0
  /\ m_en_passant b = m_en_passant b0.

(** The side [pseudo_moves(_side)] generates for. *)
Definition generating_side (b : Board) (_side : option bool) : bool :=
  match _side with
  | Some side => side
  | None => m_next_move_colour b
  end.

Definition below_draw_cut_off (b : Board) : Prop :=
  m_half_move b <= 1000 /\ m_fifty_move b <= 75.

(** The board with the counters, history, hash and cache blanked. *)
Definition position_only (b : Board) : Board :=
  MkBoard (m_pieces b) (m_positions b) (m_num_pieces b) WHITE
    (m_castle_state b) (m_en_passant b) 0 0 0 [] ∅.

(** The 64 playing squares in the order a FEN string lists them,
    a8 to h8 first, a1 to h1 last. *)
Definition fen_square (k : Z) : Z := 91 - 10 * (k / 8) + k mod 8.

Definition fen_squares : list Z :=
  map (fun k => fen_square (Z.of_nat k)) (seq 0 64).

(** The pieces on the playing squares, in that order, and the number
    of pieces of a kind among them. *)
Definition fen_pieces (b : Board) : list Z := map (piece_at b) fen_squares.

Abbreviation pieces_on b p := (count_occ Z.eq_dec (fen_pieces b) p)
  (only parsing).

Definition all_pieces : list Z :=
  [WHITE_PAWN; WHITE_KNIGHT; WHITE_BISHOP; WHITE_ROOK; WHITE_QUEEN;
   WHITE_KING; BLACK_PAWN; BLACK_KNIGHT; BLACK_BISHOP; BLACK_ROOK;
   BLACK_QUEEN; BLACK_KING].

(** The en-passant field is empty or a playing square on the rank the
    side to move can capture onto ([validate_board], lines 171-180). *)
Definition en_passant_ok (b : Board) : bool :=
  (m_en_passant b =? INVALID_SQUARE)
  || (valid_square (m_en_passant b)
      && (get_square_row (m_en_passant b)
          =? (if m_next_move_colour b then RANK_3 else RANK_6))).

(** The en-passant field the FEN constructor keeps: the target is
    elided unless a pawn of the side to move stands next to it. *)
Definition en_passant_kept (b : Board) : Z :=
  let my_pawn := if m_next_move_colour b then BLACK_PAWN else WHITE_PAWN in
  if m_en_passant b =? INVALID_SQUARE then INVALID_SQUARE
  else if (piece_at b (m_en_passant b - 1) =? my_pawn)
          || (piece_at b (m_en_passant b + 1) =? my_pawn)
  then m_en_passant b
  else INVALID_SQUARE.

(** A valid position: what [validate_board] checks of the mailbox, the
    castle state and the en-passant field, the ranges of the counters
    and the parity [m_half_move] has by construction, the hash
    invariant, and invariant 5 of the specification as the constructor
    applies it: an en-passant target has a pawn of the side to move
    next to it. *)
Definition valid_position (T : hash_tables) (b : Board) : Prop :=
  length (m_pieces b) = 120%nat
  /\ forallb (fun sq => valid_square sq
                        || (piece_at b sq =? INVALID_PIECE)) squares_120
     = true
  /\ forallb (fun sq => (piece_at b sq =? INVALID_PIECE)
                        || valid_piece (piece_at b sq)) squares_120
     = true
  /\ forallb (fun p => (pieces_on b p <=? MAX_PIECE_FREQ)%nat) all_pieces
     = true
  /\ 0 <= m_castle_state b < 16
  /\ en_passant_ok b = true
  /\ 0 <= m_fifty_move b < 2 ^ 32
  /\ 0 <= m_half_move b < 2 ^ 32
  /\ m_half_move b mod 2 = (if m_next_move_colour b then 1 else 0)
  /\ m_hash b = compute_hash T b
  /\ en_passant_kept b = m_en_passant b.

(** ** The contract of [make_move] in the words of the specification *)

(** 4.4, one ray: walking outward from [sq] by [offset] through empty
    squares, the first non-empty square is a playing square holding a
    valid piece of [by_side] that can move along the ray.  A line of
    the mailbox holds at most eight playing squares, so the square is
    at most eight steps out. *)
Definition ray_clear (b : Board) (sq offset : Z) (k : nat) : bool :=
  forallb
    (fun i => valid_square (sq + Z.of_nat i * offset)
              && (piece_at b (sq + Z.of_nat i * offset) =? INVALID_PIECE))
    (seq 1 (k - 1)).

Definition ray_reaches (b : Board) (sq : Z) (by_side : bool)
    (capable : Z -> bool) (offset : Z) : bool :=
  existsb
    (fun k =>
       let stop := sq + Z.of_nat k * offset in
       ray_clear b sq offset k
       && valid_square stop
       && valid_piece (piece_at b stop)
       && Bool.eqb (get_side (piece_at b stop)) by_side
       && capable (piece_at b stop))
    (seq 1 8).

(** 4.4, the whole test: a ray reaches a piece of [by_side], the
    first step in a direction lands on the king of [by_side], a knight
    of [by_side] stands a knight's jump away, or a pawn of [by_side]
    stands diagonally behind [sq] as [by_side] sees it. *)
Definition attacked_by (b : Board) (sq : Z) (by_side : bool) : bool :=
  let king := if by_side then BLACK_KING else WHITE_KING in
  let knight := if by_side then BLACK_KNIGHT else WHITE_KNIGHT in
  existsb (fun offset => (position0 b king =? sq + offset)
                         || ray_reaches b sq by_side is_diag offset)
    diagonal_offsets
  || existsb (fun offset => (position0 b king =? sq + offset)
                            || ray_reaches b sq by_side is_ortho offset)
       orthogonal_offsets
  || existsb (fun offset => piece_at b (sq + offset) =? knight)
       knight_offsets
  || (if by_side
      then (piece_at b (sq + 9) =? BLACK_PAWN)
           || (piece_at b (sq + 11) =? BLACK_PAWN)
      else (piece_at b (sq - 9) =? WHITE_PAWN)
           || (piece_at b (sq - 11) =? WHITE_PAWN)).

(** [side] is in check: the square of its king is attacked by the
    other side. *)
Definition in_check (b : Board) (side : bool) : bool :=
  attacked_by b (position0 b (if side then BLACK_KING else WHITE_KING))
    (negb side).

(** 4.6, castling: the king goes from [king_from] to [king_to], the
    rook from [rook_from] to [rook_to]. *)
Definition castled_cells (b : Board) (king_from king_to rook_from rook_to
    s : Z) : Z :=
  if s =? king_to then piece_at b king_from
  else if s =? rook_to then piece_at b rook_from
  else if (s =? king_from) || (s =? rook_from) then INVALID_PIECE
  else piece_at b s.

(** 4.6, application by flag: the cell [s] of the mailbox after [side]
    has played [m] on [b].  A promotion leaves the promoted piece on
    [to] and nothing on [from]; a castle moves king and rook on the
    home rank of [side]; an en-passant capture also empties the square
    one rank behind [to]; any other move carries the piece on [from]
    to [to]. *)
Definition cells_after (b : Board) (side : bool) (m : move_t) (s : Z) : Z :=
  let from := move_from m in
  let to := move_to m in
  match move_flag m with
  | PROMOTE_MOVE | PROMOTE_CAPTURE_MOVE =>
      if s =? from then INVALID_PIECE
      else if s =? to then promoted_piece m
      else piece_at b s
  | SHORT_CASTLE_MOVE =>
      if side then castled_cells b E8 G8 H8 F8 s
      else castled_cells b E1 G1 H1 F1 s
  | LONG_CASTLE_MOVE =>
      if side then castled_cells b E8 C8 A8 D8 s
      else castled_cells b E1 C1 A1 D1 s
  | EN_PASSANT_MOVE =>
      if s =? to then piece_at b from
      else if (s =? from) || (s =? (if side then to + 10 else to - 10))
      then INVALID_PIECE
      else piece_at b s
  | QUIET_MOVE | DOUBLE_PAWN_MOVE | CAPTURE_MOVE =>
      if s =? to then piece_at b from
      else if s =? from then INVALID_PIECE
      else piece_at b s
  end.

(** 4.6, the castle state after [side] has played [m]: a quiet move
    or a capture strips the rights of the home square the moved piece
    leaves, a castle strips both rights of [side], and a pawn's double
    step, en-passant capture or promotion leaves the rights alone. *)
Definition castle_state_after (b : Board) (side : bool) (m : move_t) : Z :=
  match move_flag m with
  | QUIET_MOVE | CAPTURE_MOVE =>
      rights_after_leaving (move_from m) (moved_piece m) (m_castle_state b)
  | SHORT_CASTLE_MOVE | LONG_CASTLE_MOVE =>
      Z.land (m_castle_state b) (Z.lnot (rights_of side))
  | _ => m_castle_state b
  end.

(** 4.6, the en-passant target after [side] has played [m]: the
    square a double step jumps over, cleared by any other move. *)
Definition en_passant_after (side : bool) (m : move_t) : Z :=
  match move_flag m with
  | DOUBLE_PAWN_MOVE => if side then move_to m + 10 else move_to m - 10
  | _ => INVALID_SQUARE
  end.

(** 4.6, the half-move clock after [m]: reset by a capture or a pawn
    move, counted up otherwise. *)
Definition fifty_move_after (b : Board) (m : move_t) : Z :=
  if move_captured m || is_pawn (moved_piece m) then 0
  else wrap32 (m_fifty_move b + 1).

(** ** Boards on which a move can be made and unmade *)

(** [m_num_pieces[piece]]. *)
Definition num_of (b : Board) (p : Z) : nat :=
  nth (Z.to_nat p) (m_num_pieces b) 0%nat.

(** Invariants 1 to 3 of the specification, as [validate_board]
    checks them (lines 138-167): the arrays have their sizes, every
    cell holds a piece or [INVALID_PIECE], and for each of the twelve
    pieces the live part of its list holds, without repetition,
    exactly the squares where the mailbox has that piece; the other
    four identifiers have no list entries. *)
Definition synced (b : Board) : Prop :=
  length (m_pieces b) = 120%nat
  /\ length (m_positions b) = 16%nat
  /\ (forall q l, m_positions b !! q = Some l -> length l = MAX_PIECE_FREQ)
  /\ length (m_num_pieces b) = 16%nat
  /\ (forall sq, piece_at b sq = INVALID_PIECE
                 \/ valid_piece (piece_at b sq) = true)
  /\ (forall p, valid_piece p = true ->
        (num_of b p <= MAX_PIECE_FREQ)%nat
        /\ NoDup (piece_list b p)
        /\ forall sq, In sq (piece_list b p) <-> piece_at b sq = p)
  /\ (forall p, 0 <= p < 16 -> valid_piece p = false ->
        num_of b p = 0%nat).

(** The mailbox, the piece lists and the counts of a board, and two
    boards that agree on them. *)
Definition core (b : Board) : list Z * list (list Z) * list nat :=
  (m_pieces b, m_positions b, m_num_pieces b).

Definition same_pos (b b' : Board) : Prop := core b' = core b.

(** The king's and the rook's home squares of every castling right
    still held are occupied. *)
Definition castle_squares_ok (b : Board) : bool :=
  implb (has_right (m_castle_state b) WHITE_SHORT)
    (occupied b E1 && occupied b H1)
  && implb (has_right (m_castle_state b) WHITE_LONG)
       (occupied b E1 && occupied b A1)
  && implb (has_right (m_castle_state b) BLACK_SHORT)
       (occupied b E8 && occupied b H8)
  && implb (has_right (m_castle_state b) BLACK_LONG)
       (occupied b E8 && occupied b A8).

(** An en-passant target is a playing square, and the pawn that
    passed it stands right behind it. *)
Definition en_passant_pawn_ok (b : Board) : bool :=
  (m_en_passant b =? INVALID_SQUARE)
  || (valid_square (m_en_passant b)
      && (if m_next_move_colour b
          then piece_at b (m_en_passant b + 10) =? WHITE_PAWN
          else piece_at b (m_en_passant b - 10) =? BLACK_PAWN)).

(** A board on which a game can go on: the piece lists follow the
    mailbox, each side has its king, and the castling rights and the
    en-passant target agree with the pieces. *)
Definition playable (b : Board) : Prop :=
  synced b
  /\ num_of b WHITE_KING = 1%nat
  /\ num_of b BLACK_KING = 1%nat
  /\ castle_squares_ok b = true
  /\ en_passant_pawn_ok b = true
  /\ 0 <= m_half_move b.

(** Every cell of the ray from [cur] on, [fuel] steps long, is a
    playing square. *)
Fixpoint run_valid (fuel : nat) (cur offset : Z) : bool :=
  match fuel with
  | O => valid_square cur
  | S fuel' => valid_square cur && run_valid fuel' (cur + offset) offset
  end.

(** What [make_move] followed by [unmake_move] gives back: every field
    as it was, the live part of each piece list up to the order of its
    squares. *)
Definition restored (b b2 : Board) : Prop :=
  m_pieces b2 = m_pieces b
  /\ m_num_pieces b2 = m_num_pieces b
  /\ (forall p, valid_piece p = true ->
        Permutation (piece_list b2 p) (piece_list b p))
  /\ m_next_move_colour b2 = m_next_move_colour b
  /\ m_castle_state b2 = m_castle_state b
  /\ m_en_passant b2 = m_en_passant b
  /\ m_fifty_move b2 = m_fifty_move b
  /\ m_half_move b2 = m_half_move b
  /\ m_hash b2 = m_hash b
  /\ m_history b2 = m_history b
  /\ m_move_cache b2 = m_move_cache b.

(** [synced] as a check over the 120 cells and the 16 lists. *)
Definition syncedb (b : Board) : bool :=
  (length (m_pieces b) =? 120)%nat
  && (length (m_positions b) =? 16)%nat
  && forallb (fun l => (length l =? MAX_PIECE_FREQ)%nat) (m_positions b)
  && (length (m_num_pieces b) =? 16)%nat
  && forallb (fun sq => (piece_at b sq =? INVALID_PIECE)
                        || valid_piece (piece_at b sq)) squares_120
  && forallb
       (fun p =>
          if valid_piece p
          then (num_of b p <=? MAX_PIECE_FREQ)%nat
               && bool_decide (NoDup (piece_list b p))
               && forallb (fun sq => piece_at b sq =? p) (piece_list b p)
               && forallb
                    (fun sq => implb (piece_at b sq =? p)
                                 (existsb (fun x => x =? sq) (piece_list b p)))
                    squares_120
          else (num_of b p =? 0)%nat)
       (map Z.of_nat (seq 0 16)).

(** ** Move shapes, counters and valid boards *)

(** [m_positions[q][i]]. *)
Definition entry (b : Board) (q i : nat) : Z :=
  nth i (nth q (m_positions b) []) INVALID_SQUARE.

(** What every generated move looks like: the piece it moves is of
    the side generated for; a capture names a piece of the other
    side that is no king, any other move names none; a promotion
    moves a pawn and promotes to a piece that is no king. *)
Definition move_shape (side : bool) (m : move_t) : Prop :=
  get_side (moved_piece m) = side
  /\ valid_piece (moved_piece m) = true
  /\ is_king (captured_piece m) = false
  /\ (if move_captured m
      then captured_piece m <> INVALID_PIECE
           /\ get_side (captured_piece m) = negb side
      else captured_piece m = INVALID_PIECE)
  /\ (if move_promoted m
      then is_pawn (moved_piece m) = true
           /\ valid_piece (promoted_piece m) = true
           /\ is_king (promoted_piece m) = false
      else promoted_piece m = INVALID_PIECE).

(** The verdict of [make_move]: [false] also when it does not
    return. *)
Definition accepted (T : hash_tables) (b : Board) (m : move_t) : bool :=
  match make_move T b m with
  | Some (_, valid) => valid
  | None => false
  end.

(** The counters of a board and of its history entries in the range of
    their C++ types, the castle state a valid table index, and the
    ply counter of the parity of the side to move. *)
Definition entry_in_range (e : history_t) : Prop :=
  0 <= h_castle_state e < 16 /\ 0 <= h_fifty_move e < 2 ^ 32.

Definition counters_ok (b : Board) : Prop :=
  0 <= m_castle_state b < 16
  /\ 0 <= m_fifty_move b < 2 ^ 32
  /\ 0 <= m_half_move b < 2 ^ 32
  /\ m_half_move b mod 2 = (if m_next_move_colour b then 1 else 0)
  /\ Forall entry_in_range (m_history b).

(** What [validate_board] establishes: the lists follow the mailbox,
    each side has one king, the castle state and the en-passant field
    are in range, and the king of the side that has just moved is not
    attacked. *)
Definition valid_board (b : Board) : Prop :=
  synced b
  /\ num_of b WHITE_KING = 1%nat
  /\ num_of b BLACK_KING = 1%nat
  /\ 0 <= m_castle_state b < 16
  /\ en_passant_ok b = true
  /\ attack_scan b
       (position0 b (if m_next_move_colour b then WHITE_KING
                     else BLACK_KING))
       (m_next_move_colour b) = false.

(** The sizes of the arrays [m_pieces], [m_positions] and
    [m_num_pieces]. *)
Definition sized (b : Board) : Prop :=
  length (m_pieces b) = 120%nat
  /\ length (m_positions b) = 16%nat
  /\ Forall (fun l => length l = MAX_PIECE_FREQ) (m_positions b)
  /\ length (m_num_pieces b) = 16%nat.

(** The squares among [sqs] whose cell holds [p]. *)
Definition cells_holding (b : Board) (p : Z) (sqs : list Z) : list Z :=
  List.filter (fun sq => piece_at b sq =? p) sqs.

(** Where a generated move of [side] lands: a double step leaves a
    pawn's home rank and goes two rows on, an en-passant capture goes
    to the en-passant target, and any other move goes to a playing
    square. *)
Definition lands_ok (b : Board) (side : bool) (m : move_t) : Prop :=
  match move_flag m with
  | DOUBLE_PAWN_MOVE =>
      In (move_from m)
         (piece_list b (if side then BLACK_PAWN else WHITE_PAWN))
      /\ get_square_row (move_from m) = (if side then RANK_7 else RANK_2)
      /\ move_to m = move_from m + (if side then -20 else 20)
  | EN_PASSANT_MOVE =>
      move_to m = m_en_passant b /\ m_en_passant b <> INVALID_SQUARE
  | _ => valid_square (move_to m) = true
  end.

(** Pieces stand on playing squares only. *)
Definition interior (b : Board) : Prop :=
  forall sq, piece_at b sq <> INVALID_PIECE -> valid_square sq = true.

(** The boards a board object turns into under [make_move],
    [unmake_move] and [pseudo_moves]. *)
Inductive played (T : hash_tables) (b0 : Board) : Board -> Prop :=
| played_none : played T b0 b0
| played_make (b b' : Board) (move : move_t) (valid : bool) :
    played T b0 b -> make_move T b move = Some (b', valid) ->
    played T b0 b'
| played_unmake (b b' : Board) :
    played T b0 b -> unmake_move T b = Some b' -> played T b0 b'
| played_pseudo (b b' : Board) (_side : option bool) (l : list move_t) :
    played T b0 b -> pseudo_moves b _side = Some (l, b') ->
    played T b0 b'.

(** ** Sample data *)

(** A sample of the Zobrist tables: a 64-bit scrambler, zero where the
    tables have to be zero. *)
Definition scramble (x : Z) : Z :=
  (x * 6364136223846793005 + 1442695040888963407) mod 2 ^ 64.

Definition sample_tables : hash_tables :=
  HashTables
    (fun sq p =>
       if valid_square sq && valid_piece p
       then scramble (scramble (sq * 16 + p)) else 0)
    (fun state => scramble (scramble (1000 + state)))
    (fun sq =>
       if sq =? INVALID_SQUARE then 0 else scramble (scramble (2000 + sq)))
    (scramble (scramble 3000)).

Definition board_or_blank (o : option Board) : Board :=
  match o with
  | Some b => b
  | None => blank_board
  end.

Definition sample_board (fen : string) : Board :=
  board_or_blank (Board_of_fen sample_tables (list_ascii_of_string fen)).

Definition start_board : Board :=
  sample_board "rnbqkbnr/pppppppp/8/8/8/8/PPPPPPPP/RNBQKBNR w KQkq - 0 1".

(** The board after a move, and the verdict of [make_move]. *)
Definition after_move (b : Board) (move : move_t) : Board :=
  match make_move sample_tables b move with
  | Some (b', _) => b'
  | None => blank_board
  end.

Definition verdict (b : Board) (move : move_t) : bool :=
  match make_move sample_tables b move with
  | Some (_, valid) => valid
  | None => false
  end.

(** The list [pseudo_moves()] returns, and membership in it. *)
Definition pseudo_list (b : Board) : list move_t :=
  match pseudo_moves b None with
  | Some (l, _) => l
  | None => []
  end.

Definition move_eqb (m1 m2 : move_t) : bool :=
  (move_from m1 =? move_from m2) && (move_to m1 =? move_to m2)
  && (moved_piece m1 =? moved_piece m2)
  && (captured_piece m1 =? captured_piece m2)
  && (promoted_piece m1 =? promoted_piece m2)
  && flag_eqb (move_flag m1) (move_flag m2).

Definition is_pseudo_move (b : Board) (move : move_t) : bool :=
  existsb (move_eqb move) (pseudo_list b).

Definition E2 : Z := 35.
Definition E3 : Z := 45.
Definition E4 : Z := 55.
Definition D3 : Z := 44.
Definition F3 : Z := 46.
Definition D4 : Z := 54.
Definition F4 : Z := 56.
Definition F6 : Z := 76.

(** Play a line on a board, every move a pseudo-move that [make_move]
    accepts. *)
Fixpoint play (b : Board) (line : list move_t) : option Board :=
  match line with
  | [] => Some b
  | move :: rest =>
      ASSERT is_pseudo_move (with_move_cache b ∅) move;
      do made <- make_move sample_tables b move;
      ASSERT snd made;
      play (fst made) rest
  end.

(** Both knights go out and come back: four plies that repeat the
    position. *)
Definition knight_tour : list move_t :=
  [quiet_move G1 F3 WHITE_KNIGHT; quiet_move G8 F6 BLACK_KNIGHT;
   quiet_move F3 G1 WHITE_KNIGHT; quiet_move F6 G8 BLACK_KNIGHT].

(** The starting position after a first call of [pseudo_moves], which
    fills the cache. *)
Definition start_cached : Board :=
  match pseudo_moves start_board None with
  | Some (_, b) => b
  | None => blank_board
  end.

(** The same board object nineteen knight tours, 76 plies, later. *)
Definition start_after_tours : Board :=
  board_or_blank
    (play start_cached (concat (repeat knight_tour 19))).

(** The list [pseudo_moves] returns and the list it computes when the
    cache is empty. *)
Definition returned_moves (b : Board) (_side : option bool)
  : option (list move_t) :=
  option_map fst (pseudo_moves b _side).

Definition moves_from_scratch (b : Board) (_side : option bool)
  : option (list move_t) :=
  option_map fst (pseudo_moves (with_move_cache b ∅) _side).

Definition D5 : Z := 64.
Definition H5 : Z := 68.

(** A position with an en-passant target that has a pawn of the side
    to move next to it. *)
Definition passant_board : Board :=
  sample_board "4k3/8/8/8/4P3/3p4/8/4K3 b - e3 0 1".

(** A position where a pawn can take one of two pawns. *)
Definition pawn_board : Board :=
  sample_board "4k3/8/8/3p3p/4P3/8/8/4K3 w - - 0 1".

(** The board after a call of [pseudo_moves()]. *)
Definition cached (b : Board) : Board :=
  match pseudo_moves b None with
  | Some (_, b') => b'
  | None => blank_board
  end.

(** [make_move(move)] followed by [unmake_move()]. *)
Definition make_unmake (b : Board) (move : move_t) : option Board :=
  do made <- make_move sample_tables b move;
  unmake_move sample_tables (fst made).

(** * Verification *)

(** ** Tactics *)

(** Case analysis on the scrutinee of the first [match] or [if] of a
    hypothesis, dropping the branches that failed. *)
Ltac monad_step H :=
  match type of H with
  | context [match ?x with _ => _ end] =>
      lazymatch x with
      | context [match _ with _ => _ end] => fail
      | _ => let E := fresh "E" in destruct x eqn:E; try discriminate H
      end
  end.

Ltac monad_inv H :=
  repeat monad_step H;
  try (injection H; clear H; intros; subst).

(** Any equation between XOR combinations: compare bit by bit. *)
Ltac xor_solve :=
  apply Z.bits_inj'; intros ?n ?Hn;
  rewrite ?Z.lxor_spec, ?Z.bits_0;
  repeat match goal with
         | |- context [Z.testbit ?x ?n] => destruct (Z.testbit x n)
         end;
  reflexivity.

(** Linear arithmetic with division and remainder by constants. *)
Ltac dlia := Z.to_euclidean_division_equations; lia.

(** Expose the fields of a board built by the setters. *)
Ltac board_simpl :=
  unfold set_en_passant, set_castle_state, switch_colours, update_castling,
    with_pieces, with_positions, with_num_pieces, with_colour,
    with_castle_state, with_en_passant, with_fifty_move, with_half_move,
    with_hash, with_history, with_move_cache in *;
  simpl in *.

(** ** Subscripts *)

Lemma sub_Some {A : Type} (l : list A) (i : Z) (x : A) :
  sub l i = Some x ->
  0 <= i /\ (Z.to_nat i < length l)%nat /\ l !! Z.to_nat i = Some x.
Proof.
  unfold sub. destruct (i <? 0) eqn:E; [discriminate|].
  intros H. apply Z.ltb_ge in E. split; [exact E|]. split; [|exact H].
  apply lookup_lt_Some in H. exact H.
Qed.

Lemma piece_at_sub (b : Board) (sq p : Z) :
  sub (m_pieces b) sq = Some p -> piece_at b sq = p.
Proof.
  intros H. unfold piece_at. unfold sub in H.
  destruct (sq <? 0); [discriminate|].
  rewrite nth_lookup, H. reflexivity.
Qed.

Lemma get_side_of_bool (c : bool) : get_side (piece_of_bool c) = false.
Proof. destruct c; reflexivity. Qed.

(** The guard of [square_attacked] is dead code. *)
Lemma square_attacked_scan (b : Board) (sq : Z) (side : bool) :
  square_attacked b sq side = Some (attack_scan b sq side).
Proof.
  unfold square_attacked. rewrite get_side_of_bool, andb_false_r.
  reflexivity.
Qed.

Lemma ray_attack_hit (b : Board) (sq ksq : Z) (side : bool)
    (capable : Z -> bool) (offset : Z) :
  ray_attack b sq ksq side capable offset
  = (ksq =? sq + offset) || ray_hit b sq side capable offset.
Proof.
  unfold ray_attack, ray_hit. destruct (ksq =? sq + offset); reflexivity.
Qed.

Lemma existsb_ext_all {A : Type} (f g : A -> bool) (l : list A) :
  (forall x, f x = g x) -> existsb f l = existsb g l.
Proof.
  intros H. induction l as [|x l IH]; simpl; [reflexivity|].
  rewrite H, IH. reflexivity.
Qed.

Lemma attack_scan_as_specified (b : Board) (sq : Z) (side : bool) :
  attack_scan b sq side = attacked_as_specified b sq side.
Proof.
  unfold attack_scan, attacked_as_specified.
  rewrite (existsb_ext_all _ _ diagonal_offsets
             (ray_attack_hit b sq _ side is_diag)).
  rewrite (existsb_ext_all _ _ orthogonal_offsets
             (ray_attack_hit b sq _ side is_ortho)).
  destruct side; simpl Bool.eqb; cbv iota.
  all: match goal with
       | |- (if ?a then true else if ?c then true else if ?d then true
             else if ?e then true else false) = _ =>
           destruct a; [reflexivity|]; destruct c; [reflexivity|];
           destruct d; simpl; [reflexivity|]
       end.
  all: replace (sq + -9) with (sq - 9) by lia;
    replace (sq + -11) with (sq - 11) by lia;
    rewrite orb_false_r;
    repeat match goal with
           | |- context [piece_at ?c ?x =? ?y] => destruct (piece_at c x =? y)
           end;
    reflexivity.
Qed.

(** C9. In [square_attacked(sq, side)] the early-return guard never
    fires: for every board, square and side the function returns what
    it returns with the guard removed, and that value is the
    disjunction of the ray walks, the king adjacency, the knight
    offsets and the pawn offsets (white pawns from [sq - 9] and
    [sq - 11], black pawns from [sq + 9] and [sq + 11]). *)
Theorem square_attacked_guard_dead (b : Board) (sq : Z) (side : bool) :
  square_attacked b sq side = square_attacked_unguarded b sq side
  /\ square_attacked b sq side = Some (attacked_as_specified b sq side).
Proof.
  rewrite square_attacked_scan. split; [reflexivity|].
  rewrite attack_scan_as_specified. reflexivity.
Qed.

Section Verification.

Context (T : hash_tables).

(** ** What the primitive updates leave alone *)

(** The fields that no piece motion touches. *)
Definition same_frame (b b' : Board) : Prop :=
  m_next_move_colour b' = m_next_move_colour b
  /\ m_castle_state b' = m_castle_state b
  /\ m_en_passant b' = m_en_passant b
  /\ m_fifty_move b' = m_fifty_move b
  /\ m_half_move b' = m_half_move b
  /\ m_history b' = m_history b
  /\ m_move_cache b' = m_move_cache b.

Lemma same_frame_refl (b : Board) : same_frame b b.
Proof. unfold same_frame. tauto. Qed.

Lemma same_frame_trans (b1 b2 b3 : Board) :
  same_frame b1 b2 -> same_frame b2 b3 -> same_frame b1 b3.
Proof. unfold same_frame. intuition congruence. Qed.

Lemma remove_piece_frame (b b' : Board) (sq : Z) :
  remove_piece T b sq = Some b' -> same_frame b b'.
Proof.
  unfold remove_piece. intros H. monad_inv H.
  unfold same_frame. simpl. tauto.
Qed.

Lemma add_piece_frame (b b' : Board) (sq piece : Z) :
  add_piece T b sq piece = Some b' -> same_frame b b'.
Proof.
  unfold add_piece. intros H. monad_inv H.
  unfold same_frame. simpl. tauto.
Qed.

Lemma move_piece_frame (b b' : Board) (from to : Z) :
  move_piece T b from to = Some b' -> same_frame b b'.
Proof.
  unfold move_piece. intros H. monad_inv H.
  unfold same_frame. simpl. tauto.
Qed.

(** Collect the frame facts of every primitive step in the context. *)
Ltac frames :=
  repeat match goal with
         | H : remove_piece _ _ _ = Some _ |- _ =>
             apply remove_piece_frame in H
         | H : add_piece _ _ _ _ = Some _ |- _ =>
             apply add_piece_frame in H
         | H : move_piece _ _ _ _ = Some _ |- _ =>
             apply move_piece_frame in H
         end;
  unfold same_frame in *; simpl in *.

(** The fields [apply_move] leaves alone: side, clocks, history and
    cache. *)
Definition same_game (b b' : Board) : Prop :=
  m_next_move_colour b' = m_next_move_colour b
  /\ m_fifty_move b' = m_fifty_move b
  /\ m_half_move b' = m_half_move b
  /\ m_history b' = m_history b
  /\ m_move_cache b' = m_move_cache b.

Lemma make_castle_game (b b' : Board) (side : bool) (flag : MoveFlag) :
  make_castle T b side flag = Some b' -> same_game b b'.
Proof.
  unfold make_castle. intros H. monad_inv H; frames;
    unfold same_game; board_simpl; intuition congruence.
Qed.

Lemma apply_move_game (b b' : Board) (move : move_t) (side : bool) :
  apply_move T b move side = Some b' -> same_game b b'.
Proof.
  unfold apply_move. intros H.
  destruct (move_promoted move).
  - monad_inv H; frames; unfold same_game; board_simpl;
      intuition congruence.
  - destruct (move_castled move).
    + monad_inv H.
      match goal with
      | E : make_castle _ _ _ _ = Some _ |- _ =>
          apply make_castle_game in E; unfold same_game in *; board_simpl;
          intuition congruence
      end.
    + destruct (move_flag move); monad_inv H; frames;
        unfold same_game; board_simpl;
        repeat match goal with
               | |- context [if ?c then _ else _] => destruct c
               end;
        simpl; intuition congruence.
Qed.

(** ** Castling rights across [make_move] *)

Lemma update_castling_state (b : Board) (sq moved : Z) :
  m_castle_state (update_castling T b sq moved)
  = rights_after_leaving sq moved (m_castle_state b).
Proof.
  unfold update_castling, rights_after_leaving.
  destruct (negb (is_castle moved)); reflexivity.
Qed.

Lemma make_castle_state (b b' : Board) (side : bool) (flag : MoveFlag) :
  make_castle T b side flag = Some b' ->
  m_castle_state b'
  = Z.land (m_castle_state b) (Z.lnot (rights_of side)).
Proof.
  unfold make_castle. intros H.
  destruct side; monad_inv H; frames; board_simpl;
    repeat match goal with
           | H : _ /\ _ |- _ => destruct H
           end;
    congruence.
Qed.

Lemma strip_keeps (cond : bool) (right mask state : Z) :
  Z.land right mask = 0 ->
  Z.land (strip cond right state) mask = Z.land state mask.
Proof.
  intros H. unfold strip. destruct cond; [|reflexivity].
  rewrite <- Z.land_assoc. f_equal.
  apply Z.bits_inj'. intros n Hn.
  rewrite Z.land_spec, Z.lnot_spec by exact Hn.
  assert (Hb : Z.testbit (Z.land right mask) n = false)
    by (rewrite H; apply Z.bits_0).
  rewrite Z.land_spec in Hb.
  destruct (Z.testbit right n), (Z.testbit mask n); simpl in *; congruence.
Qed.

Lemma apply_move_castle_state (b b' : Board) (move : move_t) (side : bool) :
  apply_move T b move side = Some b' ->
  m_castle_state b'
  = match move_flag move with
    | QUIET_MOVE | CAPTURE_MOVE =>
        rights_after_leaving (move_from move) (moved_piece move)
          (m_castle_state b)
    | SHORT_CASTLE_MOVE | LONG_CASTLE_MOVE =>
        Z.land (m_castle_state b) (Z.lnot (rights_of side))
    | _ => m_castle_state b
    end.
Proof.
  unfold apply_move, move_promoted, move_castled, move_captured. intros H.
  destruct (move_flag move); simpl in H; monad_inv H;
    try rewrite update_castling_state;
    try (match goal with
         | E : make_castle _ _ _ _ = Some _ |- _ =>
             apply make_castle_state in E
         end);
    frames; board_simpl;
    repeat match goal with
           | H : _ /\ _ |- _ => destruct H
           end;
    congruence.
Qed.

(** C10, as the code has it.  [make_move] changes the castle state
    through the from-square of a quiet move or capture made by a king
    or rook, and through castling itself, and through nothing else: the
    square moved to and the piece captured play no part.  A capture or
    promotion-capture therefore leaves the opponent's rights alone,
    also when it takes a rook on its home corner, unless the capturing
    piece is a king or rook that leaves one of the opponent's own home
    squares E, A or H. *)
Theorem make_move_castle_rights (b b' : Board) (move : move_t)
    (valid : bool) :
  make_move T b move = Some (b', valid) ->
  m_castle_state b'
  = match move_flag move with
    | QUIET_MOVE | CAPTURE_MOVE =>
        rights_after_leaving (move_from move) (moved_piece move)
          (m_castle_state b)
    | SHORT_CASTLE_MOVE | LONG_CASTLE_MOVE =>
        Z.land (m_castle_state b) (Z.lnot (rights_of (m_next_move_colour b)))
    | _ => m_castle_state b
    end
  /\ (move_captured move = true ->
      is_castle (moved_piece move)
        && home_square (negb (m_next_move_colour b)) (move_from move)
        && flag_eqb (move_flag move) CAPTURE_MOVE = false ->
      Z.land (m_castle_state b') (rights_of (negb (m_next_move_colour b)))
      = Z.land (m_castle_state b) (rights_of (negb (m_next_move_colour b)))).
Proof.
  intros H.
  assert (Hst : m_castle_state b'
                = match move_flag move with
                  | QUIET_MOVE | CAPTURE_MOVE =>
                      rights_after_leaving (move_from move)
                        (moved_piece move) (m_castle_state b)
                  | SHORT_CASTLE_MOVE | LONG_CASTLE_MOVE =>
                      Z.land (m_castle_state b)
                        (Z.lnot (rights_of (m_next_move_colour b)))
                  | _ => m_castle_state b
                  end).
  { unfold make_move in H. monad_inv H.
    all: match goal with
         | E : apply_move _ _ _ _ = Some _ |- _ =>
             apply apply_move_castle_state in E; simpl in E; rewrite <- E
         end; reflexivity. }
  split; [exact Hst|].
  intros Hcap Hfrom. rewrite Hst. clear Hst H.
  unfold move_captured in Hcap.
  destruct (move_flag move); try discriminate Hcap; try reflexivity.
  simpl in Hfrom. rewrite andb_true_r in Hfrom.
  unfold rights_after_leaving.
  destruct (is_castle (moved_piece move)); simpl in *; [|reflexivity].
  unfold home_square in Hfrom.
  destruct (m_next_move_colour b); simpl in Hfrom.
  all: apply orb_false_elim in Hfrom as [Hfrom Hh];
    apply orb_false_elim in Hfrom as [He Ha];
    rewrite He, Ha, Hh; change (false || false) with false;
    change (strip false) with (fun _ state : Z => state); cbv beta;
    rewrite ?strip_keeps by reflexivity; reflexivity.
Qed.

(** ** The hash invariant *)

Section HashInvariant.

Hypothesis piece_hash_invalid :
  forall sq, piece_hash T sq INVALID_PIECE = 0.

Lemma compute_hash_cells (b : Board) :
  compute_hash T b
  = Z.lxor
      (Z.lxor
         (Z.lxor (cells_xor T b squares_120 0)
            (castle_hash T (m_castle_state b)))
         (enpas_hash T (m_en_passant b)))
      (if m_next_move_colour b then side_hash T else 0).
Proof. unfold compute_hash. reflexivity. Qed.

Lemma cells_xor_same (b b' : Board) (l : list Z) (acc : Z) :
  (forall sq, In sq l -> piece_at b' sq = piece_at b sq) ->
  cells_xor T b' l acc = cells_xor T b l acc.
Proof.
  unfold cells_xor.
  revert acc. induction l as [|s l IH]; intros acc H; simpl; [reflexivity|].
  rewrite H by (left; reflexivity).
  apply IH. intros sq Hin. apply H. right. exact Hin.
Qed.

Lemma cells_xor_acc (b : Board) (l : list Z) (acc x : Z) :
  cells_xor T b l (Z.lxor acc x) = Z.lxor (cells_xor T b l acc) x.
Proof.
  unfold cells_xor.
  revert acc. induction l as [|s l IH]; intros acc; simpl; [reflexivity|].
  rewrite <- IH. f_equal. xor_solve.
Qed.

(** One cell changed: the XOR changes by the two table entries. *)
Lemma cells_xor_update (b b' : Board) (sq p : Z) (l : list Z) (acc : Z) :
  NoDup l -> In sq l ->
  piece_at b' sq = p ->
  (forall s, s <> sq -> piece_at b' s = piece_at b s) ->
  cells_xor T b' l acc
  = Z.lxor (Z.lxor (cells_xor T b l acc) (piece_hash T sq (piece_at b sq)))
      (piece_hash T sq p).
Proof.
  intros Hnd. revert acc.
  induction Hnd as [|s l Hnotin Hnd IH]; intros acc Hin Hp Hother.
  - destruct Hin.
  - unfold cells_xor. simpl. fold (cells_xor T b') (cells_xor T b).
    change (fold_left
              (fun res sq0 => Z.lxor res (piece_hash T sq0 (piece_at b' sq0))))
      with (cells_xor T b').
    change (fold_left
              (fun res sq0 => Z.lxor res (piece_hash T sq0 (piece_at b sq0))))
      with (cells_xor T b).
    destruct Hin as [-> | Hin].
    + rewrite Hp.
      rewrite (cells_xor_same b b' l).
      * rewrite <- !cells_xor_acc. f_equal. xor_solve.
      * intros s Hs. apply Hother. intros ->. apply Hnotin.
        apply list_elem_of_In. exact Hs.
    + rewrite Hother.
      * apply IH; assumption.
      * intros ->. apply Hnotin. apply list_elem_of_In. exact Hin.
Qed.

Lemma squares_120_NoDup : NoDup squares_120.
Proof.
  unfold squares_120. apply NoDup_fmap_2; [|apply NoDup_seq].
  intros x y H. lia.
Qed.

Lemma squares_120_In (sq : Z) :
  0 <= sq -> (Z.to_nat sq < 120)%nat -> In sq squares_120.
Proof.
  intros H0 H1. unfold squares_120. apply in_map_iff.
  exists (Z.to_nat sq). split; [lia|]. apply in_seq. lia.
Qed.

Lemma piece_at_insert (b b' : Board) (sq p s : Z) :
  0 <= sq -> (Z.to_nat sq < length (m_pieces b))%nat ->
  m_pieces b' = <[Z.to_nat sq := p]> (m_pieces b) ->
  piece_at b' s = if s =? sq then p else piece_at b s.
Proof.
  intros H0 Hlen Hp. unfold piece_at. rewrite Hp.
  destruct (s <? 0) eqn:Hs.
  - apply Z.ltb_lt in Hs. destruct (s =? sq) eqn:E; [|reflexivity].
    apply Z.eqb_eq in E. lia.
  - apply Z.ltb_ge in Hs. rewrite !nth_lookup.
    destruct (s =? sq) eqn:E.
    + apply Z.eqb_eq in E. subst s.
      rewrite list_lookup_insert_eq by exact Hlen. reflexivity.
    + apply Z.eqb_neq in E.
      rewrite list_lookup_insert_ne by lia. reflexivity.
Qed.

(** The recomputed hash after one cell of the mailbox is overwritten. *)
Lemma cells_xor_insert (b b' : Board) (sq p : Z) :
  length (m_pieces b) = 120%nat ->
  0 <= sq -> (Z.to_nat sq < 120)%nat ->
  m_pieces b' = <[Z.to_nat sq := p]> (m_pieces b) ->
  cells_xor T b' squares_120 0
  = Z.lxor
      (Z.lxor (cells_xor T b squares_120 0)
         (piece_hash T sq (piece_at b sq)))
      (piece_hash T sq p).
Proof.
  intros Hlen H0 H1 Hp.
  apply cells_xor_update.
  - apply squares_120_NoDup.
  - apply squares_120_In; assumption.
  - rewrite (piece_at_insert b b' sq p sq) by (assumption || lia).
    rewrite Z.eqb_refl. reflexivity.
  - intros s Hs. rewrite (piece_at_insert b b' sq p s) by (assumption || lia).
    apply Z.eqb_neq in Hs. rewrite Hs. reflexivity.
Qed.

Lemma remove_piece_hash_ok (b b' : Board) (sq : Z) :
  hash_ok T b -> remove_piece T b sq = Some b' -> hash_ok T b'.
Proof.
  intros [Hlen Hh] H. unfold remove_piece in H.
  destruct (sub (m_pieces b) sq) as [piece|] eqn:Hsq; [|discriminate].
  pose proof (piece_at_sub _ _ _ Hsq) as Hat.
  apply sub_Some in Hsq as (H0 & H1 & _).
  monad_inv H. split; simpl.
  - rewrite length_insert. exact Hlen.
  - rewrite compute_hash_cells. simpl.
    rewrite (cells_xor_insert b _ sq INVALID_PIECE)
      by (reflexivity || assumption || lia).
    rewrite Hh, compute_hash_cells, piece_hash_invalid. xor_solve.
Qed.

Lemma add_piece_hash_ok (b b' : Board) (sq piece : Z) :
  hash_ok T b -> add_piece T b sq piece = Some b' -> hash_ok T b'.
Proof.
  intros [Hlen Hh] H. unfold add_piece in H.
  destruct (valid_piece piece); [|discriminate].
  destruct (sub (m_pieces b) sq) as [old|] eqn:Hsq; [|discriminate].
  pose proof (piece_at_sub _ _ _ Hsq) as Hat.
  apply sub_Some in Hsq as (H0 & H1 & _).
  destruct (old =? INVALID_PIECE) eqn:Hold; [|discriminate].
  apply Z.eqb_eq in Hold. subst old.
  monad_inv H. split; simpl.
  - rewrite length_insert. exact Hlen.
  - rewrite compute_hash_cells. simpl.
    rewrite (cells_xor_insert b _ sq piece)
      by (reflexivity || assumption || lia).
    rewrite Hh, compute_hash_cells, Hat, piece_hash_invalid. xor_solve.
Qed.

Lemma move_piece_hash_ok (b b' : Board) (from to : Z) :
  hash_ok T b -> move_piece T b from to = Some b' -> hash_ok T b'.
Proof.
  intros [Hlen Hh] H. unfold move_piece in H.
  destruct (sub (m_pieces b) to) as [old|] eqn:Hto; [|discriminate].
  pose proof (piece_at_sub _ _ _ Hto) as Hat_to.
  apply sub_Some in Hto as (Ht0 & Ht1 & _).
  destruct (old =? INVALID_PIECE) eqn:Hold; [|discriminate].
  apply Z.eqb_eq in Hold. subst old.
  destruct (sub (m_pieces b) from) as [piece|] eqn:Hfrom; [|discriminate].
  pose proof (piece_at_sub _ _ _ Hfrom) as Hat_from.
  apply sub_Some in Hfrom as (Hf0 & Hf1 & _).
  monad_inv H. split; simpl.
  - rewrite !length_insert. exact Hlen.
  - set (b1 := with_pieces b
                 (<[Z.to_nat from := INVALID_PIECE]> (m_pieces b))).
    rewrite compute_hash_cells. simpl.
    rewrite (cells_xor_insert b1 _ to (piece_at b from))
      by (reflexivity || (unfold b1; simpl; rewrite ?length_insert;
                          assumption || lia)).
    rewrite (cells_xor_insert b b1 from INVALID_PIECE)
      by (reflexivity || assumption || lia).
    rewrite (piece_at_insert b b1 from INVALID_PIECE to)
      by (reflexivity || assumption || lia).
    rewrite Hh, compute_hash_cells, Hat_to.
    destruct (to =? from); rewrite !piece_hash_invalid; xor_solve.
Qed.

Lemma compute_hash_same_pieces (b b' : Board) :
  m_pieces b' = m_pieces b ->
  compute_hash T b'
  = Z.lxor
      (Z.lxor
         (Z.lxor (cells_xor T b squares_120 0)
            (castle_hash T (m_castle_state b')))
         (enpas_hash T (m_en_passant b')))
      (if m_next_move_colour b' then side_hash T else 0).
Proof.
  intros H. rewrite compute_hash_cells.
  rewrite (cells_xor_same b b'); [reflexivity|].
  intros sq _. unfold piece_at. rewrite H. reflexivity.
Qed.

Lemma set_castle_state_hash_ok (b : Board) (state : Z) :
  hash_ok T b -> hash_ok T (set_castle_state T b state).
Proof.
  intros [Hlen Hh]. split; [exact Hlen|].
  rewrite (compute_hash_same_pieces b) by reflexivity.
  unfold set_castle_state. simpl.
  rewrite Hh, compute_hash_cells. xor_solve.
Qed.

Lemma set_en_passant_hash_ok (b : Board) (sq : Z) :
  hash_ok T b -> hash_ok T (set_en_passant T b sq).
Proof.
  intros [Hlen Hh]. split; [exact Hlen|].
  rewrite (compute_hash_same_pieces b) by reflexivity.
  unfold set_en_passant. simpl.
  rewrite Hh, compute_hash_cells. xor_solve.
Qed.

Lemma update_castling_hash_ok (b : Board) (sq moved : Z) :
  hash_ok T b -> hash_ok T (update_castling T b sq moved).
Proof.
  intros [Hlen Hh]. unfold update_castling.
  destruct (negb (is_castle moved)); [split; assumption|].
  split; [exact Hlen|].
  rewrite (compute_hash_same_pieces b) by reflexivity. simpl.
  rewrite Hh, compute_hash_cells. xor_solve.
Qed.

Lemma switch_colours_hash_ok (b : Board) :
  hash_ok T b -> hash_ok T (switch_colours T b).
Proof.
  intros [Hlen Hh]. split; [exact Hlen|].
  rewrite (compute_hash_same_pieces b) by reflexivity.
  unfold switch_colours. simpl.
  rewrite Hh, compute_hash_cells.
  destruct (m_next_move_colour b); simpl; xor_solve.
Qed.

(** A board that differs in clocks, history or cache only. *)
Lemma hash_ok_same_position (b b' : Board) :
  m_pieces b' = m_pieces b -> m_castle_state b' = m_castle_state b ->
  m_en_passant b' = m_en_passant b ->
  m_next_move_colour b' = m_next_move_colour b -> m_hash b' = m_hash b ->
  hash_ok T b -> hash_ok T b'.
Proof.
  intros Hp Hc He Hs Hh [Hlen Hok]. split; [rewrite Hp; exact Hlen|].
  rewrite (compute_hash_same_pieces b) by exact Hp.
  rewrite Hh, Hok, compute_hash_cells, Hc, He, Hs. reflexivity.
Qed.

Lemma with_history_hash_ok (b : Board) (h : list history_t) :
  hash_ok T b -> hash_ok T (with_history b h).
Proof. apply hash_ok_same_position; reflexivity. Qed.

Lemma with_half_move_hash_ok (b : Board) (n : Z) :
  hash_ok T b -> hash_ok T (with_half_move b n).
Proof. apply hash_ok_same_position; reflexivity. Qed.

Lemma with_fifty_move_hash_ok (b : Board) (n : Z) :
  hash_ok T b -> hash_ok T (with_fifty_move b n).
Proof. apply hash_ok_same_position; reflexivity. Qed.

Lemma with_move_cache_hash_ok (b : Board) (c : gmap Z (list move_t)) :
  hash_ok T b -> hash_ok T (with_move_cache b c).
Proof. apply hash_ok_same_position; reflexivity. Qed.

(** Setters keep the invariant; primitive steps found in the context
    carry it forward. *)
Ltac hash_pure :=
  repeat lazymatch goal with
         | _ : hash_ok ?T0 ?x |- hash_ok ?T0 ?x => assumption
         | |- hash_ok _ (set_castle_state _ _ _) =>
             apply set_castle_state_hash_ok
         | |- hash_ok _ (set_en_passant _ _ _) =>
             apply set_en_passant_hash_ok
         | |- hash_ok _ (update_castling _ _ _ _) =>
             apply update_castling_hash_ok
         | |- hash_ok _ (switch_colours _ _) => apply switch_colours_hash_ok
         | |- hash_ok _ (with_history _ _) => apply with_history_hash_ok
         | |- hash_ok _ (with_half_move _ _) => apply with_half_move_hash_ok
         | |- hash_ok _ (with_fifty_move _ _) => apply with_fifty_move_hash_ok
         | |- hash_ok _ (with_move_cache _ _) => apply with_move_cache_hash_ok
         | |- hash_ok _ (if _ then _ else _) =>
             match goal with
             | |- context [if ?c then _ else _] => destruct c
             end
         end.

Ltac hash_forward :=
  repeat match goal with
         | H : remove_piece ?T0 ?x ?sq = Some ?y |- _ =>
             assert (hash_ok T0 y)
               by (apply (remove_piece_hash_ok x y sq); [hash_pure | exact H]);
             clear H
         | H : add_piece ?T0 ?x ?sq ?p = Some ?y |- _ =>
             assert (hash_ok T0 y)
               by (apply (add_piece_hash_ok x y sq p); [hash_pure | exact H]);
             clear H
         | H : move_piece ?T0 ?x ?from ?to = Some ?y |- _ =>
             assert (hash_ok T0 y)
               by (apply (move_piece_hash_ok x y from to);
                   [hash_pure | exact H]);
             clear H
         end;
  hash_pure.

Lemma apply_move_hash_ok (b b' : Board) (move : move_t) (side : bool) :
  hash_ok T b -> apply_move T b move side = Some b' -> hash_ok T b'.
Proof.
  intros Hok H.
  unfold apply_move, make_castle, move_promoted, move_captured,
    move_castled in H.
  destruct (move_flag move) eqn:Hflag;
    cbv beta iota zeta delta [flag_eqb] in H;
    monad_inv H; hash_forward.
Qed.

Lemma make_move_hash_ok (b b' : Board) (move : move_t) (valid : bool) :
  hash_ok T b -> make_move T b move = Some (b', valid) -> hash_ok T b'.
Proof.
  intros Hok H. unfold make_move in H.
  destruct (apply_move T _ move (m_next_move_colour b)) as [b1|] eqn:Happ;
    [|discriminate].
  apply apply_move_hash_ok in Happ; [|hash_pure].
  monad_inv H; hash_pure.
Qed.

Lemma unapply_move_hash_ok (b b' : Board) (move : move_t) :
  hash_ok T b -> unapply_move T b move = Some b' -> hash_ok T b'.
Proof.
  intros Hok H.
  unfold unapply_move, unmake_castle, move_promoted, move_captured,
    move_castled in H.
  destruct (move_flag move);
    cbv beta iota zeta delta [flag_eqb] in H;
    monad_inv H; hash_forward.
Qed.

Lemma unmake_move_hash_ok (b b' : Board) :
  hash_ok T b -> unmake_move T b = Some b' -> hash_ok T b'.
Proof.
  intros Hok H. unfold unmake_move in H.
  destruct (m_history b) as [|entry rest]; [discriminate|].
  destruct (0 <? m_half_move (restore_entry T b entry rest));
    [|discriminate].
  match type of H with
  | context [unapply_move T ?x ?m] =>
      destruct (unapply_move T x m) as [b1|] eqn:Hun; [|discriminate];
      apply unapply_move_hash_ok in Hun;
      [|unfold restore_entry; hash_pure]
  end.
  destruct (m_hash b1 =? h_hash entry); [|discriminate].
  injection H as <-. exact Hun.
Qed.

(** The constructor leaves the mailbox at its 120 cells. *)
Lemma clear_cells_length (pieces pieces' : list Z) (sq : Z) (n : nat) :
  clear_cells pieces sq n = Some pieces' -> length pieces' = length pieces.
Proof.
  revert pieces sq. induction n as [|n IH]; intros pieces sq H; simpl in H.
  - injection H as <-. reflexivity.
  - destruct (sub pieces sq); [|discriminate].
    apply IH in H. rewrite H. apply length_insert.
Qed.

Lemma parse_placement_length (s s' : list ascii) (sq sq' : Z)
    (b b' : Board) :
  parse_placement s sq b = Some (s', sq', b') ->
  length (m_pieces b') = length (m_pieces b).
Proof.
  revert sq b. induction s as [|c s IH]; intros sq b H; simpl in H;
    [discriminate|].
  destruct (is_char c " "); [injection H as _ _ <-; reflexivity|].
  destruct (is_char c "/").
  { destruct (sq mod 10 =? 9); [|discriminate]. apply IH in H. exact H. }
  destruct ((code "1" <=? code c) && (code c <=? code "8")).
  { destruct (clear_cells _ _ _) as [pieces|] eqn:Hc; [|discriminate].
    destruct (row_end_or_valid _); [|discriminate].
    apply IH in H. simpl in H. rewrite H.
    apply clear_cells_length in Hc. exact Hc. }
  destruct (valid_square sq); [|discriminate].
  destruct (valid_piece (piece_from_char c)); [|discriminate].
  destruct (sub (m_positions b) _); [|discriminate].
  destruct (sub (m_num_pieces b) _); [|discriminate].
  destruct (_ <? MAX_PIECE_FREQ)%nat; [|discriminate].
  destruct (_ <? length _)%nat; [|discriminate].
  destruct (row_end_or_valid _); [|discriminate].
  apply IH in H. simpl in H. rewrite H. apply length_insert.
Qed.

Lemma Board_of_fen_shape (fen : list ascii) (b : Board) :
  Board_of_fen T fen = Some b ->
  exists b0, b = with_hash b0 (compute_hash T b0)
             /\ length (m_pieces b0) = 120%nat.
Proof.
  unfold Board_of_fen. intros H.
  destruct (parse_placement fen A8 blank_board)
    as [[[s sq] b1]|] eqn:Hp; [|discriminate].
  apply parse_placement_length in Hp.
  monad_inv H.
  all: eexists; split; [reflexivity|]; simpl; rewrite Hp; reflexivity.
Qed.

Lemma Board_of_fen_hash_ok (fen : list ascii) (b : Board) :
  Board_of_fen T fen = Some b -> hash_ok T b.
Proof.
  intros H. apply Board_of_fen_shape in H as (b0 & -> & Hlen).
  split; [exact Hlen|].
  rewrite (compute_hash_same_pieces b0 (with_hash b0 (compute_hash T b0)))
    by reflexivity.
  unfold with_hash. cbn [m_hash m_castle_state m_en_passant m_next_move_colour].
  apply compute_hash_cells.
Qed.

Lemma pseudo_moves_hash_ok (b b' : Board) (_side : option bool)
    (l : list move_t) :
  hash_ok T b -> pseudo_moves b _side = Some (l, b') -> hash_ok T b'.
Proof.
  intros Hok H. unfold pseudo_moves in H.
  monad_inv H; hash_pure.
Qed.

Lemma reachable_hash_ok (b : Board) : reachable T b -> hash_ok T b.
Proof.
  induction 1 as [fen b H | b b' move valid _ IH H | b b' _ IH H
                 | b b' sd l _ IH H].
  - exact (Board_of_fen_hash_ok _ _ H).
  - exact (make_move_hash_ok _ _ _ _ IH H).
  - exact (unmake_move_hash_ok _ _ IH H).
  - exact (pseudo_moves_hash_ok _ _ _ _ IH H).
Qed.

(** Empty cells contribute nothing, so the loop over all 120 cells
    is the XOR over the occupied ones. *)
Lemma cells_xor_occupied (b : Board) (l : list Z) (acc : Z) :
  cells_xor T b l acc
  = fold_left (fun res sq => Z.lxor res (piece_hash T sq (piece_at b sq)))
      (filter (fun sq => Is_true (occupied b sq)) l) acc.
Proof.
  unfold cells_xor. revert acc.
  induction l as [|sq l IH]; intros acc; [reflexivity|].
  rewrite filter_cons. simpl fold_left at 1.
  destruct (decide (Is_true (occupied b sq))) as [Hocc|Hocc].
  - simpl. apply IH.
  - rewrite IH. f_equal.
    unfold occupied in Hocc.
    destruct (piece_at b sq =? INVALID_PIECE) eqn:E;
      [|exfalso; apply Hocc; exact I].
    apply Z.eqb_eq in E. rewrite E, piece_hash_invalid.
    apply Z.lxor_0_r.
Qed.

Lemma compute_hash_zobrist (b : Board) : compute_hash T b = zobrist T b.
Proof.
  rewrite compute_hash_cells. unfold zobrist.
  rewrite cells_xor_occupied. reflexivity.
Qed.

End HashInvariant.

(** C2. After FEN construction and after any sequence of [make_move]
    and [unmake_move] calls the stored hash equals the full Zobrist
    recomputation: the XOR over all occupied squares of
    [piece_hash[sq][piece]], XOR [castle_hash[castle_state]], XOR
    [enpas_hash[en_passant]], XOR [side_hash] when black is to move.
    The tables are zero at the empty-cell marker, as [compute_hash]
    asserts. *)
Theorem stored_hash_is_recomputed (b : Board) :
  (forall sq, piece_hash T sq INVALID_PIECE = 0) ->
  reachable T b ->
  m_hash b = compute_hash T b /\ m_hash b = zobrist T b.
Proof.
  intros Hz Hr.
  destruct (reachable_hash_ok Hz b Hr) as [_ Hh].
  split; [exact Hh|].
  rewrite Hh. apply compute_hash_zobrist. exact Hz.
Qed.

(** ** The draw cut-off behind the cache *)

(** A cache hit returns the cached list whatever the counters say. *)
Lemma pseudo_moves_cache_hit (b : Board) (_side : option bool)
    (l : list move_t) :
  m_move_cache b !! m_hash b = Some l -> pseudo_moves b _side = Some (l, b).
Proof. intros H. unfold pseudo_moves. rewrite H. reflexivity. Qed.

(** Without an entry for the hash the cut-off answers. *)
Lemma pseudo_moves_draw (b : Board) (_side : option bool) :
  m_move_cache b !! m_hash b = None ->
  m_fifty_move b > 75 \/ m_half_move b > 1000 ->
  pseudo_moves b _side = Some ([], b).
Proof.
  intros H Hd. unfold pseudo_moves. rewrite H.
  replace ((m_half_move b >? 1000) || (m_fifty_move b >? 75)) with true;
    [reflexivity|].
  symmetry. apply orb_true_iff.
  destruct Hd; [right | left]; apply Z.gtb_lt; lia.
Qed.

(** ** The generator reads the position only *)

Lemma generate_moves_position_only (b : Board) (side : bool) :
  generate_moves b side = generate_moves (position_only b) side.
Proof. reflexivity. Qed.

Lemma same_position_only (b0 b : Board) :
  same_position b0 b -> position_only b = position_only b0.
Proof.
  intros (Hp & Hl & Hn & Hc & He). unfold position_only.
  rewrite Hp, Hl, Hn, Hc, He. reflexivity.
Qed.

Lemma generate_moves_same_position (b0 b : Board) (side : bool) :
  same_position b0 b -> generate_moves b side = generate_moves b0 side.
Proof.
  intros H. rewrite (generate_moves_position_only b).
  rewrite (generate_moves_position_only b0).
  rewrite (same_position_only b0 b H). reflexivity.
Qed.

(** [pseudo_moves] on a board whose cache has no entry for the hash. *)
Lemma pseudo_moves_miss (b : Board) (_side : option bool) :
  m_move_cache b !! m_hash b = None ->
  below_draw_cut_off b ->
  pseudo_moves b _side
  = do result <- generate_moves b (generating_side b _side);
    ASSERT (length result <=? MAX_POSITION_MOVES)%nat;
    Some (result,
          with_move_cache b (<[m_hash b := result]> (m_move_cache b))).
Proof.
  intros Hm [Hh Hf]. unfold pseudo_moves. rewrite Hm.
  replace ((m_half_move b >? 1000) || (m_fifty_move b >? 75)) with false;
    [reflexivity|].
  symmetry. apply orb_false_iff.
  split; rewrite Z.gtb_ltb; apply Z.ltb_ge; lia.
Qed.

Lemma moves_from_scratch_eq (b : Board) (_side : option bool) :
  below_draw_cut_off b ->
  moves_from_scratch b _side
  = do result <- generate_moves b (generating_side b _side);
    ASSERT (length result <=? MAX_POSITION_MOVES)%nat;
    Some result.
Proof.
  intros Hb. unfold moves_from_scratch.
  rewrite pseudo_moves_miss; [|apply lookup_empty|exact Hb].
  change (generating_side (with_move_cache b ∅) _side)
    with (generating_side b _side).
  rewrite (generate_moves_same_position b (with_move_cache b ∅))
    by (unfold same_position; simpl; tauto).
  destruct (generate_moves b (generating_side b _side)) as [result|];
    [|reflexivity].
  simpl. destruct (length result <=? MAX_POSITION_MOVES)%nat; reflexivity.
Qed.

(** ** Castle moves come from the castling step only *)

Definition no_castle (l : list move_t) : Prop :=
  forall m, In m l -> move_castled m = false.

Lemma no_castle_nil : no_castle [].
Proof. intros m []. Qed.

Lemma no_castle_one (m : move_t) :
  move_castled m = false -> no_castle [m].
Proof. intros H m' [<- | []]. exact H. Qed.

Lemma no_castle_app (l1 l2 : list move_t) :
  no_castle l1 -> no_castle l2 -> no_castle (l1 ++ l2).
Proof.
  intros H1 H2 m Hin. apply in_app_or in Hin as [Hin | Hin]; auto.
Qed.

Lemma no_castle_cons (m : move_t) (l : list move_t) :
  move_castled m = false -> no_castle l -> no_castle (m :: l).
Proof. intros H1 H2 m' [<- | Hin]; auto. Qed.

Lemma no_castle_flat_map {A : Type} (f : A -> list move_t) (l : list A) :
  (forall x, no_castle (f x)) -> no_castle (flat_map f l).
Proof.
  intros H m Hin. apply in_flat_map in Hin as (x & _ & Hin).
  exact (H x m Hin).
Qed.

Lemma no_castle_map {A : Type} (f : A -> move_t) (l : list A) :
  (forall x, move_castled (f x) = false) -> no_castle (map f l).
Proof.
  intros H m Hin. apply in_map_iff in Hin as (x & <- & _). apply H.
Qed.

Lemma no_castle_if (c : bool) (l1 l2 : list move_t) :
  no_castle l1 -> no_castle l2 -> no_castle (if c then l1 else l2).
Proof. destruct c; auto. Qed.

Ltac no_castle_tac :=
  repeat first
    [ apply no_castle_nil
    | apply no_castle_one; reflexivity
    | apply no_castle_cons; [reflexivity|]
    | apply no_castle_app
    | apply no_castle_if
    | apply no_castle_map; intros; reflexivity ].

Lemma capture_at_no_castle (b : Board) (start cur piece : Z) :
  no_castle (capture_at b start cur piece).
Proof. unfold capture_at. no_castle_tac. Qed.

Lemma slide_no_castle (fuel : nat) (b : Board) (start cur offset piece : Z) :
  no_castle (slide fuel b start cur offset piece).
Proof.
  revert cur. induction fuel as [|fuel IH]; intros cur; simpl.
  - apply capture_at_no_castle.
  - apply no_castle_if; [|apply capture_at_no_castle].
    apply no_castle_cons; [reflexivity|]. apply IH.
Qed.

Lemma slider_moves_no_castle (b : Board) (piece : Z) (offsets : list Z) :
  no_castle (slider_moves b piece offsets).
Proof.
  unfold slider_moves. apply no_castle_flat_map. intros start.
  apply no_castle_flat_map. intros offset. apply slide_no_castle.
Qed.

Lemma knight_moves_no_castle (b : Board) (piece : Z) :
  no_castle (knight_moves b piece).
Proof.
  unfold knight_moves. apply no_castle_flat_map. intros start.
  apply no_castle_flat_map. intros offset. unfold knight_step.
  no_castle_tac.
Qed.

Lemma pawn_moves_no_castle (b : Board) (side : bool) (pawn : Z)
    (promote : list Z) (start : Z) :
  no_castle (pawn_moves b side pawn promote start).
Proof.
  unfold pawn_moves, pawn_capture, pawn_en_passant. cbv zeta.
  no_castle_tac.
Qed.

Lemma king_moves_no_castle (b : Board) (piece : Z) :
  no_castle (king_moves b piece).
Proof.
  unfold king_moves. apply no_castle_flat_map. intros offset.
  unfold king_step. cbv zeta. no_castle_tac.
Qed.

(** A castle move of the generated list is one of [castle_moves]. *)
Lemma generate_moves_castled (b : Board) (side : bool) (l : list move_t)
    (m : move_t) :
  generate_moves b side = Some l -> In m l -> move_castled m = true ->
  exists castles, castle_moves b side = Some castles /\ In m castles.
Proof.
  unfold generate_moves. intros H Hin Hc.
  destruct (castle_moves b side) as [castles|]; [|discriminate].
  injection H as <-. exists castles. split; [reflexivity|].
  repeat (apply in_app_or in Hin as [Hin | Hin];
          [exfalso;
           first [ apply slider_moves_no_castle in Hin
                 | apply knight_moves_no_castle in Hin
                 | apply king_moves_no_castle in Hin
                 | apply (no_castle_flat_map _ _
                            (pawn_moves_no_castle b side _ _)) in Hin ];
           congruence|]).
  exact Hin.
Qed.

(** The four castle moves and what the generator tests for each. *)
Definition castle_conditions (b : Board) (side : bool) (m : move_t) : Prop :=
  (side = WHITE
   /\ m = castle_move E1 G1 WHITE_KING SHORT_CASTLE_MOVE
   /\ has_right (m_castle_state b) WHITE_SHORT = true
   /\ piece_at b F1 = INVALID_PIECE /\ piece_at b G1 = INVALID_PIECE
   /\ square_attacked b E1 BLACK = Some false
   /\ square_attacked b F1 BLACK = Some false)
  \/ (side = WHITE
      /\ m = castle_move E1 C1 WHITE_KING LONG_CASTLE_MOVE
      /\ has_right (m_castle_state b) WHITE_LONG = true
      /\ piece_at b D1 = INVALID_PIECE /\ piece_at b C1 = INVALID_PIECE
      /\ piece_at b B1 = INVALID_PIECE
      /\ square_attacked b E1 BLACK = Some false
      /\ square_attacked b D1 BLACK = Some false)
  \/ (side = BLACK
      /\ m = castle_move E8 G8 BLACK_KING SHORT_CASTLE_MOVE
      /\ has_right (m_castle_state b) BLACK_SHORT = true
      /\ piece_at b F8 = INVALID_PIECE /\ piece_at b G8 = INVALID_PIECE
      /\ square_attacked b E8 WHITE = Some false
      /\ square_attacked b F8 WHITE = Some false)
  \/ (side = BLACK
      /\ m = castle_move E8 C8 BLACK_KING LONG_CASTLE_MOVE
      /\ has_right (m_castle_state b) BLACK_LONG = true
      /\ piece_at b D8 = INVALID_PIECE /\ piece_at b C8 = INVALID_PIECE
      /\ piece_at b B8 = INVALID_PIECE
      /\ square_attacked b E8 WHITE = Some false
      /\ square_attacked b D8 WHITE = Some false).

Lemma castle_moves_conditions (b : Board) (side : bool)
    (castles : list move_t) (m : move_t) :
  castle_moves b side = Some castles -> In m castles ->
  castle_conditions b side m.
Proof.
  unfold castle_moves, castle_conditions. rewrite !square_attacked_scan.
  intros H Hin. destruct side; simpl in H; injection H as <-.
  all: apply in_app_or in Hin as [Hin | Hin];
    match type of Hin with
    | In _ (if ?c then _ else _) =>
        destruct c eqn:Hc; [|destruct Hin]
    end;
    destruct Hin as [<- | []];
    repeat (apply andb_prop in Hc as [Hc ?]);
    repeat match goal with
           | H : negb _ = true |- _ => apply negb_true_iff in H
           | H : (_ =? _) = true |- _ => apply Z.eqb_eq in H
           end.
  - right. right. left. repeat split; try assumption; congruence.
  - right. right. right. repeat split; try assumption; congruence.
  - left. repeat split; try assumption; congruence.
  - right. left. repeat split; try assumption; congruence.
Qed.

(** C5, as the code has it.  When [pseudo_moves] computes its list, a
    castle move is in it only if the matching right is set, the
    squares between king and rook are empty (on the queenside the
    b-file square too), and the king's origin square and the square
    it passes over (f or d) are not attacked by the opponent.  The
    king's destination square (g or c) is not tested. *)
Theorem castle_move_preconditions (b b' : Board) (_side : option bool)
    (l : list move_t) (m : move_t) :
  m_move_cache b !! m_hash b = None ->
  pseudo_moves b _side = Some (l, b') ->
  In m l -> move_castled m = true ->
  castle_conditions b (generating_side b _side) m.
Proof.
  intros Hmiss H Hin Hc. unfold pseudo_moves in H. rewrite Hmiss in H.
  destruct ((m_half_move b >? 1000) || (m_fifty_move b >? 75)).
  { injection H as <- _. destruct Hin. }
  fold (generating_side b _side) in H.
  destruct (generate_moves b (generating_side b _side)) as [result|] eqn:Hg;
    [|discriminate].
  destruct (length result <=? MAX_POSITION_MOVES)%nat; [|discriminate].
  injection H as <- _.
  destruct (generate_moves_castled _ _ _ _ Hg Hin Hc) as (castles & Hcm & Hm).
  exact (castle_moves_conditions _ _ _ _ Hcm Hm).
Qed.

(** ** The FEN codec: characters and numbers *)

Lemma code_chr (n : Z) : 0 <= n < 256 -> code (chr n) = n.
Proof.
  intros H. unfold code, chr. rewrite nat_ascii_embedding by lia. lia.
Qed.

Lemma digit_char_facts (d : Z) :
  0 <= d <= 9 ->
  code (digit_char d) = 48 + d
  /\ is_char (digit_char d) " " = false
  /\ is_char (digit_char d) "/" = false
  /\ is_digit (digit_char d) = true.
Proof.
  intros H.
  assert (Hd : d = 0 \/ d = 1 \/ d = 2 \/ d = 3 \/ d = 4 \/ d = 5 \/ d = 6
               \/ d = 7 \/ d = 8 \/ d = 9) by lia.
  repeat destruct Hd as [-> | Hd]; try subst d; repeat split; reflexivity.
Qed.

Lemma wrap32_small (x : Z) : 0 <= x < 2 ^ 32 -> wrap32 x = x.
Proof. intros H. unfold wrap32. apply Z.mod_small. exact H. Qed.

Lemma wrap64_small (x : Z) : 0 <= x < 2 ^ 64 -> wrap64 x = x.
Proof. intros H. unfold wrap64. apply Z.mod_small. exact H. Qed.

(** Reading back the digits of a number continues with the number
    accumulated. *)
Lemma parse_fifty_decimal (fuel : nat) (n : Z) (tail : list ascii) :
  0 <= n < 2 ^ 32 -> n < 10 ^ Z.of_nat fuel -> (0 < fuel)%nat ->
  parse_fifty (rev (decimal_rev fuel n) ++ tail) 0
  = match tail with
    | [] => None
    | c :: rest =>
        if is_char c " " then Some (tail, n)
        else ASSERT is_digit c;
             parse_fifty rest (wrap32 (10 * n + (code c - code "0")))
    end.
Proof.
  revert n tail. induction fuel as [|fuel IH]; intros n tail Hn Hf Hpos.
  - lia.
  - simpl decimal_rev. destruct (n <? 10) eqn:E.
    + apply Z.ltb_lt in E.
      destruct (digit_char_facts n ltac:(lia)) as (Hc & Hs & _ & Hd).
      simpl rev. simpl app. simpl parse_fifty. rewrite Hs, Hd, Hc.
      change (code "0") with 48.
      replace (wrap32 (10 * 0 + (48 + n - 48))) with n
        by (rewrite wrap32_small; lia).
      destruct tail; reflexivity.
    + apply Z.ltb_ge in E.
      simpl rev. rewrite <- app_assoc. simpl app.
      rewrite IH.
      * destruct (digit_char_facts (n mod 10) ltac:(dlia))
          as (Hc & Hs & _ & Hd).
        rewrite Hs, Hd, Hc. change (code "0") with 48.
        replace (wrap32 (10 * (n / 10) + (48 + n mod 10 - 48))) with n
          by (rewrite wrap32_small; dlia).
        destruct tail; reflexivity.
      * dlia.
      * rewrite Nat2Z.inj_succ, Z.pow_succ_r in Hf by lia. dlia.
      * destruct fuel; [|lia]. simpl in Hf. lia.
Qed.

Lemma parse_full_decimal (fuel : nat) (n : Z) (tail : list ascii) :
  0 <= n < 2 ^ 64 -> n < 10 ^ Z.of_nat fuel -> (0 < fuel)%nat ->
  parse_full (rev (decimal_rev fuel n) ++ tail) 0 = parse_full tail n.
Proof.
  revert n tail. induction fuel as [|fuel IH]; intros n tail Hn Hf Hpos.
  - lia.
  - simpl decimal_rev. destruct (n <? 10) eqn:E.
    + apply Z.ltb_lt in E.
      destruct (digit_char_facts n ltac:(lia)) as (Hc & _ & _ & Hd).
      simpl rev. simpl app. simpl parse_full. rewrite Hd, Hc.
      change (code "0") with 48.
      replace (wrap64 (10 * 0 + (48 + n - 48))) with n
        by (rewrite wrap64_small; lia).
      reflexivity.
    + apply Z.ltb_ge in E.
      simpl rev. rewrite <- app_assoc. simpl app.
      rewrite IH.
      * destruct (digit_char_facts (n mod 10) ltac:(dlia))
          as (Hc & _ & _ & Hd).
        simpl parse_full. rewrite Hd, Hc. change (code "0") with 48.
        replace (wrap64 (10 * (n / 10) + (48 + n mod 10 - 48))) with n
          by (rewrite wrap64_small; dlia).
        reflexivity.
      * dlia.
      * rewrite Nat2Z.inj_succ, Z.pow_succ_r in Hf by lia. dlia.
      * destruct fuel; [|lia]. simpl in Hf. lia.
Qed.

Lemma parse_fifty_round_trip (n : Z) (rest : list ascii) :
  0 <= n < 2 ^ 32 ->
  parse_fifty (decimal n ++ " "%char :: rest) 0
  = Some (" "%char :: rest, n).
Proof.
  intros H. unfold decimal. rewrite parse_fifty_decimal.
  - reflexivity.
  - exact H.
  - change (10 ^ Z.of_nat 20) with 100000000000000000000.
    change (2 ^ 32) with 4294967296 in H. lia.
  - lia.
Qed.

Lemma parse_full_round_trip (n : Z) :
  0 <= n < 2 ^ 64 -> parse_full (decimal n) 0 = Some n.
Proof.
  intros H. unfold decimal.
  rewrite <- (app_nil_r (rev (decimal_rev 20 n))).
  rewrite parse_full_decimal.
  - reflexivity.
  - exact H.
  - change (10 ^ Z.of_nat 20) with 100000000000000000000.
    change (2 ^ 64) with 18446744073709551616 in H. lia.
  - lia.
Qed.

(** The castle field. *)
Lemma parse_castle_round_trip (state : Z) (rest : list ascii) :
  0 <= state < 16 ->
  match fen_castle state ++ " "%char :: rest with
  | [] => None
  | c :: r =>
      if is_char c "-" then Some (r, 0)
      else parse_castle (fen_castle state ++ " "%char :: rest) 0
  end = Some (" "%char :: rest, state).
Proof.
  intros H.
  assert (Hs : state = 0 \/ state = 1 \/ state = 2 \/ state = 3
               \/ state = 4 \/ state = 5 \/ state = 6 \/ state = 7
               \/ state = 8 \/ state = 9 \/ state = 10 \/ state = 11
               \/ state = 12 \/ state = 13 \/ state = 14 \/ state = 15)
    by lia.
  repeat destruct Hs as [-> | Hs]; try subst state; reflexivity.
Qed.

(** ** The FEN codec: the en-passant field *)

Lemma sub_piece_at (b : Board) (sq : Z) :
  length (m_pieces b) = 120%nat -> 0 <= sq < 120 ->
  sub (m_pieces b) sq = Some (piece_at b sq).
Proof.
  intros Hlen H. unfold sub, piece_at.
  destruct (sq <? 0) eqn:E; [apply Z.ltb_lt in E; lia|].
  rewrite nth_lookup.
  destruct (m_pieces b !! Z.to_nat sq) eqn:E1; [reflexivity|].
  apply lookup_ge_None in E1. lia.
Qed.

Lemma valid_square_range (sq : Z) :
  valid_square sq = true -> 21 <= sq <= 98 /\ 1 <= sq mod 10 <= 8.
Proof.
  unfold valid_square. intros H.
  repeat (apply andb_prop in H as [H ?]).
  repeat match goal with
         | H : (_ <=? _) = true |- _ => apply Z.leb_le in H
         end.
  lia.
Qed.

Lemma parse_en_passant_round_trip (P b : Board) (rest : list ascii) :
  m_pieces b = m_pieces P ->
  m_next_move_colour b = m_next_move_colour P ->
  length (m_pieces P) = 120%nat ->
  en_passant_ok P = true ->
  parse_en_passant b (string_from_square (m_en_passant P)
                        ++ " "%char :: rest)
  = Some (" "%char :: rest, en_passant_kept P).
Proof.
  intros Hp Hc Hlen Hok. unfold en_passant_ok in Hok.
  unfold string_from_square, en_passant_kept.
  destruct (m_en_passant P =? INVALID_SQUARE) eqn:E; [reflexivity|].
  simpl in Hok. apply andb_prop in Hok as [Hv Hrow].
  apply valid_square_range in Hv. apply Z.eqb_eq in Hrow.
  set (ep := m_en_passant P) in *.
  assert (Hr : get_square_row ep = 2 \/ get_square_row ep = 5).
  { rewrite Hrow. destruct (m_next_move_colour P); [left|right]; reflexivity. }
  unfold get_square_row in Hr, Hrow.
  simpl app. unfold parse_en_passant.
  change (code "a") with 97. change (code "1") with 49.
  change (code "-") with 45.
  unfold is_char at 1. rewrite code_chr by dlia.
  change (code "-") with 45.
  replace (97 + (ep mod 10 - 1) =? 45) with false
    by (symmetry; apply Z.eqb_neq; dlia).
  rewrite !code_chr by (unfold get_square_row; dlia).
  unfold get_square_row.
  replace (wrap32 (49 + (ep / 10 - 2) - 49)) with (ep / 10 - 2)
    by (rewrite wrap32_small; dlia).
  replace (wrap32 (97 + (ep mod 10 - 1) - 97)) with (ep mod 10 - 1)
    by (rewrite wrap32_small; dlia).
  replace (get_square_120_rc (ep / 10 - 2) (ep mod 10 - 1)) with ep
    by (unfold get_square_120_rc; dlia).
  rewrite Hc, Hp.
  rewrite !sub_piece_at by (assumption || lia).
  unfold RANK_3, RANK_6 in *.
  destruct (m_next_move_colour P); simpl Bool.eqb; cbv iota;
    rewrite Hrow; simpl implb; cbv iota.
  all: destruct (piece_at P (ep - 1) =? _); simpl; [reflexivity|];
    destruct (piece_at P (ep + 1) =? _); reflexivity.
Qed.
(** ** The FEN codec: the placement field *)

Lemma with_pieces_id (b : Board) : with_pieces b (m_pieces b) = b.
Proof. destruct b. reflexivity. Qed.

Lemma valid_piece_cases (p : Z) :
  valid_piece p = true -> In p all_pieces.
Proof.
  unfold valid_piece. intros H.
  repeat (apply andb_prop in H as [H ?]).
  apply Z.leb_le in H.
  match goal with Hp : (p <? 16) = true |- _ => apply Z.ltb_lt in Hp end.
  assert (Hc : p = 0 \/ p = 1 \/ p = 2 \/ p = 3 \/ p = 4 \/ p = 5 \/ p = 6
               \/ p = 7 \/ p = 8 \/ p = 9 \/ p = 10 \/ p = 11 \/ p = 12
               \/ p = 13 \/ p = 14 \/ p = 15) by lia.
  repeat destruct Hc as [-> | Hc]; try subst p;
    try discriminate; simpl; tauto.
Qed.

Lemma piece_char_facts (p : Z) :
  valid_piece p = true ->
  is_char (char_from_piece p) " " = false
  /\ is_char (char_from_piece p) "/" = false
  /\ (code "1" <=? code (char_from_piece p))
     && (code (char_from_piece p) <=? code "8") = false
  /\ piece_from_char (char_from_piece p) = p
  /\ 0 <= p < 16.
Proof.
  intros H. apply valid_piece_cases in H. simpl in H.
  repeat destruct H as [<- | H]; try destruct H;
    repeat split; try reflexivity; try discriminate.
Qed.

Lemma clear_cells_noop (pieces : list Z) (sq : Z) (n : nat) :
  0 <= sq ->
  (forall i, sq <= i < sq + Z.of_nat n ->
             pieces !! Z.to_nat i = Some INVALID_PIECE) ->
  clear_cells pieces sq n = Some pieces.
Proof.
  revert sq. induction n as [|n IH]; intros sq H0 H; simpl; [reflexivity|].
  unfold sub. destruct (sq <? 0) eqn:E; [apply Z.ltb_lt in E; lia|].
  rewrite (H sq) by lia. rewrite list_insert_id by (apply H; lia).
  apply IH; [lia|]. intros i Hi. apply H. lia.
Qed.

Lemma fen_square_valid (k : Z) :
  0 <= k < 64 -> valid_square (fen_square k) = true.
Proof.
  intros H. unfold valid_square, fen_square.
  repeat (apply andb_true_intro; split); apply Z.leb_le; dlia.
Qed.

Lemma fen_pieces_lookup (b : Board) (k : Z) :
  0 <= k < 64 ->
  fen_pieces b !! Z.to_nat k = Some (piece_at b (fen_square k)).
Proof.
  intros H. unfold fen_pieces, fen_squares.
  rewrite !list_lookup_fmap, lookup_seq_lt by lia.
  simpl. rewrite Z2Nat.id by lia. reflexivity.
Qed.

Lemma count_occ_take_le (l : list Z) (k : nat) (p : Z) :
  (count_occ Z.eq_dec (take k l) p <= count_occ Z.eq_dec l p)%nat.
Proof.
  rewrite <- (take_drop k l) at 2. rewrite count_occ_app. lia.
Qed.

Lemma count_occ_take_S (l : list Z) (k : nat) (x p : Z) :
  l !! k = Some x ->
  count_occ Z.eq_dec (take (S k) l) p
  = (count_occ Z.eq_dec (take k l) p + (if Z.eq_dec x p then 1 else 0))%nat.
Proof.
  intros H. rewrite (take_S_r _ _ _ H), count_occ_app. simpl.
  destruct (Z.eq_dec x p); reflexivity.
Qed.

Lemma parse_placement_cons (c : ascii) (rest : list ascii) (square_idx : Z)
    (b : Board) :
  parse_placement (c :: rest) square_idx b
  = if is_char c " " then Some (c :: rest, square_idx, b)
    else if is_char c "/" then
      ASSERT square_idx mod 10 =? 9;
      parse_placement rest (wrap32 (square_idx - 18)) b
    else if (code "1" <=? code c) && (code c <=? code "8") then
      let num_spaces := code c - code "0" in
      do pieces <- clear_cells (m_pieces b) square_idx (Z.to_nat num_spaces);
      let square_idx := wrap32 (square_idx + num_spaces) in
      ASSERT row_end_or_valid square_idx;
      parse_placement rest square_idx (with_pieces b pieces)
    else
      let piece_idx := piece_from_char c in
      ASSERT valid_square square_idx;
      ASSERT valid_piece piece_idx;
      do piece_list <- sub (m_positions b) piece_idx;
      do num <- sub (m_num_pieces b) piece_idx;
      ASSERT (num <? MAX_PIECE_FREQ)%nat;
      ASSERT (num <? length piece_list)%nat;
      let b :=
        MkBoard (<[Z.to_nat square_idx := piece_idx]> (m_pieces b))
          (<[Z.to_nat piece_idx := <[num := square_idx]> piece_list]>
             (m_positions b))
          (<[Z.to_nat piece_idx := S num]> (m_num_pieces b))
          (m_next_move_colour b) (m_castle_state b) (m_en_passant b)
          (m_fifty_move b) (m_half_move b) (m_hash b) (m_history b)
          (m_move_cache b) in
      let square_idx := wrap32 (square_idx + 1) in
      ASSERT row_end_or_valid square_idx;
      parse_placement rest square_idx b.
Proof. reflexivity. Qed.

Lemma fen_placement_S (fuel : nat) (b : Board) (square_idx blank_count : Z) :
  fen_placement (S fuel) b square_idx blank_count
  = if square_idx =? 29 then Some (flush_blanks blank_count)
    else
      do turn <-
        (if square_idx mod 10 =? 9 then
           ASSERT implb (negb (blank_count =? 0)) (blank_count <=? 8);
           Some (flush_blanks blank_count ++ ["/"%char], square_idx - 18, 0)
         else Some ([], square_idx, blank_count));
      let '(out, square_idx, blank_count) := turn in
      let piece := piece_at b square_idx in
      if piece =? INVALID_PIECE then
        do rest <- fen_placement fuel b (square_idx + 1) (blank_count + 1);
        Some (out ++ rest)
      else
        do rest <- fen_placement fuel b (square_idx + 1) 0;
        Some (out ++ flush_blanks blank_count
                  ++ [char_from_piece piece] ++ rest).
Proof. reflexivity. Qed.

Section Placement.

Variable P : Board.

Hypothesis P_length : length (m_pieces P) = 120%nat.
Hypothesis P_cells :
  forall sq, 0 <= sq < 120 ->
             piece_at P sq = INVALID_PIECE
             \/ valid_piece (piece_at P sq) = true.
Hypothesis P_counts :
  forall p, valid_piece p = true -> (pieces_on P p <= MAX_PIECE_FREQ)%nat.

(** The value of [square_idx] when [k] squares are done. *)
Definition cursor (k : Z) : Z := if k =? 0 then 91 else fen_square (k - 1) + 1.

(** The parser's board when it has read the first [k] squares. *)
Definition parsed_upto (k : Z) (pb : Board) : Prop :=
  length (m_pieces pb) = 120%nat
  /\ (forall i, 0 <= i < 64 ->
                piece_at pb (fen_square i)
                = if i <? k then piece_at P (fen_square i)
                  else INVALID_PIECE)
  /\ (forall sq, valid_square sq = false -> piece_at pb sq = INVALID_PIECE)
  /\ length (m_positions pb) = 16%nat
  /\ (forall q l, m_positions pb !! q = Some l ->
                  length l = MAX_PIECE_FREQ)
  /\ length (m_num_pieces pb) = 16%nat
  /\ (forall p, valid_piece p = true ->
                m_num_pieces pb !! Z.to_nat p
                = Some (count_occ Z.eq_dec
                          (take (Z.to_nat k) (fen_pieces P)) p)).

(** The run of empty squares the renderer has counted and not yet
    written. *)
Definition pending (k blank : Z) : Prop :=
  0 <= blank
  /\ (blank = 0 \/ (0 < k /\ blank <= (k - 1) mod 8 + 1))
  /\ (forall j, k - blank <= j < k ->
                piece_at P (fen_square j) = INVALID_PIECE).

Lemma parsed_upto_blank (k : Z) (pb : Board) :
  0 <= k < 64 -> piece_at P (fen_square k) = INVALID_PIECE ->
  parsed_upto k pb -> parsed_upto (k + 1) pb.
Proof.
  intros Hk Hp (Hlen & Hcells & Hborder & Hpl & Hpl2 & Hnl & Hnum).
  unfold parsed_upto. repeat split; try assumption.
  - intros i Hi. rewrite (Hcells i Hi).
    destruct (i <? k) eqn:E1, (i <? k + 1) eqn:E2; try reflexivity.
    + apply Z.ltb_lt in E1. apply Z.ltb_ge in E2. lia.
    + apply Z.ltb_ge in E1. apply Z.ltb_lt in E2.
      replace i with k by lia. symmetry. exact Hp.
  - intros p Hv. rewrite (Hnum p Hv). f_equal.
    replace (Z.to_nat (k + 1)) with (S (Z.to_nat k)) by lia.
    rewrite (count_occ_take_S _ _ _ p (fen_pieces_lookup P k Hk)).
    rewrite Hp. destruct (Z.eq_dec INVALID_PIECE p) as [<-|];
      [discriminate Hv|].
    symmetry. apply Nat.add_0_r.
Qed.

(** The parser on the digit of a run of empty squares that ends before
    square [c]. *)
Lemma parse_flush (k blank : Z) (pb : Board) (rest : list ascii) :
  0 <= k <= 64 -> pending k blank -> parsed_upto k pb ->
  parse_placement (flush_blanks blank ++ rest) (cursor k - blank) pb
  = parse_placement rest (cursor k) pb.
Proof.
  intros Hk (Hb0 & Hb & Hpend) Hpb. unfold flush_blanks.
  destruct (blank =? 0) eqn:E.
  { apply Z.eqb_eq in E. subst blank. simpl.
    replace (cursor k - 0) with (cursor k) by lia. reflexivity. }
  apply Z.eqb_neq in E. destruct Hb as [Hb | [Hk0 Hb]]; [lia|].
  destruct Hpb as (Hlen & Hcells & _).
  assert (Hblank : 1 <= blank <= 8) by dlia.
  destruct (digit_char_facts blank ltac:(lia)) as (Hc & Hs & Hsl & _).
  cbn [negb app]. rewrite parse_placement_cons. rewrite Hs, Hsl, Hc.
  change (code "1") with 49. change (code "8") with 56.
  change (code "0") with 48.
  replace ((49 <=? 48 + blank) && (48 + blank <=? 56)) with true
    by (symmetry; apply andb_true_intro; split; apply Z.leb_le; lia).
  cbv zeta.
  replace (48 + blank - 48) with blank by lia.
  assert (Hcur : cursor k = fen_square (k - 1) + 1).
  { unfold cursor. destruct (k =? 0) eqn:E0; [|reflexivity].
    apply Z.eqb_eq in E0. lia. }
  rewrite clear_cells_noop.
  - rewrite with_pieces_id.
    replace (wrap32 (cursor k - blank + blank)) with (cursor k)
      by (rewrite wrap32_small;
          [lia | rewrite Hcur; unfold fen_square; dlia]).
    replace (row_end_or_valid (cursor k)) with true; [reflexivity|].
    symmetry. unfold row_end_or_valid. rewrite Hcur.
    destruct (Z.eq_dec (k mod 8) 0) as [Hm|Hm].
    + replace ((fen_square (k - 1) + 1) mod 10 =? 9) with true;
        [reflexivity|].
      symmetry. apply Z.eqb_eq. unfold fen_square. dlia.
    + replace (fen_square (k - 1) + 1) with (fen_square k)
        by (unfold fen_square; dlia).
      rewrite fen_square_valid by dlia. apply orb_true_r.
  - rewrite Hcur. unfold fen_square. dlia.
  - intros i Hi. rewrite Z2Nat.id in Hi by lia.
    assert (Hj : i = fen_square (k - blank + (i - (cursor k - blank)))).
    { rewrite Hcur in *. unfold fen_square in *. dlia. }
    set (j := k - blank + (i - (cursor k - blank))) in *.
    assert (Hjr : k - blank <= j < k) by (subst j; lia).
    assert (Hat : piece_at pb i = INVALID_PIECE).
    { rewrite Hj, Hcells by dlia.
      destruct (j <? k); [apply Hpend; lia | reflexivity]. }
    unfold piece_at in Hat.
    assert (Hi0 : 0 <= i < 120).
    { rewrite Hj. pose proof (fen_square_valid j ltac:(dlia)) as Hv.
      apply valid_square_range in Hv. lia. }
    destruct (i <? 0) eqn:Ei; [apply Z.ltb_lt in Ei; lia|].
    rewrite nth_lookup in Hat.
    destruct (m_pieces pb !! Z.to_nat i) as [x|] eqn:El.
    + simpl in Hat. rewrite Hat. reflexivity.
    + apply lookup_ge_None in El. lia.
Qed.

Lemma parse_slash (c : Z) (pb : Board) (rest : list ascii) :
  c mod 10 = 9 -> 18 <= c < 2 ^ 32 ->
  parse_placement ("/"%char :: rest) c pb
  = parse_placement rest (c - 18) pb.
Proof.
  intros Hm Hc. rewrite parse_placement_cons.
  change (is_char "/" " ") with false. change (is_char "/" "/") with true.
  cbv iota. rewrite Hm. change (9 =? 9) with true. cbv iota.
  rewrite wrap32_small by lia. reflexivity.
Qed.

(** The parser on a piece letter. *)
Lemma parse_piece (k : Z) (pb : Board) :
  0 <= k < 64 ->
  valid_piece (piece_at P (fen_square k)) = true ->
  parsed_upto k pb ->
  exists pb',
    parsed_upto (k + 1) pb'
    /\ forall rest,
         parse_placement
           (char_from_piece (piece_at P (fen_square k)) :: rest)
           (fen_square k) pb
         = parse_placement rest (fen_square k + 1) pb'.
Proof.
  intros Hk Hv (Hlen & Hcells & Hborder & Hpl & Hpl2 & Hnl & Hnum).
  set (s := fen_square k) in *. set (p := piece_at P s) in *.
  destruct (piece_char_facts p Hv) as (Hs & Hsl & Hd & Hback & Hp16).
  pose proof (fen_square_valid k Hk) as Hsv. fold s in Hsv.
  pose proof (valid_square_range s Hsv) as Hsr.
  assert (Hl : exists l, m_positions pb !! Z.to_nat p = Some l).
  { destruct (m_positions pb !! Z.to_nat p) eqn:E; [eauto|].
    apply lookup_ge_None in E. lia. }
  destruct Hl as (l & Hl). pose proof (Hpl2 _ _ Hl) as Hll.
  pose proof (Hnum p Hv) as Hn.
  assert (Hstep : count_occ Z.eq_dec
                    (take (S (Z.to_nat k)) (fen_pieces P)) p
                  = S (count_occ Z.eq_dec
                         (take (Z.to_nat k) (fen_pieces P)) p)).
  { rewrite (count_occ_take_S _ _ _ p (fen_pieces_lookup P k Hk)).
    fold s. fold p. destruct (Z.eq_dec p p); [|congruence].
    apply Nat.add_1_r. }
  remember (count_occ Z.eq_dec (take (Z.to_nat k) (fen_pieces P)) p)
    as num eqn:Hnum_def.
  assert (Hlt : (num < MAX_PIECE_FREQ)%nat).
  { pose proof (count_occ_take_le (fen_pieces P) (S (Z.to_nat k)) p) as H1.
    pose proof (P_counts p Hv) as H2.
    rewrite Hstep in H1.
    apply Nat.lt_le_trans with (m := S num); [apply Nat.lt_succ_diag_r|].
    exact (Nat.le_trans _ _ _ H1 H2). }
  exists (MkBoard (<[Z.to_nat s := p]> (m_pieces pb))
            (<[Z.to_nat p := <[num := s]> l]> (m_positions pb))
            (<[Z.to_nat p := S num]> (m_num_pieces pb))
            (m_next_move_colour pb) (m_castle_state pb)
            (m_en_passant pb) (m_fifty_move pb) (m_half_move pb)
            (m_hash pb) (m_history pb) (m_move_cache pb)).
  split.
  - assert (Hins : forall x,
              piece_at
                (MkBoard (<[Z.to_nat s := p]> (m_pieces pb))
                   (<[Z.to_nat p := <[num := s]> l]> (m_positions pb))
                   (<[Z.to_nat p := S num]> (m_num_pieces pb))
                   (m_next_move_colour pb) (m_castle_state pb)
                   (m_en_passant pb) (m_fifty_move pb) (m_half_move pb)
                   (m_hash pb) (m_history pb) (m_move_cache pb)) x
              = if x =? s then p else piece_at pb x).
    { intros x. apply (piece_at_insert pb); [lia | lia | reflexivity]. }
    unfold parsed_upto. cbn [m_pieces m_positions m_num_pieces].
    repeat split.
    + rewrite length_insert. exact Hlen.
    + intros i Hi. rewrite Hins, (Hcells i Hi).
      destruct (fen_square i =? s) eqn:E.
      * apply Z.eqb_eq in E.
        assert (i = k) by (unfold s, fen_square in E; dlia). subst i.
        replace (k <? k + 1) with true by (symmetry; apply Z.ltb_lt; lia).
        reflexivity.
      * apply Z.eqb_neq in E.
        assert (i <> k) by (intros ->; apply E; reflexivity).
        destruct (i <? k) eqn:E1, (i <? k + 1) eqn:E2; try reflexivity.
        -- apply Z.ltb_lt in E1. apply Z.ltb_ge in E2. lia.
        -- apply Z.ltb_ge in E1. apply Z.ltb_lt in E2. lia.
    + intros sq Hsq. rewrite Hins.
      destruct (sq =? s) eqn:E; [|apply Hborder; exact Hsq].
      apply Z.eqb_eq in E. subst sq. congruence.
    + rewrite length_insert. exact Hpl.
    + intros q l' Hq.
      destruct (decide (q = Z.to_nat p)) as [->|Hne].
      * rewrite list_lookup_insert_eq in Hq
          by (apply lookup_lt_Some in Hl; exact Hl).
        injection Hq as <-. rewrite length_insert. exact Hll.
      * rewrite list_lookup_insert_ne in Hq by congruence.
        exact (Hpl2 _ _ Hq).
    + rewrite length_insert. exact Hnl.
    + intros p' Hv'.
      destruct (piece_char_facts p' Hv') as (_ & _ & _ & _ & Hp16').
      replace (Z.to_nat (k + 1)) with (S (Z.to_nat k)) by lia.
      destruct (Z.eq_dec p' p) as [->|Hne].
      * rewrite list_lookup_insert_eq by lia. rewrite Hstep. reflexivity.
      * rewrite list_lookup_insert_ne by lia.
        rewrite (Hnum p' Hv'). f_equal.
        rewrite (count_occ_take_S _ _ _ p' (fen_pieces_lookup P k Hk)).
        fold s. fold p. destruct (Z.eq_dec p p'); [congruence|].
        symmetry. apply Nat.add_0_r.
  - intros rest. rewrite parse_placement_cons.
    rewrite Hs, Hsl, Hd. cbv zeta. rewrite Hback, Hsv, Hv.
    unfold sub.
    destruct (p <? 0) eqn:E; [apply Z.ltb_lt in E; lia|].
    rewrite Hl, Hn.
    replace (num <? MAX_PIECE_FREQ)%nat with true
      by (symmetry; apply Nat.ltb_lt; exact Hlt).
    replace (num <? length l)%nat with true
      by (symmetry; apply Nat.ltb_lt; lia).
    rewrite wrap32_small by lia.
    replace (row_end_or_valid (s + 1)) with true; [reflexivity|].
    symmetry. unfold row_end_or_valid.
    destruct (Z.eq_dec (s mod 10) 8) as [Hm|Hm].
    + replace ((s + 1) mod 10 =? 9) with true; [reflexivity|].
      symmetry. apply Z.eqb_eq. dlia.
    + replace (valid_square (s + 1)) with true; [apply orb_true_r|].
      symmetry. unfold valid_square.
      repeat (apply andb_true_intro; split); apply Z.leb_le; dlia.
Qed.

Lemma cursor_next (k : Z) : 0 <= k < 64 -> cursor (k + 1) = fen_square k + 1.
Proof.
  intros H. unfold cursor.
  destruct (k + 1 =? 0) eqn:E; [apply Z.eqb_eq in E; lia|].
  replace (k + 1 - 1) with k by lia. reflexivity.
Qed.

(** One turn of the renderer's loop up to the read of the piece, and
    the parser on what it writes. *)
Lemma placement_turn (k blank : Z) (pb : Board) :
  0 <= k < 64 -> pending k blank -> parsed_upto k pb ->
  exists pre blank',
    (if cursor k mod 10 =? 9
     then ASSERT implb (negb (blank =? 0)) (blank <=? 8);
          Some (flush_blanks blank ++ ["/"%char], cursor k - 18, 0)
     else Some ([], cursor k, blank))
    = Some (pre, fen_square k, blank')
    /\ pending k blank'
    /\ (blank' = 0 \/ fen_square k = cursor k)
    /\ forall rest,
         parse_placement (pre ++ rest) (cursor k - blank) pb
         = parse_placement rest (fen_square k - blank') pb.
Proof.
  intros Hk64 Hpend Hpb.
  pose proof (fen_square_valid k Hk64) as Hsv.
  pose proof (valid_square_range _ Hsv) as Hsr.
  pose proof Hpend as (Hb0 & Hb & Hp).
  destruct (cursor k mod 10 =? 9) eqn:E.
  - apply Z.eqb_eq in E.
    assert (Hk0 : 0 < k /\ k mod 8 = 0).
    { unfold cursor in E. destruct (k =? 0) eqn:E0.
      - discriminate E.
      - apply Z.eqb_neq in E0. unfold fen_square in E. dlia. }
    assert (H18 : cursor k - 18 = fen_square k).
    { unfold cursor. destruct (k =? 0) eqn:E0;
        [apply Z.eqb_eq in E0; lia|]. unfold fen_square. dlia. }
    exists (flush_blanks blank ++ ["/"%char]), 0.
    replace (implb (negb (blank =? 0)) (blank <=? 8)) with true.
    + rewrite H18. split; [reflexivity|]. split; [|split].
      * unfold pending. split; [lia|]. split; [left; reflexivity|].
        intros j Hj. lia.
      * left. reflexivity.
      * intros rest. rewrite <- app_assoc.
        rewrite (parse_flush k blank pb) by (assumption || lia).
        cbn [app]. rewrite parse_slash by lia.
        rewrite H18. f_equal. lia.
    + symmetry. destruct (blank =? 0); [reflexivity|]. cbn [negb implb].
      apply Z.leb_le. destruct Hb; dlia.
  - apply Z.eqb_neq in E.
    assert (Hc : cursor k = fen_square k).
    { unfold cursor in *. destruct (k =? 0) eqn:E0.
      - apply Z.eqb_eq in E0. subst k. reflexivity.
      - apply Z.eqb_neq in E0. unfold fen_square in *. dlia. }
    exists [], blank. rewrite Hc. split; [reflexivity|].
    split; [exact Hpend|]. split; [right; reflexivity|].
    intros rest. reflexivity.
Qed.

(** Rendering the squares from the [k]-th on and parsing the result
    ends with the parser at 29 and all 64 squares read. *)
Lemma placement_loop (n : nat) :
  forall (k blank : Z) (pb : Board) (tail : list ascii),
    Z.of_nat n = 64 - k -> 0 <= k ->
    pending k blank -> parsed_upto k pb ->
    exists out pb',
      fen_placement (S n) P (cursor k) blank = Some out
      /\ parse_placement (out ++ " "%char :: tail) (cursor k - blank) pb
         = Some (" "%char :: tail, 29, pb')
      /\ parsed_upto 64 pb'.
Proof.
  induction n as [|n IH]; intros k blank pb tail Hn Hk Hpend Hpb.
  - assert (k = 64) by lia. subst k.
    exists (flush_blanks blank), pb. split; [reflexivity|]. split; [|exact Hpb].
    rewrite (parse_flush 64 blank pb) by (assumption || lia).
    reflexivity.
  - assert (Hk64 : 0 <= k < 64) by lia.
    assert (Hne : (cursor k =? 29) = false).
    { apply Z.eqb_neq. unfold cursor. destruct (k =? 0); [lia|].
      unfold fen_square. dlia. }
    destruct (placement_turn k blank pb Hk64 Hpend Hpb)
      as (pre & blank' & Hturn & Hpend' & Hcur & Hparse).
    pose proof Hpend' as (Hb0 & Hb & Hp).
    rewrite fen_placement_S. rewrite Hne, Hturn. cbv iota beta zeta.
    destruct (piece_at P (fen_square k) =? INVALID_PIECE) eqn:Epiece.
    + apply Z.eqb_eq in Epiece.
      destruct (IH (k + 1) (blank' + 1) pb tail) as (out & pb' & Ho & Hq & Hf).
      * lia.
      * lia.
      * unfold pending. split; [lia|]. split.
        -- right. split; [lia|]. replace (k + 1 - 1) with k by lia.
           destruct Hb as [-> | [Hk0 Hb]]; [dlia|].
           destruct Hcur as [-> | Hcur]; [dlia|].
           unfold cursor in Hcur. destruct (k =? 0) eqn:E0;
             [apply Z.eqb_eq in E0; lia|].
           unfold fen_square in Hcur. dlia.
        -- intros j Hj. destruct (Z.eq_dec j k) as [->|];
             [exact Epiece | apply Hp; lia].
      * apply parsed_upto_blank; assumption.
      * rewrite cursor_next in Ho, Hq by exact Hk64.
        exists (pre ++ out), pb'. rewrite Ho. split; [reflexivity|].
        split; [|exact Hf].
        rewrite <- app_assoc, Hparse. rewrite <- Hq. f_equal. lia.
    + apply Z.eqb_neq in Epiece.
      pose proof (fen_square_valid k Hk64) as Hsv.
      pose proof (valid_square_range _ Hsv) as Hsr.
      assert (Hv : valid_piece (piece_at P (fen_square k)) = true).
      { destruct (P_cells (fen_square k) ltac:(lia)); [contradiction|].
        assumption. }
      destruct (parse_piece k pb Hk64 Hv Hpb) as (pb1 & Hpb1 & Hpiece).
      destruct (IH (k + 1) 0 pb1 tail) as (out & pb' & Ho & Hq & Hf).
      * lia.
      * lia.
      * unfold pending. split; [lia|]. split; [left; reflexivity|].
        intros j Hj. lia.
      * exact Hpb1.
      * rewrite cursor_next in Ho, Hq by exact Hk64.
        exists (pre ++ flush_blanks blank'
                    ++ [char_from_piece (piece_at P (fen_square k))] ++ out),
          pb'.
        rewrite Ho. split; [reflexivity|]. split; [|exact Hf].
        rewrite <- !app_assoc, Hparse.
        replace (parse_placement
                   (flush_blanks blank'
                    ++ [char_from_piece (piece_at P (fen_square k))]
                    ++ out ++ " "%char :: tail)
                   (fen_square k - blank') pb)
          with (parse_placement
                  ([char_from_piece (piece_at P (fen_square k))]
                   ++ out ++ " "%char :: tail)
                  (fen_square k) pb).
        -- cbn [app]. rewrite Hpiece. rewrite <- Hq. f_equal. lia.
        -- destruct Hcur as [-> | Hcur].
           ++ cbn [flush_blanks]. cbn [app].
              replace (fen_square k - 0) with (fen_square k) by lia.
              reflexivity.
           ++ rewrite Hcur.
              rewrite (parse_flush k blank' pb) by (assumption || lia).
              reflexivity.
Qed.

End Placement.

Lemma piece_at_blank (sq : Z) : piece_at blank_board sq = INVALID_PIECE.
Proof.
  unfold piece_at, blank_board. cbn [m_pieces].
  destruct (sq <? 0); [reflexivity|].
  rewrite nth_lookup.
  destruct (repeat INVALID_PIECE 120 !! Z.to_nat sq) as [x|] eqn:E;
    [|reflexivity].
  apply list_elem_of_lookup_2, list_elem_of_In, repeat_spec in E.
  exact E.
Qed.

Lemma parsed_upto_blank_board (P : Board) : parsed_upto P 0 blank_board.
Proof.
  unfold parsed_upto. repeat split.
  - intros i Hi. rewrite piece_at_blank.
    destruct (i <? 0) eqn:E; [apply Z.ltb_lt in E; lia | reflexivity].
  - intros sq _. apply piece_at_blank.
  - intros q l Hq. cbn [m_positions blank_board] in Hq.
    apply list_elem_of_lookup_2, list_elem_of_In, repeat_spec in Hq.
    subst l. apply repeat_length.
  - intros p Hv. apply valid_piece_cases in Hv. simpl in Hv.
    repeat destruct Hv as [<- | Hv]; try destruct Hv; reflexivity.
Qed.

Lemma forallb_squares_120 (f : Z -> bool) (sq : Z) :
  forallb f squares_120 = true -> 0 <= sq < 120 -> f sq = true.
Proof.
  intros H Hsq. rewrite forallb_forall in H. apply H.
  apply squares_120_In; lia.
Qed.

Lemma parsed_all_pieces (P pb : Board) :
  length (m_pieces P) = 120%nat ->
  (forall sq, 0 <= sq < 120 -> valid_square sq = false ->
              piece_at P sq = INVALID_PIECE) ->
  parsed_upto P 64 pb -> m_pieces pb = m_pieces P.
Proof.
  intros Hlen Hborder (Hl & Hcells & Hb & _).
  assert (Hat : forall sq, 0 <= sq < 120 -> piece_at pb sq = piece_at P sq).
  { intros sq Hsq. destruct (valid_square sq) eqn:Hv.
    - apply valid_square_range in Hv.
      assert (Hj : exists j, 0 <= j < 64 /\ sq = fen_square j).
      { exists ((9 - sq / 10) * 8 + (sq mod 10 - 1)).
        unfold fen_square. dlia. }
      destruct Hj as (j & Hj & ->). rewrite (Hcells j Hj).
      replace (j <? 64) with true by (symmetry; apply Z.ltb_lt; lia).
      reflexivity.
    - rewrite (Hb sq Hv), (Hborder sq Hsq Hv). reflexivity. }
  apply list_eq. intros i.
  destruct (decide (i < 120)%nat) as [Hi|Hi].
  - specialize (Hat (Z.of_nat i) ltac:(lia)). unfold piece_at in Hat.
    destruct (Z.of_nat i <? 0) eqn:E; [apply Z.ltb_lt in E; lia|].
    rewrite Nat2Z.id, !nth_lookup in Hat.
    destruct (m_pieces pb !! i) eqn:E1;
      [|apply lookup_ge_None in E1; lia].
    destruct (m_pieces P !! i) eqn:E2;
      [|apply lookup_ge_None in E2; lia].
    simpl in Hat. congruence.
  - rewrite !lookup_ge_None_2 by lia. reflexivity.
Qed.

(** The placement field read back from the blank board. *)
Lemma placement_round_trip (P : Board) (tail : list ascii) :
  length (m_pieces P) = 120%nat ->
  forallb (fun sq => valid_square sq
                     || (piece_at P sq =? INVALID_PIECE)) squares_120
  = true ->
  forallb (fun sq => (piece_at P sq =? INVALID_PIECE)
                     || valid_piece (piece_at P sq)) squares_120
  = true ->
  forallb (fun p => (pieces_on P p <=? MAX_PIECE_FREQ)%nat) all_pieces
  = true ->
  exists out pb,
    fen_placement 65 P A8 0 = Some out
    /\ parse_placement (out ++ " "%char :: tail) A8 blank_board
       = Some (" "%char :: tail, 29, pb)
    /\ m_pieces pb = m_pieces P.
Proof.
  intros Hlen Hborder Hcells Hcounts.
  assert (Hb : forall sq, 0 <= sq < 120 -> valid_square sq = false ->
                          piece_at P sq = INVALID_PIECE).
  { intros sq Hsq Hv.
    pose proof (forallb_squares_120 _ sq Hborder Hsq) as H.
    cbv beta in H. rewrite Hv in H. apply Z.eqb_eq. exact H. }
  assert (Hc : forall sq, 0 <= sq < 120 ->
                          piece_at P sq = INVALID_PIECE
                          \/ valid_piece (piece_at P sq) = true).
  { intros sq Hsq.
    pose proof (forallb_squares_120 _ sq Hcells Hsq) as H.
    cbv beta in H. apply orb_prop in H as [H|H];
      [left; apply Z.eqb_eq; exact H | right; exact H]. }
  assert (Hn : forall p, valid_piece p = true ->
                         (pieces_on P p <= MAX_PIECE_FREQ)%nat).
  { intros p Hv. apply valid_piece_cases in Hv.
    rewrite forallb_forall in Hcounts.
    apply Nat.leb_le. exact (Hcounts p Hv). }
  destruct (placement_loop P Hlen Hc Hn 64 0 0 blank_board tail)
    as (out & pb & Ho & Hp & Hf).
  - reflexivity.
  - lia.
  - unfold pending. split; [lia|]. split; [left; reflexivity|].
    intros j Hj. lia.
  - apply parsed_upto_blank_board.
  - exists out, pb. split; [exact Ho|]. split; [exact Hp|].
    exact (parsed_all_pieces P pb Hlen Hb Hf).
Qed.


(** ** Make and unmake: searching and swapping in a list *)

Lemma find_index_lookup (l : list Z) (x : Z) (i : nat) :
  find_index l x = Some i -> l !! i = Some x.
Proof.
  revert i. induction l as [|y l IH]; intros i H; simpl in H;
    [discriminate|].
  destruct (y =? x) eqn:E.
  - injection H as <-. apply Z.eqb_eq in E. subst. reflexivity.
  - destruct (find_index l x) as [j|]; [|discriminate].
    injection H as <-. simpl. apply IH. reflexivity.
Qed.

Lemma find_index_In (l : list Z) (x : Z) :
  In x l -> exists i, find_index l x = Some i.
Proof.
  induction l as [|y l IH]; intros H; [destruct H|]. simpl.
  destruct (y =? x) eqn:E; [eauto|].
  destruct H as [-> | H]; [rewrite Z.eqb_refl in E; discriminate|].
  destruct (IH H) as (i & ->). eauto.
Qed.

Lemma NoDup_insert_fresh (l : list Z) (i : nat) (y : Z) :
  NoDup l -> ~ In y l -> NoDup (<[i := y]> l).
Proof.
  intros Hnd Hy. apply NoDup_alt. intros a c v Ha Hc.
  rewrite list_lookup_insert in Ha, Hc.
  destruct (decide (i = a /\ (i < length l)%nat)) as [[Hia _]|Hna];
    destruct (decide (i = c /\ (i < length l)%nat)) as [[Hic _]|Hnc].
  - congruence.
  - injection Ha as <-. exfalso. apply Hy, list_elem_of_In.
    apply list_elem_of_lookup. eauto.
  - injection Hc as <-. exfalso. apply Hy, list_elem_of_In.
    apply list_elem_of_lookup. eauto.
  - exact (proj1 (NoDup_alt l) Hnd a c v Ha Hc).
Qed.

(** Overwriting the cell that holds [x0] swaps [x0] for [y] in the set
    of elements. *)
Lemma In_insert_NoDup (l : list Z) (i : nat) (x0 y x : Z) :
  NoDup l -> l !! i = Some x0 ->
  In x (<[i := y]> l) <-> x = y \/ (In x l /\ x <> x0).
Proof.
  intros Hnd Hi. pose proof (lookup_lt_Some _ _ _ Hi) as Hlen.
  rewrite <- !list_elem_of_In. rewrite !list_elem_of_lookup. split.
  - intros (j & Hj). rewrite list_lookup_insert in Hj.
    destruct (decide (i = j /\ (i < length l)%nat)) as [_|Hn].
    + left. congruence.
    + right. split; [eauto|]. intros ->.
      pose proof (proj1 (NoDup_alt l) Hnd i j x0 Hi Hj). lia.
  - intros [-> | [(j & Hj) Hne]].
    + exists i. rewrite list_lookup_insert_eq by exact Hlen. reflexivity.
    + exists j. rewrite list_lookup_insert_ne; [exact Hj|].
      intros ->. congruence.
Qed.

Lemma swap_cells_length (l : list Z) (i j : nat) :
  length (swap_cells l i j) = length l.
Proof.
  unfold swap_cells. destruct (l !! i), (l !! j);
    rewrite ?length_insert; reflexivity.
Qed.

(** [remove_piece] on a piece list: the element found is swapped with
    the last live one, and the live part shrinks by one. *)
Lemma take_swap_last (l : list Z) (n idx : nat) (sq : Z) :
  (n <= length l)%nat -> NoDup (take n l) ->
  take n l !! idx = Some sq ->
  NoDup (take (n - 1) (swap_cells l idx (n - 1)))
  /\ forall x, In x (take (n - 1) (swap_cells l idx (n - 1)))
               <-> In x (take n l) /\ x <> sq.
Proof.
  intros Hn Hnd Hidx.
  apply lookup_take_Some in Hidx as [Hidx Hlt].
  destruct n as [|n]; [lia|]. replace (S n - 1)%nat with n by lia.
  assert (Hlast : exists y, l !! n = Some y).
  { destruct (l !! n) eqn:E; [eauto|]. apply lookup_ge_None in E. lia. }
  destruct Hlast as (y & Hy).
  rewrite (take_S_r _ _ _ Hy) in Hnd.
  apply NoDup_app in Hnd as (HndM & Hfresh & _).
  unfold swap_cells. rewrite Hidx, Hy.
  rewrite take_insert_ge by lia.
  rewrite (take_S_r _ _ _ Hy).
  destruct (decide (idx = n)) as [->|Hne].
  - assert (y = sq) by congruence. subst y.
    rewrite list_insert_id by exact Hidx.
    split; [exact HndM|]. intros x. rewrite in_app_iff. simpl. split.
    + intros Hx. split; [left; exact Hx|]. intros ->.
      apply (Hfresh sq); [apply list_elem_of_In; exact Hx|].
      apply list_elem_of_In. left. reflexivity.
    + intros [[Hx | [<- | []]] Hne]; [exact Hx | congruence].
  - rewrite take_insert_lt by lia.
    assert (HM : take n l !! idx = Some sq)
      by (apply lookup_take_Some; split; [exact Hidx | lia]).
    assert (Hy' : ~ In y (take n l)).
    { intros Hin. apply list_elem_of_In in Hin.
      apply (Hfresh y Hin). apply list_elem_of_In. left. reflexivity. }
    split; [apply NoDup_insert_fresh; assumption|].
    intros x. rewrite (In_insert_NoDup _ _ sq y x HndM HM).
    rewrite in_app_iff. simpl. split.
    + intros [-> | [Hx Hne']].
      * split; [right; left; reflexivity|]. intros ->. apply Hy'.
        apply list_elem_of_In, list_elem_of_lookup. eauto.
      * split; [left; exact Hx | exact Hne'].
    + intros [[Hx | [<- | []]] Hne']; [right; tauto | left; reflexivity].
Qed.

(** ** The piece lists follow the mailbox *)

Lemma nth_insert_eq {A : Type} (l : list A) (j : nat) (x d : A) :
  (j < length l)%nat -> nth j (<[j := x]> l) d = x.
Proof.
  intros H. rewrite nth_lookup, list_lookup_insert_eq by exact H.
  reflexivity.
Qed.

Lemma nth_insert_ne {A : Type} (l : list A) (i j : nat) (x d : A) :
  i <> j -> nth i (<[j := x]> l) d = nth i l d.
Proof.
  intros H. rewrite !nth_lookup, list_lookup_insert_ne by congruence.
  reflexivity.
Qed.

Lemma sub_nth {A : Type} (l : list A) (i : Z) (d : A) :
  0 <= i -> (Z.to_nat i < length l)%nat ->
  sub l i = Some (nth (Z.to_nat i) l d).
Proof.
  intros H0 Hlen. unfold sub.
  destruct (i <? 0) eqn:E; [apply Z.ltb_lt in E; lia|].
  rewrite nth_lookup.
  destruct (l !! Z.to_nat i) eqn:E1; [reflexivity|].
  apply lookup_ge_None in E1. lia.
Qed.

Lemma valid_piece_range (p : Z) : valid_piece p = true -> 0 < p < 16.
Proof.
  intros H. apply valid_piece_cases in H. unfold all_pieces in H.
  simpl in H. unfold WHITE_PAWN, WHITE_KNIGHT, WHITE_BISHOP, WHITE_ROOK,
    WHITE_QUEEN, WHITE_KING, BLACK_PAWN, BLACK_KNIGHT, BLACK_BISHOP,
    BLACK_ROOK, BLACK_QUEEN, BLACK_KING in H.
  lia.
Qed.

(** A cell that holds a piece lies inside the mailbox. *)
Lemma piece_at_range (b : Board) (sq : Z) :
  valid_piece (piece_at b sq) = true ->
  0 <= sq /\ (Z.to_nat sq < length (m_pieces b))%nat.
Proof.
  unfold piece_at. destruct (sq <? 0) eqn:E; [discriminate|].
  apply Z.ltb_ge in E. intros H. split; [exact E|].
  destruct (Nat.lt_ge_cases (Z.to_nat sq) (length (m_pieces b)))
    as [Hlt | Hge]; [exact Hlt|].
  rewrite nth_overflow in H by exact Hge. discriminate.
Qed.

Lemma same_pos_fields (b b' : Board) :
  same_pos b b' ->
  m_pieces b' = m_pieces b /\ m_positions b' = m_positions b
  /\ m_num_pieces b' = m_num_pieces b.
Proof.
  unfold same_pos, core. intros H. injection H as Hp Hl Hn. tauto.
Qed.

Lemma same_pos_piece_at (b b' : Board) (s : Z) :
  same_pos b b' -> piece_at b' s = piece_at b s.
Proof.
  intros H. apply same_pos_fields in H as (Hp & _).
  unfold piece_at. rewrite Hp. reflexivity.
Qed.

Lemma same_pos_num_of (b b' : Board) (q : Z) :
  same_pos b b' -> num_of b' q = num_of b q.
Proof.
  intros H. apply same_pos_fields in H as (_ & _ & Hn).
  unfold num_of. rewrite Hn. reflexivity.
Qed.

Lemma same_pos_synced (b b' : Board) :
  same_pos b b' -> synced b -> synced b'.
Proof.
  intros H. apply same_pos_fields in H as (Hp & Hl & Hn).
  unfold synced, piece_list, num_of, piece_at.
  rewrite Hp, Hl, Hn. tauto.
Qed.

(** The list of a piece, seen through [sub]. *)
Lemma synced_subs (b : Board) (p : Z) :
  synced b -> valid_piece p = true ->
  sub (m_positions b) p = Some (nth (Z.to_nat p) (m_positions b) [])
  /\ sub (m_num_pieces b) p = Some (num_of b p)
  /\ length (nth (Z.to_nat p) (m_positions b) []) = MAX_PIECE_FREQ.
Proof.
  intros (_ & Hpl & Hll & Hnl & _) Hv. apply valid_piece_range in Hv.
  assert (Hs : sub (m_positions b) p
               = Some (nth (Z.to_nat p) (m_positions b) []))
    by (apply sub_nth; lia).
  split; [exact Hs|]. split; [apply sub_nth; lia|].
  apply sub_Some in Hs as (_ & _ & Hs). exact (Hll _ _ Hs).
Qed.

Lemma remove_piece_sync (b : Board) (sq p : Z) :
  synced b -> piece_at b sq = p -> valid_piece p = true ->
  exists b', remove_piece T b sq = Some b'
    /\ synced b'
    /\ (forall s, piece_at b' s
                  = if s =? sq then INVALID_PIECE else piece_at b s)
    /\ (forall q, num_of b' q
                  = if q =? p then (num_of b p - 1)%nat else num_of b q)
    /\ (0 < num_of b p)%nat
    /\ m_hash b' = Z.lxor (m_hash b) (piece_hash T sq p).
Proof.
  intros Hs Hp Hv.
  destruct (synced_subs b p Hs Hv) as (Hsl & Hsn & Hl10).
  pose proof (valid_piece_range p Hv) as Hpr.
  destruct Hs as (Hlen & Hpl & Hll & Hnl & Hcell & Hsync & Hdead).
  assert (Hr : 0 <= sq /\ (Z.to_nat sq < length (m_pieces b))%nat)
    by (apply piece_at_range; rewrite Hp; exact Hv).
  destruct (Hsync p Hv) as (Hnum & Hnd & Hin).
  assert (Hsq : In sq (piece_list b p)) by (apply Hin; exact Hp).
  destruct (find_index_In _ _ Hsq) as (idx & Hidx).
  pose proof (find_index_lookup _ _ _ Hidx) as Hlk.
  unfold piece_list in Hidx, Hlk, Hnd, Hin. fold (num_of b p) in *.
  set (l := nth (Z.to_nat p) (m_positions b) []) in *.
  assert (Hpos : (0 < num_of b p)%nat).
  { apply lookup_lt_Some in Hlk. rewrite length_take in Hlk. lia. }
  destruct (take_swap_last l (num_of b p) idx sq) as (Hnd' & Hin');
    [unfold MAX_PIECE_FREQ in *; lia | exact Hnd | exact Hlk |].
  unfold remove_piece.
  rewrite (sub_piece_at b sq) by lia. rewrite Hp, Hv, Hsl, Hsn, Hidx.
  eexists. split; [reflexivity|].
  match goal with |- synced ?B /\ _ => set (b' := B) end.
  assert (Hc : forall s, piece_at b' s
                         = if s =? sq then INVALID_PIECE else piece_at b s).
  { intros s. apply (piece_at_insert b); [lia | lia | reflexivity]. }
  assert (Hn : forall q, num_of b' q
                         = if q =? p then (num_of b p - 1)%nat
                           else num_of b q).
  { intros q. unfold num_of at 1. unfold b'. cbn [m_num_pieces].
    destruct (Z.eqb_spec q p) as [-> | Hne].
    - apply nth_insert_eq. lia.
    - apply nth_insert_ne. lia. }
  split; [|split; [exact Hc|split; [exact Hn|split; [exact Hpos|reflexivity]]]].
  unfold synced.
  split; [unfold b'; cbn [m_pieces]; rewrite length_insert; exact Hlen|].
  split; [unfold b'; cbn [m_positions]; rewrite length_insert; exact Hpl|].
  split.
  { intros q l' Hq. unfold b' in Hq. cbn [m_positions] in Hq.
    destruct (decide (q = Z.to_nat p)) as [-> | Hne].
    - rewrite list_lookup_insert_eq in Hq by lia. injection Hq as <-.
      rewrite swap_cells_length. exact Hl10.
    - rewrite list_lookup_insert_ne in Hq by congruence. exact (Hll _ _ Hq). }
  split; [unfold b'; cbn [m_num_pieces]; rewrite length_insert; exact Hnl|].
  split.
  { intros s. rewrite Hc. destruct (s =? sq); [left; reflexivity|].
    apply Hcell. }
  split.
  - intros q Hq. pose proof (valid_piece_range q Hq) as Hqr.
    unfold piece_list. fold (num_of b' q). rewrite Hn.
    change (m_positions b')
      with (<[Z.to_nat p := swap_cells l idx (num_of b p - 1)]>
              (m_positions b)).
    destruct (Z.eqb_spec q p) as [-> | Hne].
    + rewrite nth_insert_eq by lia.
      split; [lia|]. split; [exact Hnd'|].
      intros x. rewrite Hin', Hin, Hc.
      destruct (Z.eqb_spec x sq) as [-> | Hx];
        unfold INVALID_PIECE; intuition (try congruence; lia).
    + rewrite nth_insert_ne by lia.
      destruct (Hsync q Hq) as (Hnum2 & Hnd2 & Hin2).
      split; [exact Hnum2|]. split; [exact Hnd2|].
      intros x. unfold piece_list in Hin2. fold (num_of b q) in Hin2.
      rewrite Hin2, Hc.
      destruct (Z.eqb_spec x sq) as [-> | Hx]; [|tauto].
      unfold INVALID_PIECE. split; intros HH; [congruence | lia].
  - intros q Hq Hqv. rewrite Hn.
    destruct (Z.eqb_spec q p) as [-> | Hne]; [congruence|].
    apply Hdead; assumption.
Qed.

Lemma take_S_insert (l : list Z) (n : nat) (x : Z) :
  (n < length l)%nat -> take (S n) (<[n := x]> l) = take n l ++ [x].
Proof.
  intros H. rewrite (take_S_r _ _ x).
  - rewrite take_insert_ge by lia. reflexivity.
  - apply list_lookup_insert_eq. exact H.
Qed.

Lemma add_piece_sync (b : Board) (sq p : Z) :
  synced b -> 0 <= sq < 120 -> piece_at b sq = INVALID_PIECE ->
  valid_piece p = true -> (num_of b p < MAX_PIECE_FREQ)%nat ->
  exists b', add_piece T b sq p = Some b'
    /\ synced b'
    /\ (forall s, piece_at b' s = if s =? sq then p else piece_at b s)
    /\ (forall q, num_of b' q
                  = if q =? p then S (num_of b p) else num_of b q)
    /\ m_hash b' = Z.lxor (m_hash b) (piece_hash T sq p).
Proof.
  intros Hs Hr Hp Hv Hcap.
  destruct (synced_subs b p Hs Hv) as (Hsl & Hsn & Hl10).
  pose proof (valid_piece_range p Hv) as Hpr.
  destruct Hs as (Hlen & Hpl & Hll & Hnl & Hcell & Hsync & Hdead).
  destruct (Hsync p Hv) as (Hnum & Hnd & Hin).
  unfold piece_list in Hnd, Hin. fold (num_of b p) in *.
  set (l := nth (Z.to_nat p) (m_positions b) []) in *.
  unfold add_piece.
  rewrite Hv, (sub_piece_at b sq) by lia. rewrite Hp, Hsl, Hsn.
  change (INVALID_PIECE =? INVALID_PIECE) with true. cbv iota.
  replace (num_of b p <? length l)%nat with true
    by (symmetry; apply Nat.ltb_lt; lia).
  eexists. split; [reflexivity|].
  match goal with |- synced ?B /\ _ => set (b' := B) end.
  assert (Hc : forall s, piece_at b' s = if s =? sq then p else piece_at b s).
  { intros s. apply (piece_at_insert b); [lia | lia | reflexivity]. }
  assert (Hn : forall q, num_of b' q
                         = if q =? p then S (num_of b p) else num_of b q).
  { intros q. unfold num_of at 1. unfold b'. cbn [m_num_pieces].
    destruct (Z.eqb_spec q p) as [-> | Hne].
    - apply nth_insert_eq. lia.
    - apply nth_insert_ne. lia. }
  split; [|split; [exact Hc|split; [exact Hn|reflexivity]]].
  unfold synced. split; [unfold b'; cbn [m_pieces]; rewrite length_insert;
                         exact Hlen|].
  split; [unfold b'; cbn [m_positions]; rewrite length_insert; exact Hpl|].
  split.
  { intros q l' Hq. unfold b' in Hq. cbn [m_positions] in Hq.
    destruct (decide (q = Z.to_nat p)) as [-> | Hne].
    - rewrite list_lookup_insert_eq in Hq by lia. injection Hq as <-.
      rewrite length_insert. exact Hl10.
    - rewrite list_lookup_insert_ne in Hq by congruence. exact (Hll _ _ Hq). }
  split; [unfold b'; cbn [m_num_pieces]; rewrite length_insert; exact Hnl|].
  split.
  { intros s. rewrite Hc. destruct (s =? sq); [right; exact Hv|].
    apply Hcell. }
  split.
  - intros q Hq. pose proof (valid_piece_range q Hq) as Hqr.
    unfold piece_list. fold (num_of b' q). rewrite Hn.
    change (m_positions b')
      with (<[Z.to_nat p := <[num_of b p := sq]> l]> (m_positions b)).
    destruct (Z.eqb_spec q p) as [-> | Hne].
    + rewrite nth_insert_eq by lia. fold l.
      rewrite take_S_insert by lia.
      split; [lia|]. split.
      * apply NoDup_app. split; [exact Hnd|]. split; [|apply NoDup_singleton].
        intros x Hx Hx'. apply list_elem_of_In in Hx.
        apply list_elem_of_In in Hx'. destruct Hx' as [<- | []].
        apply Hin in Hx. unfold INVALID_PIECE in Hp. lia.
      * intros x. rewrite in_app_iff, Hin, Hc. simpl.
        destruct (Z.eqb_spec x sq) as [-> | Hx];
          unfold INVALID_PIECE in *; intuition (try congruence; lia).
    + rewrite nth_insert_ne by lia.
      destruct (Hsync q Hq) as (Hnum2 & Hnd2 & Hin2).
      split; [exact Hnum2|]. split; [exact Hnd2|].
      intros x. unfold piece_list in Hin2. fold (num_of b q) in Hin2.
      rewrite Hin2, Hc.
      destruct (Z.eqb_spec x sq) as [-> | Hx]; [|tauto].
      unfold INVALID_PIECE in *. split; intros HH; [lia | congruence].
  - intros q Hq Hqv. rewrite Hn.
    destruct (Z.eqb_spec q p) as [-> | Hne]; [congruence|].
    apply Hdead; assumption.
Qed.

Lemma move_piece_sync (b : Board) (from to p : Z) :
  synced b -> piece_at b from = p -> valid_piece p = true ->
  0 <= to < 120 -> piece_at b to = INVALID_PIECE ->
  exists b', move_piece T b from to = Some b'
    /\ synced b'
    /\ (forall s, piece_at b' s
                  = if s =? to then p
                    else if s =? from then INVALID_PIECE else piece_at b s)
    /\ (forall q, num_of b' q = num_of b q)
    /\ m_hash b'
       = Z.lxor (m_hash b)
           (Z.lxor (piece_hash T from p) (piece_hash T to p)).
Proof.
  intros Hs Hp Hv Hr Hto.
  destruct (synced_subs b p Hs Hv) as (Hsl & Hsn & Hl10).
  pose proof (valid_piece_range p Hv) as Hpr.
  destruct Hs as (Hlen & Hpl & Hll & Hnl & Hcell & Hsync & Hdead).
  assert (Hfr : 0 <= from /\ (Z.to_nat from < length (m_pieces b))%nat)
    by (apply piece_at_range; rewrite Hp; exact Hv).
  destruct (Hsync p Hv) as (Hnum & Hnd & Hin).
  assert (Hsq : In from (piece_list b p)) by (apply Hin; exact Hp).
  destruct (find_index_In _ _ Hsq) as (idx & Hidx).
  pose proof (find_index_lookup _ _ _ Hidx) as Hlk.
  unfold piece_list in Hidx, Hlk, Hnd, Hin. fold (num_of b p) in *.
  set (l := nth (Z.to_nat p) (m_positions b) []) in *.
  assert (Hlt : (idx < num_of b p)%nat).
  { apply lookup_lt_Some in Hlk. rewrite length_take in Hlk. lia. }
  unfold move_piece.
  rewrite (sub_piece_at b to) by lia. rewrite Hto.
  change (INVALID_PIECE =? INVALID_PIECE) with true. cbv iota.
  rewrite (sub_piece_at b from) by lia. rewrite Hp, Hsl, Hsn, Hidx.
  eexists. split; [reflexivity|].
  match goal with |- synced ?B /\ _ => set (b' := B) end.
  assert (Hc : forall s, piece_at b' s
                         = if s =? to then p
                           else if s =? from then INVALID_PIECE
                                else piece_at b s).
  { intros s.
    rewrite (piece_at_insert
               (with_pieces b (<[Z.to_nat from := INVALID_PIECE]> (m_pieces b)))
               b' to p s);
      [| lia | cbn [with_pieces m_pieces]; rewrite length_insert; lia
       | reflexivity].
    rewrite (piece_at_insert b _ from INVALID_PIECE s);
      [reflexivity | lia | lia | reflexivity]. }
  assert (Hn : forall q, num_of b' q = num_of b q) by reflexivity.
  split; [|split; [exact Hc|split; [exact Hn|reflexivity]]].
  unfold synced.
  split; [unfold b'; cbn [m_pieces]; rewrite !length_insert; exact Hlen|].
  split; [unfold b'; cbn [m_positions]; rewrite length_insert; exact Hpl|].
  split.
  { intros q l' Hq. unfold b' in Hq. cbn [m_positions] in Hq.
    destruct (decide (q = Z.to_nat p)) as [-> | Hne].
    - rewrite list_lookup_insert_eq in Hq by lia. injection Hq as <-.
      rewrite length_insert. exact Hl10.
    - rewrite list_lookup_insert_ne in Hq by congruence. exact (Hll _ _ Hq). }
  split; [exact Hnl|]. split.
  { intros s. rewrite Hc. destruct (s =? to); [right; exact Hv|].
    destruct (s =? from); [left; reflexivity|]. apply Hcell. }
  split.
  - intros q Hq. pose proof (valid_piece_range q Hq) as Hqr.
    unfold piece_list. fold (num_of b' q). rewrite Hn.
    change (m_positions b')
      with (<[Z.to_nat p := <[idx := to]> l]> (m_positions b)).
    destruct (Z.eqb_spec q p) as [-> | Hne].
    + rewrite nth_insert_eq by lia. fold l.
      rewrite take_insert_lt by exact Hlt.
      assert (Hfresh : ~ In to (take (num_of b p) l)).
      { intros Hx. apply Hin in Hx. unfold INVALID_PIECE in Hto. lia. }
      split; [exact Hnum|]. split.
      * apply NoDup_insert_fresh; assumption.
      * intros x. rewrite (In_insert_NoDup _ _ from to x Hnd Hlk).
        rewrite Hin, Hc.
        destruct (Z.eqb_spec x to) as [-> | Hx]; [tauto|].
        destruct (Z.eqb_spec x from) as [-> | Hx'];
          unfold INVALID_PIECE in *; intuition (try congruence; lia).
    + rewrite nth_insert_ne by lia.
      destruct (Hsync q Hq) as (Hnum2 & Hnd2 & Hin2).
      split; [exact Hnum2|]. split; [exact Hnd2|].
      intros x. unfold piece_list in Hin2. fold (num_of b q) in Hin2.
      rewrite Hin2, Hc.
      destruct (Z.eqb_spec x to) as [-> | Hx];
        [unfold INVALID_PIECE in *; split; intros HH; [lia | congruence]|].
      destruct (Z.eqb_spec x from) as [-> | Hx']; [|tauto].
      unfold INVALID_PIECE in *. split; intros HH; [congruence | lia].
  - intros q Hq Hqv. rewrite Hn. apply Hdead; assumption.
Qed.

(** ** The primitives on a board known up to its other fields *)

Lemma core_with_colour (b : Board) (v : bool) :
  core (with_colour b v) = core b.
Proof. reflexivity. Qed.
Lemma core_with_castle_state (b : Board) (v : Z) :
  core (with_castle_state b v) = core b.
Proof. reflexivity. Qed.
Lemma core_with_en_passant (b : Board) (v : Z) :
  core (with_en_passant b v) = core b.
Proof. reflexivity. Qed.
Lemma core_with_fifty_move (b : Board) (v : Z) :
  core (with_fifty_move b v) = core b.
Proof. reflexivity. Qed.
Lemma core_with_half_move (b : Board) (v : Z) :
  core (with_half_move b v) = core b.
Proof. reflexivity. Qed.
Lemma core_with_hash (b : Board) (v : Z) : core (with_hash b v) = core b.
Proof. reflexivity. Qed.
Lemma core_with_history (b : Board) (v : list history_t) :
  core (with_history b v) = core b.
Proof. reflexivity. Qed.
Lemma core_with_move_cache (b : Board) (v : gmap Z (list move_t)) :
  core (with_move_cache b v) = core b.
Proof. reflexivity. Qed.
Lemma core_set_en_passant (b : Board) (sq : Z) :
  core (set_en_passant T b sq) = core b.
Proof. reflexivity. Qed.
Lemma core_set_castle_state (b : Board) (state : Z) :
  core (set_castle_state T b state) = core b.
Proof. reflexivity. Qed.
Lemma core_switch_colours (b : Board) : core (switch_colours T b) = core b.
Proof. reflexivity. Qed.
Lemma core_update_castling (b : Board) (sq moved : Z) :
  core (update_castling T b sq moved) = core b.
Proof. unfold update_castling. destruct (is_castle moved); reflexivity. Qed.
Lemma core_restore_entry (b : Board) (entry : history_t)
    (rest : list history_t) :
  core (restore_entry T b entry rest) = core b.
Proof. reflexivity. Qed.

Create Rewrite HintDb board_core.

#[local] Hint Rewrite core_with_colour core_with_castle_state
  core_with_en_passant core_with_fifty_move core_with_half_move
  core_with_hash core_with_history core_with_move_cache core_set_en_passant
  core_set_castle_state core_switch_colours core_update_castling
  core_restore_entry : board_core.

Ltac pos_tac :=
  unfold same_pos in *; autorewrite with board_core in *; congruence.

Lemma remove_piece_ok (b0 b : Board) (sq p : Z) :
  same_pos b0 b -> synced b0 -> piece_at b0 sq = p ->
  valid_piece p = true ->
  exists b', remove_piece T b sq = Some b'
    /\ synced b'
    /\ (forall s, piece_at b' s
                  = if s =? sq then INVALID_PIECE else piece_at b0 s)
    /\ ((0 < num_of b0 p)%nat
        /\ forall q, num_of b' q
                     = if q =? p then (num_of b0 p - 1)%nat else num_of b0 q)
    /\ m_hash b' = Z.lxor (m_hash b) (piece_hash T sq p)
    /\ same_frame b b'.
Proof.
  intros Hsp Hs Hp Hv.
  destruct (remove_piece_sync b sq p) as (b' & E & Hs' & Hc & Hn & Hpos & Hh);
    [eapply same_pos_synced; eassumption
    | rewrite (same_pos_piece_at b0 b) by exact Hsp; exact Hp
    | exact Hv |].
  exists b'. split; [exact E|]. split; [exact Hs'|]. split.
  { intros s. rewrite Hc, (same_pos_piece_at b0 b) by exact Hsp.
    reflexivity. }
  rewrite (same_pos_num_of b0 b) in Hpos by exact Hsp.
  split; [split; [exact Hpos|]|].
  { intros q. rewrite Hn, !(same_pos_num_of b0 b) by exact Hsp.
    reflexivity. }
  split; [exact Hh|]. eapply remove_piece_frame. exact E.
Qed.

Lemma add_piece_ok (b0 b : Board) (sq p : Z) :
  same_pos b0 b -> synced b0 -> 0 <= sq < 120 ->
  piece_at b0 sq = INVALID_PIECE -> valid_piece p = true ->
  (num_of b0 p < MAX_PIECE_FREQ)%nat ->
  exists b', add_piece T b sq p = Some b'
    /\ synced b'
    /\ (forall s, piece_at b' s = if s =? sq then p else piece_at b0 s)
    /\ (forall q, num_of b' q
                  = if q =? p then S (num_of b0 p) else num_of b0 q)
    /\ m_hash b' = Z.lxor (m_hash b) (piece_hash T sq p)
    /\ same_frame b b'.
Proof.
  intros Hsp Hs Hr Hp Hv Hcap.
  destruct (add_piece_sync b sq p) as (b' & E & Hs' & Hc & Hn & Hh);
    [eapply same_pos_synced; eassumption
    | exact Hr
    | rewrite (same_pos_piece_at b0 b) by exact Hsp; exact Hp
    | exact Hv
    | rewrite (same_pos_num_of b0 b) by exact Hsp; exact Hcap |].
  exists b'. split; [exact E|]. split; [exact Hs'|]. split.
  { intros s. rewrite Hc, (same_pos_piece_at b0 b) by exact Hsp.
    reflexivity. }
  split.
  { intros q. rewrite Hn, !(same_pos_num_of b0 b) by exact Hsp.
    reflexivity. }
  split; [exact Hh|]. eapply add_piece_frame. exact E.
Qed.

Lemma move_piece_ok (b0 b : Board) (from to p : Z) :
  same_pos b0 b -> synced b0 -> piece_at b0 from = p ->
  valid_piece p = true -> 0 <= to < 120 ->
  piece_at b0 to = INVALID_PIECE ->
  exists b', move_piece T b from to = Some b'
    /\ synced b'
    /\ (forall s, piece_at b' s
                  = if s =? to then p
                    else if s =? from then INVALID_PIECE else piece_at b0 s)
    /\ (forall q, num_of b' q = num_of b0 q)
    /\ m_hash b'
       = Z.lxor (m_hash b)
           (Z.lxor (piece_hash T from p) (piece_hash T to p))
    /\ same_frame b b'.
Proof.
  intros Hsp Hs Hp Hv Hr Hto.
  destruct (move_piece_sync b from to p) as (b' & E & Hs' & Hc & Hn & Hh);
    [eapply same_pos_synced; eassumption
    | rewrite (same_pos_piece_at b0 b) by exact Hsp; exact Hp
    | exact Hv | exact Hr
    | rewrite (same_pos_piece_at b0 b) by exact Hsp; exact Hto |].
  exists b'. split; [exact E|]. split; [exact Hs'|]. split.
  { intros s. rewrite Hc, (same_pos_piece_at b0 b) by exact Hsp.
    reflexivity. }
  split.
  { intros q. rewrite Hn, (same_pos_num_of b0 b) by exact Hsp.
    reflexivity. }
  split; [exact Hh|]. eapply move_piece_frame. exact E.
Qed.

(** ** One move forth and back *)

(** What [make_move] and [unmake_move] need of a move: the squares it
    names hold what its fields say. *)
Definition castle_fits (b : Board) (king king_to rook rook_to : Z) : Prop :=
  valid_piece (piece_at b king) = true
  /\ valid_piece (piece_at b rook) = true
  /\ piece_at b king_to = INVALID_PIECE
  /\ piece_at b rook_to = INVALID_PIECE.

Definition move_fits (b : Board) (m : move_t) : Prop :=
  let from := move_from m in
  let to := move_to m in
  match move_flag m with
  | QUIET_MOVE | DOUBLE_PAWN_MOVE =>
      valid_piece (piece_at b from) = true
      /\ 0 <= to < 120 /\ piece_at b to = INVALID_PIECE
  | CAPTURE_MOVE =>
      valid_piece (piece_at b from) = true /\ from <> to
      /\ piece_at b to = captured_piece m
      /\ valid_piece (captured_piece m) = true
  | EN_PASSANT_MOVE =>
      let taken :=
        if m_next_move_colour b then to + 10 else to - 10 in
      valid_piece (piece_at b from) = true
      /\ 0 <= to < 120 /\ piece_at b to = INVALID_PIECE
      /\ to = m_en_passant b /\ taken <> from
      /\ piece_at b taken = captured_piece m
      /\ valid_piece (captured_piece m) = true
  | SHORT_CASTLE_MOVE =>
      if m_next_move_colour b then castle_fits b E8 G8 H8 F8
      else castle_fits b E1 G1 H1 F1
  | LONG_CASTLE_MOVE =>
      if m_next_move_colour b then castle_fits b E8 C8 A8 D8
      else castle_fits b E1 C1 A1 D1
  | PROMOTE_MOVE =>
      piece_at b from = moved_piece m
      /\ valid_piece (moved_piece m) = true
      /\ 0 <= to < 120 /\ piece_at b to = INVALID_PIECE
      /\ valid_piece (promoted_piece m) = true
      /\ (num_of b (promoted_piece m) < MAX_PIECE_FREQ)%nat
  | PROMOTE_CAPTURE_MOVE =>
      piece_at b from = moved_piece m
      /\ valid_piece (moved_piece m) = true /\ from <> to
      /\ piece_at b to = captured_piece m
      /\ valid_piece (captured_piece m) = true
      /\ valid_piece (promoted_piece m) = true
      /\ (num_of b (promoted_piece m) < MAX_PIECE_FREQ)%nat
  end.

(** [apply_move] succeeds on a board [ba] that has the pieces of [b];
    on any board [bX] that has the pieces of the result, the side to
    move and the en-passant target of [b], [unapply_move] succeeds and
    puts every piece back; the hash changes it makes are those of
    [apply_move] apart from the castle and en-passant keys. *)
Definition round_trip (b ba : Board) (m : move_t) : Prop :=
  exists b1,
    apply_move T ba m (m_next_move_colour b) = Some b1
    /\ forall bX,
         same_pos b1 bX ->
         m_next_move_colour bX = m_next_move_colour b ->
         m_en_passant bX = m_en_passant b ->
         exists b2,
           unapply_move T bX m = Some b2
           /\ synced b2
           /\ (forall s, piece_at b2 s = piece_at b s)
           /\ m_hash b2
              = Z.lxor (m_hash bX)
                  (Z.lxor (Z.lxor (m_hash b1) (m_hash ba))
                     (Z.lxor
                        (Z.lxor (castle_hash T (m_castle_state ba))
                           (castle_hash T (m_castle_state b1)))
                        (Z.lxor (enpas_hash T (m_en_passant ba))
                           (enpas_hash T (m_en_passant b1))))).

(** Read cells through the chain of updates. *)
Ltac cells :=
  intros;
  repeat match goal with
         | H : forall s, piece_at ?bk s = _ |- context [piece_at ?bk _] =>
             rewrite H
         end;
  repeat match goal with
         | |- context [?x =? ?y] => destruct (Z.eqb_spec x y)
         end;
  subst; unfold INVALID_PIECE in *;
  try reflexivity; try assumption; try congruence; try lia.

(** Follow the counts through the chain of updates. *)
Ltac counts :=
  intros;
  repeat match goal with
         | H : (0 < num_of _ _)%nat |- _ => revert H
         end;
  repeat match goal with
         | H : forall q, num_of ?bk q = _ |- context [num_of ?bk _] =>
             rewrite H
         end;
  repeat match goal with
         | |- context [?x =? ?y] => destruct (Z.eqb_spec x y)
         end;
  intros; subst; unfold MAX_PIECE_FREQ in *; try lia.

(** Run the primitive at the head of the goal. *)
Ltac step lem :=
  let b' := fresh "b" in
  let E := fresh "E" in
  let Hs := fresh "Hs" in
  let Hc := fresh "Hc" in
  let Hn := fresh "Hn" in
  let Hh := fresh "Hh" in
  let Hf := fresh "Hf" in
  destruct lem as (b' & E & Hs & Hc & Hn & Hh & Hf);
  [try pos_tac; try assumption; try solve [cells]; try solve [counts] ..
  | rewrite E; cbv beta iota].

Ltac step_move b0 p :=
  match goal with
  | |- context [move_piece T ?E ?from ?to] =>
      step (move_piece_ok b0 E from to p)
  end.

Ltac step_remove b0 p :=
  match goal with
  | |- context [remove_piece T ?E ?sq] =>
      step (remove_piece_ok b0 E sq p)
  end;
  [..| match goal with
       | H : (0 < num_of _ _)%nat /\ _ |- _ => destruct H
       end].

Ltac step_add b0 :=
  match goal with
  | |- context [add_piece T ?E ?sq ?p] =>
      step (add_piece_ok b0 E sq p)
  end.

(** Rewrite with the field equations of the context. *)
Ltac fields :=
  unfold same_frame in *;
  repeat match goal with
         | H : _ /\ _ |- _ => destruct H
         end;
  unfold update_castling, set_en_passant, set_castle_state, switch_colours,
    with_castle_state, with_en_passant, with_hash, with_colour in *;
  repeat match goal with
         | |- context [if negb (is_castle ?p) then _ else _] =>
             destruct (is_castle p)
         end;
  cbn [negb m_hash m_castle_state m_en_passant m_next_move_colour] in *;
  repeat match goal with
         | H : m_hash ?x = _ |- context [m_hash ?x] =>
             is_var x; rewrite H
         | H : m_castle_state ?x = _ |- context [m_castle_state ?x] =>
             is_var x; rewrite H
         | H : m_en_passant ?x = _ |- context [m_en_passant ?x] =>
             is_var x; rewrite H
         end.

Ltac rt_start :=
  unfold round_trip, apply_move, unapply_move;
  cbn [move_promoted move_castled move_captured move_flag move_from move_to
       moved_piece captured_piece promoted_piece flag_eqb].

(** The end of a case: the board is in sync, every cell is back, and
    the hash changes cancel. *)
Ltac rt_finish :=
  eexists; split; [reflexivity|]; split; [assumption|];
  split; [cells | fields; xor_solve].

Lemma synced_range (b : Board) (sq : Z) :
  synced b -> valid_piece (piece_at b sq) = true -> 0 <= sq < 120.
Proof.
  intros (Hlen & _) H. apply piece_at_range in H. lia.
Qed.

Lemma synced_num (b : Board) (p : Z) :
  synced b -> valid_piece p = true -> (num_of b p <= MAX_PIECE_FREQ)%nat.
Proof.
  intros (_ & _ & _ & _ & _ & Hsync & _) H. apply (Hsync p H).
Qed.

Section RoundTrip.

Variables (b ba : Board) (from to moved captured promoted : Z).
Hypothesis Hs : synced b.
Hypothesis Hsp : same_pos b ba.

Lemma round_trip_quiet :
  move_fits b (Move from to moved captured promoted QUIET_MOVE) ->
  round_trip b ba (Move from to moved captured promoted QUIET_MOVE).
Proof.
  intros (Hv & Hr & Hto). cbn [move_from move_to] in *.
  pose proof (synced_range _ _ Hs Hv) as Hfr.
  rt_start.
  step_move b (piece_at b from).
  eexists. split; [reflexivity|]. intros bX HspX HcolX HepX.
  step_move b0 (piece_at b from).
  rt_finish.
Qed.

Lemma round_trip_double :
  move_fits b (Move from to moved captured promoted DOUBLE_PAWN_MOVE) ->
  round_trip b ba (Move from to moved captured promoted DOUBLE_PAWN_MOVE).
Proof.
  intros (Hv & Hr & Hto). cbn [move_from move_to] in *.
  pose proof (synced_range _ _ Hs Hv) as Hfr.
  rt_start.
  step_move b (piece_at b from).
  eexists. split; [reflexivity|]. intros bX HspX HcolX HepX.
  step_move b0 (piece_at b from).
  rt_finish.
Qed.

Lemma round_trip_capture :
  move_fits b (Move from to moved captured promoted CAPTURE_MOVE) ->
  round_trip b ba (Move from to moved captured promoted CAPTURE_MOVE).
Proof.
  intros (Hv & Hne & Hto & Hvc).
  cbn [move_from move_to captured_piece] in *.
  pose proof (synced_range _ _ Hs Hv) as Hfr.
  assert (Htr : 0 <= to < 120)
    by (apply (synced_range b); [exact Hs | rewrite Hto; exact Hvc]).
  pose proof (synced_num _ _ Hs Hvc) as Hnc.
  pose proof (valid_piece_range _ Hvc) as Hcr.
  rt_start.
  step_remove b captured.
  step_move b0 (piece_at b from).
  eexists. split; [reflexivity|]. intros bX HspX HcolX HepX.
  step_move b1 (piece_at b from).
  step_add b2.
  rt_finish.
Qed.

Lemma round_trip_en_passant :
  move_fits b (Move from to moved captured promoted EN_PASSANT_MOVE) ->
  round_trip b ba (Move from to moved captured promoted EN_PASSANT_MOVE).
Proof.
  intros (Hv & Hr & Hto & Hep & Hne & Htk & Hvc).
  cbn [move_from move_to captured_piece] in *.
  pose proof (synced_range _ _ Hs Hv) as Hfr.
  pose proof (synced_num _ _ Hs Hvc) as Hnc.
  pose proof (valid_piece_range _ Hvc) as Hcr.
  assert (Htr : 0 <= (if m_next_move_colour b then to + 10 else to - 10)
                < 120)
    by (apply (synced_range b); [exact Hs | rewrite Htk; exact Hvc]).
  rt_start. unfold WHITE.
  destruct (m_next_move_colour b) eqn:Ecol; cbn [Bool.eqb] in *.
  - step_remove b captured.
    step_move b0 (piece_at b from).
    eexists. split; [reflexivity|]. intros bX HspX HcolX HepX.
    rewrite HcolX. cbn [Bool.eqb].
    step_move b1 (piece_at b from).
    replace (m_en_passant b2) with to
      by (unfold same_frame in *; intuition congruence).
    step_add b2.
    rt_finish.
  - step_remove b captured.
    step_move b0 (piece_at b from).
    eexists. split; [reflexivity|]. intros bX HspX HcolX HepX.
    rewrite HcolX. cbn [Bool.eqb].
    step_move b1 (piece_at b from).
    replace (m_en_passant b2) with to
      by (unfold same_frame in *; intuition congruence).
    step_add b2.
    rt_finish.
Qed.

Lemma round_trip_promote :
  move_fits b (Move from to moved captured promoted PROMOTE_MOVE) ->
  round_trip b ba (Move from to moved captured promoted PROMOTE_MOVE).
Proof.
  intros (Hfrom & Hv & Hr & Hto & Hvp & Hcap).
  cbn [move_from move_to moved_piece promoted_piece] in *.
  assert (Hfr : 0 <= from < 120)
    by (apply (synced_range b); [exact Hs | rewrite Hfrom; exact Hv]).
  pose proof (synced_num _ _ Hs Hv) as Hnm.
  pose proof (valid_piece_range _ Hv) as Hmr.
  pose proof (valid_piece_range _ Hvp) as Hpr.
  rt_start.
  step_add b.
  step_remove b0 moved.
  eexists. split; [reflexivity|]. intros bX HspX HcolX HepX.
  step_remove b1 promoted.
  step_add b2.
  rt_finish.
Qed.

Lemma round_trip_promote_capture :
  move_fits b (Move from to moved captured promoted PROMOTE_CAPTURE_MOVE) ->
  round_trip b ba
    (Move from to moved captured promoted PROMOTE_CAPTURE_MOVE).
Proof.
  intros (Hfrom & Hv & Hne & Hto & Hvc & Hvp & Hcap).
  cbn [move_from move_to moved_piece promoted_piece captured_piece] in *.
  assert (Hfr : 0 <= from < 120)
    by (apply (synced_range b); [exact Hs | rewrite Hfrom; exact Hv]).
  assert (Htr : 0 <= to < 120)
    by (apply (synced_range b); [exact Hs | rewrite Hto; exact Hvc]).
  pose proof (synced_num _ _ Hs Hv) as Hnm.
  pose proof (synced_num _ _ Hs Hvc) as Hnc.
  pose proof (valid_piece_range _ Hv) as Hmr.
  pose proof (valid_piece_range _ Hvp) as Hpr.
  pose proof (valid_piece_range _ Hvc) as Hcr.
  rt_start.
  step_remove b captured.
  step_add b0.
  step_remove b1 moved.
  eexists. split; [reflexivity|]. intros bX HspX HcolX HepX.
  step_remove b2 promoted.
  step_add b3.
  step_add b4.
  rt_finish.
Qed.

Lemma round_trip_castle (king king_to rook rook_to : Z) :
  castle_fits b king king_to rook rook_to ->
  king <> rook -> king <> rook_to -> king_to <> rook -> king_to <> rook_to ->
  0 <= king_to < 120 -> 0 <= rook_to < 120 ->
  exists b1,
    (do b' <- move_piece T ba king king_to; move_piece T b' rook rook_to)
    = Some b1
    /\ same_frame ba b1
    /\ m_hash b1
       = Z.lxor (m_hash ba)
           (Z.lxor
              (Z.lxor (piece_hash T king (piece_at b king))
                 (piece_hash T king_to (piece_at b king)))
              (Z.lxor (piece_hash T rook (piece_at b rook))
                 (piece_hash T rook_to (piece_at b rook))))
    /\ forall bX,
         same_pos b1 bX ->
         exists b2,
           (do b' <- move_piece T bX king_to king;
            move_piece T b' rook_to rook) = Some b2
           /\ synced b2
           /\ (forall s, piece_at b2 s = piece_at b s)
           /\ m_hash b2
              = Z.lxor (m_hash bX)
                  (Z.lxor
                     (Z.lxor (piece_hash T king (piece_at b king))
                        (piece_hash T king_to (piece_at b king)))
                     (Z.lxor (piece_hash T rook (piece_at b rook))
                        (piece_hash T rook_to (piece_at b rook)))).
Proof.
  intros (Hvk & Hvr & Hkt & Hrt) H1 H2 H3 H4 Hr1 Hr2.
  pose proof (synced_range _ _ Hs Hvk) as Hkr.
  pose proof (synced_range _ _ Hs Hvr) as Hrr.
  pose proof (valid_piece_range _ Hvk) as Hk0.
  pose proof (valid_piece_range _ Hvr) as Hr0.
  step_move b (piece_at b king).
  step_move b0 (piece_at b rook).
  eexists. split; [reflexivity|].
  split; [eapply same_frame_trans; eassumption|].
  split; [fields; xor_solve|].
  intros bX HspX.
  step_move b1 (piece_at b king).
  step_move b2 (piece_at b rook).
  eexists. split; [reflexivity|]. split; [assumption|].
  split; [cells | fields; xor_solve].
Qed.

Ltac castle_case k kt r rt Hfit :=
  destruct (round_trip_castle k kt r rt Hfit)
    as (b1 & E & Hf & Hh & Hback);
  [unfold E1, G1, H1, F1, C1, A1, D1, E8, G8, H8, F8, C8, A8, D8; lia ..|];
  unfold make_castle, WHITE; cbn [Bool.eqb flag_eqb];
  rewrite E; cbv beta iota;
  eexists; split; [reflexivity|]; intros bX HspX HcolX HepX;
  unfold unmake_castle, WHITE; rewrite HcolX; cbn [Bool.eqb flag_eqb];
  destruct (Hback bX) as (b2 & E2 & Hs2 & Hc2 & Hh2); [pos_tac|];
  rewrite E2; eexists; split; [reflexivity|]; split; [assumption|];
  split; [assumption | fields; xor_solve].

Lemma round_trip_short_castle :
  move_fits b (Move from to moved captured promoted SHORT_CASTLE_MOVE) ->
  round_trip b ba (Move from to moved captured promoted SHORT_CASTLE_MOVE).
Proof.
  unfold move_fits. cbn [move_flag]. intros Hfit. rt_start.
  destruct (m_next_move_colour b) eqn:Ecol.
  - castle_case E8 G8 H8 F8 Hfit.
  - castle_case E1 G1 H1 F1 Hfit.
Qed.

Lemma round_trip_long_castle :
  move_fits b (Move from to moved captured promoted LONG_CASTLE_MOVE) ->
  round_trip b ba (Move from to moved captured promoted LONG_CASTLE_MOVE).
Proof.
  unfold move_fits. cbn [move_flag]. intros Hfit. rt_start.
  destruct (m_next_move_colour b) eqn:Ecol.
  - castle_case E8 C8 A8 D8 Hfit.
  - castle_case E1 C1 A1 D1 Hfit.
Qed.

End RoundTrip.

Lemma round_trip_fits (b ba : Board) (m : move_t) :
  synced b -> same_pos b ba -> move_fits b m -> round_trip b ba m.
Proof.
  intros Hs Hsp Hfit. destruct m as [from to moved captured promoted flag].
  destruct flag.
  - apply round_trip_quiet; assumption.
  - apply round_trip_double; assumption.
  - apply round_trip_capture; assumption.
  - apply round_trip_en_passant; assumption.
  - apply round_trip_short_castle; assumption.
  - apply round_trip_long_castle; assumption.
  - apply round_trip_promote; assumption.
  - apply round_trip_promote_capture; assumption.
Qed.

(** ** The generated moves fit the board *)

Section Generated.

Variable b : Board.
Hypothesis Hs : synced b.

Lemma synced_cell (sq : Z) :
  piece_at b sq <> INVALID_PIECE -> valid_piece (piece_at b sq) = true.
Proof.
  destruct Hs as (_ & _ & _ & _ & Hcell & _).
  destruct (Hcell sq); tauto.
Qed.

Lemma synced_listed (p sq : Z) :
  valid_piece p = true -> In sq (piece_list b p) -> piece_at b sq = p.
Proof.
  destruct Hs as (_ & _ & _ & _ & _ & Hsync & _).
  intros Hv. apply (Hsync p Hv).
Qed.

Lemma valid_square_120 (sq : Z) : valid_square sq = true -> 0 <= sq < 120.
Proof. intros H. apply valid_square_range in H. lia. Qed.

Lemma opposite_colours_irrefl (p : Z) : opposite_colours p p = false.
Proof. unfold opposite_colours. rewrite eqb_reflx. reflexivity. Qed.

Lemma quiet_fits (start cur piece : Z) :
  piece_at b start = piece -> valid_piece piece = true ->
  valid_square cur = true -> piece_at b cur = INVALID_PIECE ->
  move_fits b (quiet_move start cur piece).
Proof.
  intros Hp Hv Hc He. unfold move_fits, quiet_move. cbn.
  rewrite Hp. auto using valid_square_120.
Qed.

Lemma capture_fits (start cur piece : Z) :
  piece_at b start = piece -> valid_piece piece = true ->
  opposite_colours piece (piece_at b cur) = true ->
  piece_at b cur <> INVALID_PIECE ->
  move_fits b (capture_move start cur piece (piece_at b cur)).
Proof.
  intros Hp Hv Ho He. unfold move_fits, capture_move. cbn.
  rewrite Hp. split; [exact Hv|]. split.
  - intros ->. rewrite Hp, opposite_colours_irrefl in Ho. discriminate.
  - split; [reflexivity|]. apply synced_cell. exact He.
Qed.

Lemma capture_at_fits (start cur piece : Z) (m : move_t) :
  piece_at b start = piece -> valid_piece piece = true ->
  (valid_square cur = true -> piece_at b cur <> INVALID_PIECE) ->
  In m (capture_at b start cur piece) -> move_fits b m.
Proof.
  intros Hp Hv Hne. unfold capture_at.
  destruct (valid_square cur) eqn:Ec; [|intros []].
  destruct (opposite_colours piece (piece_at b cur)) eqn:Eo; [|intros []].
  destruct (is_king (piece_at b cur)); [intros []|].
  intros [<- | []]. apply capture_fits; auto.
Qed.

Lemma slide_fits (offset start piece : Z) (m : move_t) (fuel : nat) :
  piece_at b start = piece -> valid_piece piece = true ->
  forall cur,
    run_valid fuel cur offset = false ->
    In m (slide fuel b start cur offset piece) -> move_fits b m.
Proof.
  intros Hp Hv. induction fuel as [|fuel IH]; intros cur Hrun Hin.
  - simpl in Hrun, Hin. eapply capture_at_fits; eauto. congruence.
  - simpl in Hrun, Hin.
    destruct (valid_square cur) eqn:Ec; simpl in Hrun, Hin.
    + destruct (piece_at b cur =? INVALID_PIECE) eqn:Ee.
      * apply Z.eqb_eq in Ee. destruct Hin as [<- | Hin].
        -- apply quiet_fits; assumption.
        -- apply (IH _ Hrun Hin).
      * apply Z.eqb_neq in Ee. eapply capture_at_fits; eauto.
    + eapply capture_at_fits; eauto. congruence.
Qed.

(** No ray holds nine playing squares in a row. *)
Lemma no_nine_in_line_120 :
  forallb
    (fun start =>
       forallb (fun offset => negb (run_valid RAY_FUEL (start + offset) offset))
         queen_offsets)
    squares_120 = true.
Proof. vm_compute. reflexivity. Qed.

Lemma no_nine_in_line (start offset : Z) :
  In offset queen_offsets ->
  run_valid RAY_FUEL (start + offset) offset = false.
Proof.
  intros Ho. destruct (valid_square (start + offset)) eqn:Ev;
    [|simpl; rewrite Ev; reflexivity].
  pose proof (valid_square_range _ Ev) as Hr.
  assert (Hstart : 0 <= start < 120).
  { unfold queen_offsets in Ho. simpl in Ho. lia. }
  pose proof (forallb_squares_120 _ start no_nine_in_line_120 Hstart) as H.
  cbv beta in H. rewrite forallb_forall in H. specialize (H offset Ho).
  apply negb_true_iff in H. exact H.
Qed.

Lemma slider_moves_fits (piece : Z) (offsets : list Z) (m : move_t) :
  valid_piece piece = true ->
  (forall o, In o offsets -> In o queen_offsets) ->
  In m (slider_moves b piece offsets) -> move_fits b m.
Proof.
  intros Hv Hsub Hin. unfold slider_moves in Hin.
  apply in_flat_map in Hin as (start & Hstart & Hin).
  apply in_flat_map in Hin as (offset & Ho & Hin).
  eapply slide_fits; [| exact Hv | | exact Hin].
  - apply synced_listed; assumption.
  - apply no_nine_in_line. auto.
Qed.

Lemma knight_moves_fits (piece : Z) (m : move_t) :
  valid_piece piece = true ->
  In m (knight_moves b piece) -> move_fits b m.
Proof.
  intros Hv Hin. unfold knight_moves in Hin.
  apply in_flat_map in Hin as (start & Hstart & Hin).
  apply in_flat_map in Hin as (offset & Ho & Hin).
  pose proof (synced_listed _ _ Hv Hstart) as Hp.
  unfold knight_step in Hin.
  destruct (valid_square (start + offset)) eqn:Ec; simpl in Hin;
    [|destruct Hin].
  destruct (piece_at b (start + offset) =? INVALID_PIECE) eqn:Ee.
  - apply Z.eqb_eq in Ee. destruct Hin as [<- | []].
    apply quiet_fits; assumption.
  - apply Z.eqb_neq in Ee.
    destruct (opposite_colours piece (piece_at b (start + offset))) eqn:Eo;
      simpl in Hin; [|destruct Hin].
    destruct (is_king (piece_at b (start + offset))); simpl in Hin;
      [destruct Hin|].
    destruct Hin as [<- | []]. apply capture_fits; assumption.
Qed.

(** The square of a king is the first entry of its list. *)
Lemma king_square (king : Z) :
  valid_piece king = true -> (0 < num_of b king)%nat ->
  piece_at b (position0 b king) = king.
Proof.
  intros Hv Hn. apply synced_listed; [exact Hv|].
  destruct (synced_subs b king Hs Hv) as (_ & _ & Hl).
  unfold piece_list, position0. fold (num_of b king).
  destruct (nth (Z.to_nat king) (m_positions b) []) as [|x l];
    [discriminate Hl|].
  destruct (num_of b king); [lia|]. simpl. left. reflexivity.
Qed.

Lemma king_moves_fits (king : Z) (m : move_t) :
  valid_piece king = true -> (0 < num_of b king)%nat ->
  In m (king_moves b king) -> move_fits b m.
Proof.
  intros Hv Hn Hin. unfold king_moves in Hin.
  apply in_flat_map in Hin as (offset & Ho & Hin).
  pose proof (king_square _ Hv Hn) as Hp.
  unfold king_step in Hin.
  destruct (valid_square (position0 b king + offset)) eqn:Ec;
    [|destruct Hin].
  destruct (piece_at b (position0 b king + offset) =? INVALID_PIECE) eqn:Ee.
  - apply Z.eqb_eq in Ee. destruct Hin as [<- | []].
    apply quiet_fits; assumption.
  - apply Z.eqb_neq in Ee.
    destruct (opposite_colours king
                (piece_at b (position0 b king + offset))) eqn:Eo;
      simpl in Hin; [|destruct Hin].
    destruct (is_king (piece_at b (position0 b king + offset)));
      simpl in Hin; [destruct Hin|].
    destruct Hin as [<- | []]. apply capture_fits; assumption.
Qed.

Section Pawns.

Variables (pawn : Z) (promote_pieces : list Z) (m : move_t).
Hypothesis Hpawn :
  pawn = if m_next_move_colour b then BLACK_PAWN else WHITE_PAWN.
Hypothesis Hpromote :
  forall p, In p promote_pieces -> valid_piece p = true.
Hypothesis Hroom :
  move_promoted m = true ->
  (num_of b (promoted_piece m) < MAX_PIECE_FREQ)%nat.
Hypothesis Hep : en_passant_pawn_ok b = true.

Lemma pawn_valid : valid_piece pawn = true.
Proof. rewrite Hpawn. destruct (m_next_move_colour b); reflexivity. Qed.

Lemma pawn_push_fits (start cur : Z) :
  piece_at b start = pawn ->
  valid_square cur = true -> piece_at b cur = INVALID_PIECE ->
  In m (map (promote_move start cur pawn) promote_pieces) ->
  move_fits b m.
Proof.
  intros Hp Hc He Hin. apply in_map_iff in Hin as (p & <- & Hin).
  unfold move_fits, promote_move in *. cbn in *.
  pose proof pawn_valid. pose proof (valid_square_120 _ Hc).
  auto 10.
Qed.

Lemma pawn_capture_fits (start capture : Z) :
  piece_at b start = pawn ->
  In m (pawn_capture b start capture pawn promote_pieces) ->
  move_fits b m.
Proof.
  intros Hp. unfold pawn_capture.
  destruct (valid_square capture) eqn:Ec; [|intros []].
  destruct (piece_at b capture =? INVALID_PIECE) eqn:Ee; [intros []|].
  apply Z.eqb_neq in Ee.
  destruct (opposite_colours pawn (piece_at b capture)) eqn:Eo; [|intros []].
  destruct (is_king (piece_at b capture)); [intros []|]. cbn [negb andb].
  pose proof pawn_valid as Hv.
  destruct (last_rank capture).
  - intros Hin. apply in_map_iff in Hin as (p & <- & Hin).
    unfold move_fits, promote_capture_move in *. cbn in *.
    split; [exact Hp|]. split; [exact Hv|]. split.
    { intros ->. rewrite Hp, opposite_colours_irrefl in Eo. discriminate. }
    split; [reflexivity|]. split; [apply synced_cell; exact Ee|]. auto.
  - intros [<- | []]. apply capture_fits; assumption.
Qed.

Lemma pawn_en_passant_fits (start capture : Z) :
  piece_at b start = pawn ->
  m_en_passant b <> INVALID_SQUARE ->
  In m (pawn_en_passant b start capture pawn) -> move_fits b m.
Proof.
  intros Hp Hne. unfold pawn_en_passant.
  destruct (capture =? m_en_passant b) eqn:Ec; [|intros []].
  apply Z.eqb_eq in Ec. subst capture.
  destruct (piece_at b (m_en_passant b) =? INVALID_PIECE) eqn:Ee;
    [|intros []].
  apply Z.eqb_eq in Ee. intros [<- | []].
  unfold en_passant_pawn_ok in Hep.
  apply orb_true_iff in Hep as [Hep' | Hep'];
    [apply Z.eqb_eq in Hep'; contradiction|].
  apply andb_prop in Hep' as [Hvs Hbehind].
  pose proof (valid_square_120 _ Hvs) as Hr.
  pose proof pawn_valid as Hv.
  unfold move_fits, en_passant_move. cbn.
  rewrite Hp. split; [exact Hv|]. split; [exact Hr|]. split; [exact Ee|].
  split; [reflexivity|].
  rewrite Hpawn in *.
  destruct (m_next_move_colour b); apply Z.eqb_eq in Hbehind;
    (split; [intros Heq; rewrite Heq, Hp in Hbehind; discriminate|]);
    rewrite Hbehind; split; reflexivity.
Qed.

Lemma pawn_moves_fits (start : Z) :
  In start (piece_list b pawn) ->
  In m (pawn_moves b (m_next_move_colour b) pawn promote_pieces start) ->
  move_fits b m.
Proof.
  intros Hstart Hin. pose proof pawn_valid as Hv.
  pose proof (synced_listed _ _ Hv Hstart) as Hp.
  assert (Hsr : 0 <= start < 120)
    by (apply (synced_range b); [exact Hs | rewrite Hp; exact Hv]).
  unfold pawn_moves in Hin.
  repeat (apply in_app_iff in Hin as [Hin | Hin]).
  - destruct (Bool.eqb (m_next_move_colour b) WHITE); [|destruct Hin].
    destruct (get_square_row start =? RANK_2) eqn:Erow; [|destruct Hin].
    destruct (piece_at b (start + 10) =? INVALID_PIECE); [|destruct Hin].
    destruct (piece_at b (start + 20) =? INVALID_PIECE) eqn:Ee;
      [|destruct Hin].
    destruct Hin as [<- | []]. apply Z.eqb_eq in Ee, Erow.
    unfold move_fits, double_move. cbn. rewrite Hp.
    unfold get_square_row, RANK_2 in Erow.
    split; [exact Hv|]. split; [dlia | exact Ee].
  - destruct (Bool.eqb (m_next_move_colour b) BLACK); [|destruct Hin].
    destruct (get_square_row start =? RANK_7) eqn:Erow; [|destruct Hin].
    destruct (piece_at b (start - 10) =? INVALID_PIECE); [|destruct Hin].
    destruct (piece_at b (start - 20) =? INVALID_PIECE) eqn:Ee;
      [|destruct Hin].
    destruct Hin as [<- | []]. apply Z.eqb_eq in Ee, Erow.
    unfold move_fits, double_move. cbn. rewrite Hp.
    unfold get_square_row, RANK_7 in Erow.
    split; [exact Hv|]. split; [dlia | exact Ee].
  - cbv zeta in Hin.
    match type of Hin with
    | In _ (if valid_square ?c && _ then _ else _) =>
        destruct (valid_square c) eqn:Ec; [|destruct Hin];
        destruct (piece_at b c =? INVALID_PIECE) eqn:Ee; [|destruct Hin];
        apply Z.eqb_eq in Ee; cbn [andb] in Hin;
        destruct (last_rank c)
    end.
    + eapply pawn_push_fits; eassumption.
    + destruct Hin as [<- | []]. apply quiet_fits; assumption.
  - eapply pawn_capture_fits; eassumption.
  - eapply pawn_capture_fits; eassumption.
  - destruct (m_en_passant b =? INVALID_SQUARE) eqn:Ee; [destruct Hin|].
    apply Z.eqb_neq in Ee. cbn [negb] in Hin.
    apply in_app_iff in Hin as [Hin | Hin];
      eapply pawn_en_passant_fits; eassumption.
Qed.

End Pawns.

Lemma occupied_valid (sq : Z) :
  occupied b sq = true -> valid_piece (piece_at b sq) = true.
Proof.
  unfold occupied. intros H. apply negb_true_iff, Z.eqb_neq in H.
  apply synced_cell. exact H.
Qed.

Lemma castle_moves_fits (l : list move_t) (m : move_t) :
  castle_squares_ok b = true ->
  castle_moves b (m_next_move_colour b) = Some l ->
  In m l -> move_fits b m.
Proof.
  unfold castle_squares_ok, castle_moves. intros Hok Hc Hin.
  repeat (apply andb_prop in Hok as [Hok ?]).
  rewrite !square_attacked_scan in Hc.
  destruct (m_next_move_colour b) eqn:Ecol; cbn [Bool.eqb WHITE] in Hc;
    injection Hc as <-; apply in_app_iff in Hin as [Hin | Hin];
    match type of Hin with
    | In _ (if ?c then _ else _) =>
        destruct c eqn:Econd; [|destruct Hin]
    end;
    destruct Hin as [<- | []];
    repeat (apply andb_prop in Econd as [Econd ?]);
    repeat match goal with
           | H : has_right ?s ?r = true, H' : implb (has_right ?s ?r) _ = true
             |- _ => rewrite H in H'; cbn [implb] in H';
                     apply andb_prop in H' as [? ?]
           end;
    repeat match goal with
           | H : (_ =? _) = true |- _ => apply Z.eqb_eq in H
           end;
    unfold move_fits, castle_move; cbn [move_flag]; rewrite Ecol;
    unfold castle_fits; auto using occupied_valid.
Qed.

End Generated.

Lemma generate_moves_fits (b : Board) (l : list move_t) (m : move_t) :
  playable b ->
  generate_moves b (m_next_move_colour b) = Some l -> In m l ->
  (move_promoted m = true ->
   (num_of b (promoted_piece m) < MAX_PIECE_FREQ)%nat) ->
  move_fits b m.
Proof.
  intros (Hs & Hwk & Hbk & Hcastle & Hep & _) Hgen Hin Hroom.
  unfold generate_moves in Hgen.
  destruct (castle_moves b (m_next_move_colour b)) as [castles|] eqn:Ec;
    [|discriminate].
  injection Hgen as <-.
  apply in_app_iff in Hin as [Hin | Hin];
    [|apply in_app_iff in Hin as [Hin | Hin];
      [|apply in_app_iff in Hin as [Hin | Hin];
        [|apply in_app_iff in Hin as [Hin | Hin];
          [|apply in_app_iff in Hin as [Hin | Hin];
            [|apply in_app_iff in Hin as [Hin | Hin]]]]]].
  - eapply slider_moves_fits; [exact Hs | | | exact Hin]; [|auto].
    destruct (m_next_move_colour b); reflexivity.
  - eapply slider_moves_fits; [exact Hs | | | exact Hin].
    + destruct (m_next_move_colour b); reflexivity.
    + unfold orthogonal_offsets, queen_offsets. simpl. intros o. lia.
  - eapply slider_moves_fits; [exact Hs | | | exact Hin].
    + destruct (m_next_move_colour b); reflexivity.
    + unfold diagonal_offsets, queen_offsets. simpl. intros o. lia.
  - eapply knight_moves_fits; [exact Hs | | exact Hin].
    destruct (m_next_move_colour b); reflexivity.
  - apply in_flat_map in Hin as (start & Hstart & Hin).
    eapply pawn_moves_fits; [exact Hs | | | exact Hroom | exact Hep
                            | exact Hstart | exact Hin].
    + destruct (m_next_move_colour b); reflexivity.
    + destruct (m_next_move_colour b); simpl;
        intros p [<- | [<- | [<- | [<- | []]]]]; reflexivity.
  - eapply king_moves_fits; [exact Hs | | | exact Hin].
    + destruct (m_next_move_colour b); reflexivity.
    + destruct (m_next_move_colour b); simpl; lia.
  - eapply castle_moves_fits; eassumption.
Qed.

(** ** Make, then unmake *)

Lemma unapply_move_frame (b b' : Board) (move : move_t) :
  unapply_move T b move = Some b' -> same_frame b b'.
Proof.
  unfold unapply_move, unmake_castle. intros H.
  monad_inv H; frames; intuition congruence.
Qed.

Lemma piece_list_length (b : Board) (p : Z) :
  synced b -> valid_piece p = true ->
  length (piece_list b p) = num_of b p.
Proof.
  intros Hs Hv. destruct (synced_subs b p Hs Hv) as (_ & _ & Hl).
  pose proof (synced_num b p Hs Hv).
  unfold piece_list. fold (num_of b p). rewrite length_take. lia.
Qed.

(** Two boards in sync with the same mailbox have the same counts and
    the same squares in their lists. *)
Lemma synced_same_cells (b b2 : Board) :
  synced b -> synced b2 ->
  (forall s, piece_at b2 s = piece_at b s) ->
  m_pieces b2 = m_pieces b
  /\ m_num_pieces b2 = m_num_pieces b
  /\ forall p, valid_piece p = true ->
       Permutation (piece_list b2 p) (piece_list b p).
Proof.
  intros Hs Hs2 Hc.
  assert (Hperm : forall p, valid_piece p = true ->
                    Permutation (piece_list b2 p) (piece_list b p)).
  { intros p Hv.
    destruct Hs as (_ & _ & _ & _ & _ & Hsync & _).
    destruct Hs2 as (_ & _ & _ & _ & _ & Hsync2 & _).
    destruct (Hsync p Hv) as (_ & Hnd & Hin).
    destruct (Hsync2 p Hv) as (_ & Hnd2 & Hin2).
    apply NoDup_Permutation; [exact Hnd2 | exact Hnd |].
    intros x. rewrite !list_elem_of_In, Hin, Hin2, Hc. tauto. }
  split; [|split; [|exact Hperm]].
  - pose proof Hs as (Hlen & _). pose proof Hs2 as (Hlen2 & _).
    apply (nth_ext _ _ INVALID_PIECE INVALID_PIECE); [congruence|].
    intros n Hn. specialize (Hc (Z.of_nat n)). unfold piece_at in Hc.
    destruct (Z.of_nat n <? 0) eqn:E; [apply Z.ltb_lt in E; lia|].
    rewrite Nat2Z.id in Hc. exact Hc.
  - pose proof Hs as (_ & _ & _ & Hlen & _ & _ & Hdead).
    pose proof Hs2 as (_ & _ & _ & Hlen2 & _ & _ & Hdead2).
    apply (nth_ext _ _ 0%nat 0%nat); [congruence|].
    intros n Hn. rewrite Hlen2 in Hn.
    change (nth n (m_num_pieces b2) 0%nat = nth n (m_num_pieces b) 0%nat).
    rewrite <- (Nat2Z.id n). fold (num_of b2 (Z.of_nat n)).
    fold (num_of b (Z.of_nat n)).
    destruct (valid_piece (Z.of_nat n)) eqn:Ev.
    + rewrite <- !piece_list_length by assumption.
      apply Permutation_length, Hperm. exact Ev.
    + rewrite Hdead, Hdead2 by (assumption || lia). reflexivity.
Qed.

Lemma make_unmake_fits (b : Board) (m : move_t) :
  synced b -> 0 <= m_half_move b <= 1000 -> move_fits b m ->
  exists b1 valid b2,
    make_move T b m = Some (b1, valid)
    /\ unmake_move T b1 = Some b2
    /\ restored b b2.
Proof.
  intros Hs Hhalf Hfit. unfold make_move. cbv zeta.
  set (entry := History m (m_castle_state b) (m_en_passant b)
                  (m_fifty_move b) (m_hash b)).
  match goal with
  | |- context [apply_move T ?E m _] => set (ba := E)
  end.
  destruct (round_trip_fits b ba m Hs) as (b1 & Happ & Hback);
    [unfold ba; pos_tac | exact Hfit |].
  rewrite Happ.
  set (fifty := if move_captured m || is_pawn (moved_piece m) then 0
                else wrap32 (m_fifty_move b1 + 1)).
  replace (if move_captured m || is_pawn (moved_piece m)
           then with_fifty_move b1 0
           else with_fifty_move b1 (wrap32 (m_fifty_move b1 + 1)))
    with (with_fifty_move b1 fifty)
    by (unfold fifty; destruct (move_captured m || is_pawn (moved_piece m));
        reflexivity).
  rewrite square_attacked_scan.
  eexists _, _. 
  pose proof Happ as Hgame. apply apply_move_game in Hgame.
  destruct Hgame as (Hcol1 & _ & Hhalf1 & Hhist1 & Hcache1).
  unfold ba in Hcol1, Hhalf1, Hhist1, Hcache1.
  cbn [with_half_move with_history m_next_move_colour m_half_move m_history
       m_move_cache] in Hcol1, Hhalf1, Hhist1, Hcache1.
  assert (Hw : wrap32 (m_half_move b + 1) = m_half_move b + 1)
    by (unfold wrap32; apply Z.mod_small; lia).
  rewrite Hw in Hhalf1.
  unfold unmake_move.
  replace (m_history (switch_colours T (with_fifty_move b1 fifty)))
    with (entry :: m_history b) by (symmetry; exact Hhist1).
  cbv zeta.
  set (br := restore_entry T (switch_colours T (with_fifty_move b1 fifty))
               entry (m_history b)).
  assert (Hbr : m_half_move br = m_half_move b + 1) by exact Hhalf1.
  rewrite Hbr. replace (0 <? m_half_move b + 1) with true
    by (symmetry; apply Z.ltb_lt; lia).
  set (bX := switch_colours T (with_half_move br (m_half_move b + 1 - 1))).
  destruct (Hback bX) as (b2 & Hun & Hs2 & Hc2 & Hh2).
  { unfold bX, br. pos_tac. }
  { unfold bX, br. cbn. rewrite Hcol1. destruct (m_next_move_colour b);
      reflexivity. }
  { reflexivity. }
  cbn [h_move entry]. rewrite Hun.
  pose proof (unapply_move_frame _ _ _ Hun)
    as (Hcol2 & Hcas2 & Hep2 & Hfif2 & Hhalf2 & Hhist2 & Hcache2).
  assert (HcolX : m_next_move_colour bX = m_next_move_colour b).
  { unfold bX, br. cbn. rewrite Hcol1. destruct (m_next_move_colour b);
      reflexivity. }
  assert (HhX : m_hash bX
                = Z.lxor
                    (Z.lxor
                       (Z.lxor (Z.lxor (m_hash b1) (side_hash T))
                          (Z.lxor (castle_hash T (m_castle_state b1))
                             (castle_hash T (m_castle_state b))))
                       (Z.lxor (enpas_hash T (m_en_passant b1))
                          (enpas_hash T (m_en_passant b))))
                    (side_hash T)) by reflexivity.
  assert (Hhash : m_hash b2 = m_hash b).
  { rewrite Hh2, HhX.
    change (m_hash ba) with (m_hash b).
    change (m_castle_state ba) with (m_castle_state b).
    change (m_en_passant ba) with (m_en_passant b).
    xor_solve. }
  cbn [h_hash entry]. rewrite Hhash, Z.eqb_refl.
  exists b2. split; [reflexivity|]. split; [reflexivity|].
  destruct (synced_same_cells b b2 Hs Hs2 Hc2) as (Hp & Hn & Hperm).
  unfold restored.
  split; [exact Hp|]. split; [exact Hn|]. split; [exact Hperm|].
  split; [congruence|].
  split; [rewrite Hcas2; reflexivity|].
  split; [rewrite Hep2; reflexivity|].
  split; [rewrite Hfif2; reflexivity|].
  split; [rewrite Hhalf2; unfold bX; cbn; lia|].
  split; [exact Hhash|].
  split; [rewrite Hhist2; reflexivity|].
  rewrite Hcache2. unfold bX, br. cbn. exact Hcache1.
Qed.

Lemma syncedb_sound (b : Board) : syncedb b = true -> synced b.
Proof.
  unfold syncedb. intros H.
  apply andb_prop in H as [H Hsync]. apply andb_prop in H as [H Hcell].
  apply andb_prop in H as [H Hnl]. apply andb_prop in H as [H Hll].
  apply andb_prop in H as [Hlen Hpl].
  apply Nat.eqb_eq in Hlen, Hpl, Hnl.
  assert (Hout : forall sq, ~ 0 <= sq < 120 -> piece_at b sq = INVALID_PIECE).
  { intros sq Hsq. unfold piece_at.
    destruct (sq <? 0) eqn:E; [reflexivity|]. apply Z.ltb_ge in E.
    apply nth_overflow. lia. }
  assert (Hin120 : forall sq, piece_at b sq <> INVALID_PIECE ->
                     0 <= sq < 120).
  { intros sq Hsq. destruct (Z_le_dec 0 sq) as [H0 | H0];
      [destruct (Z_lt_dec sq 120) as [H1 | H1]|];
      [lia | |]; exfalso; apply Hsq, Hout; lia. }
  assert (Hp16 : forall p, 0 <= p < 16 -> In p (map Z.of_nat (seq 0 16))).
  { intros p Hp. apply in_map_iff. exists (Z.to_nat p).
    split; [lia|]. apply in_seq. lia. }
  rewrite forallb_forall in Hsync.
  unfold synced.
  split; [exact Hlen|]. split; [exact Hpl|]. split.
  { intros q l Hq. rewrite forallb_forall in Hll.
    apply Nat.eqb_eq, Hll, list_elem_of_In.
    eapply list_elem_of_lookup_2. exact Hq. }
  split; [exact Hnl|]. split.
  { intros sq.
    destruct (Z.eq_dec (piece_at b sq) INVALID_PIECE) as [He | He];
      [left; exact He|].
    pose proof (forallb_squares_120 _ sq Hcell (Hin120 sq He)) as Hc.
    cbv beta in Hc. apply orb_true_iff in Hc as [Hc | Hc];
      [left; apply Z.eqb_eq; exact Hc | right; exact Hc]. }
  split.
  - intros p Hv. pose proof (valid_piece_range p Hv) as Hr.
    specialize (Hsync p (Hp16 p ltac:(lia))). cbv beta in Hsync.
    rewrite Hv in Hsync.
    apply andb_prop in Hsync as [Hsync Hall].
    apply andb_prop in Hsync as [Hsync Hlist].
    apply andb_prop in Hsync as [Hnum Hnd].
    split; [apply Nat.leb_le; exact Hnum|].
    split; [eapply bool_decide_eq_true_1; exact Hnd|].
    intros sq. split.
    + intros Hin. rewrite forallb_forall in Hlist.
      apply Z.eqb_eq, Hlist. exact Hin.
    + intros Hsq.
      assert (Hin : 0 <= sq < 120)
        by (apply Hin120; rewrite Hsq; unfold INVALID_PIECE; lia).
      pose proof (forallb_squares_120 _ sq Hall Hin) as Hc.
      cbv beta in Hc. rewrite Hsq, Z.eqb_refl in Hc. cbn [implb] in Hc.
      apply existsb_exists in Hc as (x & Hx & Heq).
      apply Z.eqb_eq in Heq. subst x. exact Hx.
  - intros p Hp Hv. specialize (Hsync p (Hp16 p Hp)). cbv beta in Hsync.
    rewrite Hv in Hsync. apply Nat.eqb_eq. exact Hsync.
Qed.

(** C1. On a playable board whose cache has no entry for the position,
    every move [m] that [pseudo_moves()] returns can be made and
    unmade, provided a promotion finds room in the list of the piece it
    promotes to; [make_move(m)] followed by [unmake_move()] restores
    the piece array, the counts, castle state, en-passant target, both
    clocks, side to move, history, cache and, bit for bit, the hash.
    Each piece list holds the squares it held before, up to their
    order. *)
Theorem make_unmake_restores (b b' : Board) (l : list move_t) (m : move_t) :
  playable b ->
  m_move_cache b !! m_hash b = None ->
  pseudo_moves b None = Some (l, b') ->
  In m l ->
  (move_promoted m = true ->
   (num_of b (promoted_piece m) < MAX_PIECE_FREQ)%nat) ->
  exists b1 valid b2,
    make_move T b' m = Some (b1, valid)
    /\ unmake_move T b1 = Some b2
    /\ restored b' b2.
Proof.
  intros Hplay Hmiss Hpm Hin Hroom.
  unfold pseudo_moves in Hpm. rewrite Hmiss in Hpm.
  destruct ((m_half_move b >? 1000) || (m_fifty_move b >? 75)) eqn:Edraw.
  { injection Hpm as <- <-. destruct Hin. }
  apply orb_false_iff in Edraw as [Ehalf _].
  rewrite Z.gtb_ltb in Ehalf. apply Z.ltb_ge in Ehalf.
  destruct (generate_moves b (m_next_move_colour b)) as [result|] eqn:Egen;
    [|discriminate].
  destruct (length result <=? MAX_POSITION_MOVES)%nat; [|discriminate].
  injection Hpm as <- <-.
  pose proof (generate_moves_fits b result m Hplay Egen Hin Hroom) as Hfit.
  destruct Hplay as (Hs & _ & _ & _ & _ & Hhalf).
  apply make_unmake_fits.
  - eapply same_pos_synced; [|exact Hs]. pos_tac.
  - cbn. lia.
  - exact Hfit.
Qed.

(** ** The primitives keep the lists in sync *)

(** A primitive that returns found its preconditions met, so it leaves
    the lists in sync with the mailbox. *)
Lemma sub_num_of (b : Board) (p : Z) (num : nat) :
  sub (m_num_pieces b) p = Some num -> num_of b p = num.
Proof.
  intros H. apply sub_Some in H as (_ & _ & H).
  unfold num_of. rewrite nth_lookup, H. reflexivity.
Qed.

Lemma sub_positions (b : Board) (p : Z) (l : list Z) :
  sub (m_positions b) p = Some l ->
  nth (Z.to_nat p) (m_positions b) [] = l.
Proof.
  intros H. apply sub_Some in H as (_ & _ & H).
  rewrite nth_lookup, H. reflexivity.
Qed.

(** A piece that is found in its list is one of the twelve. *)
Lemma listed_valid (b : Board) (p from : Z) (l : list Z) (num idx : nat) :
  synced b ->
  sub (m_positions b) p = Some l -> sub (m_num_pieces b) p = Some num ->
  find_index (take num l) from = Some idx ->
  valid_piece p = true.
Proof.
  intros Hs Hl Hn Hidx.
  destruct (valid_piece p) eqn:Hv; [reflexivity|].
  pose proof (sub_Some _ _ _ Hn) as (H0 & Hlt & _).
  destruct Hs as (_ & _ & _ & Hnl & _ & _ & Hdead).
  rewrite <- (sub_num_of _ _ _ Hn), Hdead in Hidx by (assumption || lia).
  discriminate Hidx.
Qed.

Lemma remove_piece_keeps_synced (b b' : Board) (sq : Z) :
  synced b -> remove_piece T b sq = Some b' -> synced b'.
Proof.
  intros Hs H. pose proof H as H'. unfold remove_piece in H'.
  destruct (sub (m_pieces b) sq) as [piece|] eqn:Ep; [|discriminate].
  destruct (valid_piece piece) eqn:Hv; [|discriminate]. clear H'.
  destruct (remove_piece_sync b sq piece Hs (piece_at_sub _ _ _ Ep) Hv)
    as (b'' & E & Hs' & _).
  congruence.
Qed.

Lemma add_piece_keeps_synced (b b' : Board) (sq piece : Z) :
  synced b -> add_piece T b sq piece = Some b' -> synced b'.
Proof.
  intros Hs H. pose proof H as H'. unfold add_piece in H'.
  destruct (valid_piece piece) eqn:Hv; [|discriminate].
  destruct (sub (m_pieces b) sq) as [old|] eqn:Ep; [|discriminate].
  destruct (old =? INVALID_PIECE) eqn:Eo; [|discriminate].
  destruct (sub (m_positions b) piece) as [l|] eqn:El; [|discriminate].
  destruct (sub (m_num_pieces b) piece) as [num|] eqn:En; [|discriminate].
  destruct (num <? length l)%nat eqn:Ec; [|discriminate]. clear H'.
  apply Z.eqb_eq in Eo. subst old. apply Nat.ltb_lt in Ec.
  destruct (synced_subs b piece Hs Hv) as (_ & _ & Hl10).
  rewrite (sub_positions _ _ _ El) in Hl10.
  pose proof (sub_Some _ _ _ Ep) as (H0 & Hlt & _).
  pose proof Hs as (Hlen & _). rewrite Hlen in Hlt.
  destruct (add_piece_sync b sq piece Hs) as (b'' & E & Hs' & _);
    [lia | exact (piece_at_sub _ _ _ Ep) | exact Hv
    | rewrite (sub_num_of _ _ _ En); lia |].
  congruence.
Qed.

Lemma move_piece_keeps_synced (b b' : Board) (from to : Z) :
  synced b -> move_piece T b from to = Some b' -> synced b'.
Proof.
  intros Hs H. pose proof H as H'. unfold move_piece in H'.
  destruct (sub (m_pieces b) to) as [old|] eqn:Et; [|discriminate].
  destruct (old =? INVALID_PIECE) eqn:Eo; [|discriminate].
  destruct (sub (m_pieces b) from) as [piece|] eqn:Ep; [|discriminate].
  destruct (sub (m_positions b) piece) as [l|] eqn:El; [|discriminate].
  destruct (sub (m_num_pieces b) piece) as [num|] eqn:En; [|discriminate].
  destruct (find_index (take num l) from) as [idx|] eqn:Ei; [|discriminate].
  clear H'. apply Z.eqb_eq in Eo. subst old.
  pose proof (listed_valid _ _ _ _ _ _ Hs El En Ei) as Hv.
  pose proof (sub_Some _ _ _ Et) as (H0 & Hlt & _).
  pose proof Hs as (Hlen & _). rewrite Hlen in Hlt.
  destruct (move_piece_sync b from to piece Hs) as (b'' & E & Hs' & _);
    [exact (piece_at_sub _ _ _ Ep) | exact Hv | lia
    | exact (piece_at_sub _ _ _ Et) |].
  congruence.
Qed.

Lemma synced_setters (b b' : Board) :
  same_pos b b' -> synced b -> synced b'.
Proof. apply same_pos_synced. Qed.

(** Carry [synced] along the primitives of a computation that
    returned. *)
Ltac keep_synced :=
  repeat match goal with
         | Hs : synced ?b, H : remove_piece _ ?E _ = Some ?b' |- _ =>
             assert (synced b')
               by (eapply remove_piece_keeps_synced; [|exact H];
                   apply (same_pos_synced b E); [pos_tac | exact Hs]);
             clear H
         | Hs : synced ?b, H : add_piece _ ?E _ _ = Some ?b' |- _ =>
             assert (synced b')
               by (eapply add_piece_keeps_synced; [|exact H];
                   apply (same_pos_synced b E); [pos_tac | exact Hs]);
             clear H
         | Hs : synced ?b, H : move_piece _ ?E _ _ = Some ?b' |- _ =>
             assert (synced b')
               by (eapply move_piece_keeps_synced; [|exact H];
                   apply (same_pos_synced b E); [pos_tac | exact Hs]);
             clear H
         end.

Ltac synced_done :=
  keep_synced;
  match goal with
  | Hs : synced ?b |- synced ?E =>
      solve [apply (same_pos_synced b E); [pos_tac | exact Hs]]
  end.

Lemma apply_move_keeps_synced (b b' : Board) (move : move_t) (side : bool) :
  synced b -> apply_move T b move side = Some b' -> synced b'.
Proof.
  intros Hs H. unfold apply_move, make_castle in H.
  destruct (move_promoted move); [|destruct (move_castled move)].
  - monad_inv H; synced_done.
  - monad_inv H; synced_done.
  - destruct (move_flag move); monad_inv H; synced_done.
Qed.

(** ** What a primitive that returned has done *)

Lemma same_pos_refl (b : Board) : same_pos b b.
Proof. reflexivity. Qed.

Lemma same_pos_entry (b b' : Board) (q i : nat) :
  same_pos b b' -> entry b' q i = entry b q i.
Proof.
  intros H. apply same_pos_fields in H as (_ & Hl & _).
  unfold entry. rewrite Hl. reflexivity.
Qed.

Lemma remove_piece_inv (b0 b b' : Board) (sq : Z) :
  same_pos b0 b -> synced b0 -> remove_piece T b sq = Some b' ->
  valid_piece (piece_at b0 sq) = true
  /\ synced b'
  /\ (forall s, piece_at b' s
                = if s =? sq then INVALID_PIECE else piece_at b0 s)
  /\ ((0 < num_of b0 (piece_at b0 sq))%nat
      /\ forall q, num_of b' q
                   = if q =? piece_at b0 sq
                     then (num_of b0 (piece_at b0 sq) - 1)%nat
                     else num_of b0 q)
  /\ m_hash b' = Z.lxor (m_hash b) (piece_hash T sq (piece_at b0 sq))
  /\ same_frame b b'.
Proof.
  intros Hsp Hs H. pose proof H as H'. unfold remove_piece in H'.
  destruct (sub (m_pieces b) sq) as [piece|] eqn:Ep; [|discriminate].
  destruct (valid_piece piece) eqn:Hv; [|discriminate]. clear H'.
  apply piece_at_sub in Ep. rewrite (same_pos_piece_at b0 b) in Ep by exact Hsp.
  subst piece.
  destruct (remove_piece_ok b0 b sq (piece_at b0 sq) Hsp Hs eq_refl Hv)
    as (b'' & E & Hrest).
  assert (b'' = b') by congruence. subst b''.
  split; [exact Hv | exact Hrest].
Qed.

Lemma add_piece_inv (b0 b b' : Board) (sq p : Z) :
  same_pos b0 b -> synced b0 -> add_piece T b sq p = Some b' ->
  (valid_piece p = true /\ 0 <= sq < 120
   /\ piece_at b0 sq = INVALID_PIECE
   /\ (num_of b0 p < MAX_PIECE_FREQ)%nat)
  /\ synced b'
  /\ (forall s, piece_at b' s = if s =? sq then p else piece_at b0 s)
  /\ (forall q, num_of b' q
                = if q =? p then S (num_of b0 p) else num_of b0 q)
  /\ m_hash b' = Z.lxor (m_hash b) (piece_hash T sq p)
  /\ same_frame b b'.
Proof.
  intros Hsp Hs H. pose proof H as H'. unfold add_piece in H'.
  destruct (valid_piece p) eqn:Hv; [|discriminate].
  destruct (sub (m_pieces b) sq) as [old|] eqn:Ep; [|discriminate].
  destruct (old =? INVALID_PIECE) eqn:Eo; [|discriminate].
  destruct (sub (m_positions b) p) as [l|] eqn:El; [|discriminate].
  destruct (sub (m_num_pieces b) p) as [num|] eqn:En; [|discriminate].
  destruct (num <? length l)%nat eqn:Ec; [|discriminate]. clear H'.
  apply Z.eqb_eq in Eo. subst old. apply Nat.ltb_lt in Ec.
  pose proof (same_pos_synced _ _ Hsp Hs) as Hsb.
  destruct (synced_subs b p Hsb Hv) as (_ & _ & Hl10).
  rewrite (sub_positions _ _ _ El) in Hl10.
  pose proof (sub_Some _ _ _ Ep) as (H0 & Hlt & _).
  pose proof Hsb as (Hlen & _). rewrite Hlen in Hlt.
  apply piece_at_sub in Ep. rewrite (same_pos_piece_at b0 b) in Ep by exact Hsp.
  apply sub_num_of in En. rewrite (same_pos_num_of b0 b) in En by exact Hsp.
  assert (Hr : 0 <= sq < 120) by lia.
  assert (Hcap : (num_of b0 p < MAX_PIECE_FREQ)%nat) by lia.
  destruct (add_piece_ok b0 b sq p Hsp Hs Hr Ep Hv Hcap)
    as (b'' & E & Hrest).
  assert (b'' = b') by congruence. subst b''.
  split; [auto | exact Hrest].
Qed.

Lemma lookup_nth {A : Type} (l : list A) (i : nat) (d : A) :
  (i < length l)%nat -> l !! i = Some (nth i l d).
Proof.
  intros H. rewrite nth_lookup.
  destruct (l !! i) eqn:E; [reflexivity|].
  apply lookup_ge_None in E. lia.
Qed.

Lemma entry_unique (b : Board) (p : Z) (i j : nat) :
  synced b -> valid_piece p = true ->
  (i < num_of b p)%nat -> (j < num_of b p)%nat ->
  entry b (Z.to_nat p) i = entry b (Z.to_nat p) j -> i = j.
Proof.
  intros Hs Hv Hi Hj He.
  destruct (synced_subs b p Hs Hv) as (_ & _ & Hl).
  pose proof (synced_num b p Hs Hv) as Hn.
  destruct Hs as (_ & _ & _ & _ & _ & Hsync & _).
  destruct (Hsync p Hv) as (_ & Hnd & _).
  unfold piece_list in Hnd. fold (num_of b p) in Hnd.
  unfold entry in He.
  set (l := nth (Z.to_nat p) (m_positions b) []) in *.
  assert (Hli : take (num_of b p) l !! i = Some (nth i l INVALID_SQUARE)).
  { rewrite lookup_take_lt by exact Hi. apply lookup_nth. lia. }
  assert (Hlj : take (num_of b p) l !! j = Some (nth i l INVALID_SQUARE)).
  { rewrite He, lookup_take_lt by exact Hj. apply lookup_nth. lia. }
  exact (proj1 (NoDup_alt _) Hnd i j _ Hli Hlj).
Qed.

Lemma move_piece_inv (b0 b b' : Board) (from to : Z) :
  same_pos b0 b -> synced b0 -> move_piece T b from to = Some b' ->
  (valid_piece (piece_at b0 from) = true /\ 0 <= to < 120
   /\ piece_at b0 to = INVALID_PIECE)
  /\ synced b'
  /\ (forall s, piece_at b' s
                = if s =? to then piece_at b0 from
                  else if s =? from then INVALID_PIECE else piece_at b0 s)
  /\ (forall q, num_of b' q = num_of b0 q)
  /\ m_hash b'
     = Z.lxor (m_hash b)
         (Z.lxor (piece_hash T from (piece_at b0 from))
            (piece_hash T to (piece_at b0 from)))
  /\ same_frame b b'.
Proof.
  intros Hsp Hs H. pose proof H as H'. unfold move_piece in H'.
  destruct (sub (m_pieces b) to) as [old|] eqn:Et; [|discriminate].
  destruct (old =? INVALID_PIECE) eqn:Eo; [|discriminate].
  destruct (sub (m_pieces b) from) as [piece|] eqn:Ep; [|discriminate].
  destruct (sub (m_positions b) piece) as [l|] eqn:El; [|discriminate].
  destruct (sub (m_num_pieces b) piece) as [num|] eqn:En; [|discriminate].
  destruct (find_index (take num l) from) as [idx|] eqn:Ei; [|discriminate].
  clear H'. apply Z.eqb_eq in Eo. subst old.
  pose proof (same_pos_synced _ _ Hsp Hs) as Hsb.
  pose proof (listed_valid _ _ _ _ _ _ Hsb El En Ei) as Hv.
  pose proof (sub_Some _ _ _ Et) as (H0 & Hlt & _).
  pose proof Hsb as (Hlen & _). rewrite Hlen in Hlt.
  apply piece_at_sub in Ep, Et.
  rewrite (same_pos_piece_at b0 b) in Ep, Et by exact Hsp. subst piece.
  assert (Hr : 0 <= to < 120) by lia.
  destruct (move_piece_ok b0 b from to (piece_at b0 from) Hsp Hs eq_refl Hv
              Hr Et) as (b'' & E & Hrest).
  assert (b'' = b') by congruence. subst b''.
  split; [auto | exact Hrest].
Qed.

(** The list cell [move_piece] overwrites: the one live cell of the
    piece's list that held [from]. *)
Lemma move_piece_entries (b0 b b' : Board) (from to : Z) :
  same_pos b0 b -> synced b0 -> move_piece T b from to = Some b' ->
  exists idx,
    (idx < num_of b0 (piece_at b0 from))%nat
    /\ entry b0 (Z.to_nat (piece_at b0 from)) idx = from
    /\ forall q i,
         entry b' q i
         = if (q =? Z.to_nat (piece_at b0 from))%nat && (i =? idx)%nat
           then to else entry b0 q i.
Proof.
  intros Hsp Hs H. pose proof H as H'. unfold move_piece in H'.
  destruct (sub (m_pieces b) to) as [old|] eqn:Et; [|discriminate].
  destruct (old =? INVALID_PIECE) eqn:Eo; [|discriminate].
  destruct (sub (m_pieces b) from) as [piece|] eqn:Ep; [|discriminate].
  destruct (sub (m_positions b) piece) as [l|] eqn:El; [|discriminate].
  destruct (sub (m_num_pieces b) piece) as [num|] eqn:En; [|discriminate].
  destruct (find_index (take num l) from) as [idx|] eqn:Ei; [|discriminate].
  injection H' as <-.
  pose proof (same_pos_synced _ _ Hsp Hs) as Hsb.
  pose proof (listed_valid _ _ _ _ _ _ Hsb El En Ei) as Hv.
  pose proof (valid_piece_range _ Hv) as Hpr.
  destruct (synced_subs b piece Hsb Hv) as (_ & _ & Hl10).
  rewrite (sub_positions _ _ _ El) in Hl10.
  pose proof (sub_Some _ _ _ El) as (_ & Hlt16 & _).
  apply piece_at_sub in Ep.
  rewrite (same_pos_piece_at b0 b) in Ep by exact Hsp. subst piece.
  apply sub_num_of in En. rewrite (same_pos_num_of b0 b) in En by exact Hsp.
  apply sub_positions in El.
  apply find_index_lookup in Ei.
  apply lookup_take_Some in Ei as (Hlk & Hidx).
  exists idx. split; [lia|]. split.
  - rewrite <- (same_pos_entry b0 b) by exact Hsp.
    unfold entry. rewrite El. rewrite nth_lookup, Hlk. reflexivity.
  - intros q i. rewrite <- (same_pos_entry b0 b q i) by exact Hsp.
    unfold entry. cbn [m_positions].
    destruct (Nat.eqb_spec q (Z.to_nat (piece_at b0 from))) as [-> | Hq].
    + rewrite nth_insert_eq by exact Hlt16. rewrite El.
      destruct (Nat.eqb_spec i idx) as [-> | Hi]; cbn [andb].
      * apply nth_insert_eq. apply lookup_lt_Some in Hlk. exact Hlk.
      * apply nth_insert_ne. exact Hi.
    + cbn [andb]. rewrite nth_insert_ne by exact Hq. reflexivity.
Qed.

(** Two boards in sync whose lists agree cell by cell have the same
    lists. *)
Lemma positions_ext (b b2 : Board) :
  synced b -> synced b2 ->
  (forall q i, entry b2 q i = entry b q i) ->
  m_positions b2 = m_positions b.
Proof.
  intros (_ & Hpl & Hll & _) (_ & Hpl2 & Hll2 & _) He.
  apply (nth_ext _ _ [] []); [congruence|].
  intros q Hq.
  assert (Hl : length (nth q (m_positions b) []) = MAX_PIECE_FREQ).
  { apply (Hll q). apply lookup_nth. lia. }
  assert (Hl2 : length (nth q (m_positions b2) []) = MAX_PIECE_FREQ).
  { apply (Hll2 q). apply lookup_nth. lia. }
  apply (nth_ext _ _ INVALID_SQUARE INVALID_SQUARE); [congruence|].
  intros i _. apply He.
Qed.

Lemma board_ext (b b2 : Board) :
  m_pieces b2 = m_pieces b -> m_positions b2 = m_positions b ->
  m_num_pieces b2 = m_num_pieces b ->
  m_next_move_colour b2 = m_next_move_colour b ->
  m_castle_state b2 = m_castle_state b -> m_en_passant b2 = m_en_passant b ->
  m_fifty_move b2 = m_fifty_move b -> m_half_move b2 = m_half_move b ->
  m_hash b2 = m_hash b -> m_history b2 = m_history b ->
  m_move_cache b2 = m_move_cache b ->
  b2 = b.
Proof.
  destruct b, b2. cbn. intros. subst. reflexivity.
Qed.

(** ** A piece moved there and back *)

(** [move_piece(from, to)] followed, on a board with the same pieces,
    by [move_piece(to, from)] gives back the mailbox and the lists,
    cell for cell. *)
Lemma move_piece_there_back (b ba a1 bX b2 : Board) (from to : Z) :
  synced b -> same_pos b ba -> move_piece T ba from to = Some a1 ->
  same_pos a1 bX -> move_piece T bX to from = Some b2 ->
  synced b2
  /\ (forall s, piece_at b2 s = piece_at b s)
  /\ (forall q i, entry b2 q i = entry b q i).
Proof.
  intros Hs Hsp H1 HspX H2.
  destruct (move_piece_entries _ _ _ _ _ Hsp Hs H1)
    as (i1 & Hlt1 & Hent1 & Hupd1).
  destruct (move_piece_inv _ _ _ _ _ Hsp Hs H1)
    as ((Hv1 & Hr1 & Hto1) & Hs1 & Hc1 & Hn1 & _ & _).
  destruct (move_piece_entries _ _ _ _ _ HspX Hs1 H2)
    as (i2 & Hlt2 & Hent2 & Hupd2).
  destruct (move_piece_inv _ _ _ _ _ HspX Hs1 H2)
    as ((Hv2 & Hr2 & Hto2) & Hs2 & Hc2 & Hn2 & _ & _).
  pose proof (valid_piece_range _ Hv1) as Hp1.
  assert (Hp : piece_at a1 to = piece_at b from) by cells.
  rewrite Hp in *.
  assert (Hi : i2 = i1).
  { apply (entry_unique a1 (piece_at b from)); try assumption.
    - rewrite Hn1. exact Hlt1.
    - rewrite Hent2, Hupd1, !Nat.eqb_refl. reflexivity. }
  subst i2.
  split; [exact Hs2|]. split; [cells|].
  intros q i. rewrite Hupd2, Hupd1.
  destruct ((q =? Z.to_nat (piece_at b from))%nat && (i =? i1)%nat) eqn:E;
    [|reflexivity].
  apply andb_prop in E as [Eq Ei].
  apply Nat.eqb_eq in Eq, Ei. subst q i. symmetry. exact Hent1.
Qed.

(** Case analysis on the list cells named in the goal and the
    context. *)
Ltac entry_cases :=
  repeat match goal with
         | |- context [(?x =? ?y)%nat] => destruct (Nat.eqb_spec x y)
         | H : context [(?x =? ?y)%nat] |- _ => destruct (Nat.eqb_spec x y)
         end;
  cbn [andb] in *; subst; try reflexivity; try congruence; try lia.

(** King and rook moved out, then back in the same order, as
    [make_move] and [unmake_move] castle. *)
Lemma castle_there_back (b ba a1 a2 bX b3 b4 : Board)
    (king king_to rook rook_to : Z) :
  synced b -> same_pos b ba ->
  king <> rook -> king <> rook_to -> king_to <> rook -> king_to <> rook_to ->
  move_piece T ba king king_to = Some a1 ->
  move_piece T a1 rook rook_to = Some a2 ->
  same_pos a2 bX ->
  move_piece T bX king_to king = Some b3 ->
  move_piece T b3 rook_to rook = Some b4 ->
  synced b4
  /\ (forall s, piece_at b4 s = piece_at b s)
  /\ (forall q i, entry b4 q i = entry b q i).
Proof.
  intros Hs Hsp D1 D2 D3 D4 H1 H2 HspX H3 H4.
  destruct (move_piece_entries _ _ _ _ _ Hsp Hs H1)
    as (i1 & Hlt1 & Hent1 & Hupd1).
  destruct (move_piece_inv _ _ _ _ _ Hsp Hs H1)
    as ((Hv1 & Hr1 & Hto1) & Hs1 & Hc1 & Hn1 & _ & _).
  destruct (move_piece_entries _ _ _ _ _ (same_pos_refl a1) Hs1 H2)
    as (i2 & Hlt2 & Hent2 & Hupd2).
  destruct (move_piece_inv _ _ _ _ _ (same_pos_refl a1) Hs1 H2)
    as ((Hv2 & Hr2 & Hto2) & Hs2 & Hc2 & Hn2 & _ & _).
  destruct (move_piece_entries _ _ _ _ _ HspX Hs2 H3)
    as (i3 & Hlt3 & Hent3 & Hupd3).
  destruct (move_piece_inv _ _ _ _ _ HspX Hs2 H3)
    as ((Hv3 & Hr3 & Hto3) & Hs3 & Hc3 & Hn3 & _ & _).
  destruct (move_piece_entries _ _ _ _ _ (same_pos_refl b3) Hs3 H4)
    as (i4 & Hlt4 & Hent4 & Hupd4).
  destruct (move_piece_inv _ _ _ _ _ (same_pos_refl b3) Hs3 H4)
    as ((Hv4 & Hr4 & Hto4) & Hs4 & Hc4 & Hn4 & _ & _).
  pose proof (valid_piece_range _ Hv1) as Hk0.
  assert (Hkk : king <> king_to)
    by (intros ->; unfold INVALID_PIECE in *; lia).
  assert (Hpr : piece_at a1 rook = piece_at b rook) by cells.
  rewrite Hpr in *.
  pose proof (valid_piece_range _ Hv2) as Hr0.
  assert (Hrr : rook <> rook_to).
  { intros Heq. rewrite <- Heq, Hpr in Hto2. unfold INVALID_PIECE in *. lia. }
  assert (Hrt : piece_at b rook_to = INVALID_PIECE).
  { rewrite Hc1 in Hto2.
    destruct (Z.eqb_spec rook_to king_to); [congruence|].
    destruct (Z.eqb_spec rook_to king); [congruence | exact Hto2]. }
  assert (Hp3 : piece_at a2 king_to = piece_at b king) by cells.
  rewrite Hp3 in *.
  assert (Hp4 : piece_at b3 rook_to = piece_at b rook) by cells.
  rewrite Hp4 in *.
  rewrite Hn2, Hn1 in Hlt3. rewrite Hn3, Hn2, Hn1 in Hlt4.
  rewrite Hn1 in Hlt2.
  assert (Hi3 : i3 = i1).
  { apply (entry_unique a2 (piece_at b king)); try assumption.
    - rewrite Hn2, Hn1. exact Hlt3.
    - rewrite Hn2, Hn1. exact Hlt1.
    - rewrite Hent3, Hupd2, Hupd1. rewrite Hupd1 in Hent2. entry_cases. }
  subst i3.
  assert (Hi4 : i4 = i2).
  { apply (entry_unique b3 (piece_at b rook)); try assumption.
    - rewrite Hn3, Hn2, Hn1. exact Hlt4.
    - rewrite Hn3, Hn2, Hn1. exact Hlt2.
    - rewrite Hent4, Hupd3, Hupd2. rewrite Hupd1 in Hent2. entry_cases. }
  subst i4.
  split; [exact Hs4|]. split; [cells|].
  intros q i. rewrite Hupd4, Hupd3, Hupd2, Hupd1.
  rewrite Hupd1 in Hent2. entry_cases.
Qed.

(** ** What [make_move] and [unmake_move] that returned have done *)

Lemma make_move_inv (b b1 : Board) (m : move_t) (v : bool) :
  make_move T b m = Some (b1, v) ->
  exists a1,
    apply_move T
      (with_half_move
         (with_history b
            (History m (m_castle_state b) (m_en_passant b) (m_fifty_move b)
               (m_hash b) :: m_history b))
         (wrap32 (m_half_move b + 1)))
      m (m_next_move_colour b) = Some a1
    /\ same_pos a1 b1
    /\ m_next_move_colour b1 = negb (m_next_move_colour b)
    /\ m_castle_state b1 = m_castle_state a1
    /\ m_en_passant b1 = m_en_passant a1
    /\ m_half_move b1 = wrap32 (m_half_move b + 1)
    /\ m_hash b1 = Z.lxor (m_hash a1) (side_hash T)
    /\ m_history b1
       = History m (m_castle_state b) (m_en_passant b) (m_fifty_move b)
           (m_hash b) :: m_history b
    /\ m_move_cache b1 = m_move_cache b
    /\ v = negb (attack_scan b1
                   (position0 b1
                      (if m_next_move_colour b then BLACK_KING
                       else WHITE_KING))
                   (negb (m_next_move_colour b))).
Proof.
  unfold make_move. cbv zeta.
  match goal with
  | |- context [apply_move T ?E m _] =>
      change E
        with (with_half_move
                (with_history b
                   (History m (m_castle_state b) (m_en_passant b)
                      (m_fifty_move b) (m_hash b) :: m_history b))
                (wrap32 (m_half_move b + 1)))
  end.
  destruct (apply_move T _ m (m_next_move_colour b)) as [a1|] eqn:Happ;
    [|discriminate].
  set (fifty := if move_captured m || is_pawn (moved_piece m) then 0
                else wrap32 (m_fifty_move a1 + 1)).
  replace (if move_captured m || is_pawn (moved_piece m)
           then with_fifty_move a1 0
           else with_fifty_move a1 (wrap32 (m_fifty_move a1 + 1)))
    with (with_fifty_move a1 fifty)
    by (unfold fifty; destruct (move_captured m || is_pawn (moved_piece m));
        reflexivity).
  rewrite square_attacked_scan. intros H. injection H as <- <-.
  pose proof Happ as Hgame. apply apply_move_game in Hgame.
  destruct Hgame as (Hcol1 & _ & Hhalf1 & Hhist1 & Hcache1).
  exists a1. split; [reflexivity|]. split; [pos_tac|].
  split; [cbn; rewrite Hcol1; cbn; destruct (m_next_move_colour b);
          reflexivity|].
  split; [reflexivity|]. split; [reflexivity|].
  split; [exact Hhalf1|]. split; [reflexivity|].
  split; [exact Hhist1|]. split; [exact Hcache1|].
  unfold WHITE. destruct (m_next_move_colour b); reflexivity.
Qed.

Lemma unmake_move_inv (b1 b2 : Board) :
  unmake_move T b1 = Some b2 ->
  exists entry rest bX,
    m_history b1 = entry :: rest
    /\ 0 < m_half_move b1
    /\ same_pos b1 bX
    /\ m_next_move_colour bX = negb (m_next_move_colour b1)
    /\ m_castle_state bX = h_castle_state entry
    /\ m_en_passant bX = h_en_passant entry
    /\ m_fifty_move bX = h_fifty_move entry
    /\ m_half_move bX = m_half_move b1 - 1
    /\ m_history bX = rest
    /\ m_move_cache bX = m_move_cache b1
    /\ unapply_move T bX (h_move entry) = Some b2
    /\ m_hash b2 = h_hash entry.
Proof.
  unfold unmake_move. destruct (m_history b1) as [|entry rest] eqn:Eh;
    [discriminate|].
  cbv zeta.
  change (m_half_move (restore_entry T b1 entry rest)) with (m_half_move b1).
  destruct (0 <? m_half_move b1) eqn:Epos; [|discriminate].
  match goal with
  | |- context [unapply_move T ?E _] => set (bX := E)
  end.
  destruct (unapply_move T bX (h_move entry)) as [b2'|] eqn:Hun;
    [|discriminate].
  destruct (m_hash b2' =? h_hash entry) eqn:Ehash; [|discriminate].
  intros H. injection H as <-.
  exists entry, rest, bX. split; [reflexivity|].
  split; [apply Z.ltb_lt; exact Epos|].
  split; [unfold bX; pos_tac|].
  split; [unfold bX; cbn; destruct (m_next_move_colour b1); reflexivity|].
  split; [reflexivity|]. split; [reflexivity|]. split; [reflexivity|].
  split; [reflexivity|]. split; [reflexivity|]. split; [reflexivity|].
  split; [exact Hun|]. apply Z.eqb_eq. exact Ehash.
Qed.

(** Both calls together: the move is undone on a board with the
    pieces [apply_move] left, and every field but the mailbox, the
    lists and the counts is back. *)
Lemma make_unmake_inv (b b1 b2 : Board) (m : move_t) (v : bool) :
  0 <= m_half_move b < 2 ^ 32 ->
  make_move T b m = Some (b1, v) -> unmake_move T b1 = Some b2 ->
  exists ba a1 bX,
    same_pos b ba
    /\ apply_move T ba m (m_next_move_colour b) = Some a1
    /\ same_pos a1 bX
    /\ m_next_move_colour bX = m_next_move_colour b
    /\ m_en_passant bX = m_en_passant b
    /\ unapply_move T bX m = Some b2
    /\ m_next_move_colour b2 = m_next_move_colour b
    /\ m_castle_state b2 = m_castle_state b
    /\ m_en_passant b2 = m_en_passant b
    /\ m_fifty_move b2 = m_fifty_move b
    /\ m_half_move b2 = m_half_move b
    /\ m_hash b2 = m_hash b
    /\ m_history b2 = m_history b
    /\ m_move_cache b2 = m_move_cache b.
Proof.
  intros Hhalf Hmk Hun.
  destruct (make_move_inv _ _ _ _ Hmk)
    as (a1 & Happ & Hsp1 & Hcol1 & _ & _ & Hhalf1 & _ & Hhist1 & Hcache1 & _).
  destruct (unmake_move_inv _ _ Hun)
    as (entry & rest & bX & Hh & Hpos & HspX & HcolX & HcasX & HepX & HfifX
        & HhalfX & HhistX & HcacheX & Hunapp & Hhash).
  rewrite Hhist1 in Hh. injection Hh as <- <-.
  cbn [h_move h_castle_state h_en_passant h_fifty_move h_hash] in *.
  pose proof (unapply_move_frame _ _ _ Hunapp)
    as (Hcol2 & Hcas2 & Hep2 & Hfif2 & Hhalf2 & Hhist2 & Hcache2).
  assert (Hw : wrap32 (m_half_move b + 1) = m_half_move b + 1).
  { unfold wrap32 in *. rewrite Hhalf1 in Hpos.
    destruct (Z.eq_dec (m_half_move b + 1) (2 ^ 32)) as [He | He].
    - rewrite He, Z.mod_same in Hpos by lia. lia.
    - apply Z.mod_small. lia. }
  eexists _, a1, bX. split; [|split; [exact Happ|]]; [pos_tac|].
  split; [pos_tac|].
  assert (HcX : m_next_move_colour bX = m_next_move_colour b)
    by (rewrite HcolX, Hcol1; apply negb_involutive).
  split; [exact HcX|]. split; [exact HepX|]. split; [exact Hunapp|].
  split; [congruence|]. split; [congruence|]. split; [congruence|].
  split; [congruence|]. split; [lia|]. split; [exact Hhash|].
  split; congruence.
Qed.

Lemma make_move_keeps_synced (b b' : Board) (m : move_t) (v : bool) :
  synced b -> make_move T b m = Some (b', v) -> synced b'.
Proof.
  intros Hs H. destruct (make_move_inv _ _ _ _ H) as (a1 & Happ & Hsp & _).
  apply (same_pos_synced a1 b' Hsp).
  eapply apply_move_keeps_synced; [|exact Happ].
  eapply same_pos_synced; [|exact Hs]. pos_tac.
Qed.

Lemma unapply_move_keeps_synced (b b' : Board) (move : move_t) :
  synced b -> unapply_move T b move = Some b' -> synced b'.
Proof.
  intros Hs H. unfold unapply_move, unmake_castle in H.
  monad_inv H; synced_done.
Qed.

Lemma unmake_move_keeps_synced (b b' : Board) :
  synced b -> unmake_move T b = Some b' -> synced b'.
Proof.
  intros Hs H.
  destruct (unmake_move_inv _ _ H)
    as (entry & rest & bX & _ & _ & HspX & _ & _ & _ & _ & _ & _ & _ & Hun
        & _).
  eapply unapply_move_keeps_synced; [|exact Hun].
  eapply same_pos_synced; eassumption.
Qed.

Lemma pseudo_moves_same_pos (b b' : Board) (side : option bool)
    (l : list move_t) :
  pseudo_moves b side = Some (l, b') -> same_pos b b'.
Proof.
  unfold pseudo_moves. intros H. monad_inv H; pos_tac.
Qed.

(** X1. The piece lists stay in sync with the mailbox: on a board in
    sync, whatever the move, a [make_move] that returns leaves a board
    in sync, and so do an [unmake_move] and a [pseudo_moves] that
    return. *)
Theorem moves_keep_synced (b : Board) :
  synced b ->
  (forall m b' v, make_move T b m = Some (b', v) -> synced b')
  /\ (forall b', unmake_move T b = Some b' -> synced b')
  /\ (forall side l b', pseudo_moves b side = Some (l, b') -> synced b').
Proof.
  intros Hs. split; [|split].
  - intros m b' v. apply make_move_keeps_synced. exact Hs.
  - intros b'. apply unmake_move_keeps_synced. exact Hs.
  - intros side l b' H. eapply same_pos_synced; [|exact Hs].
    eapply pseudo_moves_same_pos. exact H.
Qed.

(** ** Moves that take nothing and promote nothing *)

Lemma unapplied_exact (b ba a1 bX b2 : Board) (m : move_t) :
  synced b -> same_pos b ba ->
  move_captured m = false -> move_promoted m = false ->
  apply_move T ba m (m_next_move_colour b) = Some a1 ->
  same_pos a1 bX -> m_next_move_colour bX = m_next_move_colour b ->
  unapply_move T bX m = Some b2 ->
  synced b2
  /\ (forall s, piece_at b2 s = piece_at b s)
  /\ (forall q i, entry b2 q i = entry b q i).
Proof.
  intros Hs Hsp Hcap Hpro Happ HspX HcolX Hun.
  unfold apply_move, make_castle in Happ.
  unfold unapply_move, unmake_castle in Hun.
  rewrite Hpro in Happ, Hun. rewrite HcolX in Hun.
  unfold move_captured, move_castled, move_promoted in *.
  destruct (move_flag m); try discriminate;
    cbn [flag_eqb] in Happ, Hun; unfold WHITE in Happ, Hun.
  - monad_inv Happ. monad_inv Hun.
    match goal with
    | H1 : move_piece T (set_en_passant T ba _) _ _ = Some ?a0,
      H2 : move_piece T bX _ _ = Some b2 |- _ =>
        eapply (move_piece_there_back b _ a0 bX b2);
        [exact Hs | | exact H1 | | exact H2]; pos_tac
    end.
  - monad_inv Hun.
    match goal with
    | H2 : move_piece T bX _ _ = Some b2 |- _ =>
        eapply (move_piece_there_back b _ a1 bX b2);
        [exact Hs | | exact Happ | | exact H2]; pos_tac
    end.
  - unfold E1, G1, H1, F1, C1, A1, D1, E8, G8, H8, F8, C8, A8, D8
      in Happ, Hun.
    destruct (m_next_move_colour b); cbn [Bool.eqb] in Happ, Hun;
      monad_inv Happ; monad_inv Hun;
      match goal with
      | H1 : move_piece T ba ?k ?kt = Some ?x1,
        H2 : move_piece T ?x1 ?r ?rt = Some ?x2,
        H3 : move_piece T bX ?kt ?k = Some ?x3,
        H4 : move_piece T ?x3 ?rt ?r = Some b2 |- _ =>
          eapply (castle_there_back b ba x1 x2 bX x3 b2 k kt r rt);
          [exact Hs | | | | | | exact H1 | exact H2 | | exact H3 | exact H4];
          [pos_tac | | | | | pos_tac]; lia
      end.
  - unfold E1, G1, H1, F1, C1, A1, D1, E8, G8, H8, F8, C8, A8, D8
      in Happ, Hun.
    destruct (m_next_move_colour b); cbn [Bool.eqb] in Happ, Hun;
      monad_inv Happ; monad_inv Hun;
      match goal with
      | H1 : move_piece T ba ?k ?kt = Some ?x1,
        H2 : move_piece T ?x1 ?r ?rt = Some ?x2,
        H3 : move_piece T bX ?kt ?k = Some ?x3,
        H4 : move_piece T ?x3 ?rt ?r = Some b2 |- _ =>
          eapply (castle_there_back b ba x1 x2 bX x3 b2 k kt r rt);
          [exact Hs | | | | | | exact H1 | exact H2 | | exact H3 | exact H4];
          [pos_tac | | | | | pos_tac]; lia
      end.
Qed.

(** X2. A move that neither captures nor promotes - quiet, double pawn
    push or castling - is undone exactly: when [make_move] and then
    [unmake_move] return on a board in sync, the board is the one
    before, in all its fields, the piece lists cell for cell. *)
Theorem make_unmake_exact (b b1 b2 : Board) (m : move_t) (v : bool) :
  synced b -> 0 <= m_half_move b < 2 ^ 32 ->
  move_captured m = false -> move_promoted m = false ->
  make_move T b m = Some (b1, v) -> unmake_move T b1 = Some b2 ->
  b2 = b.
Proof.
  intros Hs Hhalf Hcap Hpro Hmk Hun.
  destruct (make_unmake_inv _ _ _ _ _ Hhalf Hmk Hun)
    as (ba & a1 & bX & Hsp & Happ & HspX & HcolX & _ & Hunapp & Hcol & Hcas
        & Hep & Hfif & Hhf & Hhash & Hhist & Hcache).
  destruct (unapplied_exact b ba a1 bX b2 m Hs Hsp Hcap Hpro Happ HspX HcolX
              Hunapp) as (Hs2 & Hc2 & He2).
  destruct (synced_same_cells b b2 Hs Hs2 Hc2) as (Hp & Hn & _).
  apply board_ext; try assumption.
  apply positions_ext; assumption.
Qed.

(** ** The shape of the generated moves *)

Ltac shape_cbn :=
  cbn [moved_piece captured_piece promoted_piece move_captured move_promoted
       move_flag].

Section Shape.

Variables (b : Board) (side : bool) (piece : Z).
Hypothesis Hside : get_side piece = side.
Hypothesis Hvalid : valid_piece piece = true.

Lemma opposite_side (x : Z) :
  opposite_colours piece x = true -> get_side x = negb side.
Proof.
  unfold opposite_colours. rewrite Hside.
  destruct side, (get_side x); simpl; congruence.
Qed.

Lemma quiet_shape (start cur : Z) :
  move_shape side (quiet_move start cur piece).
Proof.
  unfold move_shape, quiet_move. shape_cbn. repeat split; auto.
Qed.

Lemma capture_shape (start cur : Z) :
  opposite_colours piece (piece_at b cur) = true ->
  is_king (piece_at b cur) = false ->
  piece_at b cur <> INVALID_PIECE ->
  move_shape side (capture_move start cur piece (piece_at b cur)).
Proof.
  intros Ho Hk He. unfold move_shape, capture_move. shape_cbn.
  repeat split; auto using opposite_side.
Qed.

Lemma capture_at_shape (start cur : Z) (m : move_t) :
  (valid_square cur = true -> piece_at b cur <> INVALID_PIECE) ->
  In m (capture_at b start cur piece) -> move_shape side m.
Proof.
  intros Hne. unfold capture_at.
  destruct (valid_square cur) eqn:Ec; [|intros []].
  destruct (opposite_colours piece (piece_at b cur)) eqn:Eo; [|intros []].
  destruct (is_king (piece_at b cur)) eqn:Ek; [intros []|].
  intros [<- | []]. apply capture_shape; auto.
Qed.

Lemma slide_shape (offset start : Z) (m : move_t) (fuel : nat) :
  forall cur,
    run_valid fuel cur offset = false ->
    In m (slide fuel b start cur offset piece) -> move_shape side m.
Proof.
  induction fuel as [|fuel IH]; intros cur Hrun Hin.
  - simpl in Hrun, Hin. eapply capture_at_shape; eauto. congruence.
  - simpl in Hrun, Hin.
    destruct (valid_square cur) eqn:Ec; simpl in Hrun, Hin.
    + destruct (piece_at b cur =? INVALID_PIECE) eqn:Ee.
      * destruct Hin as [<- | Hin].
        -- apply quiet_shape.
        -- apply (IH _ Hrun Hin).
      * apply Z.eqb_neq in Ee. eapply capture_at_shape; eauto.
    + eapply capture_at_shape; eauto. congruence.
Qed.

Lemma slider_moves_shape (offsets : list Z) (m : move_t) :
  (forall o, In o offsets -> In o queen_offsets) ->
  In m (slider_moves b piece offsets) -> move_shape side m.
Proof.
  intros Hsub Hin. unfold slider_moves in Hin.
  apply in_flat_map in Hin as (start & Hstart & Hin).
  apply in_flat_map in Hin as (offset & Ho & Hin).
  eapply slide_shape; [|exact Hin]. apply no_nine_in_line. auto.
Qed.

Lemma step_shape (start cur : Z) (m : move_t) :
  In m (if valid_square cur && (piece_at b cur =? INVALID_PIECE)
        then [quiet_move start cur piece]
        else if valid_square cur
                && opposite_colours piece (piece_at b cur)
                && negb (is_king (piece_at b cur))
        then [capture_move start cur piece (piece_at b cur)]
        else []) ->
  move_shape side m.
Proof.
  destruct (valid_square cur); cbn [andb]; [|intros []].
  destruct (piece_at b cur =? INVALID_PIECE) eqn:Ee.
  - intros [<- | []]. apply quiet_shape.
  - apply Z.eqb_neq in Ee.
    destruct (opposite_colours piece (piece_at b cur)) eqn:Eo;
      cbn [andb]; [|intros []].
    destruct (is_king (piece_at b cur)) eqn:Ek; cbn [negb]; [intros []|].
    intros [<- | []]. apply capture_shape; assumption.
Qed.

Lemma knight_moves_shape (m : move_t) :
  In m (knight_moves b piece) -> move_shape side m.
Proof.
  intros Hin. unfold knight_moves in Hin.
  apply in_flat_map in Hin as (start & Hstart & Hin).
  apply in_flat_map in Hin as (offset & Ho & Hin).
  unfold knight_step in Hin. cbv zeta in Hin.
  eapply step_shape. exact Hin.
Qed.

Lemma king_moves_shape (m : move_t) :
  In m (king_moves b piece) -> move_shape side m.
Proof.
  intros Hin. unfold king_moves in Hin. cbv zeta in Hin.
  apply in_flat_map in Hin as (offset & Ho & Hin).
  unfold king_step in Hin. cbv zeta in Hin.
  eapply (step_shape (position0 b piece) (position0 b piece + offset)).
  destruct (valid_square (position0 b piece + offset)); cbn [andb];
    [|exact Hin].
  destruct (piece_at b (position0 b piece + offset) =? INVALID_PIECE);
    exact Hin.
Qed.

Section PawnShape.

Variables (promote_pieces : list Z) (m : move_t).
Hypothesis Hpawn : is_pawn piece = true.
Hypothesis Hpromote :
  forall p, In p promote_pieces ->
            valid_piece p = true /\ is_king p = false.

Lemma pawn_capture_shape (start capture : Z) :
  In m (pawn_capture b start capture piece promote_pieces) ->
  move_shape side m.
Proof.
  unfold pawn_capture.
  destruct (valid_square capture); [|intros []].
  destruct (piece_at b capture =? INVALID_PIECE) eqn:Ee; [intros []|].
  apply Z.eqb_neq in Ee.
  destruct (opposite_colours piece (piece_at b capture)) eqn:Eo;
    [|intros []].
  destruct (is_king (piece_at b capture)) eqn:Ek; [intros []|].
  cbn [negb andb].
  destruct (last_rank capture).
  - intros Hin. apply in_map_iff in Hin as (p & <- & Hin).
    destruct (Hpromote p Hin) as (Hvp & Hkp).
    unfold move_shape, promote_capture_move. shape_cbn.
    repeat split; auto using opposite_side.
  - intros [<- | []]. apply capture_shape; assumption.
Qed.

Lemma pawn_en_passant_shape (start capture : Z) :
  In m (pawn_en_passant b start capture piece) -> move_shape side m.
Proof.
  unfold pawn_en_passant.
  destruct ((capture =? m_en_passant b)
            && (piece_at b capture =? INVALID_PIECE)); [|intros []].
  intros [<- | []]. unfold move_shape, en_passant_move. shape_cbn.
  unfold is_pawn in Hpawn. apply andb_prop in Hpawn as (_ & Hsp).
  apply Z.eqb_eq in Hsp. pose proof (valid_piece_range _ Hvalid) as Hr.
  assert (Hp : piece = 1 \/ piece = 9).
  { unfold species in Hsp.
    assert (Hc : piece = 1 \/ piece = 2 \/ piece = 3 \/ piece = 4
                 \/ piece = 5 \/ piece = 6 \/ piece = 7 \/ piece = 8
                 \/ piece = 9 \/ piece = 10 \/ piece = 11 \/ piece = 12
                 \/ piece = 13 \/ piece = 14 \/ piece = 15) by lia.
    repeat (destruct Hc as [-> | Hc]; [try (vm_compute in Hsp; lia); auto|]).
    subst. vm_compute in Hsp. lia. }
  destruct Hp as [-> | ->]; subst side; vm_compute; repeat split;
    discriminate.
Qed.

Lemma pawn_moves_shape (start : Z) (s : bool) :
  In m (pawn_moves b s piece promote_pieces start) -> move_shape side m.
Proof.
  intros Hin. unfold pawn_moves in Hin.
  repeat (apply in_app_iff in Hin as [Hin | Hin]).
  - match type of Hin with
    | In _ (if ?c then _ else _) => destruct c; [|destruct Hin]
    end.
    destruct Hin as [<- | []].
    unfold move_shape, double_move. shape_cbn. repeat split; auto.
  - match type of Hin with
    | In _ (if ?c then _ else _) => destruct c; [|destruct Hin]
    end.
    destruct Hin as [<- | []].
    unfold move_shape, double_move. shape_cbn. repeat split; auto.
  - cbv zeta in Hin.
    match type of Hin with
    | In _ (if ?c then _ else _) => destruct c; [|destruct Hin]
    end.
    match type of Hin with
    | In _ (if ?c then _ else _) => destruct c
    end.
    + apply in_map_iff in Hin as (p & <- & Hin).
      destruct (Hpromote p Hin) as (Hvp & Hkp).
      unfold move_shape, promote_move. shape_cbn. repeat split; auto.
    + destruct Hin as [<- | []]. apply quiet_shape.
  - eapply pawn_capture_shape; eassumption.
  - eapply pawn_capture_shape; eassumption.
  - match type of Hin with
    | In _ (if ?c then _ else _) => destruct c; [|destruct Hin]
    end.
    apply in_app_iff in Hin as [Hin | Hin];
      eapply pawn_en_passant_shape; eassumption.
Qed.

End PawnShape.

End Shape.

Lemma castle_moves_shape (b : Board) (side : bool) (l : list move_t)
    (m : move_t) :
  castle_moves b side = Some l -> In m l -> move_shape side m.
Proof.
  unfold castle_moves. rewrite !square_attacked_scan. intros Hc Hin.
  destruct side; cbn [Bool.eqb WHITE] in Hc; injection Hc as <-;
    apply in_app_iff in Hin as [Hin | Hin];
    match type of Hin with
    | In _ (if ?c then _ else _) => destruct c; [|destruct Hin]
    end;
    destruct Hin as [<- | []]; vm_compute; repeat split; discriminate.
Qed.

Lemma generate_moves_shape (b : Board) (side : bool) (l : list move_t)
    (m : move_t) :
  generate_moves b side = Some l -> In m l -> move_shape side m.
Proof.
  intros Hgen Hin. unfold generate_moves in Hgen.
  destruct (castle_moves b side) as [castles|] eqn:Ec; [|discriminate].
  injection Hgen as <-.
  apply in_app_iff in Hin as [Hin | Hin];
    [|apply in_app_iff in Hin as [Hin | Hin];
      [|apply in_app_iff in Hin as [Hin | Hin];
        [|apply in_app_iff in Hin as [Hin | Hin];
          [|apply in_app_iff in Hin as [Hin | Hin];
            [|apply in_app_iff in Hin as [Hin | Hin]]]]]].
  - eapply slider_moves_shape; [| | | exact Hin]; [| |auto];
      destruct side; reflexivity.
  - eapply slider_moves_shape; [| | | exact Hin];
      [destruct side; reflexivity | destruct side; reflexivity|].
    unfold orthogonal_offsets, queen_offsets. simpl. intros o. lia.
  - eapply slider_moves_shape; [| | | exact Hin];
      [destruct side; reflexivity | destruct side; reflexivity|].
    unfold diagonal_offsets, queen_offsets. simpl. intros o. lia.
  - eapply knight_moves_shape; [| | exact Hin]; destruct side; reflexivity.
  - apply in_flat_map in Hin as (start & Hstart & Hin).
    eapply pawn_moves_shape; [| | | | exact Hin];
      try (destruct side; reflexivity).
    destruct side; simpl; intros p [<- | [<- | [<- | [<- | []]]]];
      split; reflexivity.
  - eapply king_moves_shape; [| | exact Hin]; destruct side; reflexivity.
  - eapply castle_moves_shape; eassumption.
Qed.

(** X3. On a cache miss every move [pseudo_moves] returns moves a
    piece of the side generated for; it never captures a king; a
    capturing move names a piece of the other side, any other move
    names no captured piece; a promotion moves a pawn and never
    promotes to a king. *)
Theorem pseudo_moves_shape (b b' : Board) (_side : option bool)
    (l : list move_t) (m : move_t) :
  m_move_cache b !! m_hash b = None ->
  pseudo_moves b _side = Some (l, b') -> In m l ->
  move_shape (generating_side b _side) m.
Proof.
  intros Hmiss Hpm Hin. unfold pseudo_moves in Hpm. rewrite Hmiss in Hpm.
  destruct ((m_half_move b >? 1000) || (m_fifty_move b >? 75)).
  { injection Hpm as <- <-. destruct Hin. }
  fold (generating_side b _side) in Hpm.
  destruct (generate_moves b (generating_side b _side)) as [result|] eqn:Eg;
    [|discriminate].
  destruct (length result <=? MAX_POSITION_MOVES)%nat; [|discriminate].
  injection Hpm as <- <-. eapply generate_moves_shape; eassumption.
Qed.

(** ** Two boards with the same pieces *)

(** Apply the inversion lemma of every primitive call in the context,
    oldest board first. *)
Ltac inv_prims :=
  repeat match goal with
         | Hs : synced ?b0, H : remove_piece _ ?E ?sq = Some ?b' |- _ =>
             let Hsp := fresh "Hsp" in
             assert (Hsp : same_pos b0 E) by pos_tac;
             let Hv := fresh "Hv" in
             let Hs' := fresh "Hs" in
             let Hc := fresh "Hc" in
             let Hp := fresh "Hpos" in
             let Hn := fresh "Hn" in
             destruct (remove_piece_inv b0 E b' sq Hsp Hs H)
               as (Hv & Hs' & Hc & (Hp & Hn) & _ & _);
             clear H Hsp
         | Hs : synced ?b0, H : add_piece _ ?E ?sq ?p = Some ?b' |- _ =>
             let Hsp := fresh "Hsp" in
             assert (Hsp : same_pos b0 E) by pos_tac;
             let Hv := fresh "Hv" in
             let Hs' := fresh "Hs" in
             let Hc := fresh "Hc" in
             let Hn := fresh "Hn" in
             destruct (add_piece_inv b0 E b' sq p Hsp Hs H)
               as (Hv & Hs' & Hc & Hn & _ & _);
             clear H Hsp
         | Hs : synced ?b0, H : move_piece _ ?E ?from ?to = Some ?b' |- _ =>
             let Hsp := fresh "Hsp" in
             assert (Hsp : same_pos b0 E) by pos_tac;
             let Hv := fresh "Hv" in
             let Hs' := fresh "Hs" in
             let Hc := fresh "Hc" in
             let Hn := fresh "Hn" in
             destruct (move_piece_inv b0 E b' from to Hsp Hs H)
               as (Hv & Hs' & Hc & Hn & _ & _);
             clear H Hsp
         end.

(** Look through the setters around a board. *)
Ltac to_base :=
  repeat match goal with
         | |- context [piece_at ?E ?s] =>
             tryif is_var E then fail else
               match goal with
               | v : Board |- _ =>
                   let H := fresh in
                   assert (H : same_pos v E) by pos_tac;
                   rewrite (same_pos_piece_at v E s H); clear H
               end
         | |- context [num_of ?E ?q] =>
             tryif is_var E then fail else
               match goal with
               | v : Board |- _ =>
                   let H := fresh in
                   assert (H : same_pos v E) by pos_tac;
                   rewrite (same_pos_num_of v E q H); clear H
               end
         end.

(** Read cells and counts through the chains of updates. *)
Ltac track :=
  intros; to_base;
  repeat match goal with
         | H : (0 < num_of _ _)%nat |- _ => revert H
         end;
  repeat match goal with
         | H : forall q, num_of ?bk q = _ |- context [num_of ?bk _] =>
             rewrite H
         | H : forall s, piece_at ?bk s = _ |- context [piece_at ?bk _] =>
             rewrite H
         end;
  repeat match goal with
         | |- context [?x =? ?y] => destruct (Z.eqb_spec x y)
         end;
  intros; subst; unfold INVALID_PIECE, MAX_PIECE_FREQ in *;
  try reflexivity; try assumption; try congruence; try lia.

Lemma same_pos_cells (b b' : Board) :
  same_pos b b' ->
  (forall s, piece_at b' s = piece_at b s)
  /\ (forall q, num_of b' q = num_of b q).
Proof.
  intros H. split; intros x;
    [apply same_pos_piece_at | apply same_pos_num_of]; exact H.
Qed.

(** The mailbox and the counts [apply_move] leaves are a function of
    the mailbox and the counts it finds. *)
Lemma apply_move_congr (a c aa ca a1 c1 : Board) (m : move_t)
    (side : bool) :
  synced a -> synced c -> same_pos a aa -> same_pos c ca ->
  (forall s, piece_at a s = piece_at c s) ->
  (forall q, num_of a q = num_of c q) ->
  apply_move T aa m side = Some a1 -> apply_move T ca m side = Some c1 ->
  (forall s, piece_at a1 s = piece_at c1 s)
  /\ (forall q, num_of a1 q = num_of c1 q).
Proof.
  intros Hsa Hsc Hspa Hspc Hcell Hnum Ha Hc.
  destruct (same_pos_cells a aa Hspa) as [Hcaa Hnaa].
  destruct (same_pos_cells c ca Hspc) as [Hcca Hnca].
  unfold apply_move, make_castle in Ha, Hc.
  unfold E1, G1, H1, F1, C1, A1, D1, E8, G8, H8, F8, C8, A8, D8 in Ha, Hc.
  destruct (move_promoted m); [|destruct (move_castled m)].
  - destruct (move_captured m); monad_inv Ha; monad_inv Hc; inv_prims;
      split; track.
  - destruct side; cbn [Bool.eqb WHITE] in Ha, Hc;
      destruct (flag_eqb (move_flag m) SHORT_CASTLE_MOVE);
      monad_inv Ha; monad_inv Hc; inv_prims;
      split; track.
  - destruct (move_flag m); cbn [flag_eqb] in Ha, Hc;
      monad_inv Ha; monad_inv Hc; inv_prims;
      split; track.
Qed.

Lemma ray_walk_congr (a c : Board) (offset : Z) (fuel : nat) :
  (forall s, piece_at a s = piece_at c s) ->
  forall cur, ray_walk fuel a cur offset = ray_walk fuel c cur offset.
Proof.
  intros H. induction fuel as [|fuel IH]; intros cur; simpl;
    [reflexivity|].
  rewrite H, IH. reflexivity.
Qed.

(** [square_attacked] reads the mailbox and the square of the
    attacker's king. *)
Lemma attack_scan_congr (a c : Board) (sq : Z) (side : bool) :
  (forall s, piece_at a s = piece_at c s) ->
  position0 a (if side then BLACK_KING else WHITE_KING)
  = position0 c (if side then BLACK_KING else WHITE_KING) ->
  attack_scan a sq side = attack_scan c sq side.
Proof.
  intros H Hk. unfold attack_scan, ray_attack, WHITE.
  replace (if Bool.eqb side false then WHITE_KING else BLACK_KING)
    with (if side then BLACK_KING else WHITE_KING)
    by (destruct side; reflexivity).
  rewrite Hk.
  rewrite (existsb_ext_all
             (fun offset =>
                piece_at a (sq + offset)
                =? (if Bool.eqb side false then WHITE_KNIGHT
                    else BLACK_KNIGHT))
             (fun offset =>
                piece_at c (sq + offset)
                =? (if Bool.eqb side false then WHITE_KNIGHT
                    else BLACK_KNIGHT)))
    by (intros x; rewrite H; reflexivity).
  rewrite (existsb_ext_all
             (fun offset =>
                piece_at a (sq + offset)
                =? (if Bool.eqb side false then WHITE_PAWN else BLACK_PAWN))
             (fun offset =>
                piece_at c (sq + offset)
                =? (if Bool.eqb side false then WHITE_PAWN else BLACK_PAWN)))
    by (intros x; rewrite H; reflexivity).
  repeat match goal with
         | |- context [existsb ?f ?l] =>
             lazymatch f with
             | context [a] =>
                 erewrite (existsb_ext_all f _ l)
                   by (intros x; cbv beta zeta;
                       rewrite (ray_walk_congr a c x RAY_FUEL H), !H;
                       reflexivity)
             end
         end.
  reflexivity.
Qed.

(** With one king in its list, the king's square is where the mailbox
    has the king. *)
Lemma king_position_congr (a c : Board) (king : Z) :
  synced a -> synced c ->
  (forall s, piece_at a s = piece_at c s) ->
  valid_piece king = true ->
  num_of a king = 1%nat -> num_of c king = 1%nat ->
  position0 a king = position0 c king.
Proof.
  intros Hsa Hsc H Hv Ha Hc.
  pose proof (king_square a Hsa king Hv ltac:(lia)) as Hka.
  pose proof (king_square c Hsc king Hv ltac:(lia)) as Hkc.
  rewrite H in Hka.
  destruct Hsc as (_ & _ & _ & _ & _ & Hsync & _).
  destruct (Hsync king Hv) as (_ & _ & Hin).
  apply Hin in Hka. apply Hin in Hkc.
  unfold piece_list in Hka, Hkc. fold (num_of c king) in Hka, Hkc.
  rewrite Hc in Hka, Hkc.
  destruct (nth (Z.to_nat king) (m_positions c) []) as [|x l];
    [destruct Hka|].
  simpl in Hka, Hkc. destruct Hka as [<- | []]. destruct Hkc as [Hx | []].
  exact Hx.
Qed.

Lemma not_king_pawn (x : Z) : is_pawn x = true -> is_king x = false.
Proof.
  unfold is_pawn, is_king. intros H. apply andb_prop in H as (Hv & Hs).
  apply Z.eqb_eq in Hs. rewrite Hv, Hs. reflexivity.
Qed.

(** A generated move leaves both kings where the lists count them. *)
Lemma apply_move_kings (b ba a1 : Board) (m : move_t) (king : Z) :
  synced b -> same_pos b ba -> move_fits b m ->
  move_shape (m_next_move_colour b) m ->
  apply_move T ba m (m_next_move_colour b) = Some a1 ->
  is_king king = true ->
  num_of a1 king = num_of b king.
Proof.
  intros Hs Hsp Hfit (_ & _ & Hkc & _ & Hpro) Happ Hk.
  destruct (same_pos_cells b ba Hsp) as [Hcba Hnba].
  destruct m as [from to moved captured promoted flag].
  unfold apply_move, make_castle in Happ.
  unfold E1, G1, H1, F1, C1, A1, D1, E8, G8, H8, F8, C8, A8, D8 in Happ.
  unfold move_fits in Hfit. unfold move_promoted in Hpro.
  cbn [move_flag move_from move_to moved_piece captured_piece
       promoted_piece] in *.
  destruct flag;
    cbn [move_promoted move_castled move_captured move_flag flag_eqb
         move_from move_to moved_piece captured_piece promoted_piece]
      in Happ;
    try (destruct Hpro as (Hpawn & _ & Hkp); apply not_king_pawn in Hpawn);
    unfold WHITE in Happ;
    try (destruct (m_next_move_colour b); cbn [Bool.eqb] in Happ, Hfit);
    monad_inv Happ; inv_prims; track;
    try (exfalso;
         repeat match goal with
                | H : _ /\ _ |- _ => destruct H
                end;
         congruence).
Qed.

(** ** The verdict of [make_move] on two boards with the same pieces *)

Lemma make_move_congr (b c b1 c1 : Board) (m : move_t) (vb vc : bool) :
  synced b -> synced c ->
  (forall s, piece_at c s = piece_at b s) ->
  (forall q, num_of c q = num_of b q) ->
  m_next_move_colour c = m_next_move_colour b ->
  num_of b WHITE_KING = 1%nat -> num_of b BLACK_KING = 1%nat ->
  move_fits b m -> move_shape (m_next_move_colour b) m ->
  make_move T b m = Some (b1, vb) -> make_move T c m = Some (c1, vc) ->
  vb = vc.
Proof.
  intros Hsb Hsc Hcell Hnum Hcol Hwk Hbk Hfit Hshape Hb Hc.
  destruct (make_move_inv _ _ _ _ Hb)
    as (a1 & Happb & Hspb & _ & _ & _ & _ & _ & _ & _ & ->).
  destruct (make_move_inv _ _ _ _ Hc)
    as (a1' & Happc & Hspc & _ & _ & _ & _ & _ & _ & _ & ->).
  rewrite Hcol in *.
  match type of Happb with
  | apply_move T ?ba _ _ = _ =>
      match type of Happc with
      | apply_move T ?ca _ _ = _ =>
          assert (Hspba : same_pos b ba) by pos_tac;
          assert (Hspca : same_pos c ca) by pos_tac;
          destruct (apply_move_congr c b ca ba a1' a1 m _ Hsc Hsb Hspca Hspba
                      Hcell Hnum Happc Happb) as [Hcell1 Hnum1];
          pose proof (apply_move_kings b ba a1 m WHITE_KING Hsb Hspba Hfit
                        Hshape Happb eq_refl) as Hwk1;
          pose proof (apply_move_kings b ba a1 m BLACK_KING Hsb Hspba Hfit
                        Hshape Happb eq_refl) as Hbk1
      end
  end.
  pose proof (make_move_keeps_synced _ _ _ _ Hsb Hb) as Hsb1.
  pose proof (make_move_keeps_synced _ _ _ _ Hsc Hc) as Hsc1.
  destruct (same_pos_cells a1 b1 Hspb) as [Hcb1 Hnb1].
  destruct (same_pos_cells a1' c1 Hspc) as [Hcc1 Hnc1].
  assert (Hcells : forall s, piece_at b1 s = piece_at c1 s)
    by (intros s; rewrite Hcb1, Hcc1, Hcell1; reflexivity).
  assert (Hkings : forall king,
             king = WHITE_KING \/ king = BLACK_KING ->
             position0 b1 king = position0 c1 king).
  { intros king Hking.
    apply king_position_congr; try assumption.
    - destruct Hking as [-> | ->]; reflexivity.
    - rewrite Hnb1. destruct Hking as [-> | ->]; congruence.
    - rewrite Hnc1, Hnum1. destruct Hking as [-> | ->]; congruence. }
  f_equal.
  rewrite (Hkings (if m_next_move_colour b then BLACK_KING else WHITE_KING))
    by (destruct (m_next_move_colour b); auto).
  apply attack_scan_congr; [exact Hcells|].
  apply Hkings. destruct (m_next_move_colour b); auto.
Qed.

Lemma restored_refl (b : Board) : restored b b.
Proof.
  unfold restored. repeat split; reflexivity.
Qed.

Lemma restored_trans (b1 b2 b3 : Board) :
  restored b1 b2 -> restored b2 b3 -> restored b1 b3.
Proof.
  unfold restored.
  intros (Hp & Hn & Hperm & H) (Hp' & Hn' & Hperm' & H').
  split; [congruence|]. split; [congruence|]. split.
  - intros p Hv. rewrite (Hperm' p Hv). apply Hperm. exact Hv.
  - intuition congruence.
Qed.

Lemma restored_cells (b b2 : Board) :
  restored b b2 ->
  (forall s, piece_at b2 s = piece_at b s)
  /\ (forall q, num_of b2 q = num_of b q).
Proof.
  intros (Hp & Hn & _). unfold piece_at, num_of. rewrite Hp, Hn. auto.
Qed.

Lemma move_fits_restored (b b2 : Board) (m : move_t) :
  restored b b2 -> move_fits b m -> move_fits b2 m.
Proof.
  intros (Hp & Hn & _ & Hcol & _ & Hep & _).
  unfold move_fits, castle_fits, piece_at, num_of.
  rewrite Hp, Hn, Hcol, Hep. tauto.
Qed.

(** The loop of [legal_moves] on a board that has the pieces of [b]:
    every move is made and unmade, and kept when [make_move] accepts
    it on [b]. *)
Lemma filter_legal_accepted (b : Board) :
  synced b -> 0 <= m_half_move b <= 1000 ->
  num_of b WHITE_KING = 1%nat -> num_of b BLACK_KING = 1%nat ->
  forall (moves : list move_t) (tmp : Board),
    (forall m, In m moves ->
               move_fits b m /\ move_shape (m_next_move_colour b) m) ->
    synced tmp -> restored b tmp ->
    filter_legal T tmp moves = Some (List.filter (accepted T b) moves).
Proof.
  intros Hs Hhalf Hwk Hbk.
  induction moves as [|m rest IH]; intros tmp Hall Hst Hres;
    [reflexivity|].
  destruct (Hall m (or_introl eq_refl)) as [Hfit Hshape].
  destruct (restored_cells _ _ Hres) as [Hcell Hnum].
  pose proof Hres as (_ & _ & _ & Hcol & _ & _ & _ & Hhf & _).
  destruct (make_unmake_fits tmp m Hst) as (b1 & v & b2 & Hmk & Hun & Hres2);
    [lia | eapply move_fits_restored; eassumption |].
  destruct (make_unmake_fits b m Hs Hhalf Hfit)
    as (b1' & v' & b2' & Hmk' & _ & _).
  assert (Hv : v' = v).
  { eapply (make_move_congr b tmp); eassumption. }
  cbn [filter_legal List.filter]. rewrite Hmk. cbn [fst snd]. rewrite Hun.
  rewrite (IH b2).
  - replace (accepted T b m) with v
      by (unfold accepted; rewrite Hmk', Hv; reflexivity).
    reflexivity.
  - intros m' Hm'. apply Hall. right. exact Hm'.
  - eapply unmake_move_keeps_synced; [|exact Hun].
    eapply make_move_keeps_synced; eassumption.
  - eapply restored_trans; eassumption.
Qed.

(** X4. On a playable board whose cache has no entry for the position,
    with room for every promotion, [legal_moves()] returns, and what
    it returns is the list of [pseudo_moves()] with the moves that
    [make_move] accepts, in the same order. *)
Theorem legal_moves_accepted (b b' : Board) (l : list move_t) :
  playable b ->
  m_move_cache b !! m_hash b = None ->
  pseudo_moves b None = Some (l, b') ->
  (forall m, In m l -> move_promoted m = true ->
             (num_of b (promoted_piece m) < MAX_PIECE_FREQ)%nat) ->
  legal_moves T b = Some (List.filter (accepted T b') l).
Proof.
  intros Hplay Hmiss Hpm Hroom.
  unfold legal_moves. rewrite Hpm. cbn [fst snd].
  pose proof Hpm as Hpm'. unfold pseudo_moves in Hpm'.
  rewrite Hmiss in Hpm'.
  destruct ((m_half_move b >? 1000) || (m_fifty_move b >? 75)) eqn:Edraw.
  { injection Hpm' as <- <-. reflexivity. }
  apply orb_false_iff in Edraw as [Ehalf _].
  rewrite Z.gtb_ltb in Ehalf. apply Z.ltb_ge in Ehalf.
  destruct (generate_moves b (m_next_move_colour b)) as [result|] eqn:Egen;
    [|discriminate].
  destruct (length result <=? MAX_POSITION_MOVES)%nat; [|discriminate].
  injection Hpm' as <- <-.
  pose proof Hplay as (Hs & Hwk & Hbk & _ & _ & Hhalf).
  set (b' := with_move_cache b (<[m_hash b := result]> (m_move_cache b))).
  assert (Hsp : same_pos b b') by (unfold b'; pos_tac).
  apply (filter_legal_accepted b').
  - eapply same_pos_synced; eassumption.
  - unfold b'. cbn. lia.
  - exact Hwk.
  - exact Hbk.
  - intros m Hin. split.
    + apply (generate_moves_fits b result m Hplay Egen Hin (Hroom m Hin)).
    + eapply generate_moves_shape; eassumption.
  - eapply same_pos_synced; eassumption.
  - apply restored_refl.
Qed.

(** ** Counters and castling rights along a game *)

(** Clearing bits of a non-negative state gives a smaller one with no
    new bit. *)
Lemma clear_bits_le (state mask : Z) :
  0 <= state -> 0 <= Z.land state (Z.lnot mask) <= state.
Proof.
  intros H. split; [apply Z.land_nonneg; left; exact H|].
  rewrite <- Z.sub_land_same_l.
  assert (0 <= Z.land state mask) by (apply Z.land_nonneg; left; exact H).
  lia.
Qed.

Lemma clear_bits_sub (state mask n : Z) :
  Z.testbit (Z.land state (Z.lnot mask)) n = true ->
  Z.testbit state n = true.
Proof.
  rewrite Z.land_spec. intros H. apply andb_prop in H as [H _]. exact H.
Qed.

Lemma strip_le (cond : bool) (right state : Z) :
  0 <= state -> 0 <= strip cond right state <= state.
Proof.
  intros H. unfold strip. destruct cond; [apply clear_bits_le; exact H|lia].
Qed.

Lemma strip_sub (cond : bool) (right state n : Z) :
  Z.testbit (strip cond right state) n = true -> Z.testbit state n = true.
Proof.
  unfold strip. destruct cond; [apply clear_bits_sub|exact id].
Qed.

Lemma rights_after_leaving_le (sq moved state : Z) :
  0 <= state -> 0 <= rights_after_leaving sq moved state <= state.
Proof.
  intros H. unfold rights_after_leaving.
  destruct (negb (is_castle moved)); [lia|].
  repeat match goal with
         | |- context [strip ?c ?r ?s] =>
             lazymatch s with
             | context [strip] => fail
             | _ =>
                 let H' := fresh in
                 assert (H' : 0 <= strip c r s <= s)
                   by (apply strip_le; lia);
                 generalize dependent (strip c r s); intros
             end
         end.
  lia.
Qed.

Lemma rights_after_leaving_sub (sq moved state n : Z) :
  Z.testbit (rights_after_leaving sq moved state) n = true ->
  Z.testbit state n = true.
Proof.
  unfold rights_after_leaving.
  destruct (negb (is_castle moved)); [exact id|].
  intros H. do 4 apply strip_sub in H. exact H.
Qed.

Lemma apply_move_rights (b b' : Board) (move : move_t) (side : bool) :
  apply_move T b move side = Some b' ->
  (forall n, Z.testbit (m_castle_state b') n = true ->
             Z.testbit (m_castle_state b) n = true)
  /\ (0 <= m_castle_state b ->
      0 <= m_castle_state b' <= m_castle_state b).
Proof.
  intros H. apply apply_move_castle_state in H. rewrite H.
  split.
  - intros n. destruct (move_flag move);
      first [exact id | apply rights_after_leaving_sub | apply clear_bits_sub].
  - intros Hs. destruct (move_flag move);
      first [lia | apply rights_after_leaving_le; exact Hs
            | apply clear_bits_le; exact Hs].
Qed.

Lemma make_move_rights (b b' : Board) (m : move_t) (v : bool) :
  make_move T b m = Some (b', v) ->
  (forall n, Z.testbit (m_castle_state b') n = true ->
             Z.testbit (m_castle_state b) n = true)
  /\ (0 <= m_castle_state b ->
      0 <= m_castle_state b' <= m_castle_state b).
Proof.
  intros H.
  destruct (make_move_inv _ _ _ _ H) as (a1 & Happ & _ & _ & Hcas & _).
  apply apply_move_rights in Happ. rewrite Hcas. exact Happ.
Qed.

(** X5. A move never grants a castling right: every bit of the castle
    state after a successful [make_move] was set before it, so a right
    once lost is never regained by playing on. *)
Theorem make_move_never_grants_castling (b b' : Board) (m : move_t)
    (v : bool) (n : Z) :
  make_move T b m = Some (b', v) ->
  Z.testbit (m_castle_state b') n = true ->
  Z.testbit (m_castle_state b) n = true.
Proof.
  intros H. apply (proj1 (make_move_rights _ _ _ _ H)).
Qed.

Lemma wrap32_range (x : Z) : 0 <= wrap32 x < 2 ^ 32.
Proof. unfold wrap32. apply Z.mod_pos_bound. lia. Qed.

Lemma even_modulus_parity (x k : Z) :
  0 < k -> (x mod (2 * k)) mod 2 = x mod 2.
Proof.
  intros Hk. rewrite Z.rem_mul_r by lia.
  rewrite (Z.mul_comm 2), Z.mod_add by lia.
  apply Z.mod_mod. lia.
Qed.

Lemma wrap32_parity (x : Z) : wrap32 x mod 2 = x mod 2.
Proof.
  unfold wrap32. change (2 ^ 32) with (2 * 2147483648).
  apply even_modulus_parity. lia.
Qed.

Lemma wrap64_parity (x : Z) : wrap64 x mod 2 = x mod 2.
Proof.
  unfold wrap64. change (2 ^ 64) with (2 * 9223372036854775808).
  apply even_modulus_parity. lia.
Qed.

Lemma parse_castle_range (s rest : list ascii) (state state' : Z) :
  0 <= state < 16 ->
  parse_castle s state = Some (rest, state') -> 0 <= state' < 16.
Proof.
  revert state. induction s as [|c s IH]; intros state Hs H;
    [discriminate|].
  assert (Hor : forall k, k = 1 \/ k = 2 \/ k = 4 \/ k = 8 ->
                          0 <= Z.lor state k < 16).
  { intros k Hk.
    assert (Hc : state = 0 \/ state = 1 \/ state = 2 \/ state = 3
                 \/ state = 4 \/ state = 5 \/ state = 6 \/ state = 7
                 \/ state = 8 \/ state = 9 \/ state = 10 \/ state = 11
                 \/ state = 12 \/ state = 13 \/ state = 14 \/ state = 15)
      by lia.
    repeat destruct Hc as [-> | Hc]; try subst state;
      repeat destruct Hk as [-> | Hk]; try subst k;
      cbv; (split; [intro; discriminate | reflexivity]). }
  cbn [parse_castle] in H.
  destruct (is_char c " "); [injection H as _ <-; exact Hs|].
  repeat match type of H with
         | (if ?c then _ else _) = _ =>
             destruct c; [apply IH in H; [exact H|apply Hor; cbv; tauto]|]
         end.
  discriminate.
Qed.

Lemma parse_fifty_range (s rest : list ascii) (acc acc' : Z) :
  0 <= acc < 2 ^ 32 ->
  parse_fifty s acc = Some (rest, acc') -> 0 <= acc' < 2 ^ 32.
Proof.
  revert acc. induction s as [|c s IH]; intros acc Ha H; [discriminate|].
  cbn [parse_fifty] in H.
  destruct (is_char c " "); [injection H as _ <-; exact Ha|].
  destruct (is_digit c); [|discriminate].
  apply IH in H; [exact H|apply wrap32_range].
Qed.

Lemma parse_placement_history (s s' : list ascii) (sq sq' : Z)
    (b b' : Board) :
  parse_placement s sq b = Some (s', sq', b') ->
  m_history b' = m_history b.
Proof.
  revert sq b. induction s as [|c s IH]; intros sq b H; simpl in H;
    [discriminate|].
  destruct (is_char c " "); [injection H as _ _ <-; reflexivity|].
  destruct (is_char c "/").
  { destruct (sq mod 10 =? 9); [|discriminate]. apply IH in H. exact H. }
  destruct ((code "1" <=? code c) && (code c <=? code "8")).
  { destruct (clear_cells _ _ _) as [pieces|] eqn:Hc; [|discriminate].
    destruct (row_end_or_valid _); [|discriminate].
    apply IH in H. exact H. }
  destruct (valid_square sq); [|discriminate].
  destruct (valid_piece (piece_from_char c)); [|discriminate].
  destruct (sub (m_positions b) _); [|discriminate].
  destruct (sub (m_num_pieces b) _); [|discriminate].
  destruct (_ <? MAX_PIECE_FREQ)%nat; [|discriminate].
  destruct (_ <? length _)%nat; [|discriminate].
  destruct (row_end_or_valid _); [|discriminate].
  apply IH in H. exact H.
Qed.

Lemma Board_of_fen_counters (fen : list ascii) (b : Board) :
  Board_of_fen T fen = Some b -> counters_ok b.
Proof.
  unfold Board_of_fen. intros H.
  destruct (parse_placement fen A8 blank_board)
    as [[[s sq] b1]|] eqn:Hp; [|discriminate].
  apply parse_placement_history in Hp. cbn in Hp.
  monad_inv H.
  all: repeat match goal with
              | E : parse_castle _ 0 = Some _ |- _ =>
                  apply parse_castle_range in E; [|lia]
              | E : parse_fifty _ 0 = Some _ |- _ =>
                  apply parse_fifty_range in E; [|lia]
              end.
  all: unfold counters_ok;
    cbn [m_castle_state m_fifty_move m_half_move m_next_move_colour
         m_history with_hash with_half_move with_fifty_move with_en_passant
         with_castle_state with_colour];
    rewrite Hp, ?wrap32_parity, ?wrap64_parity.
  all: repeat split; try lia; try apply wrap32_range; try constructor.
  all: rewrite Z.add_comm, Z.mul_comm, Z.mod_add by lia.
  all: first [reflexivity
             | exfalso;
               match goal with
               | E : m_next_move_colour _ = _ |- _ =>
                   cbn in E; discriminate E
               end].
Qed.

Lemma make_move_fifty (b b' : Board) (m : move_t) (v : bool) :
  make_move T b m = Some (b', v) -> 0 <= m_fifty_move b' < 2 ^ 32.
Proof.
  unfold make_move. cbv zeta.
  destruct (apply_move T _ m (m_next_move_colour b)) as [a1|];
    [|discriminate].
  set (fifty := if move_captured m || is_pawn (moved_piece m) then 0
                else wrap32 (m_fifty_move a1 + 1)).
  replace (if move_captured m || is_pawn (moved_piece m)
           then with_fifty_move a1 0
           else with_fifty_move a1 (wrap32 (m_fifty_move a1 + 1)))
    with (with_fifty_move a1 fifty)
    by (unfold fifty; destruct (move_captured m || is_pawn (moved_piece m));
        reflexivity).
  destruct (square_attacked _ _ _); [|discriminate].
  intros H. injection H as <- _.
  change (0 <= fifty < 2 ^ 32). unfold fifty.
  destruct (move_captured m || is_pawn (moved_piece m));
    [lia|apply wrap32_range].
Qed.

Lemma make_move_counters (b b' : Board) (m : move_t) (v : bool) :
  counters_ok b -> make_move T b m = Some (b', v) -> counters_ok b'.
Proof.
  intros (Hcas & Hfif & Hhalf & Hpar & Hhist) H.
  pose proof (make_move_fifty _ _ _ _ H) as Hfif'.
  pose proof (proj2 (make_move_rights _ _ _ _ H) (proj1 Hcas)) as Hcas'.
  destruct (make_move_inv _ _ _ _ H)
    as (_ & _ & _ & Hcol & _ & _ & Hhalf' & _ & Hhist' & _).
  unfold counters_ok. rewrite Hcol, Hhalf', Hhist', wrap32_parity.
  split; [lia|]. split; [exact Hfif'|]. split; [apply wrap32_range|].
  split.
  - rewrite <- Z.add_mod_idemp_l, Hpar by lia.
    destruct (m_next_move_colour b); reflexivity.
  - constructor; [|exact Hhist]. split; [exact Hcas|exact Hfif].
Qed.

Lemma unmake_move_counters (b b' : Board) :
  counters_ok b -> unmake_move T b = Some b' -> counters_ok b'.
Proof.
  intros (Hcas & Hfif & Hhalf & Hpar & Hhist) H.
  destruct (unmake_move_inv _ _ H)
    as (entry & rest & bX & Hh & Hpos & _ & HcolX & HcasX & _ & HfifX
        & HhalfX & HhistX & _ & Hunapp & _).
  destruct (unapply_move_frame _ _ _ Hunapp)
    as (Hcol2 & Hcas2 & _ & Hfif2 & Hhalf2 & Hhist2 & _).
  rewrite Hh in Hhist. inversion Hhist as [|? ? [He1 He2] Hrest]; subst.
  unfold counters_ok.
  rewrite Hcol2, Hcas2, Hfif2, Hhalf2, Hhist2, HcolX, HcasX, HfifX, HhalfX.
  split; [exact He1|]. split; [exact He2|]. split; [lia|].
  split; [|exact Hrest].
  replace (m_half_move b - 1) with (m_half_move b + 1 + (-1) * 2) by lia.
  rewrite Z.mod_add by lia.
  rewrite <- Z.add_mod_idemp_l, Hpar by lia.
  destruct (m_next_move_colour b); reflexivity.
Qed.

Lemma pseudo_moves_counters (b b' : Board) (_side : option bool)
    (l : list move_t) :
  counters_ok b -> pseudo_moves b _side = Some (l, b') -> counters_ok b'.
Proof.
  unfold pseudo_moves. intros Hc H. monad_inv H; exact Hc.
Qed.

(** X6. On every board reached from a FEN string by [make_move],
    [unmake_move] and [pseudo_moves], the castle state is an index of
    the 16-entry castle hash table, both clocks are in the range of an
    [unsigned int], and the ply counter is odd exactly when black is to
    move. *)
Theorem reachable_counters (b : Board) :
  reachable T b ->
  0 <= m_castle_state b < 16
  /\ 0 <= m_fifty_move b < 2 ^ 32
  /\ 0 <= m_half_move b < 2 ^ 32
  /\ m_half_move b mod 2 = (if m_next_move_colour b then 1 else 0).
Proof.
  intros H.
  assert (Hc : counters_ok b).
  { induction H as [fen b H | b b' move valid _ IH H | b b' _ IH H
                   | b b' sd l _ IH H].
    - exact (Board_of_fen_counters _ _ H).
    - exact (make_move_counters _ _ _ _ IH H).
    - exact (unmake_move_counters _ _ IH H).
    - exact (pseudo_moves_counters _ _ _ _ IH H). }
  destruct Hc as (H1 & H2 & H3 & H4 & _). auto.
Qed.

(** ** Validation *)

(** The cells among [sqs] that hold [p]. *)
Lemma count_cells_inv (b : Board) (sqs : list Z) (pc pc' : list nat) :
  count_cells b sqs pc = Some pc' ->
  length pc' = length pc
  /\ (forall sq, In sq sqs ->
        0 <= sq /\ (Z.to_nat sq < length (m_pieces b))%nat
        /\ (piece_at b sq = INVALID_PIECE
            \/ valid_piece (piece_at b sq) = true))
  /\ (forall p, 0 <= p ->
        nth (Z.to_nat p) pc' 0%nat
        = (nth (Z.to_nat p) pc 0%nat
           + length (cells_holding b p sqs))%nat).
Proof.
  revert pc. induction sqs as [|sq sqs IH]; intros pc H.
  { injection H as <-. split; [reflexivity|]. split; [intros ? []|].
    intros p _. simpl. lia. }
  cbn [count_cells] in H.
  destruct (sub (m_pieces b) sq) as [piece|] eqn:Hsub; [|discriminate].
  destruct (valid_piece piece || (piece =? INVALID_PIECE)) eqn:Hv;
    [|discriminate].
  destruct (sub pc piece) as [count|] eqn:Hc; [|discriminate].
  apply IH in H. destruct H as (Hlen & Hall & Hcount).
  rewrite length_insert in Hlen.
  apply sub_Some in Hsub as (Hsq0 & Hsqlt & Hlook).
  apply sub_Some in Hc as (Hp0 & Hplt & Hclook).
  assert (Hat : piece_at b sq = piece).
  { unfold piece_at. destruct (sq <? 0) eqn:E; [apply Z.ltb_lt in E; lia|].
    rewrite nth_lookup, Hlook. reflexivity. }
  split; [exact Hlen|]. split.
  - intros s [<- | Hin]; [|apply Hall; exact Hin].
    split; [exact Hsq0|]. split; [exact Hsqlt|]. rewrite Hat.
    apply orb_prop in Hv as [Hv | Hv]; [right; exact Hv|left].
    apply Z.eqb_eq in Hv. exact Hv.
  - intros p Hp. rewrite Hcount by exact Hp. unfold cells_holding.
    cbn [List.filter]. rewrite Hat.
    destruct (Z.eq_dec piece p) as [-> | Hne].
    + rewrite Z.eqb_refl. cbn [length].
      rewrite nth_lookup, list_lookup_insert_eq by exact Hplt.
      rewrite nth_lookup, Hclook. cbn. lia.
    + destruct (piece =? p) eqn:E; [apply Z.eqb_eq in E; contradiction|].
      rewrite nth_lookup, list_lookup_insert_ne by lia.
      rewrite <- nth_lookup. reflexivity.
Qed.

Lemma sub_cell (b : Board) (sq : Z) :
  0 <= sq -> (Z.to_nat sq < length (m_pieces b))%nat ->
  sub (m_pieces b) sq = Some (piece_at b sq).
Proof.
  intros H0 Hlt. unfold sub, piece_at.
  destruct (sq <? 0) eqn:E; [apply Z.ltb_lt in E; lia|].
  rewrite nth_lookup.
  destruct (m_pieces b !! Z.to_nat sq) eqn:E1; [reflexivity|].
  apply lookup_ge_None in E1. lia.
Qed.

Lemma count_cells_ok (b : Board) (sqs : list Z) (pc : list nat) :
  length pc = 16%nat ->
  (forall sq, In sq sqs ->
     0 <= sq /\ (Z.to_nat sq < length (m_pieces b))%nat
     /\ (piece_at b sq = INVALID_PIECE
         \/ valid_piece (piece_at b sq) = true)) ->
  exists pc', count_cells b sqs pc = Some pc'.
Proof.
  revert pc. induction sqs as [|sq sqs IH]; intros pc Hlen H;
    [eexists; reflexivity|].
  destruct (H sq (or_introl eq_refl)) as (H0 & Hlt & Hv).
  cbn [count_cells]. rewrite (sub_cell b sq H0 Hlt).
  assert (Hr : 0 <= piece_at b sq < 16).
  { destruct Hv as [-> | Hv]; [unfold INVALID_PIECE; lia|].
    apply valid_piece_range in Hv. lia. }
  replace (valid_piece (piece_at b sq) || (piece_at b sq =? INVALID_PIECE))
    with true
    by (destruct Hv as [-> | ->]; reflexivity).
  destruct (sub pc (piece_at b sq)) as [count|] eqn:Hc.
  - apply IH; [rewrite length_insert; exact Hlen|].
    intros s Hs. apply H. right. exact Hs.
  - exfalso. unfold sub in Hc.
    destruct (piece_at b sq <? 0) eqn:E; [apply Z.ltb_lt in E; lia|].
    apply lookup_ge_None in Hc. lia.
Qed.

Lemma entry_unrepeated_spec (l : list Z) (sq : Z) (num last : nat) :
  entry_unrepeated l sq num last = true <->
  forall j, (num < j < last)%nat -> exists o, l !! j = Some o /\ o <> sq.
Proof.
  unfold entry_unrepeated. rewrite forallb_forall. split.
  - intros H j Hj.
    assert (Hin : In j (seq (S num) (last - S num))) by (apply in_seq; lia).
    apply H in Hin. destruct (l !! j) as [o|]; [|discriminate].
    exists o. split; [reflexivity|]. intros ->.
    rewrite Z.eqb_refl in Hin. discriminate.
  - intros H j Hin. apply in_seq in Hin.
    destruct (H j ltac:(lia)) as (o & -> & Hne).
    destruct (sq =? o) eqn:E; [apply Z.eqb_eq in E; congruence|reflexivity].
Qed.

Lemma check_entries_spec (b : Board) (p : Z) (l : list Z) (last : nat)
    (nums : list nat) :
  check_entries b p l last nums = Some tt <->
  forall num, In num nums ->
    exists sq, l !! num = Some sq /\ sub (m_pieces b) sq = Some p
               /\ entry_unrepeated l sq num last = true.
Proof.
  induction nums as [|num nums IH]; cbn [check_entries].
  - split; [intros _ ? []|reflexivity].
  - split.
    + intros H.
      destruct (l !! num) as [sq|] eqn:El; [|discriminate].
      destruct (sub (m_pieces b) sq) as [found|] eqn:Ef; [|discriminate].
      destruct (found =? p) eqn:Ep; [|discriminate].
      destruct (entry_unrepeated l sq num last) eqn:Eu; [|discriminate].
      apply Z.eqb_eq in Ep. subst found.
      intros n [<- | Hin]; [exists sq; auto|].
      apply (proj1 IH H). exact Hin.
    + intros H. destruct (H num (or_introl eq_refl)) as (sq & -> & -> & ->).
      rewrite Z.eqb_refl. apply IH. intros n Hn. apply H. right. exact Hn.
Qed.

(** The loop over the live entries passes exactly when they are
    distinct squares whose cells hold the piece. *)
Lemma live_entries_spec (b : Board) (p : Z) (l : list Z) (num : nat) :
  check_entries b p l num (seq 0 num) = Some tt <->
  (num <= length l)%nat
  /\ NoDup (take num l)
  /\ forall sq, In sq (take num l) -> sub (m_pieces b) sq = Some p.
Proof.
  rewrite check_entries_spec. split.
  - intros H.
    assert (Hat : forall i, (i < num)%nat ->
              exists sq, l !! i = Some sq /\ sub (m_pieces b) sq = Some p
                /\ forall j, (i < j < num)%nat ->
                     exists o, l !! j = Some o /\ o <> sq).
    { intros i Hi. destruct (H i) as (sq & Hl & Hs & Hu);
        [apply in_seq; lia|].
      exists sq. split; [exact Hl|]. split; [exact Hs|].
      apply entry_unrepeated_spec. exact Hu. }
    clear H. split; [|split].
    + destruct num as [|n]; [lia|].
      destruct (Hat n ltac:(lia)) as (sq & Hl & _).
      apply lookup_lt_Some in Hl. lia.
    + apply NoDup_alt. intros i j x Hi Hj.
      apply lookup_take_Some in Hi as [Hi Hin].
      apply lookup_take_Some in Hj as [Hj Hjn].
      destruct (Nat.lt_trichotomy i j) as [Hlt | [Heq | Hgt]];
        [exfalso | exact Heq | exfalso].
      * destruct (Hat i Hin) as (sq & Hl & _ & Hu).
        destruct (Hu j ltac:(lia)) as (o & Ho & Hne). congruence.
      * destruct (Hat j Hjn) as (sq & Hl & _ & Hu).
        destruct (Hu i ltac:(lia)) as (o & Ho & Hne). congruence.
    + intros sq Hin. apply list_elem_of_In, list_elem_of_lookup in Hin.
      destruct Hin as (i & Hi). apply lookup_take_Some in Hi as [Hi Hin].
      destruct (Hat i Hin) as (sq' & Hl & Hs & _). congruence.
  - intros (Hlen & Hnd & Hall) i Hi. apply in_seq in Hi.
    destruct (l !! i) as [sq|] eqn:El;
      [|apply lookup_ge_None in El; lia].
    assert (Hti : take num l !! i = Some sq)
      by (apply lookup_take_Some; split; [exact El | lia]).
    exists sq. split; [reflexivity|]. split.
    + apply Hall, list_elem_of_In, list_elem_of_lookup. exists i. exact Hti.
    + apply entry_unrepeated_spec. intros j Hj.
      destruct (l !! j) as [o|] eqn:Ej;
        [|apply lookup_ge_None in Ej; lia].
      exists o. split; [reflexivity|]. intros ->.
      assert (Htj : take num l !! j = Some sq)
        by (apply lookup_take_Some; split; [exact Ej | lia]).
      pose proof (proj1 (NoDup_alt _) Hnd i j sq Hti Htj). lia.
Qed.

Lemma check_pieces_spec (b : Board) (pc : list nat) (ps : list Z) :
  check_pieces b pc ps = Some tt <->
  forall p, In p ps -> check_piece b pc p = Some tt.
Proof.
  induction ps as [|p ps IH]; cbn [check_pieces].
  - split; [intros _ ? []|reflexivity].
  - split.
    + intros H. destruct (check_piece b pc p) as [[]|] eqn:E; [|discriminate].
      intros q [<- | Hq]; [exact E|]. apply (proj1 IH H). exact Hq.
    + intros H. rewrite (H p (or_introl eq_refl)). apply IH.
      intros q Hq. apply H. right. exact Hq.
Qed.

Lemma cell_in_range (b : Board) (sq : Z) :
  length (m_pieces b) = 120%nat ->
  piece_at b sq <> INVALID_PIECE -> 0 <= sq < 120.
Proof.
  intros Hlen H. unfold piece_at in H.
  destruct (sq <? 0) eqn:E; [contradiction|]. apply Z.ltb_ge in E.
  destruct (Z_lt_dec sq 120) as [Hlt | Hge]; [lia|].
  exfalso. apply H. apply nth_overflow. lia.
Qed.

Lemma cells_holding_In (b : Board) (p sq : Z) :
  In sq (cells_holding b p squares_120)
  <-> 0 <= sq < 120 /\ piece_at b sq = p.
Proof.
  unfold cells_holding. rewrite filter_In, Z.eqb_eq. split.
  - intros [Hin H]. split; [|exact H].
    unfold squares_120 in Hin. apply in_map_iff in Hin as (n & <- & Hn).
    apply in_seq in Hn. lia.
  - intros [Hr H]. split; [|exact H]. apply squares_120_In; lia.
Qed.

Lemma sub_in_range {A : Type} (l : list A) (i : Z) (d : A) :
  0 <= i -> (Z.to_nat i < length l)%nat ->
  sub l i = Some (nth (Z.to_nat i) l d).
Proof.
  intros H0 Hlt. unfold sub.
  destruct (i <? 0) eqn:E; [apply Z.ltb_lt in E; lia|].
  rewrite nth_lookup.
  destruct (l !! Z.to_nat i) eqn:E1; [reflexivity|].
  apply lookup_ge_None in E1. lia.
Qed.

(** The check of one of the twelve pieces, given the cell counts. *)
Lemma check_piece_valid (b : Board) (pc : list nat) (p : Z) :
  sized b -> length pc = 16%nat -> valid_piece p = true ->
  nth (Z.to_nat p) pc 0%nat = length (cells_holding b p squares_120) ->
  check_piece b pc p = Some tt
  <-> (num_of b p <= MAX_PIECE_FREQ)%nat
      /\ NoDup (piece_list b p)
      /\ forall sq, In sq (piece_list b p) <-> piece_at b sq = p.
Proof.
  intros (Hlen & Hpl & Hll & Hnl) Hpc Hv Hcount.
  pose proof (valid_piece_range p Hv) as Hr.
  assert (Hl10 : length (nth (Z.to_nat p) (m_positions b) [])
                 = MAX_PIECE_FREQ).
  { rewrite Forall_lookup in Hll.
    destruct (m_positions b !! Z.to_nat p) as [l|] eqn:El;
      [|apply lookup_ge_None in El; lia].
    rewrite nth_lookup, El. exact (Hll _ _ El). }
  unfold check_piece.
  rewrite (sub_in_range (m_num_pieces b) p 0%nat) by lia.
  rewrite (sub_in_range pc p 0%nat) by lia.
  rewrite (sub_in_range (m_positions b) p []) by lia.
  rewrite Hv, Hcount. cbn [negb implb].
  fold (num_of b p).
  change (take (num_of b p) (nth (Z.to_nat p) (m_positions b) []))
    with (piece_list b p) in *.
  split.
  - intros H.
    destruct (num_of b p =? length (cells_holding b p squares_120))%nat
      eqn:En; [|discriminate].
    destruct (num_of b p <=? MAX_PIECE_FREQ)%nat eqn:Em; [|discriminate].
    apply Nat.eqb_eq in En. apply Nat.leb_le in Em.
    apply live_entries_spec in H as (_ & Hnd & Hall).
    change (take (num_of b p) (nth (Z.to_nat p) (m_positions b) []))
      with (piece_list b p) in Hnd, Hall.
    split; [exact Em|]. split; [exact Hnd|].
    assert (Hincl : incl (piece_list b p) (cells_holding b p squares_120)).
    { intros sq Hin. apply cells_holding_In.
      pose proof (piece_at_sub _ _ _ (Hall sq Hin)) as Hat.
      split; [|exact Hat]. apply (cell_in_range b sq Hlen).
      rewrite Hat. unfold INVALID_PIECE. lia. }
    intros sq. split.
    + intros Hin. apply Hincl, cells_holding_In in Hin. apply Hin.
    + intros Hat.
      apply (@NoDup_length_incl _ (piece_list b p)
               (cells_holding b p squares_120)
               (proj1 (NoDup_ListNoDup _) Hnd)); [|exact Hincl|].
      * unfold piece_list. fold (num_of b p). rewrite length_take, Hl10.
        lia.
      * apply cells_holding_In. split; [|exact Hat].
        apply (cell_in_range b sq Hlen). rewrite Hat.
        unfold INVALID_PIECE. lia.
  - intros (Hm & Hnd & Hin).
    assert (Hperm : Permutation (piece_list b p)
                      (cells_holding b p squares_120)).
    { apply NoDup_Permutation; [exact Hnd| |].
      - apply NoDup_ListNoDup, List.NoDup_filter, NoDup_ListNoDup,
          squares_120_NoDup.
      - intros sq. rewrite !list_elem_of_In, Hin, cells_holding_In.
        split; [|tauto]. intros Hat. split; [|exact Hat].
        apply (cell_in_range b sq Hlen). rewrite Hat.
        unfold INVALID_PIECE. lia. }
    apply Permutation_length in Hperm.
    assert (Hlp : length (piece_list b p) = num_of b p).
    { unfold piece_list. fold (num_of b p). rewrite length_take, Hl10.
      lia. }
    rewrite <- Hperm, Hlp, Nat.eqb_refl.
    replace (num_of b p <=? MAX_PIECE_FREQ)%nat with true
      by (symmetry; apply Nat.leb_le; exact Hm).
    apply live_entries_spec.
    change (take (num_of b p) (nth (Z.to_nat p) (m_positions b) []))
      with (piece_list b p).
    split; [lia|]. split; [exact Hnd|].
    intros sq Hsq. apply Hin in Hsq.
    assert (Hrange : 0 <= sq < 120).
    { apply (cell_in_range b sq Hlen). rewrite Hsq.
      unfold INVALID_PIECE. lia. }
    rewrite (sub_cell b sq) by lia. rewrite Hsq. reflexivity.
Qed.

(** The check of one of the four other identifiers. *)
Lemma check_piece_other (b : Board) (pc : list nat) (p : Z) :
  sized b -> length pc = 16%nat -> 0 <= p < 16 -> valid_piece p = false ->
  check_piece b pc p = Some tt <-> num_of b p = 0%nat.
Proof.
  intros (Hlen & Hpl & Hll & Hnl) Hpc Hr Hv.
  unfold check_piece.
  rewrite (sub_in_range (m_num_pieces b) p 0%nat) by lia.
  rewrite (sub_in_range pc p 0%nat) by lia.
  rewrite (sub_in_range (m_positions b) p []) by lia.
  rewrite Hv. cbn [negb implb]. fold (num_of b p).
  split.
  - intros H. destruct (num_of b p =? 0)%nat eqn:E; [|discriminate].
    apply Nat.eqb_eq in E. exact E.
  - intros ->. reflexivity.
Qed.

Lemma en_passant_checks (b : Board) :
  (valid_square (m_en_passant b) || (m_en_passant b =? INVALID_SQUARE))
  && implb (Bool.eqb (m_next_move_colour b) BLACK
            && negb (m_en_passant b =? INVALID_SQUARE))
       (get_square_row (m_en_passant b) =? RANK_3)
  && implb (Bool.eqb (m_next_move_colour b) WHITE
            && negb (m_en_passant b =? INVALID_SQUARE))
       (get_square_row (m_en_passant b) =? RANK_6)
  = en_passant_ok b.
Proof.
  unfold en_passant_ok, WHITE, BLACK.
  destruct (m_next_move_colour b), (m_en_passant b =? INVALID_SQUARE),
    (valid_square (m_en_passant b)),
    (get_square_row (m_en_passant b) =? RANK_3),
    (get_square_row (m_en_passant b) =? RANK_6); reflexivity.
Qed.

Lemma sixteen_In (p : Z) : 0 <= p < 16 -> In p (map Z.of_nat (seq 0 16)).
Proof.
  intros Hp. apply in_map_iff. exists (Z.to_nat p).
  split; [lia|]. apply in_seq. lia.
Qed.

Lemma sixteen_range (p : Z) : In p (map Z.of_nat (seq 0 16)) -> 0 <= p < 16.
Proof.
  intros H. apply in_map_iff in H as (n & <- & Hn). apply in_seq in Hn. lia.
Qed.

Lemma synced_sized (b : Board) : synced b -> sized b.
Proof.
  intros (Hlen & Hpl & Hll & Hnl & _).
  split; [exact Hlen|]. split; [exact Hpl|]. split; [|exact Hnl].
  apply Forall_lookup. intros i l Hl. exact (Hll _ _ Hl).
Qed.

(** The assertions of [validate_board], read as a whole. *)
Lemma validate_board_iff (b : Board) :
  sized b -> validate_board b = Some tt <-> valid_board b.
Proof.
  intros Hsz. pose proof Hsz as (Hlen & Hpl & Hll & Hnl).
  assert (Hk : forall p, 0 <= p < 16 ->
                 sub (m_num_pieces b) p = Some (num_of b p))
    by (intros p Hp; apply sub_in_range; lia).
  unfold validate_board. cbv zeta.
  rewrite square_attacked_scan.
  rewrite !Hk by (unfold WHITE_KING, BLACK_KING; lia).
  replace (if Bool.eqb (m_next_move_colour b) BLACK then WHITE_KING
           else BLACK_KING)
    with (if m_next_move_colour b then WHITE_KING else BLACK_KING)
    by (destruct (m_next_move_colour b); reflexivity).
  pose proof (en_passant_checks b) as Hep.
  split.
  - intros H.
    destruct (count_cells b squares_120 (repeat 0%nat 16)) as [pc|] eqn:Hc;
      [|discriminate].
    apply count_cells_inv in Hc as (Hpc & Hcells & Hcount).
    rewrite repeat_length in Hpc.
    destruct (num_of b WHITE_KING =? 1)%nat eqn:Ewk; [|discriminate].
    destruct (num_of b BLACK_KING =? 1)%nat eqn:Ebk; [|discriminate].
    destruct (check_pieces b pc (map Z.of_nat (seq 0 16))) as [[]|] eqn:Hcp;
      [|discriminate].
    destruct ((0 <=? m_castle_state b) && (m_castle_state b <? 16)) eqn:Ecs;
      [|discriminate].
    destruct (valid_square (m_en_passant b)
              || (m_en_passant b =? INVALID_SQUARE)); [|discriminate].
    destruct (implb (Bool.eqb (m_next_move_colour b) BLACK
                     && negb (m_en_passant b =? INVALID_SQUARE))
                (get_square_row (m_en_passant b) =? RANK_3));
      [|discriminate].
    destruct (implb (Bool.eqb (m_next_move_colour b) WHITE
                     && negb (m_en_passant b =? INVALID_SQUARE))
                (get_square_row (m_en_passant b) =? RANK_6));
      [|discriminate].
    cbv beta iota in H.
    destruct (attack_scan b _ (m_next_move_colour b)) eqn:Eatt;
      [discriminate|].
    apply Nat.eqb_eq in Ewk, Ebk. apply andb_prop in Ecs as [Ec0 Ec1].
    apply Z.leb_le in Ec0. apply Z.ltb_lt in Ec1.
    rewrite check_pieces_spec in Hcp.
    split; [|split; [exact Ewk|split; [exact Ebk|split; [lia|]]]];
      [|split; [symmetry; exact Hep | exact Eatt]].
    split; [exact Hlen|]. split; [exact Hpl|]. split.
    { intros q l Hq. rewrite Forall_lookup in Hll. exact (Hll _ _ Hq). }
    split; [exact Hnl|]. split.
    { intros sq.
      destruct (Z.eq_dec (piece_at b sq) INVALID_PIECE) as [He | Hne];
        [left; exact He|].
      apply (cell_in_range b sq Hlen) in Hne.
      apply Hcells, squares_120_In; lia. }
    split.
    + intros p Hv. pose proof (valid_piece_range p Hv) as Hr.
      apply (check_piece_valid b pc p Hsz Hpc Hv).
      * rewrite Hcount by lia. rewrite nth_repeat. reflexivity.
      * apply Hcp, sixteen_In. lia.
    + intros p Hr Hv.
      apply (check_piece_other b pc p Hsz Hpc Hr Hv).
      apply Hcp, sixteen_In. exact Hr.
  - intros (Hs & Hwk & Hbk & Hcs & Hepo & Hatt).
    pose proof Hs as (_ & _ & _ & _ & Hcell & Hsync & Hdead).
    destruct (count_cells_ok b squares_120 (repeat 0%nat 16))
      as (pc & Hc); [apply repeat_length| |].
    { intros sq Hin. unfold squares_120 in Hin.
      apply in_map_iff in Hin as (n & <- & Hn). apply in_seq in Hn.
      split; [lia|]. split; [lia|]. apply Hcell. }
    rewrite Hc. apply count_cells_inv in Hc as (Hpc & _ & Hcount).
    rewrite repeat_length in Hpc.
    rewrite Hwk, Hbk. cbn [Nat.eqb].
    replace (check_pieces b pc (map Z.of_nat (seq 0 16))) with (Some tt).
    2:{ symmetry. apply check_pieces_spec. intros p Hp.
        apply sixteen_range in Hp.
        destruct (valid_piece p) eqn:Hv.
        - apply (check_piece_valid b pc p Hsz Hpc Hv); [|apply Hsync, Hv].
          rewrite Hcount by lia. rewrite nth_repeat. reflexivity.
        - apply (check_piece_other b pc p Hsz Hpc Hp Hv).
          apply Hdead; assumption. }
    replace ((0 <=? m_castle_state b) && (m_castle_state b <? 16)) with true
      by (symmetry; apply andb_true_intro; split;
          [apply Z.leb_le | apply Z.ltb_lt]; lia).
    rewrite Hepo in Hep.
    apply andb_prop in Hep as [Hep Hep3]. apply andb_prop in Hep as [Hep1 Hep2].
    rewrite Hep1, Hep2, Hep3, Hatt. reflexivity.
Qed.

(** X7. On a board whose arrays have their sizes, [validate_board]
    passes exactly when the piece lists are in sync with the mailbox,
    each side has one king, the castle state is below 16, the
    en-passant field is empty or on the rank of the side to move, and
    the king of the side that has just moved is not attacked. *)
Theorem validate_board_spec (b : Board) :
  sized b -> validate_board b = Some tt <-> valid_board b.
Proof.
  intros Hsz. exact (validate_board_iff b Hsz).
Qed.

(** ** Where the generated moves land *)

Ltac lands_cbn := unfold lands_ok; cbn [move_flag move_to move_from].

Lemma capture_at_lands (b : Board) (side : bool) (start cur piece : Z)
    (m : move_t) :
  In m (capture_at b start cur piece) -> lands_ok b side m.
Proof.
  unfold capture_at.
  destruct (valid_square cur) eqn:Ec; [|intros []].
  destruct (opposite_colours piece (piece_at b cur)); [|intros []].
  destruct (is_king (piece_at b cur)); [intros []|].
  intros [<- | []]. lands_cbn. exact Ec.
Qed.

Lemma slide_lands (b : Board) (side : bool) (offset start piece : Z)
    (m : move_t) (fuel : nat) :
  forall cur,
    In m (slide fuel b start cur offset piece) -> lands_ok b side m.
Proof.
  induction fuel as [|fuel IH]; intros cur Hin; simpl in Hin.
  - eapply capture_at_lands; exact Hin.
  - destruct (valid_square cur) eqn:Ec; simpl in Hin;
      [|eapply capture_at_lands; exact Hin].
    destruct (piece_at b cur =? INVALID_PIECE);
      [|eapply capture_at_lands; exact Hin].
    destruct Hin as [<- | Hin]; [lands_cbn; exact Ec|].
    apply (IH _ Hin).
Qed.

Lemma slider_moves_lands (b : Board) (side : bool) (piece : Z)
    (offsets : list Z) (m : move_t) :
  In m (slider_moves b piece offsets) -> lands_ok b side m.
Proof.
  intros Hin. unfold slider_moves in Hin.
  apply in_flat_map in Hin as (start & _ & Hin).
  apply in_flat_map in Hin as (offset & _ & Hin).
  eapply slide_lands; exact Hin.
Qed.

Lemma knight_moves_lands (b : Board) (side : bool) (piece : Z)
    (m : move_t) :
  In m (knight_moves b piece) -> lands_ok b side m.
Proof.
  intros Hin. unfold knight_moves in Hin.
  apply in_flat_map in Hin as (start & _ & Hin).
  apply in_flat_map in Hin as (offset & _ & Hin).
  unfold knight_step in Hin. cbv zeta in Hin.
  destruct (valid_square (start + offset)) eqn:Ec; cbn [andb] in Hin;
    [|destruct Hin].
  destruct (piece_at b (start + offset) =? INVALID_PIECE).
  - destruct Hin as [<- | []]. lands_cbn. exact Ec.
  - destruct (opposite_colours piece _ && negb (is_king _));
      [|destruct Hin].
    destruct Hin as [<- | []]. lands_cbn. exact Ec.
Qed.

Lemma king_moves_lands (b : Board) (side : bool) (piece : Z) (m : move_t) :
  In m (king_moves b piece) -> lands_ok b side m.
Proof.
  intros Hin. unfold king_moves in Hin. cbv zeta in Hin.
  apply in_flat_map in Hin as (offset & _ & Hin).
  unfold king_step in Hin. cbv zeta in Hin.
  destruct (valid_square (position0 b piece + offset)) eqn:Ec;
    [|destruct Hin].
  destruct (piece_at b (position0 b piece + offset) =? INVALID_PIECE).
  - destruct Hin as [<- | []]. lands_cbn. exact Ec.
  - destruct (opposite_colours piece _ && negb (is_king _));
      [|destruct Hin].
    destruct Hin as [<- | []]. lands_cbn. exact Ec.
Qed.

Lemma pawn_capture_lands (b : Board) (side : bool)
    (start capture piece : Z) (promote_pieces : list Z) (m : move_t) :
  In m (pawn_capture b start capture piece promote_pieces) ->
  lands_ok b side m.
Proof.
  unfold pawn_capture.
  destruct (valid_square capture) eqn:Ec; [|intros []]. cbn [andb].
  match goal with
  | |- In _ (if ?c then _ else _) -> _ => destruct c; [|intros []]
  end.
  destruct (last_rank capture).
  - intros Hin. apply in_map_iff in Hin as (p & <- & _).
    lands_cbn. exact Ec.
  - intros [<- | []]. lands_cbn. exact Ec.
Qed.

Lemma pawn_en_passant_lands (b : Board) (side : bool)
    (start capture piece : Z) (m : move_t) :
  m_en_passant b <> INVALID_SQUARE ->
  In m (pawn_en_passant b start capture piece) -> lands_ok b side m.
Proof.
  intros Hep. unfold pawn_en_passant.
  match goal with
  | |- In _ (if ?c then _ else _) -> _ => destruct c; [|intros []]
  end.
  intros [<- | []]. lands_cbn. split; [reflexivity | exact Hep].
Qed.

Lemma pawn_moves_lands (b : Board) (side : bool)
    (promote_pieces : list Z) (start : Z) (m : move_t) :
  In start (piece_list b (if side then BLACK_PAWN else WHITE_PAWN)) ->
  In m (pawn_moves b side (if side then BLACK_PAWN else WHITE_PAWN)
          promote_pieces start) ->
  lands_ok b side m.
Proof.
  intros Hstart Hin. unfold pawn_moves in Hin.
  repeat (apply in_app_iff in Hin as [Hin | Hin]).
  - destruct (Bool.eqb side WHITE) eqn:Es; [|destruct Hin].
    destruct (get_square_row start =? RANK_2) eqn:Er; [|destruct Hin].
    cbn [andb] in Hin.
    match type of Hin with
    | In _ (if ?c then _ else _) => destruct c; [|destruct Hin]
    end.
    destruct Hin as [<- | []]. apply Z.eqb_eq in Er.
    destruct side; [discriminate Es|]. lands_cbn.
    split; [exact Hstart|]. split; [exact Er | reflexivity].
  - destruct (Bool.eqb side BLACK) eqn:Es; [|destruct Hin].
    destruct (get_square_row start =? RANK_7) eqn:Er; [|destruct Hin].
    cbn [andb] in Hin.
    match type of Hin with
    | In _ (if ?c then _ else _) => destruct c; [|destruct Hin]
    end.
    destruct Hin as [<- | []]. apply Z.eqb_eq in Er.
    destruct side; [|discriminate Es]. lands_cbn.
    split; [exact Hstart|]. split; [exact Er | reflexivity].
  - cbv zeta in Hin.
    match type of Hin with
    | In _ (if valid_square ?c && _ then _ else _) =>
        destruct (valid_square c) eqn:Ec; [|destruct Hin]
    end.
    cbn [andb] in Hin.
    match type of Hin with
    | In _ (if ?c then _ else _) => destruct c; [|destruct Hin]
    end.
    match type of Hin with
    | In _ (if ?c then _ else _) => destruct c
    end.
    + apply in_map_iff in Hin as (p & <- & _). lands_cbn. exact Ec.
    + destruct Hin as [<- | []]. lands_cbn. exact Ec.
  - eapply pawn_capture_lands; exact Hin.
  - eapply pawn_capture_lands; exact Hin.
  - destruct (m_en_passant b =? INVALID_SQUARE) eqn:Ee; [destruct Hin|].
    apply Z.eqb_neq in Ee. cbn [negb] in Hin.
    apply in_app_iff in Hin as [Hin | Hin];
      eapply pawn_en_passant_lands; eassumption.
Qed.

Lemma castle_moves_lands (b : Board) (side : bool) (l : list move_t)
    (m : move_t) :
  castle_moves b side = Some l -> In m l -> lands_ok b side m.
Proof.
  unfold castle_moves. rewrite !square_attacked_scan. intros Hc Hin.
  destruct side; cbn [Bool.eqb WHITE] in Hc; injection Hc as <-;
    apply in_app_iff in Hin as [Hin | Hin];
    match type of Hin with
    | In _ (if ?c then _ else _) => destruct c; [|destruct Hin]
    end;
    destruct Hin as [<- | []]; reflexivity.
Qed.

Lemma generate_moves_lands (b : Board) (side : bool) (l : list move_t)
    (m : move_t) :
  generate_moves b side = Some l -> In m l -> lands_ok b side m.
Proof.
  intros Hgen Hin. unfold generate_moves in Hgen.
  destruct (castle_moves b side) as [castles|] eqn:Ec; [|discriminate].
  injection Hgen as <-.
  apply in_app_iff in Hin as [Hin | Hin];
    [|apply in_app_iff in Hin as [Hin | Hin];
      [|apply in_app_iff in Hin as [Hin | Hin];
        [|apply in_app_iff in Hin as [Hin | Hin];
          [|apply in_app_iff in Hin as [Hin | Hin];
            [|apply in_app_iff in Hin as [Hin | Hin]]]]]].
  - eapply slider_moves_lands; exact Hin.
  - eapply slider_moves_lands; exact Hin.
  - eapply slider_moves_lands; exact Hin.
  - eapply knight_moves_lands; exact Hin.
  - apply in_flat_map in Hin as (start & Hstart & Hin).
    replace (if Bool.eqb side WHITE then WHITE_PAWN else BLACK_PAWN)
      with (if side then BLACK_PAWN else WHITE_PAWN) in Hstart, Hin
      by (destruct side; reflexivity).
    eapply pawn_moves_lands; eassumption.
  - eapply king_moves_lands; exact Hin.
  - eapply castle_moves_lands; eassumption.
Qed.

(** The destination of a generated move is a playing square. *)
Lemma lands_inside (b : Board) (side : bool) (m : move_t) :
  synced b -> interior b -> en_passant_ok b = true ->
  lands_ok b side m -> valid_square (move_to m) = true.
Proof.
  intros Hs Hint Hep Hland. unfold lands_ok in Hland.
  destruct (move_flag m); try exact Hland.
  - destruct Hland as (Hin & Hrow & ->).
    assert (Hfrom : valid_square (move_from m) = true).
    { destruct Hs as (_ & _ & _ & _ & _ & Hsync & _).
      assert (Hv : valid_piece (if side then BLACK_PAWN else WHITE_PAWN)
                   = true) by (destruct side; reflexivity).
      destruct (Hsync _ Hv) as (_ & _ & Hiff). apply Hiff in Hin.
      apply Hint. rewrite Hin. destruct side; discriminate. }
    revert Hfrom Hrow.
    unfold valid_square, get_square_row, RANK_2, RANK_7.
    intros Hv Hrow.
    repeat (apply andb_prop in Hv as [Hv ?]).
    repeat match goal with
           | H : (_ <=? _) = true |- _ => apply Z.leb_le in H
           end.
    destruct side; repeat (apply andb_true_intro; split);
      apply Z.leb_le; dlia.
  - destruct Hland as (-> & Hne). unfold en_passant_ok in Hep.
    apply orb_prop in Hep as [Hep | Hep];
      [apply Z.eqb_eq in Hep; contradiction|].
    apply andb_prop in Hep as [Hep _]. exact Hep.
Qed.

(** X8. On a cache miss every move [pseudo_moves] returns goes to a
    playing square, provided the pieces of the board stand on playing
    squares and its en-passant field is in order. *)
Theorem pseudo_moves_land_inside (b b' : Board) (_side : option bool)
    (l : list move_t) (m : move_t) :
  synced b -> interior b -> en_passant_ok b = true ->
  m_move_cache b !! m_hash b = None ->
  pseudo_moves b _side = Some (l, b') -> In m l ->
  valid_square (move_to m) = true.
Proof.
  intros Hs Hint Hep Hmiss Hpm Hin.
  unfold pseudo_moves in Hpm. rewrite Hmiss in Hpm.
  destruct ((m_half_move b >? 1000) || (m_fifty_move b >? 75)).
  { injection Hpm as <- <-. destruct Hin. }
  fold (generating_side b _side) in Hpm.
  destruct (generate_moves b (generating_side b _side)) as [result|] eqn:Eg;
    [|discriminate].
  destruct (length result <=? MAX_POSITION_MOVES)%nat; [|discriminate].
  injection Hpm as <- <-.
  eapply lands_inside; try eassumption.
  eapply generate_moves_lands; eassumption.
Qed.

(** ** Validation after a move *)

Lemma update_castling_en_passant (b : Board) (sq moved : Z) :
  m_en_passant (update_castling T b sq moved) = m_en_passant b.
Proof.
  unfold update_castling. destruct (negb (is_castle moved)); reflexivity.
Qed.

Lemma make_castle_en_passant (b b' : Board) (side : bool) (flag : MoveFlag) :
  make_castle T b side flag = Some b' -> m_en_passant b' = m_en_passant b.
Proof.
  unfold make_castle. intros H. monad_inv H; frames;
    repeat match goal with
           | H : _ /\ _ |- _ => destruct H
           end;
    congruence.
Qed.

Lemma apply_move_en_passant (b b' : Board) (move : move_t) (side : bool) :
  apply_move T b move side = Some b' ->
  m_en_passant b'
  = match move_flag move with
    | DOUBLE_PAWN_MOVE =>
        if side then move_to move + 10 else move_to move - 10
    | _ => INVALID_SQUARE
    end.
Proof.
  unfold apply_move, move_promoted, move_castled, move_captured. intros H.
  destruct side;
    destruct (move_flag move); simpl in H; monad_inv H;
    try rewrite update_castling_en_passant;
    try (match goal with
         | E : make_castle _ _ _ _ = Some _ |- _ =>
             apply make_castle_en_passant in E
         end);
    frames; board_simpl;
    repeat match goal with
           | H : _ /\ _ |- _ => destruct H
           end;
    congruence.
Qed.

Lemma listed_inside (b : Board) (p sq : Z) :
  synced b -> interior b -> valid_piece p = true ->
  In sq (piece_list b p) -> valid_square sq = true.
Proof.
  intros (_ & _ & _ & _ & _ & Hsync & _) Hint Hv Hin.
  destruct (Hsync p Hv) as (_ & _ & Hiff). apply Hiff in Hin.
  apply Hint. rewrite Hin. apply valid_piece_range in Hv.
  unfold INVALID_PIECE. lia.
Qed.

(** The square a pawn passes on its double step. *)
Lemma passed_square (from : Z) (side : bool) :
  valid_square from = true ->
  get_square_row from = (if side then RANK_7 else RANK_2) ->
  let passed := if side then from - 10 else from + 10 in
  valid_square passed = true
  /\ get_square_row passed = (if side then RANK_6 else RANK_3).
Proof.
  unfold valid_square, get_square_row, RANK_2, RANK_3, RANK_6, RANK_7.
  intros Hv Hrow.
  repeat (apply andb_prop in Hv as [Hv ?]).
  repeat match goal with
         | H : (_ <=? _) = true |- _ => apply Z.leb_le in H
         end.
  destruct side; cbv zeta; (split; [|dlia]);
    repeat (apply andb_true_intro; split); apply Z.leb_le; dlia.
Qed.

(** A move of the generator's making that [make_move] accepts leaves
    a board that passes validation. *)
Lemma fit_move_validates (b b' : Board) (m : move_t) :
  synced b ->
  num_of b WHITE_KING = 1%nat -> num_of b BLACK_KING = 1%nat ->
  interior b -> 0 <= m_castle_state b < 16 ->
  move_fits b m -> move_shape (m_next_move_colour b) m ->
  lands_ok b (m_next_move_colour b) m ->
  make_move T b m = Some (b', true) ->
  valid_board b'.
Proof.
  intros Hs Hwk Hbk Hint Hcas Hfit Hshape Hland Hmk.
  pose proof (make_move_keeps_synced _ _ _ _ Hs Hmk) as Hs'.
  pose proof (proj2 (make_move_rights _ _ _ _ Hmk) (proj1 Hcas)) as Hcas'.
  destruct (make_move_inv _ _ _ _ Hmk)
    as (a1 & Happ & Hsp & Hcol & _ & Hep & _ & _ & _ & _ & Hv).
  match type of Happ with
  | apply_move T ?ba _ _ = _ =>
      assert (Hspba : same_pos b ba) by pos_tac;
      pose proof (apply_move_kings b ba a1 m WHITE_KING Hs Hspba Hfit
                    Hshape Happ eq_refl) as Hwk1;
      pose proof (apply_move_kings b ba a1 m BLACK_KING Hs Hspba Hfit
                    Hshape Happ eq_refl) as Hbk1
  end.
  destruct (same_pos_cells a1 b' Hsp) as [_ Hnum].
  apply apply_move_en_passant in Happ.
  split; [exact Hs'|]. split; [rewrite Hnum, Hwk1; exact Hwk|].
  split; [rewrite Hnum, Hbk1; exact Hbk|]. split; [lia|]. split.
  - unfold en_passant_ok. rewrite Hep, Happ, Hcol.
    unfold lands_ok in Hland.
    destruct (move_flag m); try reflexivity.
    destruct Hland as (Hin & Hrow & Hto).
    assert (Hfrom : valid_square (move_from m) = true).
    { eapply listed_inside; [exact Hs | exact Hint | | exact Hin].
      destruct (m_next_move_colour b); reflexivity. }
    pose proof (passed_square _ _ Hfrom Hrow) as Hpass. cbv zeta in Hpass.
    rewrite Hto.
    destruct (m_next_move_colour b); cbn [negb];
      [replace (move_from m + -20 + 10) with (move_from m - 10) by lia
      |replace (move_from m + 20 - 10) with (move_from m + 10) by lia];
      destruct Hpass as [-> ->]; rewrite orb_true_r; reflexivity.
  - rewrite Hcol. symmetry in Hv. apply negb_true_iff in Hv.
    replace (if negb (m_next_move_colour b) then WHITE_KING else BLACK_KING)
      with (if m_next_move_colour b then BLACK_KING else WHITE_KING)
      by (destruct (m_next_move_colour b); reflexivity).
    exact Hv.
Qed.

Lemma restored_valid_board (b b2 : Board) :
  valid_board b -> synced b2 -> restored b b2 -> valid_board b2.
Proof.
  intros (Hs & Hwk & Hbk & Hcas & Hep & Hatt) Hs2 Hres.
  destruct (restored_cells _ _ Hres) as [Hcell Hnum].
  destruct Hres as (_ & _ & _ & Hcol & Hcs & Hen & _).
  split; [exact Hs2|]. split; [rewrite Hnum; exact Hwk|].
  split; [rewrite Hnum; exact Hbk|]. split; [rewrite Hcs; exact Hcas|].
  split; [unfold en_passant_ok in *; rewrite Hen, Hcol; exact Hep|].
  rewrite Hcol.
  assert (Hkings : forall king,
             king = WHITE_KING \/ king = BLACK_KING ->
             position0 b2 king = position0 b king).
  { intros king Hking.
    apply king_position_congr; try assumption.
    - destruct Hking as [-> | ->]; reflexivity.
    - rewrite Hnum. destruct Hking as [-> | ->]; assumption.
    - destruct Hking as [-> | ->]; assumption. }
  rewrite Hkings by (destruct (m_next_move_colour b); auto).
  rewrite <- Hatt. apply attack_scan_congr; [exact Hcell|].
  apply Hkings. destruct (m_next_move_colour b); auto.
Qed.

Lemma with_move_cache_valid_board (b : Board) (c : gmap Z (list move_t)) :
  valid_board b -> valid_board (with_move_cache b c).
Proof.
  intros (Hs & H). split; [|exact H].
  eapply same_pos_synced; [|exact Hs]. pos_tac.
Qed.

(** What a cache miss of [pseudo_moves] returns. *)
Lemma pseudo_moves_generated (b b0 : Board) (l : list move_t) (m : move_t) :
  m_move_cache b !! m_hash b = None ->
  pseudo_moves b None = Some (l, b0) -> In m l ->
  generate_moves b (m_next_move_colour b) = Some l
  /\ b0 = with_move_cache b (<[m_hash b := l]> (m_move_cache b))
  /\ m_half_move b <= 1000.
Proof.
  intros Hmiss Hpm Hin. unfold pseudo_moves in Hpm. rewrite Hmiss in Hpm.
  destruct ((m_half_move b >? 1000) || (m_fifty_move b >? 75)) eqn:Edraw.
  { injection Hpm as <- <-. destruct Hin. }
  apply orb_false_iff in Edraw as [Ehalf _].
  rewrite Z.gtb_ltb in Ehalf. apply Z.ltb_ge in Ehalf.
  destruct (generate_moves b (m_next_move_colour b)) as [result|];
    [|discriminate].
  destruct (length result <=? MAX_POSITION_MOVES)%nat; [|discriminate].
  injection Hpm as <- <-. auto.
Qed.

(** X9. A pseudo-move that [make_move] accepts leaves a board on
    which every assertion of [validate_board] holds: the check at the
    end of [make_move] in a DEBUG build cannot fail on a move the
    generator made for a playable position whose pieces stand on
    playing squares. *)
Theorem made_move_validates (b b0 b' : Board) (l : list move_t)
    (m : move_t) :
  playable b -> interior b -> 0 <= m_castle_state b < 16 ->
  m_move_cache b !! m_hash b = None ->
  pseudo_moves b None = Some (l, b0) -> In m l ->
  (move_promoted m = true ->
   (num_of b (promoted_piece m) < MAX_PIECE_FREQ)%nat) ->
  make_move T b0 m = Some (b', true) ->
  validate_board b' = Some tt.
Proof.
  intros Hplay Hint Hcas Hmiss Hpm Hin Hroom Hmk.
  destruct (pseudo_moves_generated _ _ _ _ Hmiss Hpm Hin)
    as (Hgen & -> & _).
  pose proof Hplay as (Hs & Hwk & Hbk & _).
  set (b0 := with_move_cache b (<[m_hash b := l]> (m_move_cache b))) in *.
  assert (Hs0 : synced b0)
    by (eapply same_pos_synced; [|exact Hs]; unfold b0; pos_tac).
  assert (Hv : valid_board b').
  { apply (fit_move_validates b0 b' m); try assumption.
    - apply (generate_moves_fits b l m Hplay Hgen Hin Hroom).
    - eapply generate_moves_shape; eassumption.
    - eapply generate_moves_lands; eassumption. }
  apply validate_board_iff; [|exact Hv]. apply synced_sized, Hv.
Qed.

(** X10. Unmaking a pseudo-move gives back a board on which every
    assertion of [validate_board] holds, whether the move was accepted
    or not: the check at the end of [unmake_move] in a DEBUG build
    cannot fail in the loop of [legal_moves]. *)
Theorem unmade_move_validates (b b0 b1 b2 : Board) (l : list move_t)
    (m : move_t) (v : bool) :
  playable b -> validate_board b = Some tt ->
  m_move_cache b !! m_hash b = None ->
  pseudo_moves b None = Some (l, b0) -> In m l ->
  (move_promoted m = true ->
   (num_of b (promoted_piece m) < MAX_PIECE_FREQ)%nat) ->
  make_move T b0 m = Some (b1, v) -> unmake_move T b1 = Some b2 ->
  validate_board b2 = Some tt.
Proof.
  intros Hplay Hval Hmiss Hpm Hin Hroom Hmk Hun.
  destruct (pseudo_moves_generated _ _ _ _ Hmiss Hpm Hin)
    as (Hgen & -> & Hhalf).
  pose proof Hplay as (Hs & _ & _ & _ & _ & Hhalf0).
  apply validate_board_iff in Hval; [|apply synced_sized, Hs].
  set (b0 := with_move_cache b (<[m_hash b := l]> (m_move_cache b))) in *.
  assert (Hs0 : synced b0)
    by (eapply same_pos_synced; [|exact Hs]; unfold b0; pos_tac).
  destruct (make_unmake_fits b0 m Hs0) as (b1' & v' & b2' & Hmk' & Hun' & Hres).
  { unfold b0. cbn. lia. }
  { apply (generate_moves_fits b l m Hplay Hgen Hin Hroom). }
  rewrite Hmk in Hmk'. injection Hmk' as <- <-.
  rewrite Hun in Hun'. injection Hun' as <-.
  assert (Hs2 : synced b2).
  { eapply unmake_move_keeps_synced; [|exact Hun].
    eapply make_move_keeps_synced; eassumption. }
  assert (Hv : valid_board b2).
  { apply (restored_valid_board b0); [|exact Hs2 | exact Hres].
    apply with_move_cache_valid_board. exact Hval. }
  apply validate_board_iff; [|exact Hv]. apply synced_sized, Hs2.
Qed.

(** ** Pieces stay on the playing squares *)

Ltac inside_tac Hint Hto :=
  unfold interior; intros ?s; to_base;
  repeat match goal with
         | H : forall s, piece_at ?bk s = _ |- context [piece_at ?bk _] =>
             rewrite H
         end;
  repeat match goal with
         | |- context [?x =? ?y] => destruct (Z.eqb_spec x y)
         end;
  subst; intros ?Hne;
  first [ reflexivity
        | apply Hto; reflexivity
        | apply Hint; assumption
        | exfalso; congruence ].

Lemma apply_move_interior (b ba a1 : Board) (m : move_t) (side : bool) :
  synced b -> same_pos b ba -> interior b ->
  (move_castled m = false -> valid_square (move_to m) = true) ->
  apply_move T ba m side = Some a1 -> interior a1.
Proof.
  intros Hs Hsp Hint Hto Ha.
  destruct (same_pos_cells b ba Hsp) as [Hcba _].
  destruct m as [from to moved captured promoted flag].
  unfold apply_move, make_castle, move_promoted, move_castled, move_captured
    in Ha, Hto.
  unfold E1, G1, H1, F1, C1, A1, D1, E8, G8, H8, F8, C8, A8, D8 in Ha.
  cbn [move_flag move_from move_to moved_piece captured_piece
       promoted_piece] in Ha, Hto.
  destruct flag; cbn in Hto; cbn [flag_eqb orb] in Ha;
    try (destruct side; cbn [Bool.eqb WHITE] in Ha);
    monad_inv Ha; inv_prims; inside_tac Hint Hto.
Qed.

(** X11. Playing a pseudo-move keeps the pieces on the playing
    squares: if no piece stands on a border cell before [make_move],
    none does after it. *)
Theorem made_move_stays_inside (b b0 b' : Board) (l : list move_t)
    (m : move_t) (v : bool) :
  synced b -> interior b -> en_passant_ok b = true ->
  m_move_cache b !! m_hash b = None ->
  pseudo_moves b None = Some (l, b0) -> In m l ->
  make_move T b0 m = Some (b', v) ->
  interior b'.
Proof.
  intros Hs Hint Hep Hmiss Hpm Hin Hmk.
  destruct (pseudo_moves_generated _ _ _ _ Hmiss Hpm Hin)
    as (Hgen & -> & _).
  assert (Hto : valid_square (move_to m) = true).
  { eapply lands_inside; try eassumption.
    eapply generate_moves_lands; eassumption. }
  destruct (make_move_inv _ _ _ _ Hmk) as (a1 & Happ & Hsp & _).
  destruct (same_pos_cells a1 b' Hsp) as [Hcell _].
  intros sq. rewrite Hcell. revert sq.
  change (interior a1).
  match type of Happ with
  | apply_move T ?ba _ ?side = _ =>
      apply (apply_move_interior b ba a1 m side Hs); try assumption;
        [pos_tac | intros _; exact Hto]
  end.
Qed.

(** ** What the FEN constructor builds *)

Lemma Board_of_fen_core (fen : list ascii) (b : Board) :
  Board_of_fen T fen = Some b ->
  exists s sq b1,
    parse_placement fen A8 blank_board = Some (s, sq, b1)
    /\ core b = core b1.
Proof.
  unfold Board_of_fen. intros H.
  destruct (parse_placement fen A8 blank_board)
    as [[[s sq] b1]|] eqn:Hp; [|discriminate].
  exists s, sq, b1. split; [reflexivity|].
  monad_inv H; reflexivity.
Qed.

Lemma clear_cells_cells (pieces pieces' : list Z) (sq : Z) (n : nat) :
  clear_cells pieces sq n = Some pieces' ->
  forall i x, pieces' !! i = Some x ->
              x = INVALID_PIECE \/ pieces !! i = Some x.
Proof.
  revert pieces sq. induction n as [|n IH]; intros pieces sq H i x Hx;
    simpl in H.
  - injection H as <-. right. exact Hx.
  - destruct (sub pieces sq) as [old|] eqn:Hsub; [|discriminate].
    apply sub_Some in Hsub as (_ & Hlt & _).
    destruct (IH _ _ H i x Hx) as [He | Hl]; [left; exact He|].
    destruct (Nat.eq_dec i (Z.to_nat sq)) as [-> | Hne].
    + rewrite list_lookup_insert_eq in Hl by exact Hlt.
      left. congruence.
    + rewrite list_lookup_insert_ne in Hl by congruence. right. exact Hl.
Qed.

(** The parser puts pieces on playing squares only, and keeps the
    sizes of the arrays. *)
Lemma parse_placement_inside (s s' : list ascii) (sq sq' : Z)
    (b b' : Board) :
  parse_placement s sq b = Some (s', sq', b') ->
  sized b ->
  (forall i x, m_pieces b !! i = Some x -> x <> INVALID_PIECE ->
               valid_square (Z.of_nat i) = true) ->
  sized b'
  /\ forall i x, m_pieces b' !! i = Some x -> x <> INVALID_PIECE ->
                 valid_square (Z.of_nat i) = true.
Proof.
  revert sq b. induction s as [|c s IH]; intros sq b H Hsz Hin;
    simpl in H; [discriminate|].
  destruct (is_char c " "); [injection H as _ _ <-; auto|].
  destruct (is_char c "/").
  { destruct (sq mod 10 =? 9); [|discriminate]. exact (IH _ _ H Hsz Hin). }
  destruct Hsz as (Hlen & Hpl & Hll & Hnl).
  destruct ((code "1" <=? code c) && (code c <=? code "8")).
  { destruct (clear_cells _ _ _) as [pieces|] eqn:Hc; [|discriminate].
    destruct (row_end_or_valid _); [|discriminate].
    apply IH in H; [exact H | |].
    - split; [|auto]. cbn. rewrite (clear_cells_length _ _ _ _ Hc).
      exact Hlen.
    - cbn. intros i x Hx Hne.
      destruct (clear_cells_cells _ _ _ _ Hc i x Hx) as [He | Hl];
        [contradiction|]. exact (Hin i x Hl Hne). }
  destruct (valid_square sq) eqn:Hv; [|discriminate].
  destruct (valid_piece (piece_from_char c)); [|discriminate].
  destruct (sub (m_positions b) _) as [piece_list|] eqn:Hpos;
    [|discriminate].
  destruct (sub (m_num_pieces b) _) as [num|]; [|discriminate].
  destruct (_ <? MAX_PIECE_FREQ)%nat; [|discriminate].
  destruct (_ <? length _)%nat; [|discriminate].
  destruct (row_end_or_valid _); [|discriminate].
  apply sub_Some in Hpos as (_ & _ & Hpos).
  apply IH in H; [exact H | |].
  - unfold sized. cbn [m_pieces m_positions m_num_pieces].
    rewrite !length_insert.
    split; [exact Hlen|]. split; [exact Hpl|]. split; [|exact Hnl].
    apply Forall_insert; [exact Hll|]. rewrite length_insert.
    rewrite Forall_lookup in Hll. exact (Hll _ _ Hpos).
  - cbn [m_pieces]. intros i x Hx Hne.
    destruct (Nat.eq_dec i (Z.to_nat sq)) as [-> | Hni].
    + replace (Z.of_nat (Z.to_nat sq)) with sq; [exact Hv|].
      unfold valid_square in Hv. apply andb_prop in Hv as [Hv _].
      apply andb_prop in Hv as [Hv _]. apply andb_prop in Hv as [Hv _].
      apply Z.leb_le in Hv. lia.
    + rewrite list_lookup_insert_ne in Hx by congruence.
      exact (Hin i x Hx Hne).
Qed.

Lemma parsed_inside (fen : list ascii) (b : Board) :
  Board_of_fen T fen = Some b -> sized b /\ interior b.
Proof.
  intros H. apply Board_of_fen_core in H as (s & sq & b1 & Hp & Hcore).
  unfold core in Hcore. injection Hcore as Hpieces Hpos Hnum.
  apply parse_placement_inside in Hp as [Hsz Hin].
  - split.
    + unfold sized. rewrite Hpieces, Hpos, Hnum. exact Hsz.
    + intros sq0 Hne. unfold piece_at in Hne. rewrite Hpieces in Hne.
      destruct (sq0 <? 0) eqn:E; [contradiction|]. apply Z.ltb_ge in E.
      destruct (m_pieces b1 !! Z.to_nat sq0) as [x|] eqn:Hx.
      * rewrite nth_lookup, Hx in Hne. cbn in Hne.
        replace sq0 with (Z.of_nat (Z.to_nat sq0)) by lia.
        exact (Hin _ _ Hx Hne).
      * rewrite nth_lookup, Hx in Hne. contradiction.
  - unfold sized, blank_board. cbn [m_pieces m_positions m_num_pieces].
    rewrite !repeat_length. repeat split.
    apply Forall_forall. intros l Hl. apply list_elem_of_In in Hl.
    apply repeat_spec in Hl. subst l. apply repeat_length.
  - intros i x Hx Hne. unfold blank_board in Hx. cbn [m_pieces] in Hx.
    apply list_elem_of_lookup_2, list_elem_of_In, repeat_spec in Hx.
    contradiction.
Qed.

(** X12. The board the FEN constructor builds has its arrays at
    their sizes and holds pieces on playing squares only, whatever
    the string. *)
Theorem Board_of_fen_inside (fen : list ascii) (b : Board) :
  Board_of_fen T fen = Some b -> sized b /\ interior b.
Proof.
  exact (parsed_inside fen b).
Qed.

(** ** The contract of [unmake_move] *)

(** X13. [unmake_move] returns only on a board with a history entry
    and a positive ply counter; it pops that entry, puts back the
    castle state, the en-passant target, the half-move clock and the
    hash recorded in it, counts the ply down, gives the move back to
    the other side and leaves the move cache alone. *)
Theorem unmake_move_contract (b b' : Board) :
  unmake_move T b = Some b' ->
  exists entry,
    m_history b = entry :: m_history b'
    /\ 0 < m_half_move b
    /\ m_half_move b' = m_half_move b - 1
    /\ m_next_move_colour b' = negb (m_next_move_colour b)
    /\ m_castle_state b' = h_castle_state entry
    /\ m_en_passant b' = h_en_passant entry
    /\ m_fifty_move b' = h_fifty_move entry
    /\ m_hash b' = h_hash entry
    /\ m_move_cache b' = m_move_cache b.
Proof.
  intros H.
  destruct (unmake_move_inv _ _ H)
    as (entry & rest & bX & Hh & Hpos & _ & HcolX & HcasX & HepX & HfifX
        & HhalfX & HhistX & HcacheX & Hunapp & Hhash).
  destruct (unapply_move_frame _ _ _ Hunapp)
    as (Hcol & Hcas & Hep & Hfif & Hhalf & Hhist & Hcache).
  exists entry. rewrite Hhist, HhistX, Hhalf, HhalfX, Hcol, HcolX, Hcas,
    HcasX, Hep, HepX, Hfif, HfifX, Hcache, HcacheX.
  auto 10.
Qed.

(** ** The contract of [make_move] *)

(** Where a ray walk stops. *)
Lemma ray_walk_stop (b : Board) (offset : Z) (n : nat) :
  forall cur,
  exists j,
    (j <= n)%nat
    /\ ray_walk n b cur offset = cur + Z.of_nat j * offset
    /\ (forall i, (i < j)%nat ->
          valid_square (cur + Z.of_nat i * offset)
          && (piece_at b (cur + Z.of_nat i * offset) =? INVALID_PIECE)
          = true)
    /\ ((j < n)%nat ->
        valid_square (cur + Z.of_nat j * offset)
        && (piece_at b (cur + Z.of_nat j * offset) =? INVALID_PIECE)
        = false).
Proof.
  induction n as [|n IH]; intros cur.
  - exists 0%nat. split; [lia|]. split; [simpl; lia|].
    split; intros; lia.
  - cbn [ray_walk].
    destruct (valid_square cur && (piece_at b cur =? INVALID_PIECE))
      eqn:Ec.
    + destruct (IH (cur + offset)) as (j & Hj & Hstop & Hrun & Hend).
      exists (S j). split; [lia|]. split; [rewrite Hstop; lia|]. split.
      * intros [|i] Hi.
        -- replace (cur + Z.of_nat 0 * offset) with cur by lia. exact Ec.
        -- replace (cur + Z.of_nat (S i) * offset)
             with (cur + offset + Z.of_nat i * offset) by lia.
           apply Hrun. lia.
      * intros Hlt.
        replace (cur + Z.of_nat (S j) * offset)
          with (cur + offset + Z.of_nat j * offset) by lia.
        apply Hend. lia.
    + exists 0%nat. split; [lia|]. split; [lia|]. split; [intros; lia|].
      intros _. replace (cur + Z.of_nat 0 * offset) with cur by lia.
      exact Ec.
Qed.

Lemma run_valid_all (offset : Z) (n : nat) :
  forall cur,
    (forall i, (i <= n)%nat ->
               valid_square (cur + Z.of_nat i * offset) = true) ->
    run_valid n cur offset = true.
Proof.
  induction n as [|n IH]; intros cur H.
  - simpl. specialize (H 0%nat ltac:(lia)).
    replace (cur + Z.of_nat 0 * offset) with cur in H by lia. exact H.
  - cbn [run_valid]. apply andb_true_intro. split.
    + specialize (H 0%nat ltac:(lia)).
      replace (cur + Z.of_nat 0 * offset) with cur in H by lia. exact H.
    + apply IH. intros i Hi. specialize (H (S i) ltac:(lia)).
      replace (cur + Z.of_nat (S i) * offset)
        with (cur + offset + Z.of_nat i * offset) in H by lia.
      exact H.
Qed.

(** The ray test of the code and the ray of the specification. *)
Lemma ray_hit_reaches (b : Board) (sq : Z) (side : bool)
    (capable : Z -> bool) (offset : Z) :
  In offset queen_offsets ->
  (forall p, capable p = true -> valid_piece p = true) ->
  ray_hit b sq side capable offset = ray_reaches b sq side capable offset.
Proof.
  intros Ho Hcap.
  destruct (ray_walk_stop b offset RAY_FUEL (sq + offset))
    as (j & Hj & Hstop & Hrun & Hend).
  assert (Hsq : forall i : nat,
            sq + offset + Z.of_nat i * offset
            = sq + Z.of_nat (S i) * offset) by (intros i; lia).
  rewrite Hsq in Hstop.
  apply eq_true_iff_eq. unfold ray_hit, ray_reaches. cbv zeta.
  rewrite Hstop, existsb_exists. split.
  - intros H. apply andb_prop in H as [H Hc]. apply andb_prop in H as [Hv Hs].
    assert (Hj7 : (j < RAY_FUEL)%nat).
    { destruct (Nat.eq_dec j RAY_FUEL) as [-> | Hne]; [exfalso|lia].
      pose proof (no_nine_in_line sq offset Ho) as Hnine.
      rewrite run_valid_all in Hnine; [discriminate|].
      intros i Hi. rewrite Hsq.
      destruct (Nat.eq_dec i RAY_FUEL) as [-> | Hni]; [exact Hv|].
      specialize (Hrun i ltac:(lia)). rewrite Hsq in Hrun.
      apply andb_prop in Hrun as [Hrun _]. exact Hrun. }
    exists (S j). split; [apply in_seq; unfold RAY_FUEL in Hj7; lia|].
    rewrite Hv, Hs, Hc, (Hcap _ Hc), !andb_true_r.
    unfold ray_clear. apply forallb_forall. intros i Hi. apply in_seq in Hi.
    destruct i as [|i]; [lia|]. rewrite <- Hsq. apply Hrun. lia.
  - intros (k & Hk & H). apply in_seq in Hk.
    apply andb_prop in H as [H Hc]. apply andb_prop in H as [H Hs].
    apply andb_prop in H as [H Hp]. apply andb_prop in H as [Hclear Hv].
    unfold ray_clear in Hclear. rewrite forallb_forall in Hclear.
    assert (Hjk : S j = k).
    { destruct (Nat.lt_trichotomy (S j) k) as [Hlt | [Heq | Hgt]];
        [exfalso | exact Heq | exfalso].
      - specialize (Hclear (S j)). rewrite <- Hsq in Hclear.
        rewrite Hend in Hclear by (unfold RAY_FUEL; lia).
        specialize (Hclear ltac:(apply in_seq; lia)). discriminate.
      - destruct k as [|k]; [lia|].
        specialize (Hrun k ltac:(lia)). rewrite Hsq in Hrun.
        apply andb_prop in Hrun as [_ Hrun]. apply Z.eqb_eq in Hrun.
        rewrite Hrun in Hp. discriminate Hp. }
    subst k. rewrite Hv, Hs, Hc. reflexivity.
Qed.

Lemma attack_scan_in_words (b : Board) (sq : Z) (side : bool) :
  attack_scan b sq side = attacked_by b sq side.
Proof.
  rewrite attack_scan_as_specified.
  unfold attacked_as_specified, attacked_by.
  assert (Hd : forall p, is_diag p = true -> valid_piece p = true)
    by (intros p H; apply andb_prop in H as [H _]; exact H).
  assert (Ho : forall p, is_ortho p = true -> valid_piece p = true)
    by (intros p H; apply andb_prop in H as [H _]; exact H).
  unfold diagonal_offsets, orthogonal_offsets. cbn [existsb].
  rewrite !ray_hit_reaches
    by (try assumption; unfold queen_offsets; simpl; tauto).
  reflexivity.
Qed.

(** The mailbox [apply_move] leaves. *)
Lemma apply_move_cells (b ba a1 : Board) (m : move_t) (side : bool) :
  synced b -> same_pos b ba ->
  apply_move T ba m side = Some a1 ->
  forall s, piece_at a1 s = cells_after b side m s.
Proof.
  intros Hs Hsp Ha.
  destruct (same_pos_cells b ba Hsp) as [Hcba _].
  destruct m as [from to moved captured promoted flag].
  unfold apply_move, make_castle, move_promoted, move_castled, move_captured
    in Ha.
  unfold cells_after, castled_cells.
  unfold E1, G1, H1, F1, C1, A1, D1, E8, G8, H8, F8, C8, A8, D8 in *.
  cbn [move_flag move_from move_to moved_piece captured_piece
       promoted_piece] in *.
  destruct flag; cbn [flag_eqb orb] in Ha;
    destruct side; cbn [Bool.eqb WHITE] in Ha;
    monad_inv Ha; inv_prims; track.
  all: exfalso;
    repeat match goal with
           | H : _ /\ _ |- _ => destruct H
           end;
    match goal with
    | Hv : valid_piece (piece_at ?bk ?x) = true,
      Hc : forall s, piece_at ?bk s = _ |- _ =>
        rewrite Hc, ?Z.eqb_refl in Hv; discriminate Hv
    end.
Qed.

Lemma make_move_fifty_exact (b b' : Board) (m : move_t) (v : bool) :
  make_move T b m = Some (b', v) ->
  m_fifty_move b' = fifty_move_after b m.
Proof.
  unfold make_move. cbv zeta.
  destruct (apply_move T _ m (m_next_move_colour b)) as [a1|] eqn:Happ;
    [|discriminate].
  apply apply_move_game in Happ. destruct Happ as (_ & Hfif & _).
  set (fifty := if move_captured m || is_pawn (moved_piece m) then 0
                else wrap32 (m_fifty_move a1 + 1)).
  replace (if move_captured m || is_pawn (moved_piece m)
           then with_fifty_move a1 0
           else with_fifty_move a1 (wrap32 (m_fifty_move a1 + 1)))
    with (with_fifty_move a1 fifty)
    by (unfold fifty; destruct (move_captured m || is_pawn (moved_piece m));
        reflexivity).
  destruct (square_attacked _ _ _); [|discriminate].
  intros H. injection H as <- _.
  change (fifty = fifty_move_after b m). unfold fifty, fifty_move_after.
  rewrite Hfif. reflexivity.
Qed.


(** ** What the move cache keeps *)

(** An entry of the cache stays as it is: [make_move] and
    [unmake_move] leave the cache alone, and [pseudo_moves] stores
    only under a hash that has no entry. *)
Lemma cache_entry_kept (b0 b : Board) (h : Z) (l : list move_t) :
  played T b0 b ->
  m_move_cache b0 !! h = Some l -> m_move_cache b !! h = Some l.
Proof.
  intros Hp Hl.
  induction Hp as [|b b' move valid _ IH H | b b' _ IH H
                  | b b' sd l' _ IH H].
  - exact Hl.
  - destruct (make_move_inv _ _ _ _ H)
      as (_ & _ & _ & _ & _ & _ & _ & _ & _ & Hcache & _).
    rewrite Hcache. exact IH.
  - destruct (unmake_move_inv _ _ H)
      as (entry & rest & bX & _ & _ & _ & _ & _ & _ & _ & _ & _ & HcX
          & Hun & _).
    destruct (unapply_move_frame _ _ _ Hun) as (_ & _ & _ & _ & _ & _ & Hc).
    rewrite Hc, HcX. exact IH.
  - unfold pseudo_moves in H.
    destruct (m_move_cache b !! m_hash b) as [cached|] eqn:Ec.
    { injection H as _ <-. exact IH. }
    destruct ((m_half_move b >? 1000) || (m_fifty_move b >? 75)).
    { injection H as _ <-. exact IH. }
    destruct (generate_moves b _) as [result|]; [|discriminate].
    destruct (length result <=? MAX_POSITION_MOVES)%nat; [|discriminate].
    injection H as _ <-. cbn [m_move_cache with_move_cache].
    rewrite lookup_insert_ne; [exact IH|].
    intros <-. congruence.
Qed.

(** X14. The list that [pseudo_moves] stores on a cache miss below
    the draw cut-off is the list later calls return on the same board
    object whenever the hash is the same again; and it is the list a
    computation from scratch gives there, provided the later board
    has the same mailbox, piece lists, castle state and en-passant
    target, is generated for the same side and is below the cut-off
    too. *)
Theorem stored_moves_from_scratch (b0 b1 b : Board)
    (side0 side : option bool) (l : list move_t) :
  m_move_cache b0 !! m_hash b0 = None ->
  below_draw_cut_off b0 ->
  pseudo_moves b0 side0 = Some (l, b1) ->
  played T b1 b ->
  m_hash b = m_hash b0 ->
  returned_moves b side = Some l
  /\ (same_position b0 b ->
      generating_side b0 side0 = generating_side b side ->
      below_draw_cut_off b ->
      moves_from_scratch b side = Some l).
Proof.
  intros Hmiss Hcut Hpm Hplayed Hhash.
  rewrite (pseudo_moves_miss b0 side0 Hmiss Hcut) in Hpm.
  destruct (generate_moves b0 (generating_side b0 side0)) as [result|]
    eqn:Hgen; [|discriminate].
  cbv beta iota in Hpm.
  destruct (length result <=? MAX_POSITION_MOVES)%nat eqn:Hlen;
    [|discriminate].
  injection Hpm as <- <-.
  assert (Hstored : m_move_cache b !! m_hash b = Some result).
  { rewrite Hhash. apply (cache_entry_kept _ _ _ _ Hplayed).
    cbn [m_move_cache with_move_cache]. apply lookup_insert_eq. }
  split.
  - unfold returned_moves. rewrite (pseudo_moves_cache_hit _ _ _ Hstored).
    reflexivity.
  - intros Hpos Hside Hcutb.
    rewrite moves_from_scratch_eq by exact Hcutb.
    rewrite <- Hside, (generate_moves_same_position b0 b) by exact Hpos.
    rewrite Hgen. cbv beta iota. rewrite Hlen. reflexivity.
Qed.

End Verification.

Lemma start_board_synced : synced start_board.
Proof. apply syncedb_sound. vm_compute. reflexivity. Qed.


(** A rook takes a rook on its home corner: the rights of the side
    that lost the rook stay as they were. *)
Lemma make_move_castle_rights_witness :
  let b := sample_board "r3k3/8/8/8/8/8/8/R3K3 w Qq - 0 1" in
  let move := capture_move A1 A8 WHITE_ROOK BLACK_ROOK in
  is_pseudo_move b move = true
  /\ m_castle_state b = Z.lor WHITE_LONG BLACK_LONG
  /\ m_castle_state (after_move b move) = BLACK_LONG
  /\ Z.land (m_castle_state (after_move b move)) (rights_of BLACK)
     = Z.land (m_castle_state b) (rights_of BLACK).
Proof.
  intros b move.
  assert (H : make_move sample_tables b move
              = Some (after_move b move, verdict b move))
    by (vm_compute; reflexivity).
  pose proof (make_move_castle_rights sample_tables _ _ _ _ H) as [Hs Hk].
  split; [vm_compute; reflexivity|].
  split; [vm_compute; reflexivity|].
  split; [rewrite Hs; vm_compute; reflexivity|].
  apply Hk; vm_compute; reflexivity.
Defined.

(** A white rook standing on h8 takes the rook on a8: black loses the
    short right, although the claim has the opponent's rights
    unchanged by the capture of a rook on its home corner. *)
Lemma capture_from_home_square_strips_rights :
  let b := sample_board "r6R/8/8/8/8/8/k7/4K3 w kq - 0 1" in
  let move := capture_move H8 A8 WHITE_ROOK BLACK_ROOK in
  is_pseudo_move b move = true
  /\ piece_at b A8 = BLACK_ROOK
  /\ m_next_move_colour b = WHITE
  /\ make_move sample_tables b move
     = Some (after_move b move, verdict b move)
  /\ Z.land (m_castle_state b) (rights_of BLACK)
     = Z.lor BLACK_LONG BLACK_SHORT
  /\ Z.land (m_castle_state (after_move b move)) (rights_of BLACK)
     = BLACK_LONG.
Proof. vm_compute. repeat split; reflexivity. Qed.

Lemma sample_tables_invalid (sq : Z) :
  piece_hash sample_tables sq INVALID_PIECE = 0.
Proof. simpl. rewrite andb_false_r. reflexivity. Qed.

(** The hash after 1. e4 from the starting position. *)
Lemma stored_hash_is_recomputed_witness :
  let b := after_move start_board (double_move E2 E4 WHITE_PAWN) in
  reachable sample_tables b
  /\ m_hash b = compute_hash sample_tables b
  /\ m_hash b = zobrist sample_tables b.
Proof.
  intros b.
  assert (Hr : reachable sample_tables b).
  { apply (reach_make sample_tables start_board b
             (double_move E2 E4 WHITE_PAWN) true).
    - apply (reach_fen sample_tables
               (list_ascii_of_string
                  "rnbqkbnr/pppppppp/8/8/8/8/PPPPPPPP/RNBQKBNR w KQkq - 0 1")).
      vm_compute. reflexivity.
    - vm_compute. reflexivity. }
  split; [exact Hr|].
  exact (stored_hash_is_recomputed sample_tables b sample_tables_invalid Hr).
Defined.

(** C4, at the failing input.  The starting position, [pseudo_moves]
    called once, then nineteen knight tours on the same board: the
    fifty-move counter stands at 76, above the cut-off, and
    [pseudo_moves] returns the twenty cached opening moves instead of
    the empty list. *)
Theorem pseudo_moves_past_draw_cut_off :
  play start_cached (concat (repeat knight_tour 19))
  = Some start_after_tours
  /\ m_fifty_move start_after_tours = 76
  /\ m_hash start_after_tours = m_hash start_board
  /\ exists l, pseudo_moves start_after_tours None
               = Some (l, start_after_tours)
               /\ length l = 20%nat.
Proof.
  split; [vm_compute; reflexivity|].
  split; [vm_compute; reflexivity|].
  split; [vm_compute; reflexivity|].
  eexists. split; [vm_compute; reflexivity|]. reflexivity.
Qed.

(** C6, at the failing input.  After 1. e4 from the starting position
    [make_move] leaves the en-passant target on e3 although no black
    pawn stands next to it (nor next to the pawn on e4); the FEN
    constructor, given the rendering of that very board, elides the
    target. *)
Theorem make_move_keeps_unusable_en_passant :
  let b := after_move start_board (double_move E2 E4 WHITE_PAWN) in
  make_move sample_tables start_board (double_move E2 E4 WHITE_PAWN)
  = Some (b, true)
  /\ m_next_move_colour b = BLACK
  /\ m_en_passant b = E3
  /\ piece_at b D3 <> BLACK_PAWN /\ piece_at b F3 <> BLACK_PAWN
  /\ piece_at b D4 <> BLACK_PAWN /\ piece_at b F4 <> BLACK_PAWN
  /\ option_map string_of_list_ascii (fen b)
     = Some "rnbqkbnr/pppppppp/8/8/4P3/8/PPPP1PPP/RNBQKBNR b KQkq e3 0 1"%string
  /\ option_map m_en_passant
       (match fen b with
        | Some s => Board_of_fen sample_tables s
        | None => None
        end)
     = Some INVALID_SQUARE.
Proof. vm_compute. repeat split; discriminate. Qed.

(** ** The move cache *)

(** C3, at the failing input.  The first call of [pseudo_moves] on
    the starting position misses the cache and stores its twenty
    moves under the hash of the position (line 566).  Nineteen knight
    tours later the same board has the same hash and a fifty-move
    counter of 76: [pseudo_moves] returns the stored list, while the
    list computed from scratch for that board is empty. *)
Theorem cached_moves_differ_from_scratch :
  m_move_cache start_board !! m_hash start_board = None
  /\ pseudo_moves start_board None
     = Some (pseudo_list start_board, start_cached)
  /\ m_move_cache start_cached !! m_hash start_board
     = Some (pseudo_list start_board)
  /\ length (pseudo_list start_board) = 20%nat
  /\ play start_cached (concat (repeat knight_tour 19))
     = Some start_after_tours
  /\ m_hash start_after_tours = m_hash start_board
  /\ m_fifty_move start_after_tours = 76
  /\ returned_moves start_after_tours None
     = Some (pseudo_list start_board)
  /\ moves_from_scratch start_after_tours None = Some [].
Proof. vm_compute. repeat split; reflexivity. Qed.

(** White may castle short with a clear e- and f-file. *)
Lemma castle_move_preconditions_witness :
  let b := sample_board "4k3/8/8/8/8/8/8/4K2R w K - 0 1" in
  let m := castle_move E1 G1 WHITE_KING SHORT_CASTLE_MOVE in
  is_pseudo_move b m = true /\ castle_conditions b WHITE m.
Proof.
  intros b m. split; [vm_compute; reflexivity|].
  assert (Hp : exists l b', pseudo_moves b None = Some (l, b') /\ In m l).
  { eexists. eexists. split; [vm_compute; reflexivity|].
    simpl. repeat (first [left; reflexivity | right]). }
  destruct Hp as (l & b' & Hp & Hin).
  apply (castle_move_preconditions b b' None l m);
    [vm_compute; reflexivity | exact Hp | exact Hin | reflexivity].
Defined.

(** With a black rook on the open g-file the king's destination g1 is
    attacked, and short castling is generated all the same. *)
Lemma castle_into_attacked_square_generated :
  let b := sample_board "4k1r1/8/8/8/8/8/8/4K2R w K - 0 1" in
  is_pseudo_move b (castle_move E1 G1 WHITE_KING SHORT_CASTLE_MOVE) = true
  /\ square_attacked b G1 BLACK = Some true.
Proof. vm_compute. split; reflexivity. Qed.

Lemma passant_board_valid : valid_position sample_tables passant_board.
Proof.
  unfold valid_position.
  repeat split; try (vm_compute; reflexivity); vm_compute; discriminate.
Qed.


Lemma pawn_board_playable : playable pawn_board.
Proof.
  unfold playable. split; [apply syncedb_sound; vm_compute; reflexivity|].
  repeat split; vm_compute; (reflexivity || discriminate).
Qed.

(** The pawn on e4 takes on d5 and the move is taken back. *)
Lemma make_unmake_restores_witness :
  let move := capture_move E4 D5 WHITE_PAWN BLACK_PAWN in
  exists b1 valid b2,
    make_move sample_tables (cached pawn_board) move = Some (b1, valid)
    /\ unmake_move sample_tables b1 = Some b2
    /\ restored (cached pawn_board) b2.
Proof.
  intros move.
  apply (make_unmake_restores sample_tables pawn_board (cached pawn_board)
           (pseudo_list pawn_board) move).
  - exact pawn_board_playable.
  - vm_compute. reflexivity.
  - vm_compute. reflexivity.
  - vm_compute. repeat (try (left; reflexivity); right).
  - intros H. discriminate H.
Defined.

(** The same capture and its undoing leave the two black pawns in the
    other order in their list: [remove_piece] swaps the taken pawn to
    the end of the live part, [add_piece] appends it there. *)
Lemma make_unmake_reorders_piece_list :
  let move := capture_move E4 D5 WHITE_PAWN BLACK_PAWN in
  is_pseudo_move pawn_board move = true
  /\ piece_list pawn_board BLACK_PAWN = [D5; H5]
  /\ option_map (fun b => piece_list b BLACK_PAWN)
       (make_unmake pawn_board move) = Some [H5; D5]
  /\ option_map m_positions (make_unmake pawn_board move)
     <> Some (m_positions pawn_board).
Proof.
  vm_compute. repeat split; discriminate.
Qed.

(** ** Sample positions: sync, validation and landing squares *)

Lemma start_board_parsed :
  Board_of_fen sample_tables
    (list_ascii_of_string
       "rnbqkbnr/pppppppp/8/8/8/8/PPPPPPPP/RNBQKBNR w KQkq - 0 1")
  = Some start_board.
Proof. vm_compute. reflexivity. Qed.

Lemma pawn_board_parsed :
  Board_of_fen sample_tables
    (list_ascii_of_string "4k3/8/8/3p3p/4P3/8/8/4K3 w - - 0 1")
  = Some pawn_board.
Proof. vm_compute. reflexivity. Qed.

Lemma pawn_board_synced : synced pawn_board.
Proof. apply syncedb_sound. vm_compute. reflexivity. Qed.

Lemma pawn_board_inside : interior pawn_board.
Proof. exact (proj2 (parsed_inside sample_tables _ _ pawn_board_parsed)). Qed.

Lemma pawn_board_miss :
  m_move_cache pawn_board !! m_hash pawn_board = None.
Proof. vm_compute. reflexivity. Qed.

Lemma pawn_board_pseudo_moves :
  pseudo_moves pawn_board None
  = Some (pseudo_list pawn_board, cached pawn_board).
Proof. vm_compute. reflexivity. Qed.

Lemma pawn_takes_generated :
  In (capture_move E4 D5 WHITE_PAWN BLACK_PAWN) (pseudo_list pawn_board).
Proof. vm_compute. repeat (try (left; reflexivity); right). Qed.

(** The board after the pawn on e4 has taken on d5 is in sync. *)
Lemma moves_keep_synced_witness :
  let move := capture_move E4 D5 WHITE_PAWN BLACK_PAWN in
  synced (after_move pawn_board move).
Proof.
  intros move.
  apply (proj1 (moves_keep_synced sample_tables pawn_board pawn_board_synced)
           move (after_move pawn_board move) (verdict pawn_board move)).
  vm_compute. reflexivity.
Defined.

(** The pawn steps from e4 to e5 and back: the board is the same. *)
Lemma make_unmake_exact_witness :
  let move := quiet_move E4 65 WHITE_PAWN in
  board_or_blank (make_unmake pawn_board move) = pawn_board.
Proof.
  intros move.
  apply (make_unmake_exact sample_tables pawn_board
           (after_move pawn_board move) _ move (verdict pawn_board move)).
  - exact pawn_board_synced.
  - vm_compute. split; [discriminate | reflexivity].
  - reflexivity.
  - reflexivity.
  - vm_compute. reflexivity.
  - vm_compute. reflexivity.
Defined.

(** The capture e4xd5 among the pseudo-moves of the sample position. *)
Lemma pseudo_moves_shape_witness :
  let move := capture_move E4 D5 WHITE_PAWN BLACK_PAWN in
  move_shape (generating_side pawn_board None) move.
Proof.
  intros move.
  apply (pseudo_moves_shape pawn_board (cached pawn_board) None
           (pseudo_list pawn_board) move).
  - exact pawn_board_miss.
  - exact pawn_board_pseudo_moves.
  - exact pawn_takes_generated.
Defined.

(** The legal moves of the sample position. *)
Lemma legal_moves_accepted_witness :
  legal_moves sample_tables pawn_board
  = Some (List.filter (accepted sample_tables (cached pawn_board))
            (pseudo_list pawn_board)).
Proof.
  apply (legal_moves_accepted sample_tables pawn_board (cached pawn_board)
           (pseudo_list pawn_board)).
  - exact pawn_board_playable.
  - exact pawn_board_miss.
  - exact pawn_board_pseudo_moves.
  - intros m Hin Hp. exfalso. vm_compute in Hin.
    repeat (destruct Hin as [<- | Hin]; [vm_compute in Hp; discriminate Hp|]).
    exact Hin.
Defined.

(** White still has the right to castle short after 1. e4, so had it
    before. *)
Lemma make_move_never_grants_castling_witness :
  let move := double_move E2 E4 WHITE_PAWN in
  Z.testbit (m_castle_state start_board) 0 = true.
Proof.
  intros move.
  apply (make_move_never_grants_castling sample_tables start_board
           (after_move start_board move) move (verdict start_board move) 0).
  - vm_compute. reflexivity.
  - vm_compute. reflexivity.
Defined.

(** The counters of the starting position. *)
Lemma reachable_counters_witness :
  0 <= m_castle_state start_board < 16
  /\ 0 <= m_fifty_move start_board < 2 ^ 32
  /\ 0 <= m_half_move start_board < 2 ^ 32
  /\ m_half_move start_board mod 2
     = (if m_next_move_colour start_board then 1 else 0).
Proof.
  apply (reachable_counters sample_tables start_board).
  exact (reach_fen sample_tables _ _ start_board_parsed).
Defined.

(** Validation of the starting position. *)
Lemma validate_board_spec_witness :
  validate_board start_board = Some tt <-> valid_board start_board.
Proof.
  apply (validate_board_spec start_board).
  exact (proj1 (parsed_inside sample_tables _ _ start_board_parsed)).
Defined.

(** The capture e4xd5 lands on a playing square. *)
Lemma pseudo_moves_land_inside_witness :
  let move := capture_move E4 D5 WHITE_PAWN BLACK_PAWN in
  valid_square (move_to move) = true.
Proof.
  intros move.
  apply (pseudo_moves_land_inside pawn_board (cached pawn_board) None
           (pseudo_list pawn_board) move).
  - exact pawn_board_synced.
  - exact pawn_board_inside.
  - vm_compute. reflexivity.
  - exact pawn_board_miss.
  - exact pawn_board_pseudo_moves.
  - exact pawn_takes_generated.
Defined.

(** The board after e4xd5 passes validation. *)
Lemma made_move_validates_witness :
  let move := capture_move E4 D5 WHITE_PAWN BLACK_PAWN in
  validate_board (after_move (cached pawn_board) move) = Some tt.
Proof.
  intros move.
  apply (made_move_validates sample_tables pawn_board (cached pawn_board)
           (after_move (cached pawn_board) move) (pseudo_list pawn_board)
           move).
  - exact pawn_board_playable.
  - exact pawn_board_inside.
  - vm_compute. split; [discriminate | reflexivity].
  - exact pawn_board_miss.
  - exact pawn_board_pseudo_moves.
  - exact pawn_takes_generated.
  - intros Hp. discriminate Hp.
  - vm_compute. reflexivity.
Defined.

(** The board after e4xd5 has been taken back passes validation. *)
Lemma unmade_move_validates_witness :
  let move := capture_move E4 D5 WHITE_PAWN BLACK_PAWN in
  validate_board (board_or_blank (make_unmake (cached pawn_board) move))
  = Some tt.
Proof.
  intros move.
  apply (unmade_move_validates sample_tables pawn_board (cached pawn_board)
           (after_move (cached pawn_board) move) _ (pseudo_list pawn_board)
           move (verdict (cached pawn_board) move)).
  - exact pawn_board_playable.
  - vm_compute. reflexivity.
  - exact pawn_board_miss.
  - exact pawn_board_pseudo_moves.
  - exact pawn_takes_generated.
  - intros Hp. discriminate Hp.
  - vm_compute. reflexivity.
  - vm_compute. reflexivity.
Defined.

(** After e4xd5 the pieces still stand on playing squares. *)
Lemma made_move_stays_inside_witness :
  let move := capture_move E4 D5 WHITE_PAWN BLACK_PAWN in
  interior (after_move (cached pawn_board) move).
Proof.
  intros move.
  apply (made_move_stays_inside sample_tables pawn_board (cached pawn_board)
           (after_move (cached pawn_board) move) (pseudo_list pawn_board)
           move (verdict (cached pawn_board) move)).
  - exact pawn_board_synced.
  - exact pawn_board_inside.
  - vm_compute. reflexivity.
  - exact pawn_board_miss.
  - exact pawn_board_pseudo_moves.
  - exact pawn_takes_generated.
  - vm_compute. reflexivity.
Defined.

(** The starting position as the constructor builds it. *)
Lemma Board_of_fen_inside_witness :
  sized start_board /\ interior start_board.
Proof.
  exact (Board_of_fen_inside sample_tables _ _ start_board_parsed).
Defined.

(** Taking back 1. e4 pops the entry that [make_move] pushed. *)
Lemma unmake_move_contract_witness :
  let b1 := after_move start_board (double_move E2 E4 WHITE_PAWN) in
  let b2 := board_or_blank (unmake_move sample_tables b1) in
  exists entry,
    m_history b1 = entry :: m_history b2
    /\ 0 < m_half_move b1
    /\ m_half_move b2 = m_half_move b1 - 1
    /\ m_next_move_colour b2 = negb (m_next_move_colour b1)
    /\ m_castle_state b2 = h_castle_state entry
    /\ m_en_passant b2 = h_en_passant entry
    /\ m_fifty_move b2 = h_fifty_move entry
    /\ m_hash b2 = h_hash entry
    /\ m_move_cache b2 = m_move_cache b1.
Proof.
  intros b1 b2.
  apply (unmake_move_contract sample_tables b1 b2).
  vm_compute. reflexivity.
Defined.

(** One knight tour after the first call of [pseudo_moves] on the
    starting position: the stored list is returned, and it is the list
    computed from scratch. *)
Lemma stored_moves_from_scratch_witness :
  let t1 := after_move start_cached (quiet_move G1 F3 WHITE_KNIGHT) in
  let t2 := after_move t1 (quiet_move G8 F6 BLACK_KNIGHT) in
  let t3 := after_move t2 (quiet_move F3 G1 WHITE_KNIGHT) in
  let b := after_move t3 (quiet_move F6 G8 BLACK_KNIGHT) in
  m_fifty_move b = 4
  /\ returned_moves b None = Some (pseudo_list start_board)
  /\ moves_from_scratch b None = Some (pseudo_list start_board).
Proof.
  intros t1 t2 t3 b.
  assert (Hplayed : played sample_tables start_cached b).
  { apply (played_make sample_tables start_cached t3 b
             (quiet_move F6 G8 BLACK_KNIGHT) true);
      [|vm_compute; reflexivity].
    apply (played_make sample_tables start_cached t2 t3
             (quiet_move F3 G1 WHITE_KNIGHT) true);
      [|vm_compute; reflexivity].
    apply (played_make sample_tables start_cached t1 t2
             (quiet_move G8 F6 BLACK_KNIGHT) true);
      [|vm_compute; reflexivity].
    apply (played_make sample_tables start_cached start_cached t1
             (quiet_move G1 F3 WHITE_KNIGHT) true);
      [apply played_none | vm_compute; reflexivity]. }
  destruct (stored_moves_from_scratch sample_tables start_board start_cached
              b None None (pseudo_list start_board)) as [Hret Hscratch].
  - vm_compute. reflexivity.
  - vm_compute. split; discriminate.
  - vm_compute. reflexivity.
  - exact Hplayed.
  - vm_compute. reflexivity.
  - split; [vm_compute; reflexivity|]. split; [exact Hret|].
    apply Hscratch.
    + vm_compute. repeat split.
    + vm_compute. reflexivity.
    + vm_compute. split; discriminate.
Defined.
